(** * mashr: the numerical engine of [src/mash.h]

    A shallow embedding of the density functions, the likelihood matrix and the
    posterior engines ([PosteriorMASH], [PosteriorASH], [MVSERMix]) of
    [src/mash.h], and the properties the specification states about them.

    Conventions of the embedding.

    - The C++ type [double] is a type [num] with the operations of the class
      [Scalar].  Two instances are given: [binary64] (IEEE 754 double
      precision, Rocq's primitive floats) and [Rscalar] (exact real
      arithmetic).  Properties of the control flow and of the data flow are
      proved for every instance; properties that are facts of algebra are
      proved for the exact instance.
    - What the code takes from the C++ math library and from Armadillo/LAPACK
      and does not define itself is a class as well: [Libm] ([std::exp],
      [std::log], [erfc]), [Datum] ([arma::datum::inf]) and [Lapack] ([chol],
      [inv], [inv_sympd]).  A factorisation or an inversion that throws
      [std::runtime_error] returns [None].
    - [arma::vec], [arma::mat] and [arma::cube] are lists, column by column as
      Armadillo stores them.  Operands are taken to be conformant, as the
      specification requires of the caller; a read outside a matrix, which
      Armadillo does not define or rejects, yields [zero] here. *)

From Stdlib Require Uint63.
From Stdlib Require Import PrimFloat.
From Stdlib Require Import List Arith Lia Bool ZArith Reals Lra Psatz.
Import ListNotations.

(** ** Scalars *)

Declare Scope num_scope.
Delimit Scope num_scope with num.

Class Scalar (num : Type) : Type := {
  zero : num;                      (* 0.0 *)
  one : num;                       (* 1.0 *)
  two : num;                       (* 2.0 *)
  half : num;                      (* 0.5 *)
  eps6 : num;                      (* 1e-6 *)
  m_pi : num;                      (* M_PI *)
  m_sqrt1_2 : num;                 (* M_SQRT1_2 *)
  add : num -> num -> num;
  sub : num -> num -> num;
  mul : num -> num -> num;
  div : num -> num -> num;
  neg : num -> num;                (* unary minus *)
  fabs : num -> num;               (* std::abs *)
  fsqrt : num -> num;              (* std::sqrt *)
  ltb : num -> num -> bool;        (* < *)
  eqb : num -> num -> bool;        (* == *)
  of_nat : nat -> num              (* static_cast<double> of an unsigned *)
}.

Infix "+" := add : num_scope.
Infix "-" := sub : num_scope.
Infix "*" := mul : num_scope.
Infix "/" := div : num_scope.
Notation "- x" := (neg x) : num_scope.
Infix "<?" := ltb : num_scope.
Infix "==?" := eqb (at level 70) : num_scope.

(** The functions of the C++ math library the code calls. *)
Class Libm (num : Type) : Type := {
  fexp : num -> num;               (* std::exp, arma::exp *)
  flog : num -> num;               (* std::log, arma::log *)
  ferfc : num -> num               (* arma::erfc *)
}.

(** Armadillo's constant for infinity. *)
Class Datum (num : Type) : Type := {
  datum_inf : num                  (* arma::datum::inf *)
}.

(** IEEE 754 binary64. *)
#[export] Instance binary64 : Scalar float := {|
  zero := 0%float;
  one := 1%float;
  two := 2%float;
  half := 0.5%float;
  eps6 := 0x1.0c6f7a0b5ed8dp-20%float;
  m_pi := 0x1.921fb54442d18p+1%float;
  m_sqrt1_2 := 0x1.6a09e667f3bcdp-1%float;
  add := PrimFloat.add;
  sub := PrimFloat.sub;
  mul := PrimFloat.mul;
  div := PrimFloat.div;
  neg := PrimFloat.opp;
  fabs := PrimFloat.abs;
  fsqrt := PrimFloat.sqrt;
  ltb := PrimFloat.ltb;
  eqb := PrimFloat.eqb;
  of_nat := fun n => PrimFloat.of_uint63 (Uint63.of_Z (Z.of_nat n))
|}.

(** Exact real arithmetic. *)
#[export] Instance Rscalar : Scalar R := {|
  zero := 0%R;
  one := 1%R;
  two := 2%R;
  half := (/ 2)%R;
  eps6 := (/ 1000000)%R;
  m_pi := PI;
  m_sqrt1_2 := (/ sqrt 2)%R;
  add := Rplus;
  sub := Rminus;
  mul := Rmult;
  div := Rdiv;
  neg := Ropp;
  fabs := Rabs;
  fsqrt := sqrt;
  ltb := fun x y => if Rlt_dec x y then true else false;
  eqb := fun x y => if Req_dec_T x y then true else false;
  of_nat := INR
|}.

(** ** Armadillo's containers *)

Section Arma.
Context {num : Type} {SC : Scalar num}.
Local Open Scope num_scope.

Definition tab {A : Type} (n : nat) (f : nat -> A) : list A := map f (seq 0 n).

(** [arma::vec] (and [arma::rowvec]). *)
Definition vec : Type := list num.
Definition n_elem (v : vec) : nat := length v.
Definition vat (v : vec) (i : nat) : num := nth i v zero.
Definition mk_vec (n : nat) (f : nat -> num) : vec := tab n f.

(** [arma::mat]: the shape and the columns.  Reading outside the matrix gives
    [zero] here; in Armadillo [.col(j)] and [.row(r)] raise there and
    [.at(r, c)] is unchecked, so a statement about a call that reads an entry
    carries the shapes that put the entry inside. *)
Record mat : Type := Mat { n_rows : nat; n_cols : nat; cols : list vec }.

Definition mat_at (m : mat) (r c : nat) : num := vat (nth c (cols m) []) r.
Definition mk_mat (R C : nat) (f : nat -> nat -> num) : mat :=
  Mat R C (tab C (fun c => tab R (fun r => f r c))).
Definition mat_is_empty (m : mat) : bool := (n_rows m * n_cols m =? 0)%nat.
Definition empty_mat : mat := Mat 0 0 [].

Definition col (m : mat) (j : nat) : vec := mk_vec (n_rows m) (fun r => mat_at m r j).
Definition row (m : mat) (r : nat) : vec := mk_vec (n_cols m) (fun c => mat_at m r c).
Definition diag (m : mat) : vec :=
  mk_vec (Nat.min (n_rows m) (n_cols m)) (fun i => mat_at m i i).

(** [arma::cube]: the shape of a slice and the slices.  [slice] outside the
    cube is a matrix of zeros here; Armadillo's [.slice(k)] raises there. *)
Record cube : Type := Cube { c_rows : nat; c_cols : nat; slices : list mat }.

Definition n_slices (c : cube) : nat := length (slices c).
Definition slice (c : cube) (k : nat) : mat :=
  nth k (slices c) (mk_mat (c_rows c) (c_cols c) (fun _ _ => zero)).
Definition cube_is_empty (c : cube) : bool := (c_rows c * c_cols c * n_slices c =? 0)%nat.
Definition empty_cube : cube := Cube 0 0 [].

(** [for (i = 0; i < n; ++i) body]. *)
Fixpoint for_loop {S : Type} (n : nat) (body : nat -> S -> S) (s : S) : S :=
  match n with
  | O => s
  | Datatypes.S k => body k (for_loop k body s)
  end.

(** The same loop when the body may throw: the first exception ends it. *)
Fixpoint for_loopM {S : Type} (n : nat) (body : nat -> S -> option S) (s : S) : option S :=
  match n with
  | O => Some s
  | Datatypes.S k =>
      match for_loopM k body s with
      | Some s' => body k s'
      | None => None
      end
  end.

(** A sum accumulated from [0.0] in index order. *)
Fixpoint sum_n (n : nat) (f : nat -> num) : num :=
  match n with
  | O => zero
  | S k => sum_n k f + f k
  end.

(** *** Fills and element-wise operations *)

Definition vzeros (n : nat) : vec := mk_vec n (fun _ => zero).
Definition vones (n : nat) : vec := mk_vec n (fun _ => one).
Definition zeros (R C : nat) : mat := mk_mat R C (fun _ _ => zero).
Definition ones (R C : nat) : mat := mk_mat R C (fun _ _ => one).
Definition czeros (R C S : nat) : cube := Cube R C (tab S (fun _ => zeros R C)).

Definition vmap (f : num -> num) (v : vec) : vec := map f v.
Definition vmap2 (f : num -> num -> num) (u v : vec) : vec :=
  mk_vec (n_elem u) (fun i => f (vat u i) (vat v i)).
Definition mmap (f : num -> num) (m : mat) : mat :=
  mk_mat (n_rows m) (n_cols m) (fun r c => f (mat_at m r c)).
Definition mmap2 (f : num -> num -> num) (a b : mat) : mat :=
  mk_mat (n_rows a) (n_cols a) (fun r c => f (mat_at a r c) (mat_at b r c)).

Definition vadd : vec -> vec -> vec := vmap2 add.       (* u + v *)
Definition vsub : vec -> vec -> vec := vmap2 sub.       (* u - v *)
Definition vschur : vec -> vec -> vec := vmap2 mul.     (* u % v *)
Definition vdiv : vec -> vec -> vec := vmap2 div.       (* u / v *)
Definition vscale (a : num) : vec -> vec := vmap (mul a).   (* a * v *)
Definition vpow2 : vec -> vec := vmap (fun x => x * x). (* arma::pow(v, 2.0) *)
Definition vsqrt : vec -> vec := vmap fsqrt.            (* arma::sqrt(v) *)
Definition vabs : vec -> vec := vmap fabs.              (* arma::abs(v) *)

Definition madd : mat -> mat -> mat := mmap2 add.
Definition msub : mat -> mat -> mat := mmap2 sub.
Definition mschur : mat -> mat -> mat := mmap2 mul.
Definition mscale (a : num) : mat -> mat := mmap (mul a).
Definition mpow2 : mat -> mat := mmap (fun x => x * x).
Definition msqrt : mat -> mat := mmap fsqrt.

(** [arma::accu], [arma::sum] of a vector, [arma::dot], [arma::trace]. *)
Definition accu (v : vec) : num := sum_n (n_elem v) (vat v).
Definition dot (u v : vec) : num := sum_n (n_elem u) (fun i => vat u i * vat v i).
Definition trace (m : mat) : num := accu (diag m).

(** *** Products and transposes *)

Definition trans (m : mat) : mat :=
  mk_mat (n_cols m) (n_rows m) (fun r c => mat_at m c r).
Definition mmul (a b : mat) : mat :=
  mk_mat (n_rows a) (n_cols b)
         (fun r c => sum_n (n_cols a) (fun k => mat_at a r k * mat_at b k c)).
Definition mvmul (a : mat) (v : vec) : vec :=
  mk_vec (n_rows a) (fun r => sum_n (n_cols a) (fun k => mat_at a r k * vat v k)).
(** [u * v.t()]. *)
Definition outer (u v : vec) : mat :=
  mk_mat (n_elem u) (n_elem v) (fun r c => vat u r * vat v c).

(** [m.each_col() % s] and [m.each_row() % s.t()]. *)
Definition each_col_schur (m : mat) (s : vec) : mat :=
  mk_mat (n_rows m) (n_cols m) (fun r c => mat_at m r c * vat s r).
Definition each_row_schur (m : mat) (s : vec) : mat :=
  mk_mat (n_rows m) (n_cols m) (fun r c => mat_at m r c * vat s c).
(** [m.each_col() += s]. *)
Definition each_col_add (m : mat) (s : vec) : mat :=
  mk_mat (n_rows m) (n_cols m) (fun r c => mat_at m r c + vat s r).
(** [S.diag() += a]. *)
Definition diag_add (m : mat) (a : num) : mat :=
  mk_mat (n_rows m) (n_cols m)
         (fun r c => if (r =? c)%nat then mat_at m r c + a else mat_at m r c).

(** *** Assignments to a part of a container *)

Definition vset (v : vec) (i : nat) (x : num) : vec :=
  mk_vec (n_elem v) (fun k => if (k =? i)%nat then x else vat v k).
Definition set_at (m : mat) (r c : nat) (x : num) : mat :=
  mk_mat (n_rows m) (n_cols m)
         (fun r' c' => if ((r' =? r) && (c' =? c))%nat then x else mat_at m r' c').
Definition set_col (m : mat) (j : nat) (v : vec) : mat :=
  mk_mat (n_rows m) (n_cols m)
         (fun r c => if (c =? j)%nat then vat v r else mat_at m r c).
Definition set_row (m : mat) (i : nat) (v : vec) : mat :=
  mk_mat (n_rows m) (n_cols m)
         (fun r c => if (r =? i)%nat then vat v c else mat_at m r c).
Definition set_slice (c : cube) (k : nat) (m : mat) : cube :=
  Cube (c_rows c) (c_cols c)
       (tab (n_slices c) (fun i => if (i =? k)%nat then m else slice c i)).

End Arma.

Arguments vec num : clear implicits.
Arguments mat num : clear implicits.
Arguments cube num : clear implicits.

(** What Armadillo delegates to LAPACK.  [None] stands for the
    [std::runtime_error] raised when the factorisation or inversion fails. *)
Class Lapack (num : Type) : Type := {
  chol : mat num -> option (mat num);          (* arma::chol(X) *)
  inv_trimatu : mat num -> option (mat num);   (* arma::inv(arma::trimatu(X)) *)
  inv : mat num -> option (mat num);           (* X.i() *)
  inv_sympd : mat num -> option (mat num)      (* arma::inv_sympd(X) *)
}.

(** ** Utility functions: densities, the normal distribution function *)

Section Density.
Context {num : Type} {SC : Scalar num} {LM : Libm num} {DT : Datum num} {LA : Lapack num}.
Local Open Scope num_scope.

Definition LOG_2PI : num := flog (two * m_pi).
Definition INV_SQRT_2PI : num := one / fsqrt (two * m_pi).
Definition LOG_INV_SQRT_2PI : num := flog INV_SQRT_2PI.

Definition dnorm (x mu sigma2 : vec num) (logd : bool) : vec num :=
  let res :=
    vsub (vmap (fun a => LOG_INV_SQRT_2PI - a) (vmap flog (vsqrt sigma2)))
         (vdiv (vpow2 (vsub x mu)) (vscale two sigma2)) in
  if logd then res else vmap fexp res.

(** [arma::trans(arma::inv(arma::trimatu(arma::chol(sigma))))]: [None] when
    either call throws [std::runtime_error]. *)
Definition rooti_of (sigma : mat num) : option (mat num) :=
  match chol sigma with
  | Some c =>
      match inv_trimatu c with
      | Some i => Some (trans i)
      | None => None
      end
  | None => None
  end.

(** The L1 distance tested against [1e-6] in the two [catch] blocks. *)
Definition l1_dist (x mean : vec num) : num := accu (vabs (vsub x mean)).

Definition dmvnorm_mat (x : mat num) (mean : vec num) (sigma : mat num)
           (logd inversed : bool) : vec num :=
  let xdim := of_nat (n_rows x) in
  (* arma::vec out(x.n_cols): every element is assigned before it is read *)
  let out := vzeros (n_cols x) in
  match (if inversed then Some sigma else rooti_of sigma) with
  | None =>
      let out := if logd then mk_vec (n_cols x) (fun _ => - datum_inf)
                 else mk_vec (n_cols x) (fun _ => zero) in
      for_loop (n_cols x)
               (fun i out => if l1_dist (col x i) mean <? eps6
                             then vset out i datum_inf else out)
               out
  | Some rooti =>
      let rootisum := accu (vmap flog (diag rooti)) in
      let constants := (- (xdim / two)) * LOG_2PI in
      let out :=
        for_loop (n_cols x)
                 (fun i out =>
                    let z := mvmul rooti (vsub (col x i) mean) in
                    vset out i (constants - half * accu (vschur z z) + rootisum))
                 out in
      if logd then out else vmap fexp out
  end.

Definition dmvnorm (x mean : vec num) (sigma : mat num) (logd inversed : bool) : num :=
  match (if inversed then Some sigma else rooti_of sigma) with
  | None =>
      let diff := l1_dist x mean in
      if logd then (if diff <? eps6 then datum_inf else - datum_inf)
      else (if diff <? eps6 then datum_inf else zero)
  | Some rooti =>
      let rootisum := accu (vmap flog (diag rooti)) in
      let constants := (- (of_nat (n_elem x) / two)) * LOG_2PI in
      let z := mvmul rooti (vsub x mean) in
      let out := constants - half * accu (vschur z z) + rootisum in
      if logd then out else fexp out
  end.

(** [pnorm], at vectors and at matrices (the template's two uses). *)
Definition pnorm_tail (res : num) (logd lower_tail : bool) : num :=
  if negb lower_tail && negb logd then one - res
  else if lower_tail && negb logd then res
  else if negb lower_tail && logd then flog (one - res)
  else flog res.

Definition pnorm1 (x m s : num) (logd lower_tail : bool) : num :=
  pnorm_tail (half * ferfc ((x - m) / s * m_sqrt1_2)) logd lower_tail.

Definition pnorm (x m s : vec num) (logd lower_tail : bool) : vec num :=
  mk_vec (n_elem m) (fun i => pnorm1 (vat x i) (vat m i) (vat s i) logd lower_tail).

Definition pnorm_mat (x m s : mat num) (logd lower_tail : bool) : mat num :=
  mk_mat (n_rows m) (n_cols m)
         (fun r c => pnorm1 (mat_at x r c) (mat_at m r c) (mat_at s r c) logd lower_tail).

(** ** Covariance operations *)

(** [(V.each_col() % s).each_row() % s.t()], and [L * svs * L.t()] when [L]
    is given. *)
Definition get_cov (s : vec num) (V L : mat num) : mat num :=
  if mat_is_empty L then each_row_schur (each_col_schur V s) s
  else
    let svs := each_row_schur (each_col_schur V s) s in
    mmul (mmul L svs) (trans L).

Definition get_cov2 (s : vec num) (V : mat num) : mat num :=
  each_row_schur (each_col_schur V s) s.

Definition get_posterior_cov (Vinv U : mat num) : option (mat num) :=
  let S := mmul Vinv U in
  let S := diag_add S one in
  match inv S with
  | Some Si => Some (mmul U Si)
  | None => None
  end.

Definition get_posterior_mean (bhat : vec num) (Vinv U1 : mat num) : vec num :=
  mvmul (mmul U1 Vinv) bhat.

Definition get_posterior_mean_mat (bhat Vinv U1 : mat num) : mat num :=
  mmul (mmul U1 Vinv) bhat.

(** ** The likelihood matrix *)

Definition calc_lik (b_mat s_mat v_mat l_mat : mat num) (U_cube : cube num)
           (logd common_cov : bool) : mat num :=
  let lik := zeros (n_cols b_mat) (n_slices U_cube) in
  let mean := vzeros (n_rows b_mat) in
  if common_cov then
    let sigma := get_cov (col s_mat 0) v_mat l_mat in
    for_loop (n_cols lik)
             (fun p lik =>
                set_col lik p (dmvnorm_mat b_mat mean (madd sigma (slice U_cube p)) logd false))
             lik
  else
    for_loop (n_rows lik)
             (fun j lik =>
                let sigma := get_cov (col s_mat j) v_mat l_mat in
                for_loop (n_cols lik)
                         (fun p lik =>
                            set_at lik j p
                                   (dmvnorm (col b_mat j) mean (madd sigma (slice U_cube p))
                                            logd false))
                         lik)
             lik.

(** The overload that takes the whitening matrices.  Without [common_cov] the
    code computes [P = rooti_cube.n_slices / b_mat.n_cols], an integer
    division: for a [b_mat] without columns it divides by zero, where the
    division of [nat] gives [P = 0]; statements about that path take
    [0 < n_cols b_mat]. *)
Definition calc_lik_rooti (b_mat : mat num) (rooti_cube : cube num)
           (logd common_cov : bool) : mat num :=
  let P := if common_cov then n_slices rooti_cube
           else (n_slices rooti_cube / n_cols b_mat)%nat in
  let lik := zeros (n_cols b_mat) P in
  let mean := vzeros (n_rows b_mat) in
  if common_cov then
    for_loop (n_cols lik)
             (fun p lik =>
                set_col lik p (dmvnorm_mat b_mat mean (slice rooti_cube p) logd true))
             lik
  else
    snd (for_loop (n_rows lik)
                  (fun j st =>
                     for_loop (n_cols lik)
                              (fun p (st : nat * mat num) =>
                                 let (k, lik) := st in
                                 (S k, set_at lik j p
                                              (dmvnorm (col b_mat j) mean
                                                       (slice rooti_cube k) logd true)))
                              st)
                  (0%nat, lik)).

(** The univariate overload. *)
Definition calc_lik_uni (b_vec s_vec : vec num) (v : num) (U_vec : vec num)
           (logd : bool) : mat num :=
  let lik := zeros (n_elem b_vec) (n_elem U_vec) in
  let sigma := vmap (fun a => a * v) (vschur s_vec s_vec) in
  let mean := vzeros (n_elem b_vec) in
  for_loop (n_cols lik)
           (fun p lik =>
              set_col lik p (dnorm b_vec mean (vmap (fun a => a + vat U_vec p) sigma) logd))
           lik.

End Density.

(** ** class SE *)

Module SE.
Section SE.
Context {num : Type} {SC : Scalar num}.

Record t : Type := Make {
  s : mat num;
  s_orig : mat num;
  s_alpha : mat num;
  is_orig_empty : bool
}.

(** [SE()]: empty matrices; [is_orig_empty] is assigned by [set_original]
    before [get_original] reads it. *)
Definition new : t := Make empty_mat empty_mat empty_mat true.

(** [set(const arma::mat & sbhat, const arma::mat & sbhat_alpha)]. *)
Definition set (self : t) (sbhat sbhat_alpha : mat num) : t :=
  Make sbhat (s_orig self)
       (if mat_is_empty sbhat_alpha then ones (n_rows sbhat) (n_cols sbhat)
        else sbhat_alpha)
       (is_orig_empty self).

(** [set(int J, int R)]: both matrices become [ones(J, R)]. *)
Definition set_ones (self : t) (J R : nat) : t :=
  Make (ones J R) (s_orig self) (ones J R) (is_orig_empty self).

Definition set_original (self : t) (value : mat num) : t :=
  Make (s self) value (s_alpha self) (mat_is_empty value).

Definition get_original (self : t) : mat num :=
  if is_orig_empty self then s self else s_orig self.

Definition get (self : t) : mat num := s_alpha self.

End SE.
Arguments t num : clear implicits.
End SE.

(** ** What the posterior engines share *)

Section Component.
Context {num : Type} {SC : Scalar num} {LM : Libm num} {LA : Lapack num}.
Local Open Scope num_scope.

(** [(U0.each_col() % s).each_row() % s.t()]. *)
Definition rescale (U0 : mat num) (s : vec num) : mat num :=
  each_row_schur (each_col_schur U0 s) s.

(** The loop [for (r = 0; r < n; ++r)] that marks the rows of component [p]
    with [sigma.at(r) == 0]. *)
Definition mark_degenerate (n : nat) (sigma : vec num) (p : nat) (zn : mat num * mat num)
  : mat num * mat num :=
  for_loop n
           (fun r (zn : mat num * mat num) =>
              if vat sigma r ==? zero
              then (set_at (fst zn) r p one, set_at (snd zn) r p zero)
              else zn)
           zn.

(** The statistics of component [p] that follow from [mu1_mat.col(p)] and [U1]:
    [sigma], [diag_mu2_mat.col(p)], [neg_mat.col(p)] and the rows marked as
    degenerate.  Returns [diag_mu2_mat], [zero_mat] and [neg_mat]. *)
Definition component_stats (mean : vec num) (p : nat) (U1 mu1_mat : mat num)
           (diag_mu2_mat zero_mat neg_mat : mat num) : mat num * (mat num * mat num) :=
  let sigma := vsqrt (diag U1) in
  let diag_mu2_mat := set_col diag_mu2_mat p (vadd (vpow2 (col mu1_mat p)) (diag U1)) in
  let neg_mat := set_col neg_mat p (pnorm (col mu1_mat p) mean sigma false true) in
  (diag_mu2_mat, mark_degenerate (n_elem sigma) sigma p (zero_mat, neg_mat)).

(** Its counterpart in the shared-covariance engines: whole rows. *)
Definition mark_degenerate_rows (Svec : vec num) (ones_row zeros_row : vec num)
           (zn : mat num * mat num) : mat num * mat num :=
  for_loop (n_elem Svec)
           (fun r (zn : mat num * mat num) =>
              if vat Svec r ==? zero
              then (set_row (fst zn) r ones_row, set_row (snd zn) r zeros_row)
              else zn)
           zn.

(** The per-component matrices [zero_mat] and [neg_mat] of the shared-covariance
    engines, after the rows with [Svec.at(r) == 0] are overwritten. *)
Definition comcov_marks (mean sigma mu1_mat : mat num) (Svec ones_row zeros_row : vec num)
           (R J : nat) : mat num * mat num :=
  let zero_mat := zeros R J in
  let neg_mat := pnorm_mat mu1_mat mean sigma false true in
  mark_degenerate_rows Svec ones_row zeros_row (zero_mat, neg_mat).

(** [post_cov.slice(j) += M] and [post_cov.slice(j) -= M]. *)
Definition slice_add (c : cube num) (j : nat) (M : mat num) : cube num :=
  set_slice c j (madd (slice c j) M).
Definition slice_sub (c : cube num) (j : nat) (M : mat num) : cube num :=
  set_slice c j (msub (slice c j) M).

End Component.

(** ** class PosteriorMASH *)

Module PosteriorMASH.
Section PosteriorMASH.
Context {num : Type} {SC : Scalar num} {LM : Libm num} {LA : Lapack num}.
Local Open Scope num_scope.

Record t : Type := Make {
  (* input *)
  b_mat : mat num;
  s_obj : SE.t num;
  v_mat : mat num;
  l_mat : mat num;
  a_mat : mat num;
  U_cube : cube num;
  Vinv_cube : cube num;
  U0_cube : cube num;
  (* output *)
  post_mean : mat num;
  post_var : mat num;
  neg_prob : mat num;
  zero_prob : mat num;
  post_cov : cube num
}.

(** The constructor. *)
Definition new (b_mat s_mat s_alpha_mat s_orig_mat v_mat l_mat a_mat : mat num)
           (U_cube : cube num) : t :=
  let J := n_cols b_mat in
  let R := n_rows b_mat in
  let s_obj := if mat_is_empty s_mat then SE.set_ones SE.new R J
               else SE.set SE.new s_mat s_alpha_mat in
  let s_obj := SE.set_original s_obj s_orig_mat in
  let R := if negb (mat_is_empty a_mat) then n_rows a_mat else R in
  Make b_mat s_obj v_mat l_mat a_mat U_cube empty_cube empty_cube
       (zeros R J) (zeros R J) (zeros R J) (zeros R J) (czeros R R J).

Definition set_vinv (self : t) (value : cube num) : Z * t :=
  (0%Z,
   Make (b_mat self) (s_obj self) (v_mat self) (l_mat self) (a_mat self) (U_cube self)
        value (U0_cube self)
        (post_mean self) (post_var self) (neg_prob self) (zero_prob self) (post_cov self)).

Definition set_U0 (self : t) (value : cube num) : Z * t :=
  (0%Z,
   Make (b_mat self) (s_obj self) (v_mat self) (l_mat self) (a_mat self) (U_cube self)
        (Vinv_cube self) value
        (post_mean self) (post_var self) (neg_prob self) (zero_prob self) (post_cov self)).

(** The output buffers, the only part [compute_posterior*] writes. *)
Definition with_outputs (self : t) (pm pv np zp : mat num) (pc : cube num) : t :=
  Make (b_mat self) (s_obj self) (v_mat self) (l_mat self) (a_mat self) (U_cube self)
       (Vinv_cube self) (U0_cube self) pm pv np zp pc.

(** The matrices local to one effect [j], and [post_cov]. *)
Record locals : Type := Locals {
  mu1_mat : mat num;
  diag_mu2_mat : mat num;
  zero_mat : mat num;
  neg_mat : mat num;
  cov : cube num
}.

(** [Vinv_j] of effect [j]. *)
Definition Vinv_of (self : t) (j : nat) : option (mat num) :=
  if cube_is_empty (Vinv_cube self)
  then inv_sympd (get_cov (col (SE.get_original (s_obj self)) j) (v_mat self) (l_mat self))
  else Some (slice (Vinv_cube self) j).

(** [U0] of effect [j] and component [p]. *)
Definition U0_of (self : t) (Vinv_j : mat num) (j p : nat) : option (mat num) :=
  if cube_is_empty (U0_cube self)
  then get_posterior_cov Vinv_j (slice (U_cube self) p)
  else Some (slice (U0_cube self) (j * n_slices (U_cube self) + p)).

(** The value assigned to [mu1_mat.col(p)], and [U1]. *)
Definition mu1_of (self : t) (Vinv_j U0 : mat num) (j : nat) : vec num :=
  if mat_is_empty (a_mat self)
  then vschur (get_posterior_mean (col (b_mat self) j) Vinv_j U0)
              (col (SE.get (s_obj self)) j)
  else mvmul (a_mat self)
             (vschur (get_posterior_mean (col (b_mat self) j) Vinv_j U0)
                     (col (SE.get (s_obj self)) j)).

Definition U1_of (self : t) (U0 : mat num) (j : nat) : mat num :=
  if mat_is_empty (a_mat self)
  then rescale U0 (col (SE.get (s_obj self)) j)
  else mmul (a_mat self)
            (mmul (rescale U0 (col (SE.get (s_obj self)) j)) (trans (a_mat self))).

(** The body of the loop over the components [p], for effect [j]. *)
Definition component_step (self : t) (posterior_weights : mat num) (report_type : Z)
           (Vinv_j : mat num) (mean : vec num) (j p : nat) (st : locals)
  : option locals :=
  match U0_of self Vinv_j j p with
  | None => None
  | Some U0 =>
      let mu1_mat := set_col (mu1_mat st) p (mu1_of self Vinv_j U0 j) in
      let U1 := U1_of self U0 j in
      let cov :=
        if ((report_type =? 2) || (report_type =? 4))%Z
        then slice_add (cov st) j
               (mscale (mat_at posterior_weights p j)
                       (madd U1 (outer (col mu1_mat p) (col mu1_mat p))))
        else cov st in
      let stats := component_stats mean p U1 mu1_mat
                                   (diag_mu2_mat st) (zero_mat st) (neg_mat st) in
      Some (Locals mu1_mat (fst stats) (fst (snd stats)) (snd (snd stats)) cov)
  end.

(** The loop over the components, for effect [j]: the four R x P matrices
    and [post_cov]. *)
Definition components (self : t) (posterior_weights : mat num) (report_type : Z)
           (Vinv_j : mat num) (mean : vec num) (j : nat) : option locals :=
  let R := n_rows (post_mean self) in
  let P := n_slices (U_cube self) in
  for_loopM P
            (component_step self posterior_weights report_type Vinv_j mean j)
            (Locals (zeros R P) (zeros R P) (zeros R P) (zeros R P) (post_cov self)).

(** The body of the loop over the effects [j]. *)
Definition effect_step (posterior_weights : mat num) (report_type : Z)
           (mean : vec num) (j : nat) (self : t) : option t :=
  match Vinv_of self j with
  | None => None
  | Some Vinv_j =>
      match components self posterior_weights report_type Vinv_j mean j with
      | None => None
      | Some st =>
          let w_j := col posterior_weights j in
          let post_mean := set_col (post_mean self) j (mvmul (mu1_mat st) w_j) in
          let post_var := set_col (post_var self) j (mvmul (diag_mu2_mat st) w_j) in
          let neg_prob := set_col (neg_prob self) j (mvmul (neg_mat st) w_j) in
          let zero_prob := set_col (zero_prob self) j (mvmul (zero_mat st) w_j) in
          let post_cov :=
            if (report_type =? 4)%Z
            then slice_sub (cov st) j (outer (col post_mean j) (col post_mean j))
            else cov st in
          Some (with_outputs self post_mean post_var neg_prob zero_prob post_cov)
      end
  end.

Definition compute_posterior (self : t) (posterior_weights : mat num) (report_type : Z)
  : option (Z * t) :=
  let mean := vzeros (n_rows (post_mean self)) in
  match for_loopM (n_cols (post_mean self))
          (effect_step posterior_weights report_type mean) self
  with
  | None => None
  | Some self =>
      Some (0%Z,
            with_outputs self (post_mean self)
                         (msub (post_var self) (mpow2 (post_mean self)))
                         (neg_prob self) (zero_prob self) (post_cov self))
  end.

(** *** The shared-covariance variant *)

Definition Vinv_comcov (self : t) : option (mat num) :=
  if cube_is_empty (Vinv_cube self)
  then inv_sympd (get_cov (col (SE.get_original (s_obj self)) 0) (v_mat self) (l_mat self))
  else Some (slice (Vinv_cube self) 0).

Definition U0_comcov (self : t) (Vinv : mat num) (p : nat) : option (mat num) :=
  if cube_is_empty (U0_cube self)
  then get_posterior_cov Vinv (slice (U_cube self) p)
  else Some (slice (U0_cube self) p).

Definition mu1_comcov (self : t) (Vinv U0 : mat num) : mat num :=
  if mat_is_empty (a_mat self)
  then mschur (get_posterior_mean_mat (b_mat self) Vinv U0) (SE.get (s_obj self))
  else mmul (a_mat self)
            (mschur (get_posterior_mean_mat (b_mat self) Vinv U0) (SE.get (s_obj self))).

Definition U1_comcov (self : t) (U0 : mat num) : mat num :=
  if mat_is_empty (a_mat self)
  then rescale U0 (col (SE.get (s_obj self)) 0)
  else mmul (a_mat self)
            (mmul (rescale U0 (col (SE.get (s_obj self)) 0)) (trans (a_mat self))).

(** What the loop over the components carries: [sigma] and the outputs. *)
Record comcov_state : Type := CState {
  cs_sigma : mat num;
  cs_self : t
}.

(** The [for (j ...)] loop inside the loop over the components. *)
Definition comcov_effects (posterior_weights : mat num) (report_type : Z)
           (Svec : vec num) (U1 mu1_mat : mat num) (p : nat)
           (sc : mat num * cube num) : mat num * cube num :=
  for_loop (n_cols (fst sc))
           (fun j (sc : mat num * cube num) =>
              let sigma := set_col (fst sc) j Svec in
              let cov :=
                if ((report_type =? 2) || (report_type =? 4))%Z
                then slice_add (snd sc) j
                       (mscale (mat_at posterior_weights p j)
                               (madd U1 (outer (col mu1_mat j) (col mu1_mat j))))
                else snd sc in
              (sigma, cov))
           sc.

Definition comcov_step (posterior_weights : mat num) (report_type : Z)
           (Vinv mean : mat num) (ones_row zeros_row : vec num) (p : nat)
           (st : comcov_state)
  : option comcov_state :=
  let self := cs_self st in
  match U0_comcov self Vinv p with
  | None => None
  | Some U0 =>
      let mu1_mat := mu1_comcov self Vinv U0 in
      let U1 := U1_comcov self U0 in
      let Svec := vsqrt (diag U1) in
      let sc := comcov_effects posterior_weights report_type Svec U1 mu1_mat p
                               (cs_sigma st, post_cov self) in
      let sigma := fst sc in
      let diag_mu2_mat := each_col_add (mpow2 mu1_mat) (diag U1) in
      let zn := comcov_marks mean sigma mu1_mat Svec ones_row zeros_row
                             (n_rows (post_mean self)) (n_cols (post_mean self)) in
      let w_p := row posterior_weights p in
      Some (CState sigma
              (with_outputs self
                 (madd (post_mean self) (each_row_schur mu1_mat w_p))
                 (madd (post_var self) (each_row_schur diag_mu2_mat w_p))
                 (madd (neg_prob self) (each_row_schur (snd zn) w_p))
                 (madd (zero_prob self) (each_row_schur (fst zn) w_p))
                 (snd sc)))
  end.

Definition compute_posterior_comcov (self : t) (posterior_weights : mat num)
           (report_type : Z) : option (Z * t) :=
  let R := n_rows (post_mean self) in
  let J := n_cols (post_mean self) in
  let mean := zeros R J in
  match Vinv_comcov self with
  | None => None
  | Some Vinv =>
      let ones_row := vones J in
      let zeros_row := vzeros J in
      let sigma := zeros R J in
      match for_loopM (n_slices (U_cube self))
              (comcov_step posterior_weights report_type Vinv mean ones_row zeros_row)
              (CState sigma self)
      with
      | None => None
      | Some st =>
          let self := cs_self st in
          let post_var := msub (post_var self) (mpow2 (post_mean self)) in
          let post_cov :=
            if (report_type =? 4)%Z
            then for_loop (n_cols (cs_sigma st))
                          (fun j c =>
                             slice_sub c j (outer (col (post_mean self) j)
                                                  (col (post_mean self) j)))
                          (post_cov self)
            else post_cov self in
          Some (0%Z,
                with_outputs self (post_mean self) post_var
                             (neg_prob self) (zero_prob self) post_cov)
      end
  end.

(** *** Accessors *)

Definition PosteriorMean (self : t) : mat num := trans (post_mean self).
Definition PosteriorSD (self : t) : mat num := trans (msqrt (post_var self)).
Definition PosteriorCov (self : t) : cube num := post_cov self.
Definition NegativeProb (self : t) : mat num := trans (neg_prob self).
Definition ZeroProb (self : t) : mat num := trans (zero_prob self).

End PosteriorMASH.
Arguments t num : clear implicits.
Arguments locals num : clear implicits.
Arguments comcov_state num : clear implicits.
End PosteriorMASH.

(** ** class PosteriorASH *)

Module PosteriorASH.
Section PosteriorASH.
Context {num : Type} {SC : Scalar num} {LM : Libm num}.
Local Open Scope num_scope.

Record t : Type := Make {
  (* input of J vecs *)
  b_vec : vec num;
  s_vec : vec num;
  s_alpha_vec : vec num;
  v : num;
  U_vec : vec num;
  (* output of J vecs *)
  post_mean : vec num;
  post_var : vec num;
  neg_prob : vec num;
  zero_prob : vec num
}.

(** The constructor.  [set_size] does not initialise: [indet] stands for what
    the fresh storage holds. *)
Definition new (b_vec s_vec s_alpha : vec num) (v : num) (U_vec : vec num)
           (indet : nat -> num) : t :=
  let J := n_elem b_vec in
  let s_alpha_vec := if (n_elem s_alpha =? 0)%nat then vones J else s_alpha in
  Make b_vec s_vec s_alpha_vec v U_vec
       (mk_vec J indet) (mk_vec J indet) (mk_vec J indet) (mk_vec J indet).

Record locals : Type := Locals {
  mu1_mat : mat num;
  mu2_mat : mat num;
  zero_mat : mat num;
  neg_mat : mat num
}.

(** [1 / (s_vec % s_vec * v)]. *)
Definition vinv_of (self : t) : vec num :=
  vmap (fun a => one / a) (vmap (fun a => a * v self) (vschur (s_vec self) (s_vec self))).

(** [U_vec.at(p) / (vinv * U_vec.at(p) + 1.0)]. *)
Definition U1_of (self : t) (vinv : vec num) (p : nat) : vec num :=
  vmap (fun a => vat (U_vec self) p / a)
       (vmap (fun a => a + one) (vmap (fun a => a * vat (U_vec self) p) vinv)).

(** [U1 % vinv % b_vec % s_alpha_vec]. *)
Definition mu1_of (self : t) (vinv U1 : vec num) : vec num :=
  vschur (vschur (vschur U1 vinv) (b_vec self)) (s_alpha_vec self).

(** [U1 % (s_alpha_vec % s_alpha_vec)]. *)
Definition U1_rescaled (self : t) (U1 : vec num) : vec num :=
  vschur U1 (vschur (s_alpha_vec self) (s_alpha_vec self)).

Definition component_step (self : t) (vinv mean : vec num) (J p : nat) (st : locals)
  : locals :=
  let U1 := U1_of self vinv p in
  let mu1_mat := set_col (mu1_mat st) p (mu1_of self vinv U1) in
  let U1 := U1_rescaled self U1 in
  let mu2_mat := set_col (mu2_mat st) p (vadd (vpow2 (col mu1_mat p)) U1) in
  let sigma := vsqrt U1 in
  let neg_mat := set_col (neg_mat st) p (pnorm (col mu1_mat p) mean sigma false true) in
  let zn := mark_degenerate J U1 p (zero_mat st, neg_mat) in
  Locals mu1_mat mu2_mat (fst zn) (snd zn).

(** The loop over the components: the four J x P matrices. *)
Definition components (self : t) : locals :=
  let vinv := vinv_of self in
  let J := n_elem (b_vec self) in
  let P := n_elem (U_vec self) in
  let mean := vzeros J in
  for_loop P (component_step self vinv mean J)
           (Locals (zeros J P) (zeros J P) (zeros J P) (zeros J P)).

Definition compute_posterior (self : t) (posterior_weights : mat num) : Z * t :=
  let J := n_elem (b_vec self) in
  let st := components self in
  let out :=
    for_loop J
             (fun j (out : t) =>
                let w_j := col posterior_weights j in
                Make (b_vec out) (s_vec out) (s_alpha_vec out) (v out) (U_vec out)
                     (vset (post_mean out) j (dot (row (mu1_mat st) j) w_j))
                     (vset (post_var out) j (dot (row (mu2_mat st) j) w_j))
                     (vset (neg_prob out) j (dot (row (neg_mat st) j) w_j))
                     (vset (zero_prob out) j (dot (row (zero_mat st) j) w_j)))
             self in
  (0%Z,
   Make (b_vec out) (s_vec out) (s_alpha_vec out) (v out) (U_vec out)
        (post_mean out) (vsub (post_var out) (vpow2 (post_mean out)))
        (neg_prob out) (zero_prob out)).

Definition PosteriorMean (self : t) : vec num := post_mean self.
Definition PosteriorSD (self : t) : vec num := vsqrt (post_var self).
Definition PosteriorCov (self : t) : vec num := post_var self.
Definition NegativeProb (self : t) : vec num := neg_prob self.
Definition ZeroProb (self : t) : vec num := zero_prob self.

End PosteriorASH.
Arguments t num : clear implicits.
Arguments locals num : clear implicits.
End PosteriorASH.

(** ** class MVSERMix *)

Module MVSERMix.
Section MVSERMix.
Context {num : Type} {SC : Scalar num} {LM : Libm num} {LA : Lapack num}.
Local Open Scope num_scope.

Record t : Type := Make {
  (* input *)
  b_mat : mat num;
  s_obj : SE.t num;
  v_mat : mat num;
  U_cube : cube num;
  Vinv_cube : cube num;
  U0_cube : cube num;
  Uinv_cube : cube num;
  (* output *)
  post_mean : mat num;
  post_var : mat num;
  neg_prob : mat num;
  zero_prob : mat num;
  post_cov : cube num;
  prior_scalar : vec num
}.

(** The constructor.  [prior_scalar.set_size] does not initialise: [indet]
    stands for what the fresh storage holds. *)
Definition new (b_mat s_mat s_alpha_mat s_orig_mat v_mat : mat num) (U_cube : cube num)
           (indet : nat -> num) : t :=
  let J := n_cols b_mat in
  let R := n_rows b_mat in
  let s_obj := if mat_is_empty s_mat then SE.set_ones SE.new R J
               else SE.set SE.new s_mat s_alpha_mat in
  let s_obj := SE.set_original s_obj s_orig_mat in
  Make b_mat s_obj v_mat U_cube empty_cube empty_cube empty_cube
       (zeros R J) (zeros R J) (zeros R J) (zeros R J) (czeros R R J)
       (mk_vec (n_slices U_cube) indet).

Definition set_Vinv (self : t) (value : cube num) : Z * t :=
  (0%Z,
   Make (b_mat self) (s_obj self) (v_mat self) (U_cube self)
        value (U0_cube self) (Uinv_cube self)
        (post_mean self) (post_var self) (neg_prob self) (zero_prob self)
        (post_cov self) (prior_scalar self)).

Definition set_U0 (self : t) (value : cube num) : Z * t :=
  (0%Z,
   Make (b_mat self) (s_obj self) (v_mat self) (U_cube self)
        (Vinv_cube self) value (Uinv_cube self)
        (post_mean self) (post_var self) (neg_prob self) (zero_prob self)
        (post_cov self) (prior_scalar self)).

Definition set_Uinv (self : t) (value : cube num) : Z * t :=
  (0%Z,
   Make (b_mat self) (s_obj self) (v_mat self) (U_cube self)
        (Vinv_cube self) (U0_cube self) value
        (post_mean self) (post_var self) (neg_prob self) (zero_prob self)
        (post_cov self) (prior_scalar self)).

Definition with_outputs (self : t) (pm pv np zp : mat num) (pc : cube num)
           (ps : vec num) : t :=
  Make (b_mat self) (s_obj self) (v_mat self) (U_cube self)
       (Vinv_cube self) (U0_cube self) (Uinv_cube self) pm pv np zp pc ps.

(** The matrices local to one effect [j], [post_cov] and [mu2_cube]. *)
Record locals : Type := Locals {
  mu1_mat : mat num;
  diag_mu2_mat : mat num;
  zero_mat : mat num;
  neg_mat : mat num;
  cov : cube num;
  mu2 : cube num
}.

Definition Vinv_of (self : t) (j : nat) : option (mat num) :=
  if cube_is_empty (Vinv_cube self)
  then inv_sympd (get_cov2 (col (SE.get_original (s_obj self)) j) (v_mat self))
  else Some (slice (Vinv_cube self) j).

Definition U0_of (self : t) (Vinv_j : mat num) (j p : nat) : option (mat num) :=
  if cube_is_empty (U0_cube self)
  then get_posterior_cov Vinv_j (slice (U_cube self) p)
  else Some (slice (U0_cube self) (j * n_slices (U_cube self) + p)).

Definition mu1_of (self : t) (Vinv_j U0 : mat num) (j : nat) : vec num :=
  vschur (get_posterior_mean (col (b_mat self) j) Vinv_j U0)
         (col (SE.get (s_obj self)) j).

Definition U1_of (self : t) (U0 : mat num) (j : nat) : mat num :=
  rescale U0 (col (SE.get (s_obj self)) j).

(** [prior_scalar.at(p) = trace(Uinv_cube.slice(p) * mu2_cube.slice(p)) / n_rows]
    for every component. *)
Definition prior_scalar_update (self : t) (mu2_cube : cube num) : vec num :=
  for_loop (n_slices (U_cube self))
           (fun p ps =>
              vset ps p (trace (mmul (slice (Uinv_cube self) p) (slice mu2_cube p))
                         / of_nat (n_rows (post_mean self))))
           (prior_scalar self).

Definition component_step (self : t) (posterior_weights posterior_variable_weights : mat num)
           (Vinv_j : mat num) (mean : vec num) (j p : nat) (st : locals)
  : option locals :=
  match U0_of self Vinv_j j p with
  | None => None
  | Some U0 =>
      let mu1_mat := set_col (mu1_mat st) p (mu1_of self Vinv_j U0 j) in
      let U1 := U1_of self U0 j in
      let mu2_mat := madd U1 (outer (col mu1_mat p) (col mu1_mat p)) in
      let cov := slice_add (cov st) j (mscale (mat_at posterior_weights p j) mu2_mat) in
      let mu2 :=
        if negb (cube_is_empty (Uinv_cube self))
        then slice_add (mu2 st) p (mscale (mat_at posterior_variable_weights p j) mu2_mat)
        else mu2 st in
      let stats := component_stats mean p U1 mu1_mat
                                   (diag_mu2_mat st) (zero_mat st) (neg_mat st) in
      Some (Locals mu1_mat (fst stats) (fst (snd stats)) (snd (snd stats)) cov mu2)
  end.

(** The loop over the components, for effect [j]. *)
Definition components (self : t) (posterior_weights posterior_variable_weights : mat num)
           (Vinv_j : mat num) (mean : vec num) (j : nat) (mu2_cube : cube num)
  : option locals :=
  let R := n_rows (post_mean self) in
  let P := n_slices (U_cube self) in
  for_loopM P
            (component_step self posterior_weights posterior_variable_weights
                            Vinv_j mean j)
            (Locals (zeros R P) (zeros R P) (zeros R P) (zeros R P)
                    (post_cov self) mu2_cube).

(** The body of the loop over the effects: the engine and [mu2_cube]. *)
Definition effect_step (posterior_weights posterior_variable_weights : mat num)
           (mean : vec num) (j : nat) (sm : t * cube num) : option (t * cube num) :=
  let self := fst sm in
  match Vinv_of self j with
  | None => None
  | Some Vinv_j =>
      match components self posterior_weights posterior_variable_weights
                       Vinv_j mean j (snd sm) with
      | None => None
      | Some st =>
          let w_j := col posterior_weights j in
          let post_mean := set_col (post_mean self) j (mvmul (mu1_mat st) w_j) in
          let post_var := set_col (post_var self) j (mvmul (diag_mu2_mat st) w_j) in
          let neg_prob := set_col (neg_prob self) j (mvmul (neg_mat st) w_j) in
          let zero_prob := set_col (zero_prob self) j (mvmul (zero_mat st) w_j) in
          let post_cov :=
            slice_sub (cov st) j (outer (col post_mean j) (col post_mean j)) in
          Some (with_outputs self post_mean post_var neg_prob zero_prob post_cov
                             (prior_scalar self),
                mu2 st)
      end
  end.

Definition compute_posterior (self : t)
           (posterior_weights posterior_variable_weights : mat num) : option (Z * t) :=
  let R := n_rows (post_mean self) in
  let mean := vzeros R in
  (* arma::cube mu2_cube(R, R, P): zeroed when Uinv_cube is given, and neither
     read nor written otherwise *)
  let mu2_cube := czeros R R (n_slices (U_cube self)) in
  match for_loopM (n_cols (post_mean self))
          (effect_step posterior_weights posterior_variable_weights mean)
          (self, mu2_cube)
  with
  | None => None
  | Some (self, mu2_cube) =>
      let post_var := msub (post_var self) (mpow2 (post_mean self)) in
      let prior_scalar :=
        if negb (cube_is_empty (Uinv_cube self))
        then prior_scalar_update self mu2_cube
        else prior_scalar self in
      Some (0%Z,
            with_outputs self (post_mean self) post_var (neg_prob self) (zero_prob self)
                         (post_cov self) prior_scalar)
  end.

(** *** The shared-covariance variant *)

Definition Vinv_comcov (self : t) : option (mat num) :=
  if cube_is_empty (Vinv_cube self)
  then inv_sympd (get_cov2 (col (SE.get_original (s_obj self)) 0) (v_mat self))
  else Some (slice (Vinv_cube self) 0).

Definition U0_comcov (self : t) (Vinv : mat num) (p : nat) : option (mat num) :=
  if cube_is_empty (U0_cube self)
  then get_posterior_cov Vinv (slice (U_cube self) p)
  else Some (slice (U0_cube self) p).

Definition mu1_comcov (self : t) (Vinv U0 : mat num) : mat num :=
  mschur (get_posterior_mean_mat (b_mat self) Vinv U0) (SE.get (s_obj self)).

Definition U1_comcov (self : t) (U0 : mat num) : mat num :=
  rescale U0 (col (SE.get (s_obj self)) 0).

Record comcov_state : Type := CState {
  cs_sigma : mat num;
  cs_mu2 : cube num;
  cs_self : t
}.

(** The [for (j ...)] loop inside the loop over the components: [sigma],
    [post_cov] and [mu2_cube]. *)
Definition comcov_effects (self : t)
           (posterior_weights posterior_variable_weights : mat num)
           (Svec : vec num) (U1 mu1_mat : mat num) (p : nat)
           (sc : mat num * (cube num * cube num)) : mat num * (cube num * cube num) :=
  for_loop (n_cols (fst sc))
           (fun j (sc : mat num * (cube num * cube num)) =>
              let sigma := set_col (fst sc) j Svec in
              let mu2_mat := madd U1 (outer (col mu1_mat j) (col mu1_mat j)) in
              let cov := slice_add (fst (snd sc)) j
                                   (mscale (mat_at posterior_weights p j) mu2_mat) in
              let mu2 :=
                if negb (cube_is_empty (Uinv_cube self))
                then slice_add (snd (snd sc)) p
                               (mscale (mat_at posterior_variable_weights p j) mu2_mat)
                else snd (snd sc) in
              (sigma, (cov, mu2)))
           sc.

Definition comcov_step (posterior_weights posterior_variable_weights : mat num)
           (Vinv mean : mat num) (ones_row zeros_row : vec num) (p : nat)
           (st : comcov_state) : option comcov_state :=
  let self := cs_self st in
  match U0_comcov self Vinv p with
  | None => None
  | Some U0 =>
      let mu1_mat := mu1_comcov self Vinv U0 in
      let U1 := U1_comcov self U0 in
      let Svec := vsqrt (diag U1) in
      let sc := comcov_effects self posterior_weights posterior_variable_weights
                               Svec U1 mu1_mat p
                               (cs_sigma st, (post_cov self, cs_mu2 st)) in
      let sigma := fst sc in
      let diag_mu2_mat := each_col_add (mpow2 mu1_mat) (diag U1) in
      let zn := comcov_marks mean sigma mu1_mat Svec ones_row zeros_row
                             (n_rows (post_mean self)) (n_cols (post_mean self)) in
      let w_p := row posterior_weights p in
      Some (CState sigma (snd (snd sc))
              (with_outputs self
                 (madd (post_mean self) (each_row_schur mu1_mat w_p))
                 (madd (post_var self) (each_row_schur diag_mu2_mat w_p))
                 (madd (neg_prob self) (each_row_schur (snd zn) w_p))
                 (madd (zero_prob self) (each_row_schur (fst zn) w_p))
                 (fst (snd sc)) (prior_scalar self)))
  end.

Definition compute_posterior_comcov (self : t)
           (posterior_weights posterior_variable_weights : mat num) : option (Z * t) :=
  let R := n_rows (post_mean self) in
  let J := n_cols (post_mean self) in
  let mean := zeros R J in
  let mu2_cube := czeros R R (n_slices (U_cube self)) in
  match Vinv_comcov self with
  | None => None
  | Some Vinv =>
      let ones_row := vones J in
      let zeros_row := vzeros J in
      let sigma := zeros R J in
      match for_loopM (n_slices (U_cube self))
              (comcov_step posterior_weights posterior_variable_weights
                           Vinv mean ones_row zeros_row)
              (CState sigma mu2_cube self)
      with
      | None => None
      | Some st =>
          let self := cs_self st in
          let post_var := msub (post_var self) (mpow2 (post_mean self)) in
          let post_cov :=
            for_loop (n_cols (cs_sigma st))
                     (fun j c =>
                        slice_sub c j (outer (col (post_mean self) j)
                                             (col (post_mean self) j)))
                     (post_cov self) in
          let prior_scalar :=
            if negb (cube_is_empty (Uinv_cube self))
            then prior_scalar_update self (cs_mu2 st)
            else prior_scalar self in
          Some (0%Z,
                with_outputs self (post_mean self) post_var
                             (neg_prob self) (zero_prob self) post_cov prior_scalar)
      end
  end.

Definition PosteriorMean (self : t) : mat num := trans (post_mean self).
Definition PosteriorSD (self : t) : mat num := trans (msqrt (post_var self)).
Definition PosteriorCov (self : t) : cube num := post_cov self.
Definition NegativeProb (self : t) : mat num := trans (neg_prob self).
Definition ZeroProb (self : t) : mat num := trans (zero_prob self).
Definition PriorScalar (self : t) : vec num := prior_scalar self.

End MVSERMix.
Arguments t num : clear implicits.
Arguments locals num : clear implicits.
Arguments comcov_state num : clear implicits.
End MVSERMix.


(** ** Softmax, and the class [TEEM] *)

(** [arma::max] of a vector, which Armadillo defines.  [None] stands for the
    [std::logic_error] it raises on an object without elements. *)
Class Stats (num : Type) : Type := {
  vmax : vec num -> option num       (* arma::max(x) *)
}.

Section Softmax.
Context {num : Type} {SC : Scalar num} {LM : Libm num} {ST : Stats num}.
Local Open Scope num_scope.

(** [y = arma::exp(x - arma::max(x)); y /= arma::sum(y)]. *)
Definition softmax (x : vec num) : option (vec num) :=
  match vmax x with
  | None => None
  | Some m =>
      let y := vmap fexp (vmap (fun a => a - m) x) in
      Some (vmap (fun a => a / accu y) y)
  end.

Definition shrink_cov (V : mat num) : mat num := V.

End Softmax.

Module TEEM.
Section TEEM.
Context {num : Type} {SC : Scalar num} {LM : Libm num} {ST : Stats num}.
Local Open Scope num_scope.

Record t : Type := Make {
  X_mat : mat num;
  w_vec : vec num;
  U_cube : cube num;
  objective : vec num;
  maxd : vec num
}.

(** The constructor: [objective] and [maxd] are default-constructed. *)
Definition new (X_mat : mat num) (w_vec : vec num) (U_cube : cube num) : t :=
  Make X_mat w_vec U_cube [] [].

Definition get_objective (self : t) : vec num := objective self.
Definition get_maxd (self : t) : vec num := maxd self.
Definition get_w (self : t) : vec num := w_vec self.
Definition get_U (self : t) : cube num := U_cube self.

(** What the calls of [print] and the writes to [std::cout] put out, one
    constructor for each place in the code, with the object printed. *)
Inductive printed : Type :=
| first_column_of_X (v : vec num)
| first_element_of_w (x : num)
| first_slice_of_U (m : mat num)
| w_vec_after_softmax (v : vec num)
| output_of_shrink_cov (m : mat num).

(** [compute_loglik] reads [X_mat.col(0)], [w_vec.at(0)] and
    [U_cube.slice(0)].  [None]: one of them does not exist (Armadillo rejects
    the column and the slice; the element access is unchecked). *)
Definition compute_loglik (self : t) : option (Z * list printed) :=
  if ((0 <? n_cols (X_mat self)) && (0 <? n_elem (w_vec self))
      && (0 <? n_slices (U_cube self)))%nat
  then Some (0%Z, [first_column_of_X (col (X_mat self) 0);
                   first_element_of_w (vat (w_vec self) 0);
                   first_slice_of_U (slice (U_cube self) 0)])
  else None.

(** [fit].  [None]: [maxiter] is negative (no vector of that size), an object
    [compute_loglik] reads does not exist, [max] rejects [w_vec], or
    [maxiter] is 0 (then [objective.at(0)] is outside [objective]). *)
Definition fit (self : t) (maxiter : Z) (tol : num) (verbose : bool)
  : option (Z * t * list printed) :=
  if (maxiter <? 0)%Z then None
  else
    let objective := vzeros (Z.to_nat maxiter) in
    let maxd := vzeros (Z.to_nat maxiter) in
    match compute_loglik self with
    | None => None
    | Some (_, out) =>
        match softmax (w_vec self) with
        | None => None
        | Some w_vec =>
            if (n_elem objective =? 0)%nat then None
            else
              let objective := vset objective 0 (of_nat 100) in
              let scov := shrink_cov (X_mat self) in
              Some (0%Z,
                    Make (X_mat self) w_vec (U_cube self) objective maxd,
                    out ++ [w_vec_after_softmax w_vec; output_of_shrink_cov scov])
        end
    end.

End TEEM.
Arguments t num : clear implicits.
Arguments printed num : clear implicits.
End TEEM.
(** ** Instances used to run the model on examples *)

(** Rocq's primitive floats come without [exp], [log] and [erfc]: on binary64
    the three functions are left uncomputed (NaN).  The examples at binary64
    use none of their values. *)
Definition float_libm : Libm float :=
  {| fexp := fun _ => nan; flog := fun _ => nan; ferfc := fun _ => nan |}.

(** The values of [exp] and [log] that C fixes (Annex F of the standard:
    [exp(-inf) = 0], [exp(0) = 1], [exp(inf) = inf], [log(0) = -inf],
    [log(1) = 0], [log(inf) = inf]) and [log] at the double [2.0 * M_PI],
    rounded to nearest; every other value is left uncomputed (NaN). *)
Definition float_libm_c : Libm float :=
  {| fexp := fun x => if PrimFloat.eqb x neg_infinity then 0%float
                      else if PrimFloat.eqb x 0%float then 1%float
                      else if PrimFloat.eqb x infinity then infinity
                      else nan;
     flog := fun x => if PrimFloat.eqb x 0%float then neg_infinity
                      else if PrimFloat.eqb x 1%float then 0%float
                      else if PrimFloat.eqb x infinity then infinity
                      else if PrimFloat.eqb x 0x1.921fb54442d18p+2%float
                           then 0x1.d67f1c864beb4p+0%float
                      else nan;
     ferfc := fun _ => nan |}.

Definition float_datum : Datum float := {| datum_inf := infinity |}.

(** Over the reals [exp] and [log] are the real functions; the complementary
    error function is a parameter. *)
Definition Rlibm (erfc : R -> R) : Libm R :=
  {| fexp := exp; flog := ln; ferfc := erfc |}.

(** A function with the range, the monotonicity and the value at [0] of the
    complementary error function, standing for it in the examples over the
    reals (the Standard Library defines no [erfc]). *)
Definition erfc_like (x : R) : R :=
  if Rle_dec 0 x then (/ (1 + x))%R else (2 - / (1 - x))%R.

(** The reals have no infinite element; [oo] stands for it. *)
Definition Rdatum (oo : R) : Datum R := {| datum_inf := oo |}.

(** Factorisation and inversion of 1x1 and 2x2 matrices by their closed
    forms, failing as LAPACK does on a pivot that is not positive (or is
    zero).  Larger matrices are refused. *)
Module Tiny.
Section Tiny.
Context {num : Type} {SC : Scalar num}.
Local Open Scope num_scope.

Definition is_square (n : nat) (X : mat num) : bool :=
  ((n_rows X =? n) && (n_cols X =? n))%nat.

Definition m1 (a : num) : mat num := Mat 1 1 [[a]].
(** [m2 a b c d] has the rows [a b] and [c d]. *)
Definition m2 (a b c d : num) : mat num := Mat 2 2 [[a; c]; [b; d]].

Definition chol (X : mat num) : option (mat num) :=
  if is_square 1 X then
    let a := mat_at X 0 0 in
    if zero <? a then Some (m1 (fsqrt a)) else None
  else if is_square 2 X then
    let a := mat_at X 0 0 in
    let b := mat_at X 0 1 in
    let d := mat_at X 1 1 in
    if zero <? a then
      let r11 := fsqrt a in
      let r12 := b / r11 in
      let t := d - r12 * r12 in
      if zero <? t then Some (m2 r11 r12 zero (fsqrt t)) else None
    else None
  else None.

Definition inv_trimatu (X : mat num) : option (mat num) :=
  if is_square 1 X then
    let a := mat_at X 0 0 in
    if a ==? zero then None else Some (m1 (one / a))
  else if is_square 2 X then
    let a := mat_at X 0 0 in
    let b := mat_at X 0 1 in
    let d := mat_at X 1 1 in
    if (a ==? zero) || (d ==? zero) then None
    else Some (m2 (one / a) (- (b / (a * d))) zero (one / d))
  else None.

Definition inv (X : mat num) : option (mat num) :=
  if is_square 1 X then
    let a := mat_at X 0 0 in
    if a ==? zero then None else Some (m1 (one / a))
  else if is_square 2 X then
    let a := mat_at X 0 0 in
    let b := mat_at X 0 1 in
    let c := mat_at X 1 0 in
    let d := mat_at X 1 1 in
    let det := a * d - b * c in
    if det ==? zero then None
    else Some (m2 (d / det) (- (b / det)) (- (c / det)) (a / det))
  else None.

Definition inv_sympd (X : mat num) : option (mat num) :=
  if is_square 1 X then
    let a := mat_at X 0 0 in
    if zero <? a then Some (m1 (one / a)) else None
  else if is_square 2 X then
    let a := mat_at X 0 0 in
    let b := mat_at X 0 1 in
    let c := mat_at X 1 0 in
    let d := mat_at X 1 1 in
    let det := a * d - b * c in
    if (zero <? a) && (zero <? det)
    then Some (m2 (d / det) (- (b / det)) (- (c / det)) (a / det))
    else None
  else None.

Definition lapack : Lapack num := Build_Lapack num chol inv_trimatu inv inv_sympd.

End Tiny.
End Tiny.


(** [arma::max] on the doubles scans from minus infinity and keeps an element
    that is greater than the running maximum; on the reals it is the greatest
    element.  Both reject the empty vector. *)
Definition float_stats : Stats float :=
  {| vmax := fun x =>
               match x with
               | [] => None
               | _ :: _ =>
                   Some (fold_left (fun m a => if PrimFloat.ltb m a then a else m)
                                   x neg_infinity)
               end |}.

Definition Rstats : Stats R :=
  {| vmax := fun x =>
               match x with
               | [] => None
               | a :: l => Some (fold_left Rmax l a)
               end |}.
(** ** Definitions the statements use *)

Section SpecDefs.
Context {num : Type} {SC : Scalar num} {LM : Libm num} {DT : Datum num}.
Local Open Scope num_scope.

(** The value of the two [catch] blocks at a column [x]: the point mass at
    [mean]. *)
Definition point_mass (x mean : vec num) (logd : bool) : num :=
  if l1_dist x mean <? eps6 then datum_inf
  else if logd then - datum_inf else zero.

(** The density of a column [x] computed from a whitening matrix [rooti]. *)
Definition whitened (rooti : mat num) (x mean : vec num) (logd : bool) : num :=
  let z := mvmul rooti (vsub x mean) in
  let out := (- (of_nat (n_elem x) / two)) * LOG_2PI
             - half * accu (vschur z z)
             + accu (vmap flog (diag rooti)) in
  if logd then out else fexp out.

(** The closed-form conjugate update of the univariate model, as the
    specification writes it: the precision [1/(s^2 v)], the posterior variance
    [U/(vinv U + 1)], the posterior mean [U1 vinv b alpha] and the rescaled
    variance [U1 alpha^2]. *)
Definition closed_vinv (s v : num) : num := one / (s * s * v).
Definition closed_U1 (vinv U : num) : num := U / (vinv * U + one).
Definition closed_mu1 (U1 vinv b alpha : num) : num := U1 * vinv * b * alpha.
Definition closed_var (U1 alpha : num) : num := U1 * (alpha * alpha).

(** Row [r] of a component with rescaled posterior covariance [U1] is marked
    as degenerate: the loop reaches [r], and [sigma.at(r) == 0]. *)
Definition degenerate (U1 : mat num) (r : nat) : bool :=
  (r <? n_elem (vsqrt (diag U1)))%nat && (vat (vsqrt (diag U1)) r ==? zero).

(** A matrix that is the table of its entries: what every assignment to a
    matrix of the model produces. *)
Definition tabulated (m : mat num) : Prop :=
  m = mk_mat (n_rows m) (n_cols m) (mat_at m).

(** [init + f 0 + ... + f (n-1)], accumulated in this order. *)
Definition accum (n : nat) (f : nat -> num) (init : num) : num :=
  for_loop n (fun p acc => acc + f p) init.

(** [M + F 0 + ... + F (n-1)] for matrices, accumulated in this order. *)
Definition maccum (n : nat) (F : nat -> mat num) (M : mat num) : mat num :=
  for_loop n (fun p acc => madd acc (F p)) M.

(** The content of an optional value that is present. *)
Definition the {A : Type} (d : A) (o : option A) : A :=
  match o with
  | Some a => a
  | None => d
  end.

End SpecDefs.

(** The report types under which [post_cov] is accumulated into: the test
    [report_type == 2 || report_type == 4] of the code. *)
Definition cov_gate (report_type : Z) : bool :=
  ((report_type =? 2) || (report_type =? 4))%Z.

(** The per-effect, per-component quantities of the general multivariate
    engine, named after the variables of the code.  [Vinv] is [Vinv_j]. *)
Section MashSpec.
Context {num : Type} {SC : Scalar num} {LM : Libm num} {LA : Lapack num}.
Local Open Scope num_scope.

Definition mash_U0 (e : PosteriorMASH.t num) (Vinv : mat num) (j p : nat) : mat num :=
  the empty_mat (PosteriorMASH.U0_of e Vinv j p).

(** The value assigned to [mu1_mat.col(p)]. *)
Definition mash_mu1 (e : PosteriorMASH.t num) (Vinv : mat num) (j p : nat) : vec num :=
  PosteriorMASH.mu1_of e Vinv (mash_U0 e Vinv j p) j.

Definition mash_U1 (e : PosteriorMASH.t num) (Vinv : mat num) (j p : nat) : mat num :=
  PosteriorMASH.U1_of e (mash_U0 e Vinv j p) j.

(** [mu1_mat.col(p)] as read back from the R x P matrix. *)
Definition mash_mu1_col (e : PosteriorMASH.t num) (Vinv : mat num) (j p : nat) : vec num :=
  mk_vec (n_rows (PosteriorMASH.post_mean e)) (vat (mash_mu1 e Vinv j p)).

(** [posterior_weights.at(p, j) * (U1 + mu1_mat.col(p) * mu1_mat.col(p).t())]. *)
Definition mash_moment (e : PosteriorMASH.t num) (w Vinv : mat num) (j p : nat) : mat num :=
  mscale (mat_at w p j)
         (madd (mash_U1 e Vinv j p)
               (outer (mash_mu1_col e Vinv j p) (mash_mu1_col e Vinv j p))).

(** [Vinv_j] of effect [j]. *)
Definition mash_Vinv (e : PosteriorMASH.t num) (j : nat) : mat num :=
  the empty_mat (PosteriorMASH.Vinv_of e j).

(** Column [j] of the marginal posterior mean, as [post_mean.col(j)] holds it
    after effect [j]. *)
Definition mash_post_mean_col (e : PosteriorMASH.t num) (w : mat num) (j : nat) : vec num :=
  mk_vec (n_rows (PosteriorMASH.post_mean e))
         (fun r => sum_n (n_slices (PosteriorMASH.U_cube e))
                         (fun p => vat (mash_mu1 e (mash_Vinv e j) j p) r
                                   * vat (col w j) p)).

(** Slice [j] of [post_cov] after [compute_posterior], for the report types
    that write it: the accumulated weighted second moments, less the outer
    product of the marginal mean when [report_type == 4]. *)
Definition mash_post_cov_slice (e : PosteriorMASH.t num) (w : mat num) (rt : Z) (j : nat)
  : mat num :=
  let acc := maccum (n_slices (PosteriorMASH.U_cube e))
                    (mash_moment e w (mash_Vinv e j) j)
                    (slice (PosteriorMASH.post_cov e) j) in
  if (rt =? 4)%Z
  then msub acc (outer (mash_post_mean_col e w j) (mash_post_mean_col e w j))
  else acc.

(** The mixture over the components of a per-component quantity [f], under
    the weights of effect [j]: [sum_p f p * posterior_weights(p, j)]. *)
Definition mash_mix (e : PosteriorMASH.t num) (w : mat num) (j : nat) (f : nat -> num) : num :=
  sum_n (n_slices (PosteriorMASH.U_cube e)) (fun p => f p * vat (col w j) p).

(** Entry [(r, j)] of the four output matrices when the loop over the effects
    has passed effect [j]: the mixtures of the mean, of the second moment, of
    the negative probability and of the zero probability. *)
Definition mash_mixed_at (e : PosteriorMASH.t num) (w : mat num) (out : PosteriorMASH.t num)
           (r j : nat) : Prop :=
  let V := mash_Vinv e j in
  mat_at (PosteriorMASH.post_mean out) r j
  = mash_mix e w j (fun p => vat (mash_mu1 e V j p) r) /\
  mat_at (PosteriorMASH.post_var out) r j
  = mash_mix e w j (fun p => vat (mash_mu1 e V j p) r * vat (mash_mu1 e V j p) r
                             + vat (diag (mash_U1 e V j p)) r) /\
  mat_at (PosteriorMASH.neg_prob out) r j
  = mash_mix e w j (fun p => if degenerate (mash_U1 e V j p) r then zero
                             else pnorm1 (vat (mash_mu1 e V j p) r) zero
                                         (vat (vsqrt (diag (mash_U1 e V j p))) r)
                                         false true) /\
  mat_at (PosteriorMASH.zero_prob out) r j
  = mash_mix e w j (fun p => if degenerate (mash_U1 e V j p) r then one else zero).

(** The factorisations and inversions effect [j] needs all succeed. *)
Definition mash_lapack_ok (e : PosteriorMASH.t num) (j : nat) : Prop :=
  PosteriorMASH.Vinv_of e j = Some (mash_Vinv e j) /\
  forall p, (p < n_slices (PosteriorMASH.U_cube e))%nat ->
            PosteriorMASH.U0_of e (mash_Vinv e j) j p
            = Some (mash_U0 e (mash_Vinv e j) j p).

(** The output buffers have the shape the constructor gives them. *)
Definition mash_buffers (R J : nat) (e : PosteriorMASH.t num) : Prop :=
  (n_rows (PosteriorMASH.post_mean e) = R /\ n_cols (PosteriorMASH.post_mean e) = J) /\
  (n_rows (PosteriorMASH.post_var e) = R /\ n_cols (PosteriorMASH.post_var e) = J) /\
  (n_rows (PosteriorMASH.neg_prob e) = R /\ n_cols (PosteriorMASH.neg_prob e) = J) /\
  (n_rows (PosteriorMASH.zero_prob e) = R /\ n_cols (PosteriorMASH.zero_prob e) = J).

(** Two engines with the same inputs and caches. *)
Definition mash_same_inputs (e e' : PosteriorMASH.t num) : Prop :=
  PosteriorMASH.b_mat e' = PosteriorMASH.b_mat e /\
  PosteriorMASH.s_obj e' = PosteriorMASH.s_obj e /\
  PosteriorMASH.v_mat e' = PosteriorMASH.v_mat e /\
  PosteriorMASH.l_mat e' = PosteriorMASH.l_mat e /\
  PosteriorMASH.a_mat e' = PosteriorMASH.a_mat e /\
  PosteriorMASH.U_cube e' = PosteriorMASH.U_cube e /\
  PosteriorMASH.Vinv_cube e' = PosteriorMASH.Vinv_cube e /\
  PosteriorMASH.U0_cube e' = PosteriorMASH.U0_cube e.

End MashSpec.

(** The per-component quantities of the shared-covariance multivariate
    engine.  [V] is [Vinv]. *)
Section MashComcovSpec.
Context {num : Type} {SC : Scalar num} {LM : Libm num} {LA : Lapack num}.
Local Open Scope num_scope.

Definition comcov_Vinv (e : PosteriorMASH.t num) : mat num :=
  the empty_mat (PosteriorMASH.Vinv_comcov e).

Definition comcov_U0 (e : PosteriorMASH.t num) (V : mat num) (p : nat) : mat num :=
  the empty_mat (PosteriorMASH.U0_comcov e V p).

Definition comcov_mu1 (e : PosteriorMASH.t num) (V : mat num) (p : nat) : mat num :=
  PosteriorMASH.mu1_comcov e V (comcov_U0 e V p).

Definition comcov_U1 (e : PosteriorMASH.t num) (V : mat num) (p : nat) : mat num :=
  PosteriorMASH.U1_comcov e (comcov_U0 e V p).

(** [posterior_weights.at(p, j) * (U1 + mu1_mat.col(j) * mu1_mat.col(j).t())]. *)
Definition comcov_moment (e : PosteriorMASH.t num) (w V : mat num) (j p : nat) : mat num :=
  mscale (mat_at w p j)
         (madd (comcov_U1 e V p)
               (outer (col (comcov_mu1 e V p) j) (col (comcov_mu1 e V p) j))).

(** Slice [j] of [post_cov] after [compute_posterior_comcov], given the
    posterior mean [pm] it leaves, for the report types that write it. *)
Definition comcov_post_cov_slice (e : PosteriorMASH.t num) (w : mat num) (rt : Z)
           (pm : mat num) (j : nat) : mat num :=
  let acc := maccum (n_slices (PosteriorMASH.U_cube e))
                    (comcov_moment e w (comcov_Vinv e) j)
                    (slice (PosteriorMASH.post_cov e) j) in
  if (rt =? 4)%Z then msub acc (outer (col pm j) (col pm j)) else acc.

End MashComcovSpec.

(** The per-effect, per-component quantities of the single-effect-regression
    engine, general and shared-covariance. *)
Section MvserSpec.
Context {num : Type} {SC : Scalar num} {LM : Libm num} {LA : Lapack num}.
Local Open Scope num_scope.

Definition mvser_Vinv (e : MVSERMix.t num) (j : nat) : mat num :=
  the empty_mat (MVSERMix.Vinv_of e j).

Definition mvser_U0 (e : MVSERMix.t num) (V : mat num) (j p : nat) : mat num :=
  the empty_mat (MVSERMix.U0_of e V j p).

Definition mvser_mu1 (e : MVSERMix.t num) (V : mat num) (j p : nat) : vec num :=
  MVSERMix.mu1_of e V (mvser_U0 e V j p) j.

Definition mvser_U1 (e : MVSERMix.t num) (V : mat num) (j p : nat) : mat num :=
  MVSERMix.U1_of e (mvser_U0 e V j p) j.

(** The matrix [mu2_mat = U1 + mu1_mat.col(p) * mu1_mat.col(p).t()] of effect
    [j] and component [p]. *)
Definition mvser_mu2_mat (e : MVSERMix.t num) (j p : nat) : mat num :=
  let V := mvser_Vinv e j in
  let mu1 := mk_vec (n_rows (MVSERMix.post_mean e)) (vat (mvser_mu1 e V j p)) in
  madd (mvser_U1 e V j p) (outer mu1 mu1).

(** [mu2_cube.slice(p)] after the loop over the effects: the sum over the
    effects [j] of [posterior_variable_weights(p, j) * mu2_mat], accumulated
    from zero. *)
Definition mvser_mu2_slice (e : MVSERMix.t num) (pvw : mat num) (p : nat) : mat num :=
  maccum (n_cols (MVSERMix.post_mean e))
         (fun j => mscale (mat_at pvw p j) (mvser_mu2_mat e j p))
         (zeros (n_rows (MVSERMix.post_mean e)) (n_rows (MVSERMix.post_mean e))).

Definition mvser_comcov_Vinv (e : MVSERMix.t num) : mat num :=
  the empty_mat (MVSERMix.Vinv_comcov e).

Definition mvser_comcov_U0 (e : MVSERMix.t num) (p : nat) : mat num :=
  the empty_mat (MVSERMix.U0_comcov e (mvser_comcov_Vinv e) p).

Definition mvser_comcov_mu1 (e : MVSERMix.t num) (p : nat) : mat num :=
  MVSERMix.mu1_comcov e (mvser_comcov_Vinv e) (mvser_comcov_U0 e p).

Definition mvser_comcov_U1 (e : MVSERMix.t num) (p : nat) : mat num :=
  MVSERMix.U1_comcov e (mvser_comcov_U0 e p).

(** The matrix [mu2_mat = U1 + mu1_mat.col(j) * mu1_mat.col(j).t()] of the
    shared-covariance variant. *)
Definition mvser_comcov_mu2_mat (e : MVSERMix.t num) (j p : nat) : mat num :=
  madd (mvser_comcov_U1 e p)
       (outer (col (mvser_comcov_mu1 e p) j) (col (mvser_comcov_mu1 e p) j)).

Definition mvser_comcov_mu2_slice (e : MVSERMix.t num) (pvw : mat num) (p : nat) : mat num :=
  maccum (n_cols (MVSERMix.post_mean e))
         (fun j => mscale (mat_at pvw p j) (mvser_comcov_mu2_mat e j p))
         (zeros (n_rows (MVSERMix.post_mean e)) (n_rows (MVSERMix.post_mean e))).

(** Two engines with the same inputs and caches. *)
Definition mvser_same_inputs (e e' : MVSERMix.t num) : Prop :=
  MVSERMix.b_mat e' = MVSERMix.b_mat e /\
  MVSERMix.s_obj e' = MVSERMix.s_obj e /\
  MVSERMix.v_mat e' = MVSERMix.v_mat e /\
  MVSERMix.U_cube e' = MVSERMix.U_cube e /\
  MVSERMix.Vinv_cube e' = MVSERMix.Vinv_cube e /\
  MVSERMix.U0_cube e' = MVSERMix.U0_cube e /\
  MVSERMix.Uinv_cube e' = MVSERMix.Uinv_cube e.

End MvserSpec.

(** ** Examples *)

(** The engine of the examples at binary64: two conditions, one effect
    [b = (1, 0)] with standard errors [(1, 1)], [V = I], one component [U = I],
    no embedding. *)
Definition example_engine : PosteriorMASH.t float :=
  PosteriorMASH.new (Mat 2 1 [[1%float; 0%float]]) (Mat 2 1 [[1%float; 1%float]])
                    empty_mat empty_mat (Tiny.m2 1%float 0%float 0%float 1%float)
                    empty_mat empty_mat
                    (Cube 2 2 [Tiny.m2 1%float 0%float 0%float 1%float]).

Definition example_weights : mat float := Mat 1 1 [[1%float]].


(** The single-effect-regression engine on the same data, with the inverse
    prior covariance [Uinv = I] injected. *)
Definition example_mvser : MVSERMix.t float :=
  snd (MVSERMix.set_Uinv
         (MVSERMix.new (Mat 2 1 [[1%float; 0%float]]) (Mat 2 1 [[1%float; 1%float]])
                       empty_mat empty_mat (Tiny.m2 1%float 0%float 0%float 1%float)
                       (Cube 2 2 [Tiny.m2 1%float 0%float 0%float 1%float])
                       (fun _ => nan))
         (Cube 2 2 [Tiny.m2 1%float 0%float 0%float 1%float])).




(** The general engine over the reals: one condition, one effect [b = 1]
    with standard error [1], [V = 1], and two components of prior variance
    [1] and [0] with the weights [1/2] and [1/2]. *)
Definition example_real_engine : PosteriorMASH.t R :=
  PosteriorMASH.new (Tiny.m1 1%R) empty_mat empty_mat empty_mat (Tiny.m1 1%R)
                    empty_mat empty_mat (Cube 1 1 [Tiny.m1 1%R; Tiny.m1 0%R]).

Definition example_real_weights : mat R := Mat 2 1 [[(/ 2)%R; (/ 2)%R]].


(** ** Linear algebra over the reals, for the statements in exact arithmetic *)

Section RealSpec.
Local Open Scope R_scope.

(** The matrix-vector product [A x] and the quadratic form [x' A x] of an
    n x n matrix, on vectors given as functions. *)
Definition mv (n : nat) (A : mat R) (x : nat -> R) : nat -> R :=
  fun i => sum_n n (fun k => mat_at A i k * x k).

Definition quad (n : nat) (A : mat R) (x : nat -> R) : R :=
  sum_n n (fun i => x i * mv n A x i).

(** Positive semi-definite: [x' A x >= 0] for every [x]. *)
Definition psd (n : nat) (A : mat R) : Prop := forall x, 0 <= quad n A x.

Definition square (n : nat) (A : mat R) : Prop := n_rows A = n /\ n_cols A = n.

Definition symmetric (n : nat) (A : mat R) : Prop :=
  forall r c, (r < n)%nat -> (c < n)%nat -> mat_at A r c = mat_at A c r.

(** The identity matrix, and [T] as a right inverse and as an inverse of [S]. *)
Definition eye (n : nat) : mat R := mk_mat n n (fun r c => if (r =? c)%nat then 1 else 0).

Definition right_inverse (n : nat) (S T : mat R) : Prop :=
  forall r c, (r < n)%nat -> (c < n)%nat ->
              mat_at (mmul S T) r c = if (r =? c)%nat then 1 else 0.

Definition is_inverse (n : nat) (S T : mat R) : Prop :=
  right_inverse n S T /\ right_inverse n T S.

Definition invertible (n : nat) (S : mat R) : Prop :=
  exists T, square n T /\ is_inverse n S T.

(** What is assumed of LAPACK in exact arithmetic, on n x n matrices: a result
    of [X.i()], or of [inv_sympd(X)] on a symmetric [X], is an n x n inverse of
    [X]; and [X.i()] succeeds on an invertible matrix. *)
Definition inv_sound (LA : Lapack R) (n : nat) : Prop :=
  forall S T, square n S -> inv S = Some T -> square n T /\ is_inverse n S T.

Definition inv_exact (LA : Lapack R) (n : nat) : Prop :=
  inv_sound LA n /\
  forall S, square n S -> invertible n S -> inv S <> None.

Definition inv_sympd_sound (LA : Lapack R) (n : nat) : Prop :=
  forall S T, square n S -> symmetric n S -> inv_sympd S = Some T ->
              square n T /\ is_inverse n S T.

End RealSpec.

(** ** The single-effect-regression engine seen as a general engine *)

Section MvserAsMash.
Context {num : Type}.





End MvserAsMash.

(** ** The covariance as the comments of the code write it *)

Section DiagSpec.
Local Open Scope R_scope.

(** [arma::diagmat(s)]: the code's comment gives [get_cov] as
    [diagmat(s) * V * diagmat(s)]. *)
Definition diagmat (s : vec R) : mat R :=
  mk_mat (n_elem s) (n_elem s) (fun r c => if (r =? c)%nat then vat s r else 0).

(** The bilinear form [x' A y] of an n x n matrix. *)
Definition bil (n : nat) (A : mat R) (x y : nat -> R) : R :=
  sum_n n (fun i => x i * mv n A y i).

End DiagSpec.

(** ** The univariate problem as a multivariate problem with one condition *)

Section OneCondition.
Context {num : Type} {SC : Scalar num}.

(** A vector of [J] numbers as the 1 x J matrix the multivariate functions
    take, and [P] variances as a cube of [P] 1 x 1 matrices. *)
Definition row_mat (v : vec num) : mat num := mk_mat 1 (n_elem v) (fun _ j => vat v j).

Definition scalars_cube (U : vec num) : cube num :=
  Cube 1 1 (tab (n_elem U) (fun p => Tiny.m1 (vat U p))).

End OneCondition.

Section CholSpec.
Local Open Scope R_scope.

(** What is assumed of LAPACK in exact arithmetic on 1 x 1 matrices: a result
    of [chol(X)] is the positive square root of the entry, and a result of
    [inv(trimatu(X))] is the reciprocal of the entry; [chol] succeeds on a
    positive entry and [inv(trimatu(X))] on an entry that is not 0. *)
Definition chol_sound_1 (LA : Lapack R) : Prop :=
  forall X C, square 1 X -> chol X = Some C ->
              square 1 C /\ 0 < mat_at C 0 0 /\ mat_at C 0 0 * mat_at C 0 0 = mat_at X 0 0.

Definition inv_trimatu_sound_1 (LA : Lapack R) : Prop :=
  forall C T, square 1 C -> inv_trimatu C = Some T ->
              square 1 T /\ mat_at T 0 0 * mat_at C 0 0 = 1.

Definition chol_exact_1 (LA : Lapack R) : Prop :=
  chol_sound_1 LA /\
  forall X, square 1 X -> 0 < mat_at X 0 0 -> chol X <> None.

Definition inv_trimatu_exact_1 (LA : Lapack R) : Prop :=
  inv_trimatu_sound_1 LA /\
  forall C, square 1 C -> mat_at C 0 0 <> 0 -> inv_trimatu C <> None.

End CholSpec.

(** ** The degenerate rows in the shared-covariance engines *)

Section ComcovMarks.
Context {num : Type} {SC : Scalar num} {LM : Libm num} {LA : Lapack num}.
Local Open Scope num_scope.






End ComcovMarks.

(** ** The shapes [PosteriorMASH::compute_posterior] relies on *)

Section Conformance.
Context {num : Type} {SC : Scalar num}.

Definition sized (r c : nat) (m : mat num) : Prop := n_rows m = r /\ n_cols m = c.

(** The operands conform, for [n] conditions, [Q] reported rows, [J] effects
    and [P = U_cube.n_slices] components: [b_mat], [s_obj.get_original()] and
    [s_obj.get()] are n x J, so that every [.col(j)] exists; [v_mat] is n x n;
    [l_mat] is empty or n x n; [a_mat] is empty (and then [Q = n]) or Q x n;
    every slice of [U_cube] is n x n; [Vinv_cube] is empty or holds J slices
    that are n x n, so that [Vinv_cube.slice(j)] exists; [U0_cube] is empty or
    holds J * P slices that are n x n, so that
    [U0_cube.slice(j * U_cube.n_slices + p)] exists; [post_cov] holds J slices
    that are Q x Q; and [posterior_weights] is P x J, so that
    [posterior_weights.col(j)] and [posterior_weights.at(p, j)] exist. *)
Definition mash_conformant (n Q J : nat) (e : PosteriorMASH.t num) (w : mat num) : Prop :=
  let P := n_slices (PosteriorMASH.U_cube e) in
  sized n J (PosteriorMASH.b_mat e) /\
  sized n J (SE.get_original (PosteriorMASH.s_obj e)) /\
  sized n J (SE.get (PosteriorMASH.s_obj e)) /\
  sized n n (PosteriorMASH.v_mat e) /\
  (mat_is_empty (PosteriorMASH.l_mat e) = true \/ sized n n (PosteriorMASH.l_mat e)) /\
  (mat_is_empty (PosteriorMASH.a_mat e) = true /\ Q = n \/
   mat_is_empty (PosteriorMASH.a_mat e) = false /\ sized Q n (PosteriorMASH.a_mat e)) /\
  (forall p, (p < P)%nat -> sized n n (slice (PosteriorMASH.U_cube e) p)) /\
  (cube_is_empty (PosteriorMASH.Vinv_cube e) = true \/
   n_slices (PosteriorMASH.Vinv_cube e) = J /\
   forall j, (j < J)%nat -> sized n n (slice (PosteriorMASH.Vinv_cube e) j)) /\
  (cube_is_empty (PosteriorMASH.U0_cube e) = true \/
   n_slices (PosteriorMASH.U0_cube e) = (J * P)%nat /\
   forall k, (k < J * P)%nat -> sized n n (slice (PosteriorMASH.U0_cube e) k)) /\
  (n_slices (PosteriorMASH.post_cov e) = J /\
   forall j, (j < J)%nat -> sized Q Q (slice (PosteriorMASH.post_cov e) j)) /\
  sized P J w.

End Conformance.
(** * Properties *)

(** ** The containers *)

Section ArmaFacts.
Context {num : Type} {SC : Scalar num}.
Local Open Scope num_scope.

Lemma length_tab {A : Type} (n : nat) (f : nat -> A) : length (tab n f) = n.
Proof. unfold tab. now rewrite length_map, length_seq. Qed.

Lemma nth_tab {A : Type} (n : nat) (f : nat -> A) (d : A) (i : nat) :
  (i < n)%nat -> nth i (tab n f) d = f i.
Proof.
  intros Hi. unfold tab.
  rewrite nth_indep with (d' := f 0%nat) by (now rewrite length_map, length_seq).
  rewrite map_nth, seq_nth; auto.
Qed.

Lemma nth_tab_out {A : Type} (n : nat) (f : nat -> A) (d : A) (i : nat) :
  (n <= i)%nat -> nth i (tab n f) d = d.
Proof. intros Hi. apply nth_overflow. now rewrite length_tab. Qed.

Lemma tab_ext {A : Type} (n : nat) (f g : nat -> A) :
  (forall i, (i < n)%nat -> f i = g i) -> tab n f = tab n g.
Proof.
  intros E. unfold tab. apply map_ext_in. intros i Hi.
  apply in_seq in Hi. apply E. lia.
Qed.

Lemma n_elem_mk_vec (n : nat) (f : nat -> num) : n_elem (mk_vec n f) = n.
Proof. apply length_tab. Qed.

Lemma vat_mk_vec (n : nat) (f : nat -> num) (i : nat) :
  (i < n)%nat -> vat (mk_vec n f) i = f i.
Proof. intros Hi. unfold vat, mk_vec. now apply nth_tab. Qed.


Lemma vat_out (v : vec num) (i : nat) : (n_elem v <= i)%nat -> vat v i = zero.
Proof. intros Hi. unfold vat. now apply nth_overflow. Qed.

Lemma mk_vec_ext (n : nat) (f g : nat -> num) :
  (forall i, (i < n)%nat -> f i = g i) -> mk_vec n f = mk_vec n g.
Proof. apply tab_ext. Qed.

Lemma mk_vec_vat (v : vec num) : mk_vec (n_elem v) (vat v) = v.
Proof.
  apply nth_ext with (d := zero) (d' := zero).
  - apply n_elem_mk_vec.
  - intros i Hi. rewrite n_elem_mk_vec in Hi. now apply vat_mk_vec.
Qed.

Lemma vec_ext (u v : vec num) :
  n_elem u = n_elem v ->
  (forall i, (i < n_elem u)%nat -> vat u i = vat v i) ->
  u = v.
Proof. intros Hlen Hval. now apply nth_ext with (d := zero) (d' := zero). Qed.

Lemma n_elem_vmap (f : num -> num) (v : vec num) : n_elem (vmap f v) = n_elem v.
Proof. apply length_map. Qed.

Lemma vat_vmap (f : num -> num) (v : vec num) (i : nat) :
  (i < n_elem v)%nat -> vat (vmap f v) i = f (vat v i).
Proof.
  intros Hi. unfold vat, vmap.
  rewrite nth_indep with (d' := f zero) by (now rewrite length_map).
  apply map_nth.
Qed.

Lemma n_elem_vmap2 (f : num -> num -> num) (u v : vec num) :
  n_elem (vmap2 f u v) = n_elem u.
Proof. apply n_elem_mk_vec. Qed.

Lemma vat_vmap2 (f : num -> num -> num) (u v : vec num) (i : nat) :
  (i < n_elem u)%nat -> vat (vmap2 f u v) i = f (vat u i) (vat v i).
Proof. intros Hi. unfold vmap2. now rewrite vat_mk_vec. Qed.

Lemma mat_at_mk_mat (R C : nat) (f : nat -> nat -> num) (r c : nat) :
  (r < R)%nat -> (c < C)%nat -> mat_at (mk_mat R C f) r c = f r c.
Proof.
  intros Hr Hc. unfold mat_at, mk_mat; cbn [cols].
  rewrite (nth_tab _ _ _ _ Hc).
  change (vat (mk_vec R (fun r0 => f r0 c)) r = f r c).
  now rewrite vat_mk_vec.
Qed.


Lemma mk_mat_ext (R C : nat) (f g : nat -> nat -> num) :
  (forall r c, (r < R)%nat -> (c < C)%nat -> f r c = g r c) ->
  mk_mat R C f = mk_mat R C g.
Proof.
  intros E. unfold mk_mat. f_equal.
  apply tab_ext. intros c Hc. apply tab_ext. intros r Hr. now apply E.
Qed.

Lemma n_elem_col (m : mat num) (j : nat) : n_elem (col m j) = n_rows m.
Proof. apply n_elem_mk_vec. Qed.

Lemma vat_col (m : mat num) (j r : nat) :
  (r < n_rows m)%nat -> vat (col m j) r = mat_at m r j.
Proof. intros Hr. unfold col. now rewrite vat_mk_vec. Qed.

Lemma n_elem_row (m : mat num) (r : nat) : n_elem (row m r) = n_cols m.
Proof. apply n_elem_mk_vec. Qed.

Lemma vat_row (m : mat num) (r c : nat) :
  (c < n_cols m)%nat -> vat (row m r) c = mat_at m r c.
Proof. intros Hc. unfold row. now rewrite vat_mk_vec. Qed.

Lemma n_elem_vset (v : vec num) (i : nat) (x : num) : n_elem (vset v i x) = n_elem v.
Proof. apply n_elem_mk_vec. Qed.

Lemma vat_vset (v : vec num) (i k : nat) (x : num) :
  (k < n_elem v)%nat -> vat (vset v i x) k = if (k =? i)%nat then x else vat v k.
Proof. intros Hk. unfold vset. now rewrite vat_mk_vec. Qed.

Lemma mat_at_set_col (m : mat num) (j : nat) (v : vec num) (r c : nat) :
  (r < n_rows m)%nat -> (c < n_cols m)%nat ->
  mat_at (set_col m j v) r c = if (c =? j)%nat then vat v r else mat_at m r c.
Proof. intros Hr Hc. unfold set_col. now rewrite mat_at_mk_mat. Qed.

Lemma mat_at_set_row (m : mat num) (i : nat) (v : vec num) (r c : nat) :
  (r < n_rows m)%nat -> (c < n_cols m)%nat ->
  mat_at (set_row m i v) r c = if (r =? i)%nat then vat v c else mat_at m r c.
Proof. intros Hr Hc. unfold set_row. now rewrite mat_at_mk_mat. Qed.

Lemma mat_at_set_at (m : mat num) (i j : nat) (x : num) (r c : nat) :
  (r < n_rows m)%nat -> (c < n_cols m)%nat ->
  mat_at (set_at m i j x) r c
  = if ((r =? i) && (c =? j))%nat then x else mat_at m r c.
Proof. intros Hr Hc. unfold set_at. now rewrite mat_at_mk_mat. Qed.

Lemma n_slices_set_slice (c : cube num) (k : nat) (m : mat num) :
  n_slices (set_slice c k m) = n_slices c.
Proof. unfold n_slices, set_slice; simpl. apply length_tab. Qed.

Lemma slice_set_slice (c : cube num) (k i : nat) (m : mat num) :
  (i < n_slices c)%nat ->
  slice (set_slice c k m) i = if (i =? k)%nat then m else slice c i.
Proof. intros Hi. unfold slice at 1, set_slice; simpl. now rewrite nth_tab. Qed.

Lemma n_slices_czeros (R C S : nat) : n_slices (czeros R C S) = S.
Proof. unfold n_slices, czeros; simpl. apply length_tab. Qed.

Lemma slice_czeros (R C S k : nat) : slice (czeros R C S) k = zeros R C.
Proof.
  unfold slice, czeros; simpl.
  destruct (Nat.lt_ge_cases k S) as [Hk | Hk].
  - now rewrite nth_tab.
  - now rewrite nth_tab_out.
Qed.

Lemma sum_n_ext (n : nat) (f g : nat -> num) :
  (forall i, (i < n)%nat -> f i = g i) -> sum_n n f = sum_n n g.
Proof.
  intros E. induction n as [| n IH]; cbn [sum_n]; [reflexivity |].
  rewrite IH by (intros i Hi; apply E; lia). now rewrite E by lia.
Qed.

Lemma dot_row_col (m w : mat num) (r j : nat) :
  dot (row m r) (col w j) = sum_n (n_cols m) (fun p => mat_at m r p * vat (col w j) p).
Proof.
  unfold dot. rewrite n_elem_row. apply sum_n_ext.
  intros p Hp. now rewrite vat_row.
Qed.

Lemma vat_mvmul (m : mat num) (v : vec num) (r : nat) :
  (r < n_rows m)%nat ->
  vat (mvmul m v) r = sum_n (n_cols m) (fun k => mat_at m r k * vat v k).
Proof. intros Hr. unfold mvmul. now rewrite vat_mk_vec. Qed.

Lemma n_elem_mvmul (m : mat num) (v : vec num) : n_elem (mvmul m v) = n_rows m.
Proof. apply n_elem_mk_vec. Qed.

(** *** Loops *)

Lemma for_loop_inv {S : Type} (Inv : nat -> S -> Prop) (n : nat)
      (body : nat -> S -> S) (s : S) :
  Inv 0%nat s ->
  (forall k st, (k < n)%nat -> Inv k st -> Inv (Datatypes.S k) (body k st)) ->
  Inv n (for_loop n body s).
Proof.
  intros H0 Hstep. induction n as [| n IH]; simpl.
  - exact H0.
  - apply Hstep; [lia |]. apply IH. intros k st Hk. apply Hstep. lia.
Qed.

Lemma for_loopM_inv {S : Type} (Inv : nat -> S -> Prop) (n : nat)
      (body : nat -> S -> option S) (s s' : S) :
  Inv 0%nat s ->
  (forall k st st', (k < n)%nat -> Inv k st -> body k st = Some st' ->
                    Inv (Datatypes.S k) st') ->
  for_loopM n body s = Some s' ->
  Inv n s'.
Proof.
  intros H0 Hstep. revert s'. induction n as [| n IH]; simpl; intros s' E.
  - now inversion E; subst.
  - destruct (for_loopM n body s) as [m |] eqn:Em; [| discriminate].
    apply (Hstep n m s'); [lia | | exact E].
    apply IH; [| reflexivity]. intros k st st' Hk. apply Hstep. lia.
Qed.

Lemma for_loopM_total {S : Type} (n : nat) (body : nat -> S -> option S) (s : S) :
  (forall k st, (k < n)%nat -> exists st', body k st = Some st') ->
  exists s', for_loopM n body s = Some s'.
Proof.
  intros Hbody. induction n as [| n IH]; simpl.
  - now exists s.
  - destruct IH as [m Em]; [intros k st Hk; apply Hbody; lia |].
    rewrite Em. apply Hbody. lia.
Qed.

End ArmaFacts.

Section CubeFacts.
Context {num : Type} {SC : Scalar num}.
Local Open Scope num_scope.

Lemma slice_add_shape (c : cube num) (j : nat) (M : mat num) :
  c_rows (slice_add c j M) = c_rows c /\
  c_cols (slice_add c j M) = c_cols c /\
  n_slices (slice_add c j M) = n_slices c.
Proof. unfold slice_add. repeat split. apply n_slices_set_slice. Qed.

Lemma slice_slice_add (c : cube num) (j i : nat) (M : mat num) :
  (i < n_slices c)%nat ->
  slice (slice_add c j M) i = if (i =? j)%nat then madd (slice c j) M else slice c i.
Proof. intros Hi. unfold slice_add. now apply slice_set_slice. Qed.

Lemma slice_sub_shape (c : cube num) (j : nat) (M : mat num) :
  c_rows (slice_sub c j M) = c_rows c /\
  c_cols (slice_sub c j M) = c_cols c /\
  n_slices (slice_sub c j M) = n_slices c.
Proof. unfold slice_sub. repeat split. apply n_slices_set_slice. Qed.

Lemma slice_slice_sub (c : cube num) (j i : nat) (M : mat num) :
  (i < n_slices c)%nat ->
  slice (slice_sub c j M) i = if (i =? j)%nat then msub (slice c j) M else slice c i.
Proof. intros Hi. unfold slice_sub. now apply slice_set_slice. Qed.

End CubeFacts.

(** ** Loops that fill a matrix *)

Section FillFacts.
Context {num : Type} {SC : Scalar num}.
Local Open Scope num_scope.

Lemma tabulated_mk_mat (R C : nat) (f : nat -> nat -> num) : tabulated (mk_mat R C f).
Proof.
  unfold tabulated. cbn [n_rows n_cols mk_mat].
  apply mk_mat_ext. intros r c Hr Hc. now rewrite mat_at_mk_mat.
Qed.

Lemma tabulated_ext (a b : mat num) :
  tabulated a -> tabulated b ->
  n_rows a = n_rows b -> n_cols a = n_cols b ->
  (forall r c, (r < n_rows a)%nat -> (c < n_cols a)%nat -> mat_at a r c = mat_at b r c) ->
  a = b.
Proof.
  intros Ta Tb Hr Hc E. rewrite Ta, Tb, <- Hr, <- Hc. now apply mk_mat_ext.
Qed.

Lemma tabulated_set_col (m : mat num) (j : nat) (v : vec num) : tabulated (set_col m j v).
Proof. apply tabulated_mk_mat. Qed.

Lemma tabulated_set_at (m : mat num) (i j : nat) (x : num) : tabulated (set_at m i j x).
Proof. apply tabulated_mk_mat. Qed.

Lemma tabulated_set_row (m : mat num) (i : nat) (v : vec num) : tabulated (set_row m i v).
Proof. apply tabulated_mk_mat. Qed.

(** The shape and the entries of a matrix whose columns [0 .. n-1] were
    assigned in a loop. *)
Lemma for_loop_set_col (n : nat) (g : nat -> vec num) (m0 : mat num) :
  let m := for_loop n (fun p lik => set_col lik p (g p)) m0 in
  n_rows m = n_rows m0 /\ n_cols m = n_cols m0 /\
  (tabulated m0 -> tabulated m) /\
  forall r c, (r < n_rows m0)%nat -> (c < n_cols m0)%nat ->
              mat_at m r c = if (c <? n)%nat then vat (g c) r else mat_at m0 r c.
Proof.
  induction n as [| n (IHr & IHc & IHt & IHv)]; cbn [for_loop].
  - repeat split; auto.
  - repeat split.
    + exact IHr.
    + exact IHc.
    + intros _. apply tabulated_set_col.
    + intros r c Hr Hc.
      rewrite mat_at_set_col by (rewrite ?IHr, ?IHc; assumption).
      destruct (Nat.eqb_spec c n) as [-> | Hne].
      * now replace (n <? S n)%nat with true by (symmetry; apply Nat.ltb_lt; lia).
      * rewrite IHv by assumption.
        destruct (Nat.ltb_spec c n), (Nat.ltb_spec c (S n)); try lia; reflexivity.
Qed.

(** The same for the entries [(j, 0 .. n-1)] of one row. *)
Lemma for_loop_set_at_row (n j : nat) (h : nat -> num) (m0 : mat num) :
  let m := for_loop n (fun p lik => set_at lik j p (h p)) m0 in
  n_rows m = n_rows m0 /\ n_cols m = n_cols m0 /\
  (tabulated m0 -> tabulated m) /\
  forall r c, (r < n_rows m0)%nat -> (c < n_cols m0)%nat ->
              mat_at m r c
              = if ((r =? j) && (c <? n))%nat then h c else mat_at m0 r c.
Proof.
  induction n as [| n (IHr & IHc & IHt & IHv)]; cbn [for_loop].
  - repeat split; auto. intros r c _ _. now rewrite andb_false_r.
  - repeat split.
    + exact IHr.
    + exact IHc.
    + intros _. apply tabulated_set_at.
    + intros r c Hr Hc.
      rewrite mat_at_set_at by (rewrite ?IHr, ?IHc; assumption).
      rewrite IHv by assumption.
      destruct (Nat.eqb_spec r j) as [-> | Hrj]; cbn [andb]; [| reflexivity].
      destruct (Nat.eqb_spec c n) as [-> | Hne].
      * now replace (n <? S n)%nat with true by (symmetry; apply Nat.ltb_lt; lia).
      * destruct (Nat.ltb_spec c n), (Nat.ltb_spec c (S n)); try lia; reflexivity.
Qed.

(** Two nested loops that assign every entry [(j, p)]. *)
Lemma for_loop_set_at_all (n : nat) (h : nat -> nat -> num) (m0 : mat num) :
  let m := for_loop n (fun j lik =>
                         for_loop (n_cols lik) (fun p lik => set_at lik j p (h j p)) lik)
                    m0 in
  n_rows m = n_rows m0 /\ n_cols m = n_cols m0 /\
  (tabulated m0 -> tabulated m) /\
  forall r c, (r < n_rows m0)%nat -> (c < n_cols m0)%nat ->
              mat_at m r c = if (r <? n)%nat then h r c else mat_at m0 r c.
Proof.
  induction n as [| n (IHr & IHc & IHt & IHv)]; cbn [for_loop].
  - repeat split; auto.
  - match goal with
    | |- context [for_loop (n_cols ?init) ?body ?init] =>
        destruct (for_loop_set_at_row (n_cols init) n (h n) init) as (Hr' & Hc' & Ht' & Hv')
    end.
    repeat split.
    + now rewrite Hr'.
    + now rewrite Hc'.
    + intros T. apply Ht'. now apply IHt.
    + intros r c Hr Hc.
      rewrite Hv' by (rewrite ?IHr, ?IHc; assumption).
      rewrite IHv by assumption. rewrite IHc.
      replace (c <? n_cols m0)%nat with true by (symmetry; apply Nat.ltb_lt; exact Hc).
      rewrite andb_true_r.
      destruct (Nat.eqb_spec r n) as [-> | Hne].
      * now replace (n <? S n)%nat with true by (symmetry; apply Nat.ltb_lt; lia).
      * destruct (Nat.ltb_spec r n), (Nat.ltb_spec r (S n)); try lia; reflexivity.
Qed.

(** The rows that [mark_degenerate] overwrites in column [p]. *)
Lemma mark_degenerate_spec (n : nat) (sigma : vec num) (p : nat) (z0 n0 : mat num) :
  let zn := mark_degenerate n sigma p (z0, n0) in
  (n_rows (fst zn) = n_rows z0 /\ n_cols (fst zn) = n_cols z0) /\
  (n_rows (snd zn) = n_rows n0 /\ n_cols (snd zn) = n_cols n0) /\
  (tabulated z0 -> tabulated (fst zn)) /\
  (tabulated n0 -> tabulated (snd zn)) /\
  (forall r c, (r < n_rows z0)%nat -> (c < n_cols z0)%nat ->
     mat_at (fst zn) r c
     = if ((c =? p) && (r <? n))%nat && (vat sigma r ==? zero) then one
       else mat_at z0 r c) /\
  (forall r c, (r < n_rows n0)%nat -> (c < n_cols n0)%nat ->
     mat_at (snd zn) r c
     = if ((c =? p) && (r <? n))%nat && (vat sigma r ==? zero) then zero
       else mat_at n0 r c).
Proof.
  unfold mark_degenerate.
  induction n as [| n ((IHzr & IHzc) & (IHnr & IHnc) & IHzt & IHnt & IHz & IHn)];
    cbn [for_loop].
  - cbn [fst snd]. repeat split; auto;
      intros r c _ _; now rewrite andb_false_r.
  - set (prev := for_loop n _ (z0, n0)) in *.
    destruct (vat sigma n ==? zero) eqn:En.
    + cbn [fst snd]. repeat split; auto using tabulated_set_at.
      * intros r c Hr Hc.
        rewrite mat_at_set_at by (rewrite ?IHzr, ?IHzc; assumption).
        rewrite IHz by assumption.
        destruct (Nat.eqb_spec r n) as [-> | Hne].
        -- replace (n <? S n)%nat with true by (symmetry; apply Nat.ltb_lt; lia).
           replace (n <? n)%nat with false by (symmetry; apply Nat.ltb_ge; lia).
           rewrite En. now destruct (c =? p)%nat.
        -- cbn [andb].
           destruct (Nat.ltb_spec r n), (Nat.ltb_spec r (S n)); try lia; reflexivity.
      * intros r c Hr Hc.
        rewrite mat_at_set_at by (rewrite ?IHnr, ?IHnc; assumption).
        rewrite IHn by assumption.
        destruct (Nat.eqb_spec r n) as [-> | Hne].
        -- replace (n <? S n)%nat with true by (symmetry; apply Nat.ltb_lt; lia).
           replace (n <? n)%nat with false by (symmetry; apply Nat.ltb_ge; lia).
           rewrite En. now destruct (c =? p)%nat.
        -- cbn [andb].
           destruct (Nat.ltb_spec r n), (Nat.ltb_spec r (S n)); try lia; reflexivity.
    + repeat split; auto.
      * intros r c Hr Hc. rewrite IHz by assumption.
        destruct (Nat.eqb_spec r n) as [-> | Hne].
        -- replace (n <? n)%nat with false by (symmetry; apply Nat.ltb_ge; lia).
           rewrite En. now rewrite !andb_false_r.
        -- destruct (Nat.ltb_spec r n), (Nat.ltb_spec r (S n)); try lia; reflexivity.
      * intros r c Hr Hc. rewrite IHn by assumption.
        destruct (Nat.eqb_spec r n) as [-> | Hne].
        -- replace (n <? n)%nat with false by (symmetry; apply Nat.ltb_ge; lia).
           rewrite En. now rewrite !andb_false_r.
        -- destruct (Nat.ltb_spec r n), (Nat.ltb_spec r (S n)); try lia; reflexivity.
Qed.

(** The rows that [mark_degenerate_rows] overwrites. *)
Lemma mark_degenerate_rows_spec (Svec ones_row zeros_row : vec num) (z0 n0 : mat num) :
  let zn := mark_degenerate_rows Svec ones_row zeros_row (z0, n0) in
  (n_rows (fst zn) = n_rows z0 /\ n_cols (fst zn) = n_cols z0) /\
  (n_rows (snd zn) = n_rows n0 /\ n_cols (snd zn) = n_cols n0) /\
  (forall r c, (r < n_rows z0)%nat -> (c < n_cols z0)%nat ->
     mat_at (fst zn) r c
     = if (r <? n_elem Svec)%nat && (vat Svec r ==? zero) then vat ones_row c
       else mat_at z0 r c) /\
  (forall r c, (r < n_rows n0)%nat -> (c < n_cols n0)%nat ->
     mat_at (snd zn) r c
     = if (r <? n_elem Svec)%nat && (vat Svec r ==? zero) then vat zeros_row c
       else mat_at n0 r c).
Proof.
  unfold mark_degenerate_rows.
  induction (n_elem Svec) as [| n ((IHzr & IHzc) & (IHnr & IHnc) & IHz & IHn)];
    cbn [for_loop].
  - cbn [fst snd]. repeat split; auto.
  - set (prev := for_loop n _ (z0, n0)) in *.
    destruct (vat Svec n ==? zero) eqn:En.
    + cbn [fst snd]. repeat split; auto.
      * intros r c Hr Hc.
        rewrite mat_at_set_row by (rewrite ?IHzr, ?IHzc; assumption).
        rewrite IHz by assumption.
        destruct (Nat.eqb_spec r n) as [-> | Hne].
        -- replace (n <? S n)%nat with true by (symmetry; apply Nat.ltb_lt; lia).
           now rewrite En.
        -- destruct (Nat.ltb_spec r n), (Nat.ltb_spec r (S n)); try lia; reflexivity.
      * intros r c Hr Hc.
        rewrite mat_at_set_row by (rewrite ?IHnr, ?IHnc; assumption).
        rewrite IHn by assumption.
        destruct (Nat.eqb_spec r n) as [-> | Hne].
        -- replace (n <? S n)%nat with true by (symmetry; apply Nat.ltb_lt; lia).
           now rewrite En.
        -- destruct (Nat.ltb_spec r n), (Nat.ltb_spec r (S n)); try lia; reflexivity.
    + repeat split; auto.
      * intros r c Hr Hc. rewrite IHz by assumption.
        destruct (Nat.eqb_spec r n) as [-> | Hne].
        -- replace (n <? n)%nat with false by (symmetry; apply Nat.ltb_ge; lia).
           rewrite En. now rewrite !andb_false_r.
        -- destruct (Nat.ltb_spec r n), (Nat.ltb_spec r (S n)); try lia; reflexivity.
      * intros r c Hr Hc. rewrite IHn by assumption.
        destruct (Nat.eqb_spec r n) as [-> | Hne].
        -- replace (n <? n)%nat with false by (symmetry; apply Nat.ltb_ge; lia).
           rewrite En. now rewrite !andb_false_r.
        -- destruct (Nat.ltb_spec r n), (Nat.ltb_spec r (S n)); try lia; reflexivity.
Qed.

Lemma maccum_ext (n : nat) (F G : nat -> mat num) (M : mat num) :
  (forall p, (p < n)%nat -> F p = G p) -> maccum n F M = maccum n G M.
Proof.
  intros E. unfold maccum. induction n as [| n IH]; cbn [for_loop]; [reflexivity |].
  rewrite IH by (intros p Hp; apply E; lia). now rewrite E by lia.
Qed.

Lemma maccum_shape (n : nat) (F : nat -> mat num) (M : mat num) :
  n_rows (maccum n F M) = n_rows M /\ n_cols (maccum n F M) = n_cols M.
Proof.
  unfold maccum. induction n as [| n [IHr IHc]]; cbn [for_loop]; [now split |].
  unfold madd, mmap2. cbn [n_rows n_cols mk_mat]. now split.
Qed.

End FillFacts.

(** ** The density functions *)

Section DensityFacts.
Context {num : Type} {SC : Scalar num} {LM : Libm num} {DT : Datum num} {LA : Lapack num}.
Local Open Scope num_scope.

(** A loop that assigns [y] to the elements selected by [c]. *)
Lemma for_loop_vset_if (n : nat) (c : nat -> bool) (y : num) (v0 : vec num) :
  let out := for_loop n (fun i out => if c i then vset out i y else out) v0 in
  n_elem out = n_elem v0 /\
  forall i, (i < n_elem v0)%nat ->
            vat out i = if ((i <? n)%nat && c i)%bool then y else vat v0 i.
Proof.
  induction n as [| n [IHlen IHval]]; simpl.
  - split; [reflexivity |]. intros i Hi. reflexivity.
  - split.
    + destruct (c n); [rewrite n_elem_vset |]; exact IHlen.
    + intros i Hi.
      destruct (c n) eqn:Ecn.
      * rewrite vat_vset by (rewrite IHlen; exact Hi).
        destruct (Nat.eqb_spec i n) as [-> | Hne].
        -- rewrite Ecn. now replace (n <? S n)%nat with true by (symmetry; apply Nat.ltb_lt; lia).
        -- rewrite IHval by exact Hi.
           destruct (Nat.ltb_spec i n), (Nat.ltb_spec i (S n)); try lia; reflexivity.
      * rewrite IHval by exact Hi.
        destruct (Nat.ltb_spec i n), (Nat.ltb_spec i (S n)); try reflexivity; try lia.
        assert (i = n) by lia. subst i. now rewrite Ecn.
Qed.

(** A loop that assigns [g i] to every element [i]. *)
Lemma for_loop_vset_all (n : nat) (g : nat -> num) (v0 : vec num) :
  let out := for_loop n (fun i out => vset out i (g i)) v0 in
  n_elem out = n_elem v0 /\
  forall i, (i < n_elem v0)%nat ->
            vat out i = if (i <? n)%nat then g i else vat v0 i.
Proof.
  induction n as [| n [IHlen IHval]]; simpl.
  - split; [reflexivity |]. intros i Hi. reflexivity.
  - split.
    + rewrite n_elem_vset. exact IHlen.
    + intros i Hi. rewrite vat_vset by (rewrite IHlen; exact Hi).
      destruct (Nat.eqb_spec i n) as [-> | Hne].
      * now replace (n <? S n)%nat with true by (symmetry; apply Nat.ltb_lt; lia).
      * rewrite IHval by exact Hi.
        destruct (Nat.ltb_spec i n), (Nat.ltb_spec i (S n)); try lia; reflexivity.
Qed.

Lemma rooti_of_chol_fails (sigma : mat num) : chol sigma = None -> rooti_of sigma = None.
Proof. intros E. unfold rooti_of. now rewrite E. Qed.

Lemma dmvnorm_mat_caught (x : mat num) (mean : vec num) (sigma : mat num) (logd : bool) :
  rooti_of sigma = None ->
  n_elem (dmvnorm_mat x mean sigma logd false) = n_cols x /\
  forall i, (i < n_cols x)%nat ->
            vat (dmvnorm_mat x mean sigma logd false) i = point_mass (col x i) mean logd.
Proof.
  intros E. unfold dmvnorm_mat. rewrite E.
  set (fill := if logd then mk_vec (n_cols x) (fun _ => - datum_inf)
               else mk_vec (n_cols x) (fun _ => zero)).
  assert (Hfill : n_elem fill = n_cols x)
    by (unfold fill; destruct logd; apply n_elem_mk_vec).
  destruct (for_loop_vset_if (n_cols x)
              (fun i => l1_dist (col x i) mean <? eps6) datum_inf fill) as [Hlen Hval].
  split.
  - now rewrite Hlen.
  - intros i Hi. rewrite Hval by (now rewrite Hfill).
    replace (i <? n_cols x)%nat with true by (symmetry; apply Nat.ltb_lt; exact Hi).
    unfold point_mass; simpl.
    destruct (l1_dist (col x i) mean <? eps6); [reflexivity |].
    unfold fill. destruct logd; now rewrite vat_mk_vec.
Qed.

Lemma dmvnorm_caught (x mean : vec num) (sigma : mat num) (logd : bool) :
  rooti_of sigma = None ->
  dmvnorm x mean sigma logd false = point_mass x mean logd.
Proof.
  intros E. unfold dmvnorm, point_mass. rewrite E.
  now destruct logd, (l1_dist x mean <? eps6).
Qed.

End DensityFacts.

Section DensityFacts2.
Context {num : Type} {SC : Scalar num} {LM : Libm num} {DT : Datum num} {LA : Lapack num}.
Local Open Scope num_scope.

Lemma for_loop_vset_tab (n : nat) (g : nat -> num) :
  for_loop n (fun i out => vset out i (g i)) (vzeros n) = mk_vec n g.
Proof.
  destruct (for_loop_vset_all n g (vzeros n)) as [Hlen Hval].
  assert (Hz : n_elem (vzeros n) = n) by apply n_elem_mk_vec.
  apply vec_ext.
  - rewrite Hlen, Hz. symmetry. apply n_elem_mk_vec.
  - intros i Hi. rewrite Hlen, Hz in Hi.
    rewrite Hval by (now rewrite Hz). rewrite vat_mk_vec by exact Hi.
    now replace (i <? n)%nat with true by (symmetry; apply Nat.ltb_lt; exact Hi).
Qed.

Lemma vmap_mk_vec (f : num -> num) (n : nat) (g : nat -> num) :
  vmap f (mk_vec n g) = mk_vec n (fun i => f (g i)).
Proof. unfold vmap, mk_vec, tab. now rewrite map_map. Qed.

(** With [inversed = true] the matrix handed in is the whitening matrix. *)
Lemma dmvnorm_inversed (x mean : vec num) (M : mat num) (logd : bool) :
  dmvnorm x mean M logd true = whitened M x mean logd.
Proof. reflexivity. Qed.

Lemma dmvnorm_mat_inversed (x : mat num) (mean : vec num) (M : mat num) (logd : bool) :
  dmvnorm_mat x mean M logd true
  = mk_vec (n_cols x) (fun i => whitened M (col x i) mean logd).
Proof.
  unfold dmvnorm_mat. cbv zeta. cbv iota.
  rewrite for_loop_vset_tab.
  destruct logd.
  - apply mk_vec_ext. intros i Hi. unfold whitened. now rewrite n_elem_col.
  - rewrite vmap_mk_vec. apply mk_vec_ext. intros i Hi.
    unfold whitened. now rewrite n_elem_col.
Qed.

(** Column [i] of [dmvnorm_mat] is [dmvnorm] at column [i]. *)
Lemma dmvnorm_mat_col (x : mat num) (mean : vec num) (sigma : mat num)
      (logd inversed : bool) (i : nat) :
  (i < n_cols x)%nat ->
  vat (dmvnorm_mat x mean sigma logd inversed) i
  = dmvnorm (col x i) mean sigma logd inversed.
Proof.
  intros Hi.
  destruct inversed.
  - rewrite dmvnorm_mat_inversed, dmvnorm_inversed. now rewrite vat_mk_vec.
  - destruct (rooti_of sigma) as [rooti |] eqn:E.
    + unfold dmvnorm_mat, dmvnorm. rewrite E. cbv zeta.
      rewrite for_loop_vset_tab.
      destruct logd.
      * rewrite vat_mk_vec by exact Hi. now rewrite n_elem_col.
      * rewrite vmap_mk_vec, vat_mk_vec by exact Hi. now rewrite n_elem_col.
    + destruct (dmvnorm_mat_caught x mean sigma logd E) as [_ Hval].
      rewrite Hval by exact Hi. symmetry. now apply dmvnorm_caught.
Qed.

Lemma n_elem_dmvnorm_mat (x : mat num) (mean : vec num) (sigma : mat num)
      (logd inversed : bool) :
  n_elem (dmvnorm_mat x mean sigma logd inversed) = n_cols x.
Proof.
  destruct inversed.
  - rewrite dmvnorm_mat_inversed. apply n_elem_mk_vec.
  - destruct (rooti_of sigma) as [rooti |] eqn:E.
    + unfold dmvnorm_mat. rewrite E. cbv zeta.
      rewrite for_loop_vset_tab.
      destruct logd; [| rewrite n_elem_vmap]; apply n_elem_mk_vec.
    + now destruct (dmvnorm_mat_caught x mean sigma logd E) as [Hlen _].
Qed.

End DensityFacts2.

(** ** The likelihood matrix *)

Section LikFacts.
Context {num : Type} {SC : Scalar num} {LM : Libm num} {DT : Datum num} {LA : Lapack num}.
Local Open Scope num_scope.

(** The shared-covariance path, entry by entry. *)
Lemma calc_lik_common (b_mat s_mat v_mat l_mat : mat num) (U_cube : cube num) (logd : bool) :
  calc_lik b_mat s_mat v_mat l_mat U_cube logd true
  = mk_mat (n_cols b_mat) (n_slices U_cube)
           (fun j p => dmvnorm (col b_mat j) (vzeros (n_rows b_mat))
                               (madd (get_cov (col s_mat 0) v_mat l_mat) (slice U_cube p))
                               logd false).
Proof.
  unfold calc_lik. cbv zeta. cbv iota.
  set (J := n_cols b_mat). set (P := n_slices U_cube).
  set (g := fun p => dmvnorm_mat b_mat (vzeros (n_rows b_mat))
                       (madd (get_cov (col s_mat 0) v_mat l_mat) (slice U_cube p))
                       logd false).
  change (for_loop P (fun p lik => set_col lik p (g p)) (zeros J P)
          = mk_mat J P (fun j p => dmvnorm (col b_mat j) (vzeros (n_rows b_mat))
                               (madd (get_cov (col s_mat 0) v_mat l_mat) (slice U_cube p))
                               logd false)).
  destruct (for_loop_set_col P g (zeros J P)) as (Hr & Hc & Ht & Hv).
  apply tabulated_ext.
  - apply Ht. apply tabulated_mk_mat.
  - apply tabulated_mk_mat.
  - exact Hr.
  - exact Hc.
  - intros j p Hj Hp. rewrite Hr in Hj. rewrite Hc in Hp.
    change (n_rows (zeros J P)) with J in Hj.
    change (n_cols (zeros J P)) with P in Hp.
    rewrite Hv by assumption. rewrite mat_at_mk_mat by assumption.
    replace (p <? P)%nat with true by (symmetry; apply Nat.ltb_lt; exact Hp).
    unfold g. now apply dmvnorm_mat_col.
Qed.

(** The general path, entry by entry. *)
Lemma calc_lik_general (b_mat s_mat v_mat l_mat : mat num) (U_cube : cube num) (logd : bool) :
  calc_lik b_mat s_mat v_mat l_mat U_cube logd false
  = mk_mat (n_cols b_mat) (n_slices U_cube)
           (fun j p => dmvnorm (col b_mat j) (vzeros (n_rows b_mat))
                               (madd (get_cov (col s_mat j) v_mat l_mat) (slice U_cube p))
                               logd false).
Proof.
  unfold calc_lik. cbv zeta. cbv iota.
  set (J := n_cols b_mat). set (P := n_slices U_cube).
  set (h := fun j p => dmvnorm (col b_mat j) (vzeros (n_rows b_mat))
                         (madd (get_cov (col s_mat j) v_mat l_mat) (slice U_cube p))
                         logd false).
  change (for_loop J (fun j lik =>
                        for_loop (n_cols lik) (fun p lik => set_at lik j p (h j p)) lik)
                   (zeros J P)
          = mk_mat J P h).
  destruct (for_loop_set_at_all J h (zeros J P)) as (Hr & Hc & Ht & Hv).
  apply tabulated_ext.
  - apply Ht. apply tabulated_mk_mat.
  - apply tabulated_mk_mat.
  - exact Hr.
  - exact Hc.
  - intros j p Hj Hp. rewrite Hr in Hj. rewrite Hc in Hp.
    change (n_rows (zeros J P)) with J in Hj.
    change (n_cols (zeros J P)) with P in Hp.
    rewrite Hv by assumption. rewrite mat_at_mk_mat by assumption.
    now replace (j <? J)%nat with true by (symmetry; apply Nat.ltb_lt; exact Hj).
Qed.

End LikFacts.

(** ** The univariate engine *)

Section AshFacts.
Context {num : Type} {SC : Scalar num} {LM : Libm num}.
Local Open Scope num_scope.
Import PosteriorASH.

Lemma n_elem_vschur (u v : vec num) : n_elem (vschur u v) = n_elem u.
Proof. apply n_elem_vmap2. Qed.

Lemma vat_vschur (u v : vec num) (i : nat) :
  (i < n_elem u)%nat -> vat (vschur u v) i = vat u i * vat v i.
Proof. apply vat_vmap2. Qed.

Lemma n_elem_vinv_of (self : t num) : n_elem (vinv_of self) = n_elem (s_vec self).
Proof. unfold vinv_of. now rewrite !n_elem_vmap, n_elem_vschur. Qed.

Lemma vat_vinv_of (self : t num) (j : nat) :
  (j < n_elem (s_vec self))%nat ->
  vat (vinv_of self) j = closed_vinv (vat (s_vec self) j) (v self).
Proof.
  intros Hj. unfold vinv_of, closed_vinv.
  rewrite vat_vmap by (now rewrite n_elem_vmap, n_elem_vschur).
  rewrite vat_vmap by (now rewrite n_elem_vschur).
  now rewrite vat_vschur.
Qed.

Lemma n_elem_U1_of (self : t num) (vinv : vec num) (p : nat) :
  n_elem (U1_of self vinv p) = n_elem vinv.
Proof. unfold U1_of. now rewrite !n_elem_vmap. Qed.

Lemma vat_U1_of (self : t num) (vinv : vec num) (p j : nat) :
  (j < n_elem vinv)%nat ->
  vat (U1_of self vinv p) j = closed_U1 (vat vinv j) (vat (U_vec self) p).
Proof.
  intros Hj. unfold U1_of, closed_U1.
  rewrite vat_vmap by (now rewrite !n_elem_vmap).
  rewrite vat_vmap by (now rewrite n_elem_vmap).
  now rewrite vat_vmap.
Qed.

Lemma vat_mu1_of (self : t num) (vinv U1 : vec num) (j : nat) :
  (j < n_elem U1)%nat ->
  vat (mu1_of self vinv U1) j
  = closed_mu1 (vat U1 j) (vat vinv j) (vat (b_vec self) j) (vat (s_alpha_vec self) j).
Proof.
  intros Hj. unfold mu1_of, closed_mu1.
  rewrite vat_vschur by (now rewrite !n_elem_vschur).
  rewrite vat_vschur by (now rewrite n_elem_vschur).
  now rewrite vat_vschur.
Qed.

Lemma n_elem_U1_rescaled (self : t num) (U1 : vec num) :
  n_elem (U1_rescaled self U1) = n_elem U1.
Proof. apply n_elem_vschur. Qed.

Lemma vat_U1_rescaled (self : t num) (U1 : vec num) (j : nat) :
  (j < n_elem U1)%nat -> (j < n_elem (s_alpha_vec self))%nat ->
  vat (U1_rescaled self U1) j = closed_var (vat U1 j) (vat (s_alpha_vec self) j).
Proof.
  intros Hj Ha. unfold U1_rescaled, closed_var.
  rewrite vat_vschur by exact Hj. now rewrite vat_vschur.
Qed.

(** The four matrices of the loop over the components, entry by entry. *)
Definition ash_entries (self : t num) (st : locals num) (j p : nat) : Prop :=
  let vinv := closed_vinv (vat (s_vec self) j) (v self) in
  let U1 := closed_U1 vinv (vat (U_vec self) p) in
  let mu1 := closed_mu1 U1 vinv (vat (b_vec self) j) (vat (s_alpha_vec self) j) in
  let var := closed_var U1 (vat (s_alpha_vec self) j) in
  mat_at (mu1_mat st) j p = mu1 /\
  mat_at (mu2_mat st) j p = mu1 * mu1 + var /\
  mat_at (zero_mat st) j p = (if var ==? zero then one else zero) /\
  mat_at (neg_mat st) j p
  = (if var ==? zero then zero else pnorm1 mu1 zero (fsqrt var) false true).

Definition ash_shape (J P : nat) (st : locals num) : Prop :=
  (n_rows (mu1_mat st) = J /\ n_cols (mu1_mat st) = P) /\
  (n_rows (mu2_mat st) = J /\ n_cols (mu2_mat st) = P) /\
  (n_rows (zero_mat st) = J /\ n_cols (zero_mat st) = P) /\
  (n_rows (neg_mat st) = J /\ n_cols (neg_mat st) = P).

Lemma ash_component_step (self : t num) (k : nat) (st : locals num) :
  let J := n_elem (b_vec self) in
  let P := n_elem (U_vec self) in
  n_elem (s_vec self) = J ->
  n_elem (s_alpha_vec self) = J ->
  (k < P)%nat ->
  ash_shape J P st ->
  (forall j p, (j < J)%nat -> (p < P)%nat -> (k <= p)%nat -> mat_at (zero_mat st) j p = zero) ->
  let st' := component_step self (vinv_of self) (vzeros J) J k st in
  ash_shape J P st' /\
  (forall j, (j < J)%nat -> ash_entries self st' j k) /\
  (forall j p, (j < J)%nat -> (p < P)%nat -> p <> k ->
     mat_at (mu1_mat st') j p = mat_at (mu1_mat st) j p /\
     mat_at (mu2_mat st') j p = mat_at (mu2_mat st) j p /\
     mat_at (zero_mat st') j p = mat_at (zero_mat st) j p /\
     mat_at (neg_mat st') j p = mat_at (neg_mat st) j p).
Proof.
  intros J P Hs Ha Hk ((Hm1r & Hm1c) & (Hm2r & Hm2c) & (Hzr & Hzc) & (Hnr & Hnc)) Hzero st'.
  unfold component_step in st'.
  set (U1 := U1_of self (vinv_of self) k) in *.
  set (m1 := set_col (mu1_mat st) k (mu1_of self (vinv_of self) U1)) in *.
  set (U1r := U1_rescaled self U1) in *.
  set (m2 := set_col (mu2_mat st) k (vadd (vpow2 (col m1 k)) U1r)) in *.
  set (ng := set_col (neg_mat st) k (pnorm (col m1 k) (vzeros J) (vsqrt U1r) false true)) in *.
  destruct (mark_degenerate_spec J U1r k (zero_mat st) ng)
    as ((Zr & Zc) & (Nr & Nc) & _ & _ & Zv & Nv).
  assert (HU1 : n_elem U1 = J)
    by (unfold U1; now rewrite n_elem_U1_of, n_elem_vinv_of).
  assert (HU1r : n_elem U1r = J)
    by (unfold U1r; now rewrite n_elem_U1_rescaled).
  assert (Hm1 : forall j, (j < J)%nat ->
            mat_at m1 j k
            = closed_mu1 (closed_U1 (closed_vinv (vat (s_vec self) j) (v self))
                                    (vat (U_vec self) k))
                         (closed_vinv (vat (s_vec self) j) (v self))
                         (vat (b_vec self) j) (vat (s_alpha_vec self) j)).
  { intros j Hj. unfold m1.
    rewrite mat_at_set_col by lia. rewrite Nat.eqb_refl.
    rewrite vat_mu1_of by lia. unfold U1.
    rewrite vat_U1_of by (rewrite n_elem_vinv_of; lia).
    now rewrite vat_vinv_of by lia. }
  assert (Hvar : forall j, (j < J)%nat ->
            vat U1r j
            = closed_var (closed_U1 (closed_vinv (vat (s_vec self) j) (v self))
                                    (vat (U_vec self) k))
                         (vat (s_alpha_vec self) j)).
  { intros j Hj. unfold U1r. rewrite vat_U1_rescaled by lia. unfold U1.
    rewrite vat_U1_of by (rewrite n_elem_vinv_of; lia).
    now rewrite vat_vinv_of by lia. }
  assert (Hcol : forall j, (j < J)%nat -> vat (col m1 k) j = mat_at m1 j k).
  { intros j Hj. apply vat_col. unfold m1. cbn [n_rows set_col mk_mat]. lia. }
  subst st'. cbn [mu1_mat mu2_mat zero_mat neg_mat].
  split; [| split].
  - unfold ash_shape. cbn [mu1_mat mu2_mat zero_mat neg_mat].
    unfold m1, m2, ng in *. cbn [n_rows n_cols set_col mk_mat] in *.
    repeat split; lia.
  - intros j Hj. unfold ash_entries. cbn [mu1_mat mu2_mat zero_mat neg_mat]. cbv zeta.
    rewrite <- (Hvar j Hj), <- (Hm1 j Hj).
    split; [reflexivity |]. split; [| split].
    + unfold m2. rewrite mat_at_set_col by lia. rewrite Nat.eqb_refl.
      unfold vadd. rewrite vat_vmap2 by (unfold vpow2; rewrite n_elem_vmap, n_elem_col;
                                         unfold m1; cbn [n_rows set_col mk_mat]; lia).
      unfold vpow2. rewrite vat_vmap by (rewrite n_elem_col; unfold m1;
                                         cbn [n_rows set_col mk_mat]; lia).
      now rewrite Hcol.
    + rewrite Zv by lia. rewrite Nat.eqb_refl.
      replace (j <? J)%nat with true by (symmetry; apply Nat.ltb_lt; exact Hj).
      cbn [andb]. destruct (vat U1r j ==? zero); [reflexivity |].
      apply Hzero; lia.
    + rewrite Nv by (unfold ng; cbn [n_rows n_cols set_col mk_mat]; lia).
      rewrite Nat.eqb_refl.
      replace (j <? J)%nat with true by (symmetry; apply Nat.ltb_lt; exact Hj).
      cbn [andb]. destruct (vat U1r j ==? zero); [reflexivity |].
      unfold ng. rewrite mat_at_set_col by lia. rewrite Nat.eqb_refl.
      unfold pnorm. rewrite vat_mk_vec by (unfold vzeros; rewrite n_elem_mk_vec; exact Hj).
      rewrite Hcol by exact Hj.
      unfold vzeros. rewrite vat_mk_vec by exact Hj.
      unfold vsqrt. now rewrite vat_vmap by lia.
  - intros j p Hj Hp Hne.
    assert (E : (p =? k)%nat = false) by (now apply Nat.eqb_neq).
    repeat split.
    + unfold m1. rewrite mat_at_set_col by lia. now rewrite E.
    + unfold m2. rewrite mat_at_set_col by lia. now rewrite E.
    + rewrite Zv by lia. now rewrite E.
    + rewrite Nv by (unfold ng; cbn [n_rows n_cols set_col mk_mat]; lia).
      rewrite E. cbn [andb]. unfold ng. rewrite mat_at_set_col by lia. now rewrite E.
Qed.

(** After the loop over the components every entry holds the closed form. *)
Lemma ash_components_spec (self : t num) :
  let J := n_elem (b_vec self) in
  let P := n_elem (U_vec self) in
  n_elem (s_vec self) = J ->
  n_elem (s_alpha_vec self) = J ->
  ash_shape J P (components self) /\
  forall j p, (j < J)%nat -> (p < P)%nat -> ash_entries self (components self) j p.
Proof.
  intros J P Hs Ha. unfold components. cbv zeta. subst J P.
  set (J := n_elem (b_vec self)) in *. set (P := n_elem (U_vec self)) in *.
  set (Inv := fun (k : nat) (st : locals num) =>
                ash_shape J P st /\
                (forall j p, (j < J)%nat -> (p < P)%nat -> (p < k)%nat ->
                             ash_entries self st j p) /\
                (forall j p, (j < J)%nat -> (p < P)%nat -> (k <= p)%nat ->
                             mat_at (zero_mat st) j p = zero)).
  assert (H : Inv P (for_loop P (component_step self (vinv_of self) (vzeros J) J)
                              (Locals (zeros J P) (zeros J P) (zeros J P) (zeros J P)))).
  { apply for_loop_inv.
    - unfold Inv. split; [| split].
      + unfold ash_shape. cbn. repeat split.
      + intros j p _ _ Hp. lia.
      + intros j p Hj Hp _. cbn [zero_mat]. unfold zeros. now rewrite mat_at_mk_mat.
    - intros k st Hk (Hshape & Hdone & Hzero).
      destruct (ash_component_step self k st Hs Ha Hk Hshape Hzero) as (Hshape' & Hk' & Hother).
      fold J P in Hshape', Hk', Hother.
      unfold Inv. split; [exact Hshape' | split].
      + intros j p Hj Hp Hlt.
        destruct (Nat.eq_dec p k) as [-> | Hne]; [now apply Hk' |].
        destruct (Hother j p Hj Hp Hne) as (E1 & E2 & E3 & E4).
        specialize (Hdone j p Hj Hp ltac:(lia)).
        unfold ash_entries in *. cbv zeta in *.
        rewrite E1, E2, E3, E4. exact Hdone.
      + intros j p Hj Hp Hle.
        destruct (Hother j p Hj Hp ltac:(lia)) as (_ & _ & E3 & _).
        rewrite E3. apply Hzero; lia. }
  destruct H as (Hshape & Hdone & _).
  split; [exact Hshape |].
  intros j p Hj Hp. now apply Hdone.
Qed.

(** The loop over the effects that fills the four output vectors. *)
Lemma ash_output_loop (self : t num) (f1 f2 f3 f4 : nat -> num) (n : nat) :
  let out :=
    for_loop n
             (fun j (out : t num) =>
                Make (b_vec out) (s_vec out) (s_alpha_vec out) (v out) (U_vec out)
                     (vset (post_mean out) j (f1 j))
                     (vset (post_var out) j (f2 j))
                     (vset (neg_prob out) j (f3 j))
                     (vset (zero_prob out) j (f4 j)))
             self in
  (n_elem (post_mean out) = n_elem (post_mean self) /\
   n_elem (post_var out) = n_elem (post_var self) /\
   n_elem (neg_prob out) = n_elem (neg_prob self) /\
   n_elem (zero_prob out) = n_elem (zero_prob self)) /\
  (forall j, (j < n)%nat ->
     ((j < n_elem (post_mean self))%nat -> vat (post_mean out) j = f1 j) /\
     ((j < n_elem (post_var self))%nat -> vat (post_var out) j = f2 j) /\
     ((j < n_elem (neg_prob self))%nat -> vat (neg_prob out) j = f3 j) /\
     ((j < n_elem (zero_prob self))%nat -> vat (zero_prob out) j = f4 j)).
Proof.
  induction n as [| n ((L1 & L2 & L3 & L4) & IH)]; cbn [for_loop].
  - split; [repeat split |]. intros j Hj. lia.
  - cbn [post_mean post_var neg_prob zero_prob].
    split.
    + rewrite !n_elem_vset. repeat split; assumption.
    + intros j Hj.
      destruct (Nat.eq_dec j n) as [-> | Hne].
      * repeat split; intros Hlt; rewrite vat_vset by lia; now rewrite Nat.eqb_refl.
      * destruct (IH j ltac:(lia)) as (E1 & E2 & E3 & E4).
        assert (E : (j =? n)%nat = false) by (now apply Nat.eqb_neq).
        repeat split; intros Hlt; rewrite vat_vset by lia; rewrite E; auto.
Qed.

(** The outputs of [compute_posterior]: the mixtures of the per-component
    quantities, and the variance as second moment minus squared mean. *)
Lemma ash_compute_posterior_spec (self : t num) (w : mat num) :
  let J := n_elem (b_vec self) in
  let P := n_elem (U_vec self) in
  let st := components self in
  let mix := fun (m : mat num) (j : nat) =>
               sum_n P (fun p => mat_at m j p * vat (col w j) p) in
  n_elem (s_vec self) = J ->
  n_elem (s_alpha_vec self) = J ->
  n_elem (post_mean self) = J -> n_elem (post_var self) = J ->
  n_elem (neg_prob self) = J -> n_elem (zero_prob self) = J ->
  fst (compute_posterior self w) = 0%Z /\
  forall j, (j < J)%nat ->
    let e' := snd (compute_posterior self w) in
    vat (post_mean e') j = mix (mu1_mat st) j /\
    vat (post_var e') j
    = mix (mu2_mat st) j - mix (mu1_mat st) j * mix (mu1_mat st) j /\
    vat (neg_prob e') j = mix (neg_mat st) j /\
    vat (zero_prob e') j = mix (zero_mat st) j.
Proof.
  intros J P st mix Hs Ha H1 H2 H3 H4.
  split; [reflexivity |].
  intros j Hj e'.
  destruct (ash_components_spec self Hs Ha) as (((_ & C1) & (_ & C2) & (_ & C3) & (_ & C4)) & _).
  fold st in C1, C2, C3, C4. fold P in C1, C2, C3, C4.
  unfold compute_posterior in e'. cbv zeta in e'. fold J st in e'.
  match goal with
  | e' := snd (_, Make _ _ _ _ _ (post_mean ?o) _ _ _) |- _ =>
      set (out := o) in *
  end.
  destruct (ash_output_loop self
              (fun j => dot (row (mu1_mat st) j) (col w j))
              (fun j => dot (row (mu2_mat st) j) (col w j))
              (fun j => dot (row (neg_mat st) j) (col w j))
              (fun j => dot (row (zero_mat st) j) (col w j)) J)
    as ((L1 & L2 & L3 & L4) & Hout).
  fold out in L1, L2, L3, L4, Hout.
  destruct (Hout j Hj) as (E1 & E2 & E3 & E4).
  subst e'. cbn [snd post_mean post_var neg_prob zero_prob].
  rewrite E1, E3, E4 by lia.
  unfold vsub. rewrite vat_vmap2 by lia.
  unfold vpow2. rewrite vat_vmap by lia.
  rewrite E1, E2 by lia.
  rewrite !dot_row_col. rewrite C1, C2, C3, C4.
  repeat split.
Qed.

End AshFacts.

(** ** The loop over the components of the multivariate engines *)

Section ComponentFacts.
Context {num : Type} {SC : Scalar num} {LM : Libm num}.
Local Open Scope num_scope.

Lemma col_set_col (m : mat num) (p : nat) (v : vec num) :
  (p < n_cols m)%nat -> col (set_col m p v) p = mk_vec (n_rows m) (vat v).
Proof.
  intros Hp. unfold col. cbn [n_rows set_col mk_mat].
  apply mk_vec_ext. intros r Hr.
  rewrite mat_at_set_col by assumption. now rewrite Nat.eqb_refl.
Qed.

(** The three matrices [component_stats] returns. *)
Lemma component_stats_spec (mean : vec num) (p : nat) (U1 m1 d2 z n : mat num) (R P : nat) :
  n_elem mean = R ->
  (n_rows m1 = R /\ n_cols m1 = P) ->
  (n_rows d2 = R /\ n_cols d2 = P) ->
  (n_rows z = R /\ n_cols z = P) ->
  (n_rows n = R /\ n_cols n = P) ->
  (p < P)%nat ->
  let stats := component_stats mean p U1 m1 d2 z n in
  let d2' := fst stats in
  let z' := fst (snd stats) in
  let n' := snd (snd stats) in
  ((n_rows d2' = R /\ n_cols d2' = P) /\
   (n_rows z' = R /\ n_cols z' = P) /\
   (n_rows n' = R /\ n_cols n' = P)) /\
  (forall r, (r < R)%nat ->
     mat_at d2' r p = mat_at m1 r p * mat_at m1 r p + vat (diag U1) r /\
     mat_at z' r p = (if degenerate U1 r then one else mat_at z r p) /\
     mat_at n' r p
     = (if degenerate U1 r then zero
        else pnorm1 (mat_at m1 r p) (vat mean r) (vat (vsqrt (diag U1)) r) false true)) /\
  (forall r c, (r < R)%nat -> (c < P)%nat -> c <> p ->
     mat_at d2' r c = mat_at d2 r c /\
     mat_at z' r c = mat_at z r c /\
     mat_at n' r c = mat_at n r c).
Proof.
  intros Hmean (M1r & M1c) (D2r & D2c) (Zr & Zc) (Nr & Nc) Hp stats d2' z' n'.
  unfold component_stats in stats.
  set (sigma := vsqrt (diag U1)) in *.
  set (ng := set_col n p (pnorm (col m1 p) mean sigma false true)) in *.
  destruct (mark_degenerate_spec (n_elem sigma) sigma p z ng)
    as ((Zr' & Zc') & (Nr' & Nc') & _ & _ & Zv & Nv).
  subst d2' z' n' stats. cbn [fst snd].
  assert (Hcol : forall r, (r < R)%nat -> vat (col m1 p) r = mat_at m1 r p)
    by (intros r Hr; apply vat_col; lia).
  split; [| split].
  - unfold ng in *. cbn [n_rows n_cols set_col mk_mat] in *. repeat split; lia.
  - intros r Hr. split; [| split].
    + rewrite mat_at_set_col by lia. rewrite Nat.eqb_refl.
      unfold vadd. rewrite vat_vmap2 by (unfold vpow2; rewrite n_elem_vmap, n_elem_col; lia).
      unfold vpow2. rewrite vat_vmap by (rewrite n_elem_col; lia).
      now rewrite Hcol.
    + rewrite Zv by lia. now rewrite Nat.eqb_refl.
    + rewrite Nv by (unfold ng; cbn [n_rows n_cols set_col mk_mat]; lia).
      rewrite Nat.eqb_refl. cbn [andb]. unfold degenerate. fold sigma.
      destruct ((r <? n_elem sigma)%nat && (vat sigma r ==? zero)); [reflexivity |].
      unfold ng. rewrite mat_at_set_col by lia. rewrite Nat.eqb_refl.
      unfold pnorm. rewrite vat_mk_vec by lia. now rewrite Hcol.
  - intros r c Hr Hc Hne.
    assert (E : (c =? p)%nat = false) by (now apply Nat.eqb_neq).
    split; [| split].
    + rewrite mat_at_set_col by lia. now rewrite E.
    + rewrite Zv by lia. now rewrite E.
    + rewrite Nv by (unfold ng; cbn [n_rows n_cols set_col mk_mat]; lia).
      rewrite E. cbn [andb]. unfold ng. rewrite mat_at_set_col by lia. now rewrite E.
Qed.

(** A loop whose step [k] assigns column [k] of [mu1_mat] and then runs
    [component_stats]: what the two general engines have in common. *)
Section ColumnLoop.
Context {S : Type}.
Variables (get_mu1 get_d2 get_z get_n : S -> mat num).
Variable step : nat -> S -> option S.
Variables (R P : nat) (mean : vec num).
Variable mu1f : nat -> vec num.
Variable U1f : nat -> mat num.

Hypothesis Hmean : n_elem mean = R.
Hypothesis Hstep : forall k st st',
    step k st = Some st' ->
    get_mu1 st' = set_col (get_mu1 st) k (mu1f k) /\
    get_d2 st'
    = fst (component_stats mean k (U1f k) (get_mu1 st') (get_d2 st) (get_z st) (get_n st)) /\
    get_z st'
    = fst (snd (component_stats mean k (U1f k) (get_mu1 st') (get_d2 st) (get_z st)
                                (get_n st))) /\
    get_n st'
    = snd (snd (component_stats mean k (U1f k) (get_mu1 st') (get_d2 st) (get_z st)
                                (get_n st))).

Definition shape4 (st : S) : Prop :=
  (n_rows (get_mu1 st) = R /\ n_cols (get_mu1 st) = P) /\
  (n_rows (get_d2 st) = R /\ n_cols (get_d2 st) = P) /\
  (n_rows (get_z st) = R /\ n_cols (get_z st) = P) /\
  (n_rows (get_n st) = R /\ n_cols (get_n st) = P).

Definition entries4 (st : S) (r p : nat) : Prop :=
  mat_at (get_mu1 st) r p = vat (mu1f p) r /\
  mat_at (get_d2 st) r p = vat (mu1f p) r * vat (mu1f p) r + vat (diag (U1f p)) r /\
  mat_at (get_z st) r p = (if degenerate (U1f p) r then one else zero) /\
  mat_at (get_n st) r p
  = (if degenerate (U1f p) r then zero
     else pnorm1 (vat (mu1f p) r) (vat mean r) (vat (vsqrt (diag (U1f p))) r) false true).

Lemma column_step (k : nat) (st st' : S) :
  (k < P)%nat ->
  shape4 st ->
  (forall r p, (r < R)%nat -> (p < P)%nat -> (k <= p)%nat -> mat_at (get_z st) r p = zero) ->
  step k st = Some st' ->
  shape4 st' /\
  (forall r, (r < R)%nat -> entries4 st' r k) /\
  (forall r p, (r < R)%nat -> (p < P)%nat -> p <> k ->
     mat_at (get_mu1 st') r p = mat_at (get_mu1 st) r p /\
     mat_at (get_d2 st') r p = mat_at (get_d2 st) r p /\
     mat_at (get_z st') r p = mat_at (get_z st) r p /\
     mat_at (get_n st') r p = mat_at (get_n st) r p).
Proof.
  intros Hk ((M1r & M1c) & HD2 & HZ & HN) Hzero E.
  destruct (Hstep k st st' E) as (E1 & E2 & E3 & E4).
  assert (HM1' : n_rows (get_mu1 st') = R /\ n_cols (get_mu1 st') = P)
    by (rewrite E1; cbn [n_rows n_cols set_col mk_mat]; split; assumption).
  destruct (component_stats_spec mean k (U1f k) (get_mu1 st') (get_d2 st) (get_z st)
              (get_n st) R P Hmean HM1' HD2 HZ HN Hk) as (Hshape & Hcol & Hother).
  cbv zeta in Hshape, Hcol, Hother. rewrite <- E2, <- E3, <- E4 in Hshape, Hcol, Hother.
  assert (Hm1 : forall r, (r < R)%nat -> mat_at (get_mu1 st') r k = vat (mu1f k) r).
  { intros r Hr. rewrite E1. rewrite mat_at_set_col by lia. now rewrite Nat.eqb_refl. }
  split; [| split].
  - unfold shape4. tauto.
  - intros r Hr. destruct (Hcol r Hr) as (C1 & C2 & C3).
    unfold entries4. rewrite C1, C2, C3, (Hm1 r Hr).
    repeat split. rewrite (Hzero r k Hr Hk (Nat.le_refl k)). reflexivity.
  - intros r p Hr Hp Hne. destruct (Hother r p Hr Hp Hne) as (O1 & O2 & O3).
    repeat split; try assumption.
    rewrite E1. rewrite mat_at_set_col by lia.
    now replace (p =? k)%nat with false by (symmetry; now apply Nat.eqb_neq).
Qed.

Definition column_inv (k : nat) (st : S) : Prop :=
  shape4 st /\
  (forall r p, (r < R)%nat -> (p < P)%nat -> (p < k)%nat -> entries4 st r p) /\
  (forall r p, (r < R)%nat -> (p < P)%nat -> (k <= p)%nat -> mat_at (get_z st) r p = zero).

Lemma column_inv_step (k : nat) (st st' : S) :
  (k < P)%nat -> column_inv k st -> step k st = Some st' -> column_inv (Datatypes.S k) st'.
Proof.
  intros Hk (Hshape & Hdone & Hzero) E.
  destruct (column_step k st st' Hk Hshape Hzero E) as (Hshape' & Hk' & Hother).
  split; [exact Hshape' | split].
  - intros r p Hr Hp Hlt.
    destruct (Nat.eq_dec p k) as [-> | Hne]; [now apply Hk' |].
    destruct (Hother r p Hr Hp Hne) as (E1 & E2 & E3 & E4).
    specialize (Hdone r p Hr Hp ltac:(lia)).
    unfold entries4 in *. rewrite E1, E2, E3, E4. exact Hdone.
  - intros r p Hr Hp Hle.
    destruct (Hother r p Hr Hp ltac:(lia)) as (_ & _ & E3 & _).
    rewrite E3. apply Hzero; lia.
Qed.

Lemma column_loop (st0 st : S) :
  shape4 st0 ->
  (forall r p, (r < R)%nat -> (p < P)%nat -> mat_at (get_z st0) r p = zero) ->
  for_loopM P step st0 = Some st ->
  shape4 st /\ forall r p, (r < R)%nat -> (p < P)%nat -> entries4 st r p.
Proof.
  intros Hshape Hzero E.
  assert (H : column_inv P st).
  { apply (for_loopM_inv column_inv P step st0 st).
    - split; [exact Hshape | split].
      + intros r p _ _ Hp. lia.
      + intros r p Hr Hp _. now apply Hzero.
    - intros k s s' Hk Hinv Es. now apply (column_inv_step k s s').
    - exact E. }
  destruct H as (Hs & Hdone & _). split; [exact Hs |].
  intros r p Hr Hp. now apply Hdone.
Qed.

End ColumnLoop.

End ComponentFacts.

(** ** PosteriorMASH::compute_posterior *)

Section MashFacts.
Context {num : Type} {SC : Scalar num} {LM : Libm num} {LA : Lapack num}.
Local Open Scope num_scope.
Import PosteriorMASH.

Section Components.
Variables (e : t num) (w : mat num) (rt : Z) (Vinv : mat num) (mean : vec num) (j : nat).
Let R := n_rows (post_mean e).
Let P := n_slices (U_cube e).

Lemma mash_step_four (k : nat) (st st' : locals num) :
  component_step e w rt Vinv mean j k st = Some st' ->
  U0_of e Vinv j k = Some (mash_U0 e Vinv j k) /\
  mu1_mat st' = set_col (mu1_mat st) k (mash_mu1 e Vinv j k) /\
  diag_mu2_mat st'
  = fst (component_stats mean k (mash_U1 e Vinv j k) (mu1_mat st')
                         (diag_mu2_mat st) (zero_mat st) (neg_mat st)) /\
  zero_mat st'
  = fst (snd (component_stats mean k (mash_U1 e Vinv j k) (mu1_mat st')
                              (diag_mu2_mat st) (zero_mat st) (neg_mat st))) /\
  neg_mat st'
  = snd (snd (component_stats mean k (mash_U1 e Vinv j k) (mu1_mat st')
                              (diag_mu2_mat st) (zero_mat st) (neg_mat st))) /\
  cov st'
  = if cov_gate rt
    then slice_add (cov st) j
           (mscale (mat_at w k j)
                   (madd (mash_U1 e Vinv j k)
                         (outer (col (mu1_mat st') k) (col (mu1_mat st') k))))
    else cov st.
Proof.
  unfold component_step, mash_mu1, mash_U1, mash_U0.
  destruct (U0_of e Vinv j k) as [U0 |]; [| discriminate].
  intros E. inversion E; subst st'; clear E. cbn [the mu1_mat diag_mu2_mat zero_mat neg_mat cov].
  repeat split.
Qed.

(** What the loop over the components leaves in the four matrices. *)
Lemma mash_components_four (st : locals num) :
  n_elem mean = R ->
  components e w rt Vinv mean j = Some st ->
  ((n_rows (mu1_mat st) = R /\ n_cols (mu1_mat st) = P) /\
   (n_rows (diag_mu2_mat st) = R /\ n_cols (diag_mu2_mat st) = P) /\
   (n_rows (zero_mat st) = R /\ n_cols (zero_mat st) = P) /\
   (n_rows (neg_mat st) = R /\ n_cols (neg_mat st) = P)) /\
  forall r p, (r < R)%nat -> (p < P)%nat ->
    mat_at (mu1_mat st) r p = vat (mash_mu1 e Vinv j p) r /\
    mat_at (diag_mu2_mat st) r p
    = vat (mash_mu1 e Vinv j p) r * vat (mash_mu1 e Vinv j p) r
      + vat (diag (mash_U1 e Vinv j p)) r /\
    mat_at (zero_mat st) r p
    = (if degenerate (mash_U1 e Vinv j p) r then one else zero) /\
    mat_at (neg_mat st) r p
    = (if degenerate (mash_U1 e Vinv j p) r then zero
       else pnorm1 (vat (mash_mu1 e Vinv j p) r) (vat mean r)
                   (vat (vsqrt (diag (mash_U1 e Vinv j p))) r) false true).
Proof.
  intros Hmean E. unfold components in E. fold R P in E.
  refine (column_loop mu1_mat diag_mu2_mat zero_mat neg_mat
            (component_step e w rt Vinv mean j) R P mean
            (mash_mu1 e Vinv j) (mash_U1 e Vinv j) Hmean _ _ st _ _ E).
  - intros k st0 st' Es. destruct (mash_step_four k st0 st' Es) as (_ & E1 & E2 & E3 & E4 & _).
    repeat split; assumption.
  - unfold shape4. cbn. repeat split.
  - intros r p Hr Hp. cbn [zero_mat]. unfold zeros. now rewrite mat_at_mk_mat.
Qed.

(** The factorisations the loop needed all succeeded. *)
Lemma mash_components_U0 (st : locals num) :
  components e w rt Vinv mean j = Some st ->
  forall p, (p < P)%nat -> U0_of e Vinv j p = Some (mash_U0 e Vinv j p).
Proof.
  intros E. unfold components in E. fold R P in E.
  refine (for_loopM_inv
            (fun k _ => forall p, (p < k)%nat -> U0_of e Vinv j p = Some (mash_U0 e Vinv j p))
            P _ _ st _ _ E).
  - intros p Hp. lia.
  - intros k s s' Hk IH Es p Hp.
    destruct (Nat.eq_dec p k) as [-> | Hne]; [| apply IH; lia].
    now destruct (mash_step_four k s s' Es) as (E0 & _).
Qed.

(** ... and the loop fails only when one of them does. *)
Lemma mash_components_total :
  (forall p, (p < P)%nat -> U0_of e Vinv j p <> None) ->
  exists st, components e w rt Vinv mean j = Some st.
Proof.
  intros H. unfold components. fold R P. apply for_loopM_total.
  intros k st Hk. unfold component_step.
  destruct (U0_of e Vinv j k) as [U0 |] eqn:E; [eauto |].
  now destruct (H k Hk).
Qed.

(** What the loop leaves in [post_cov]. *)
Lemma mash_components_cov (st : locals num) :
  components e w rt Vinv mean j = Some st ->
  if cov_gate rt
  then (c_rows (cov st) = c_rows (post_cov e) /\
        c_cols (cov st) = c_cols (post_cov e) /\
        n_slices (cov st) = n_slices (post_cov e)) /\
       forall i, (i < n_slices (post_cov e))%nat ->
         slice (cov st) i
         = if (i =? j)%nat
           then maccum P (mash_moment e w Vinv j) (slice (post_cov e) j)
           else slice (post_cov e) i
  else cov st = post_cov e.
Proof.
  intros E. unfold components in E. fold R P in E.
  refine (proj2 (for_loopM_inv
           (fun k st =>
              (n_rows (mu1_mat st) = R /\ n_cols (mu1_mat st) = P) /\
              if cov_gate rt
              then (c_rows (cov st) = c_rows (post_cov e) /\
                    c_cols (cov st) = c_cols (post_cov e) /\
                    n_slices (cov st) = n_slices (post_cov e)) /\
                   forall i, (i < n_slices (post_cov e))%nat ->
                     slice (cov st) i
                     = if (i =? j)%nat
                       then maccum k (mash_moment e w Vinv j) (slice (post_cov e) j)
                       else slice (post_cov e) i
              else cov st = post_cov e)
           P _ _ st _ _ E)).
  - cbn [mu1_mat cov]. split; [now split |].
    destruct (cov_gate rt); [| reflexivity].
    split; [repeat split |]. intros i Hi. unfold maccum. cbn [for_loop].
    destruct (Nat.eqb_spec i j) as [-> | _]; reflexivity.
  - intros k s s' Hk ((Mr & Mc) & IH) Es.
    destruct (mash_step_four k s s' Es) as (_ & E1 & _ & _ & _ & Ec).
    assert (Hshape : n_rows (mu1_mat s') = R /\ n_cols (mu1_mat s') = P)
      by (rewrite E1; cbn [n_rows n_cols set_col mk_mat]; now split).
    split; [exact Hshape |].
    destruct (cov_gate rt); [| now rewrite Ec].
    destruct IH as ((Cr & Cc & Cn) & IH).
    rewrite Ec.
    match goal with
    | |- context [slice_add (cov s) j ?M] =>
        destruct (slice_add_shape (cov s) j M) as (Sr & Sc & Sn)
    end.
    split; [repeat split; congruence |].
    intros i Hi. rewrite slice_slice_add by (now rewrite Cn).
    destruct (Nat.eqb_spec i j) as [-> | Hne]; [| now rewrite IH, (proj2 (Nat.eqb_neq i j) Hne)].
    rewrite IH by exact Hi. rewrite Nat.eqb_refl.
    unfold maccum at 2. cbn [for_loop]. fold (maccum k (mash_moment e w Vinv j) (slice (post_cov e) j)).
    f_equal. unfold mash_moment. do 2 f_equal.
    assert (Ecol : col (mu1_mat s') k = mash_mu1_col e Vinv j k).
    { rewrite E1. rewrite col_set_col by lia. unfold mash_mu1_col. fold R. now rewrite Mr. }
    now rewrite Ecol.
Qed.

End Components.

End MashFacts.

Section MashEffects.
Context {num : Type} {SC : Scalar num} {LM : Libm num} {LA : Lapack num}.
Local Open Scope num_scope.
Import PosteriorMASH.

(** The quantities of the specification depend on the inputs only. *)
Lemma mash_same_inputs_refl (e : t num) : mash_same_inputs e e.
Proof. unfold mash_same_inputs. repeat split. Qed.

Lemma mash_same_inputs_with_outputs (e self : t num) (pm pv np zp : mat num) (pc : cube num) :
  mash_same_inputs e self -> mash_same_inputs e (with_outputs self pm pv np zp pc).
Proof. intros H. exact H. Qed.

Lemma mash_same_inputs_funs (e self : t num) :
  mash_same_inputs e self ->
  n_rows (post_mean self) = n_rows (post_mean e) ->
  (forall j, Vinv_of self j = Vinv_of e j) /\
  (forall V j p, U0_of self V j p = U0_of e V j p) /\
  (forall V j p, mash_U0 self V j p = mash_U0 e V j p) /\
  (forall V j p, mash_mu1 self V j p = mash_mu1 e V j p) /\
  (forall V j p, mash_U1 self V j p = mash_U1 e V j p) /\
  (forall w V j p, mash_moment self w V j p = mash_moment e w V j p) /\
  n_slices (U_cube self) = n_slices (U_cube e).
Proof.
  destruct e, self. unfold mash_same_inputs. cbn.
  intros (-> & -> & -> & -> & -> & -> & -> & ->) HR.
  unfold mash_moment, mash_mu1_col, mash_U1, mash_mu1, mash_U0, Vinv_of, U0_of, mu1_of, U1_of.
  cbn. rewrite HR. repeat split.
Qed.

(** One turn of the loop over the effects. *)
Lemma mash_effect_step_spec (self self' : t num) (w : mat num) (rt : Z) (j R J : nat) :
  mash_buffers R J self ->
  (j < J)%nat ->
  effect_step w rt (vzeros R) j self = Some self' ->
  let V := mash_Vinv self j in
  let P := n_slices (U_cube self) in
  let mix := fun f : nat -> num => sum_n P (fun p => f p * vat (col w j) p) in
  mash_same_inputs self self' /\
  mash_buffers R J self' /\
  (Vinv_of self j = Some V /\
   forall p, (p < P)%nat -> U0_of self V j p = Some (mash_U0 self V j p)) /\
  (forall r, (r < R)%nat ->
     mat_at (post_mean self') r j = mix (fun p => vat (mash_mu1 self V j p) r) /\
     mat_at (post_var self') r j
     = mix (fun p => vat (mash_mu1 self V j p) r * vat (mash_mu1 self V j p) r
                     + vat (diag (mash_U1 self V j p)) r) /\
     mat_at (neg_prob self') r j
     = mix (fun p => if degenerate (mash_U1 self V j p) r then zero
                     else pnorm1 (vat (mash_mu1 self V j p) r) zero
                                 (vat (vsqrt (diag (mash_U1 self V j p))) r) false true) /\
     mat_at (zero_prob self') r j
     = mix (fun p => if degenerate (mash_U1 self V j p) r then one else zero)) /\
  (forall r c, (r < R)%nat -> (c < J)%nat -> c <> j ->
     mat_at (post_mean self') r c = mat_at (post_mean self) r c /\
     mat_at (post_var self') r c = mat_at (post_var self) r c /\
     mat_at (neg_prob self') r c = mat_at (neg_prob self) r c /\
     mat_at (zero_prob self') r c = mat_at (zero_prob self) r c) /\
  (if cov_gate rt
   then (c_rows (post_cov self') = c_rows (post_cov self) /\
         c_cols (post_cov self') = c_cols (post_cov self) /\
         n_slices (post_cov self') = n_slices (post_cov self)) /\
        forall i, (i < n_slices (post_cov self))%nat ->
          slice (post_cov self') i
          = if (i =? j)%nat then mash_post_cov_slice self w rt j
            else slice (post_cov self) i
   else post_cov self' = post_cov self).
Proof.
  intros ((PMr & PMc) & (PVr & PVc) & (NPr & NPc) & (ZPr & ZPc)) Hj E V P mix.
  unfold effect_step in E.
  destruct (Vinv_of self j) as [Vinv |] eqn:EV; [| discriminate].
  assert (HV : Vinv = V) by (unfold V, mash_Vinv; now rewrite EV).
  subst Vinv.
  destruct (components self w rt V (vzeros R) j) as [st |] eqn:Ec; [| discriminate].
  inversion E; subst self'; clear E.
  assert (Hmean : n_elem (vzeros R) = n_rows (post_mean self))
    by (unfold vzeros; rewrite n_elem_mk_vec; now symmetry).
  destruct (mash_components_four self w rt V (vzeros R) j st Hmean Ec)
    as (((M1r & M1c) & (D2r & D2c) & (Zr & Zc) & (Nr & Nc)) & Hent).
  rewrite PMr in *. fold P in M1c, D2c, Zc, Nc, Hent.
  pose proof (mash_components_U0 self w rt V (vzeros R) j st Ec) as HU0.
  pose proof (mash_components_cov self w rt V (vzeros R) j st Ec) as Hcov.
  cbn [post_mean post_var neg_prob zero_prob post_cov with_outputs].
  split; [apply mash_same_inputs_with_outputs, mash_same_inputs_refl |].
  split.
  { unfold mash_buffers. cbn [post_mean post_var neg_prob zero_prob with_outputs
                               n_rows n_cols set_col mk_mat]. tauto. }
  split; [split; [reflexivity | exact HU0] |].
  split.
  { intros r Hr.
    rewrite !mat_at_set_col by lia. rewrite Nat.eqb_refl.
    rewrite !vat_mvmul by lia. rewrite M1c, D2c, Zc, Nc. unfold mix.
    repeat split; apply sum_n_ext; intros p Hp; destruct (Hent r p Hr Hp) as (E1 & E2 & E3 & E4).
    - now rewrite E1.
    - now rewrite E2.
    - rewrite E4. unfold vzeros. now rewrite vat_mk_vec.
    - now rewrite E3. }
  split.
  { intros r c Hr Hc Hne.
    rewrite !mat_at_set_col by lia.
    replace (c =? j)%nat with false by (symmetry; now apply Nat.eqb_neq).
    repeat split. }
  unfold cov_gate in *.
  destruct ((rt =? 2) || (rt =? 4))%Z eqn:Eg.
  - destruct Hcov as ((Cr & Cc & Cn) & Hsl).
    assert (Epm : col (set_col (post_mean self) j (mvmul (mu1_mat st) (col w j))) j
                  = mash_post_mean_col self w j).
    { rewrite col_set_col by lia. unfold mash_post_mean_col. rewrite PMr.
      apply mk_vec_ext. intros r Hr. rewrite vat_mvmul by lia. rewrite M1c. fold P.
      apply sum_n_ext. intros p Hp. destruct (Hent r p Hr Hp) as (E1 & _). now rewrite E1. }
    unfold mash_post_cov_slice. fold P. fold V.
    destruct (rt =? 4)%Z eqn:E4.
    + match goal with
      | |- context [slice_sub (cov st) j ?M] =>
          destruct (slice_sub_shape (cov st) j M) as (Sr & Sc & Sn)
      end.
      split; [repeat split; congruence |].
      intros i Hi. rewrite slice_slice_sub by (now rewrite Cn).
      rewrite !(Hsl i Hi).
      destruct (Nat.eqb_spec i j) as [-> | Hne]; [| reflexivity].
      rewrite (Hsl j Hi), Nat.eqb_refl. now rewrite Epm.
    + split; [repeat split; assumption |]. exact Hsl.
  - assert (E4 : (rt =? 4)%Z = false) by (apply orb_false_iff in Eg; tauto).
    rewrite E4. exact Hcov.
Qed.

Lemma mash_same_inputs_trans (e self self' : t num) :
  mash_same_inputs e self -> mash_same_inputs self self' -> mash_same_inputs e self'.
Proof.
  unfold mash_same_inputs.
  intros (A1 & A2 & A3 & A4 & A5 & A6 & A7 & A8) (B1 & B2 & B3 & B4 & B5 & B6 & B7 & B8).
  repeat split; congruence.
Qed.

(** The state of the engine after the first [k] effects. *)
Definition mash_effects_inv (e : t num) (w : mat num) (rt : Z) (R J : nat)
           (k : nat) (self : t num) : Prop :=
  mash_same_inputs e self /\
  mash_buffers R J self /\
  (forall j, (j < k)%nat -> mash_lapack_ok e j) /\
  (forall r j, (r < R)%nat -> (j < J)%nat -> (j < k)%nat -> mash_mixed_at e w self r j) /\
  (if cov_gate rt
   then (c_rows (post_cov self) = c_rows (post_cov e) /\
         c_cols (post_cov self) = c_cols (post_cov e) /\
         n_slices (post_cov self) = n_slices (post_cov e)) /\
        forall i, (i < n_slices (post_cov e))%nat ->
          slice (post_cov self) i
          = if (i <? k)%nat then mash_post_cov_slice e w rt i
            else slice (post_cov e) i
   else post_cov self = post_cov e).

Lemma mash_effects_inv_step (e : t num) (w : mat num) (rt : Z) (R J : nat)
      (k : nat) (self self' : t num) :
  n_rows (post_mean e) = R ->
  (k < J)%nat ->
  mash_effects_inv e w rt R J k self ->
  effect_step w rt (vzeros R) k self = Some self' ->
  mash_effects_inv e w rt R J (S k) self'.
Proof.
  intros HR Hk (Hin & Hbuf & Hok & Hmix & Hcov) E.
  destruct (mash_effect_step_spec self self' w rt k R J Hbuf Hk E)
    as (Hin' & Hbuf' & (EV & EU) & Hcol & Hother & Hcov').
  assert (HRs : n_rows (post_mean self) = n_rows (post_mean e))
    by (destruct Hbuf as ((-> & _) & _); now symmetry).
  destruct (mash_same_inputs_funs e self Hin HRs) as (FV & FU0 & FmU0 & Fmu1 & FU1 & Fmom & FP).
  assert (FVinv : mash_Vinv self k = mash_Vinv e k)
    by (unfold mash_Vinv; now rewrite FV).
  rewrite FVinv in *. rewrite FP in *.
  split; [now apply (mash_same_inputs_trans e self self') |].
  split; [exact Hbuf' |].
  split.
  { intros j Hj. destruct (Nat.eq_dec j k) as [-> | Hne]; [| apply Hok; lia].
    split.
    - now rewrite <- FV.
    - intros p Hp. rewrite <- FU0, <- FmU0. now apply EU. }
  split.
  { intros r j Hr Hj Hlt. unfold mash_mixed_at, mash_mix. cbv zeta.
    destruct (Nat.eq_dec j k) as [-> | Hne].
    - destruct (Hcol r Hr) as (C1 & C2 & C3 & C4).
      rewrite C1, C2, C3, C4.
      repeat split; apply sum_n_ext; intros p Hp; now rewrite ?Fmu1, ?FU1.
    - destruct (Hother r j Hr Hj Hne) as (O1 & O2 & O3 & O4).
      rewrite O1, O2, O3, O4. apply Hmix; lia. }
  destruct (cov_gate rt).
  - destruct Hcov as ((Cr & Cc & Cn) & Hsl). destruct Hcov' as ((Cr' & Cc' & Cn') & Hsl').
    split; [repeat split; congruence |].
    intros i Hi. rewrite Hsl' by (now rewrite Cn). rewrite (Hsl i Hi).
    destruct (Nat.eqb_spec i k) as [-> | Hne].
    + replace (k <? S k)%nat with true by (symmetry; apply Nat.ltb_lt; lia).
      unfold mash_post_cov_slice, mash_post_mean_col.
      rewrite FVinv, FP, HRs. rewrite (Hsl k Hi).
      replace (k <? k)%nat with false by (symmetry; apply Nat.ltb_ge; lia).
      rewrite (maccum_ext _ (mash_moment self w (mash_Vinv e k) k)
                          (mash_moment e w (mash_Vinv e k) k))
        by (intros p _; apply Fmom).
      destruct (rt =? 4)%Z; [| reflexivity].
      f_equal. f_equal; apply mk_vec_ext; intros r Hr; apply sum_n_ext; intros p Hp;
        now rewrite Fmu1.
    + destruct (Nat.ltb_spec i k), (Nat.ltb_spec i (S k)); try lia; reflexivity.
  - now rewrite Hcov'.
Qed.

(** What [compute_posterior] leaves in the engine. *)
Lemma mash_compute_posterior_spec (e e' : t num) (w : mat num) (rt rc : Z) (R J : nat) :
  mash_buffers R J e ->
  compute_posterior e w rt = Some (rc, e') ->
  rc = 0%Z /\
  mash_same_inputs e e' /\
  mash_buffers R J e' /\
  (forall j, (j < J)%nat -> mash_lapack_ok e j) /\
  (forall r j, (r < R)%nat -> (j < J)%nat ->
     let V := mash_Vinv e j in
     let mean := mash_mix e w j (fun p => vat (mash_mu1 e V j p) r) in
     mat_at (post_mean e') r j = mean /\
     mat_at (post_var e') r j
     = mash_mix e w j (fun p => vat (mash_mu1 e V j p) r * vat (mash_mu1 e V j p) r
                                + vat (diag (mash_U1 e V j p)) r)
       - mean * mean /\
     mat_at (neg_prob e') r j
     = mash_mix e w j (fun p => if degenerate (mash_U1 e V j p) r then zero
                                else pnorm1 (vat (mash_mu1 e V j p) r) zero
                                            (vat (vsqrt (diag (mash_U1 e V j p))) r)
                                            false true) /\
     mat_at (zero_prob e') r j
     = mash_mix e w j (fun p => if degenerate (mash_U1 e V j p) r then one else zero)) /\
  (if cov_gate rt
   then (c_rows (post_cov e') = c_rows (post_cov e) /\
         c_cols (post_cov e') = c_cols (post_cov e) /\
         n_slices (post_cov e') = n_slices (post_cov e)) /\
        forall i, (i < n_slices (post_cov e))%nat ->
          slice (post_cov e') i
          = if (i <? J)%nat then mash_post_cov_slice e w rt i
            else slice (post_cov e) i
   else post_cov e' = post_cov e).
Proof.
  intros Hbuf E. unfold compute_posterior in E.
  pose proof Hbuf as ((PMr & PMc) & _).
  rewrite PMr, PMc in E.
  destruct (for_loopM J (effect_step w rt (vzeros R)) e) as [self |] eqn:El; [| discriminate].
  inversion E; subst rc e'; clear E.
  assert (Hinv : mash_effects_inv e w rt R J J self).
  { refine (for_loopM_inv (mash_effects_inv e w rt R J) J _ e self _ _ El).
    - split; [apply mash_same_inputs_refl |]. split; [exact Hbuf |].
      split; [intros j Hj; lia |]. split; [intros r j _ _ Hj; lia |].
      destruct (cov_gate rt); [| reflexivity].
      split; [repeat split |]. intros i Hi. reflexivity.
    - intros k s s' Hk Hs Es. now apply (mash_effects_inv_step e w rt R J k s s'). }
  destruct Hinv as (Hin & Hbuf' & Hok & Hmix & Hcov).
  pose proof Hbuf' as ((PMr' & PMc') & (PVr' & PVc') & HNP & HZP).
  cbn [post_mean post_var neg_prob zero_prob post_cov with_outputs].
  split; [reflexivity |].
  split; [now apply mash_same_inputs_with_outputs |].
  split.
  { unfold mash_buffers. cbn [post_mean post_var neg_prob zero_prob with_outputs].
    unfold msub, mmap2. cbn [n_rows n_cols mk_mat]. tauto. }
  split; [exact Hok |].
  split; [| exact Hcov].
  intros r j Hr Hj.
  destruct (Hmix r j Hr Hj Hj) as (M1 & M2 & M3 & M4). cbv zeta in M1, M2, M3, M4.
  repeat split; try assumption.
  unfold msub, mmap2, mpow2, mmap.
  rewrite mat_at_mk_mat by lia. rewrite mat_at_mk_mat by lia.
  now rewrite M1, M2.
Qed.

End MashEffects.

(** ** PosteriorMASH::compute_posterior_comcov *)

Section MashComcovFacts.
Context {num : Type} {SC : Scalar num} {LM : Libm num} {LA : Lapack num}.
Local Open Scope num_scope.
Import PosteriorMASH.

(** The [for (j ...)] loop inside the loop over the components. *)
Lemma comcov_effects_spec (w : mat num) (rt : Z) (Svec : vec num) (U1 mu1 : mat num)
      (p : nat) (sigma0 : mat num) (cov0 : cube num) :
  let sc := comcov_effects w rt Svec U1 mu1 p (sigma0, cov0) in
  let F := fun j => mscale (mat_at w p j) (madd U1 (outer (col mu1 j) (col mu1 j))) in
  (n_rows (fst sc) = n_rows sigma0 /\ n_cols (fst sc) = n_cols sigma0) /\
  (forall r c, (r < n_rows sigma0)%nat -> (c < n_cols sigma0)%nat ->
               mat_at (fst sc) r c = vat Svec r) /\
  (if cov_gate rt
   then (c_rows (snd sc) = c_rows cov0 /\ c_cols (snd sc) = c_cols cov0 /\
         n_slices (snd sc) = n_slices cov0) /\
        forall i, (i < n_slices cov0)%nat ->
          slice (snd sc) i
          = if (i <? n_cols sigma0)%nat then madd (slice cov0 i) (F i) else slice cov0 i
   else snd sc = cov0).
Proof.
  intros sc F. unfold comcov_effects in sc. cbn [fst] in sc.
  set (body := fun j (sc : mat num * cube num) =>
                 (set_col (fst sc) j Svec,
                  if ((rt =? 2) || (rt =? 4))%Z
                  then slice_add (snd sc) j (F j) else snd sc)).
  assert (H : forall n,
             let sc := for_loop n body (sigma0, cov0) in
             (n_rows (fst sc) = n_rows sigma0 /\ n_cols (fst sc) = n_cols sigma0) /\
             (forall r c, (r < n_rows sigma0)%nat -> (c < n_cols sigma0)%nat -> (c < n)%nat ->
                          mat_at (fst sc) r c = vat Svec r) /\
             (if cov_gate rt
              then (c_rows (snd sc) = c_rows cov0 /\ c_cols (snd sc) = c_cols cov0 /\
                    n_slices (snd sc) = n_slices cov0) /\
                   forall i, (i < n_slices cov0)%nat ->
                     slice (snd sc) i
                     = if (i <? n)%nat then madd (slice cov0 i) (F i) else slice cov0 i
              else snd sc = cov0)).
  { induction n as [| n ((IHr & IHc) & IHs & IHcov)]; cbn [for_loop].
    - cbn [fst snd]. split; [now split |]. split; [intros r c _ _ Hc; lia |].
      destruct (cov_gate rt); [| reflexivity]. split; [repeat split |]. reflexivity.
    - set (prev := for_loop n body (sigma0, cov0)) in *.
      unfold body. cbn [fst snd].
      split; [cbn [n_rows n_cols set_col mk_mat]; now split |].
      split.
      + intros r c Hr Hc Hlt. rewrite mat_at_set_col by lia.
        destruct (Nat.eqb_spec c n) as [-> | Hne]; [reflexivity |]. apply IHs; lia.
      + unfold cov_gate in *. destruct ((rt =? 2) || (rt =? 4))%Z; [| exact IHcov].
        destruct IHcov as ((Cr & Cc & Cn) & IHsl).
        destruct (slice_add_shape (snd prev) n (F n)) as (Sr & Sc & Sn).
        split; [repeat split; congruence |].
        intros i Hi. rewrite slice_slice_add by (now rewrite Cn).
        destruct (Nat.eqb_spec i n) as [-> | Hne].
        * rewrite (IHsl n Hi).
          replace (n <? n)%nat with false by (symmetry; apply Nat.ltb_ge; lia).
          now replace (n <? S n)%nat with true by (symmetry; apply Nat.ltb_lt; lia).
        * rewrite (IHsl i Hi).
          destruct (Nat.ltb_spec i n), (Nat.ltb_spec i (S n)); try lia; reflexivity. }
  specialize (H (n_cols sigma0)). cbv zeta in H. fold sc in H.
  destruct H as (Hshape & Hs & Hcov).
  split; [exact Hshape |]. split; [| exact Hcov].
  intros r c Hr Hc. now apply Hs.
Qed.

Lemma comcov_same_inputs_funs (e self : t num) :
  mash_same_inputs e self ->
  Vinv_comcov self = Vinv_comcov e /\
  (forall V p, U0_comcov self V p = U0_comcov e V p) /\
  (forall V p, comcov_U0 self V p = comcov_U0 e V p) /\
  (forall V p, comcov_mu1 self V p = comcov_mu1 e V p) /\
  (forall V p, comcov_U1 self V p = comcov_U1 e V p) /\
  (forall w V j p, comcov_moment self w V j p = comcov_moment e w V j p) /\
  n_slices (U_cube self) = n_slices (U_cube e).
Proof.
  destruct e, self. unfold mash_same_inputs. cbn.
  intros (-> & -> & -> & -> & -> & -> & -> & ->).
  repeat split.
Qed.

(** One turn of the loop over the components. *)
Lemma comcov_step_spec (w : mat num) (rt : Z) (Vinv mean : mat num)
      (ones_row zeros_row : vec num) (p : nat) (st st' : comcov_state num) :
  comcov_step w rt Vinv mean ones_row zeros_row p st = Some st' ->
  let self := cs_self st in
  let self' := cs_self st' in
  U0_comcov self Vinv p = Some (comcov_U0 self Vinv p) /\
  mash_same_inputs self self' /\
  (n_rows (post_mean self') = n_rows (post_mean self) /\
   n_cols (post_mean self') = n_cols (post_mean self)) /\
  (n_rows (cs_sigma st') = n_rows (cs_sigma st) /\
   n_cols (cs_sigma st') = n_cols (cs_sigma st)) /\
  (if cov_gate rt
   then (c_rows (post_cov self') = c_rows (post_cov self) /\
         c_cols (post_cov self') = c_cols (post_cov self) /\
         n_slices (post_cov self') = n_slices (post_cov self)) /\
        forall i, (i < n_slices (post_cov self))%nat ->
          slice (post_cov self') i
          = if (i <? n_cols (cs_sigma st))%nat
            then madd (slice (post_cov self) i) (comcov_moment self w Vinv i p)
            else slice (post_cov self) i
   else post_cov self' = post_cov self).
Proof.
  intros E self self'. unfold comcov_step in E. fold self in E.
  unfold comcov_moment, comcov_U1, comcov_mu1, comcov_U0.
  destruct (U0_comcov self Vinv p) as [U0 |]; [| discriminate].
  inversion E; subst st'; clear E. subst self'.
  cbn [the cs_self cs_sigma post_mean post_cov with_outputs].
  match goal with
  | |- context [comcov_effects w rt ?Sv ?U1 ?mu1 p (?s0, ?c0)] =>
      destruct (comcov_effects_spec w rt Sv U1 mu1 p s0 c0) as (Hshape & _ & Hcov)
  end.
  split; [reflexivity |].
  split; [apply mash_same_inputs_with_outputs, mash_same_inputs_refl |].
  split; [unfold madd, mmap2; cbn [n_rows n_cols mk_mat]; now split |].
  split; [exact Hshape |].
  exact Hcov.
Qed.

(** The state after the first [k] components. *)
Definition comcov_inv (e : t num) (w : mat num) (rt : Z) (R J : nat)
           (k : nat) (st : comcov_state num) : Prop :=
  let V := comcov_Vinv e in
  mash_same_inputs e (cs_self st) /\
  (n_rows (post_mean (cs_self st)) = R /\ n_cols (post_mean (cs_self st)) = J) /\
  (n_rows (cs_sigma st) = R /\ n_cols (cs_sigma st) = J) /\
  (forall p, (p < k)%nat -> U0_comcov e V p = Some (comcov_U0 e V p)) /\
  (if cov_gate rt
   then (c_rows (post_cov (cs_self st)) = c_rows (post_cov e) /\
         c_cols (post_cov (cs_self st)) = c_cols (post_cov e) /\
         n_slices (post_cov (cs_self st)) = n_slices (post_cov e)) /\
        forall i, (i < n_slices (post_cov e))%nat ->
          slice (post_cov (cs_self st)) i
          = if (i <? J)%nat
            then maccum k (comcov_moment e w V i) (slice (post_cov e) i)
            else slice (post_cov e) i
   else post_cov (cs_self st) = post_cov e).

Lemma comcov_inv_step (e : t num) (w : mat num) (rt : Z) (R J : nat) (mean : mat num)
      (ones_row zeros_row : vec num) (k : nat) (st st' : comcov_state num) :
  comcov_inv e w rt R J k st ->
  comcov_step w rt (comcov_Vinv e) mean ones_row zeros_row k st = Some st' ->
  comcov_inv e w rt R J (S k) st'.
Proof.
  intros (Hin & (PMr & PMc) & (Sr & Sc) & Hok & Hcov) E.
  destruct (comcov_step_spec w rt (comcov_Vinv e) mean ones_row zeros_row k st st' E)
    as (EU & Hin' & (PMr' & PMc') & (Sr' & Sc') & Hcov').
  destruct (comcov_same_inputs_funs e (cs_self st) Hin)
    as (_ & FU0 & FmU0 & _ & _ & Fmom & _).
  unfold comcov_inv. cbv zeta.
  split; [now apply (mash_same_inputs_trans e (cs_self st)) |].
  split; [split; congruence |].
  split; [split; congruence |].
  split.
  { intros p Hp. destruct (Nat.eq_dec p k) as [-> | Hne]; [| apply Hok; lia].
    rewrite <- FU0, <- FmU0. exact EU. }
  destruct (cov_gate rt).
  - destruct Hcov as ((Cr & Cc & Cn) & Hsl). destruct Hcov' as ((Cr' & Cc' & Cn') & Hsl').
    split; [repeat split; congruence |].
    intros i Hi. rewrite Hsl' by (now rewrite Cn). rewrite Sc, (Hsl i Hi).
    destruct (i <? J)%nat; [| reflexivity].
    unfold maccum at 2. cbn [for_loop].
    fold (maccum k (comcov_moment e w (comcov_Vinv e) i) (slice (post_cov e) i)).
    now rewrite Fmom.
  - now rewrite Hcov'.
Qed.

(** The final loop that subtracts the outer products of the mean. *)
Lemma comcov_subtract_spec (n : nat) (pm : mat num) (c0 : cube num) :
  let c := for_loop n (fun j c => slice_sub c j (outer (col pm j) (col pm j))) c0 in
  (c_rows c = c_rows c0 /\ c_cols c = c_cols c0 /\ n_slices c = n_slices c0) /\
  forall i, (i < n_slices c0)%nat ->
    slice c i = if (i <? n)%nat then msub (slice c0 i) (outer (col pm i) (col pm i))
                else slice c0 i.
Proof.
  induction n as [| n ((Cr & Cc & Cn) & IH)]; cbn [for_loop].
  - split; [repeat split |]. reflexivity.
  - match goal with
    | |- context [slice_sub ?c n ?M] =>
        destruct (slice_sub_shape c n M) as (Sr & Sc & Sn)
    end.
    split; [repeat split; congruence |].
    intros i Hi. rewrite slice_slice_sub by (now rewrite Cn).
    destruct (Nat.eqb_spec i n) as [-> | Hne].
    + rewrite (IH n Hi).
      replace (n <? n)%nat with false by (symmetry; apply Nat.ltb_ge; lia).
      now replace (n <? S n)%nat with true by (symmetry; apply Nat.ltb_lt; lia).
    + rewrite (IH i Hi).
      destruct (Nat.ltb_spec i n), (Nat.ltb_spec i (S n)); try lia; reflexivity.
Qed.

(** What [compute_posterior_comcov] leaves in [post_cov]. *)
Lemma mash_comcov_spec (e e' : t num) (w : mat num) (rt rc : Z) :
  compute_posterior_comcov e w rt = Some (rc, e') ->
  let J := n_cols (post_mean e) in
  rc = 0%Z /\
  mash_same_inputs e e' /\
  Vinv_comcov e = Some (comcov_Vinv e) /\
  (forall p, (p < n_slices (U_cube e))%nat ->
             U0_comcov e (comcov_Vinv e) p = Some (comcov_U0 e (comcov_Vinv e) p)) /\
  (if cov_gate rt
   then (c_rows (post_cov e') = c_rows (post_cov e) /\
         c_cols (post_cov e') = c_cols (post_cov e) /\
         n_slices (post_cov e') = n_slices (post_cov e)) /\
        forall i, (i < n_slices (post_cov e))%nat ->
          slice (post_cov e') i
          = if (i <? J)%nat then comcov_post_cov_slice e w rt (post_mean e') i
            else slice (post_cov e) i
   else post_cov e' = post_cov e).
Proof.
  intros E J. unfold compute_posterior_comcov in E.
  destruct (Vinv_comcov e) as [Vinv |] eqn:EV; [| discriminate].
  assert (HV : Vinv = comcov_Vinv e) by (unfold comcov_Vinv; now rewrite EV).
  subst Vinv.
  set (R := n_rows (post_mean e)) in *. fold J in E.
  destruct (for_loopM (n_slices (U_cube e)) _ _) as [st |] eqn:El; [| discriminate].
  inversion E; subst rc e'; clear E.
  assert (Hinv : comcov_inv e w rt R J (n_slices (U_cube e)) st).
  { refine (for_loopM_inv (comcov_inv e w rt R J) (n_slices (U_cube e)) _ _ st _ _ El).
    - unfold comcov_inv. cbn [cs_self cs_sigma]. cbv zeta.
      split; [apply mash_same_inputs_refl |].
      split; [now split |]. split; [now split |].
      split; [intros p Hp; lia |].
      destruct (cov_gate rt); [| reflexivity].
      split; [repeat split |]. intros i Hi. unfold maccum. cbn [for_loop].
      now destruct (i <? J)%nat.
    - intros k s s' Hk Hs Es.
      exact (comcov_inv_step e w rt R J _ _ _ k s s' Hs Es). }
  destruct Hinv as (Hin & (PMr & PMc) & (Sr & Sc) & Hok & Hcov).
  cbn [post_mean post_cov with_outputs].
  split; [reflexivity |].
  split; [now apply mash_same_inputs_with_outputs |].
  split; [reflexivity |].
  split; [exact Hok |].
  unfold cov_gate in *. unfold comcov_post_cov_slice.
  destruct ((rt =? 2) || (rt =? 4))%Z eqn:Eg.
  - destruct Hcov as ((Cr & Cc & Cn) & Hsl).
    destruct (rt =? 4)%Z.
    + destruct (comcov_subtract_spec (n_cols (cs_sigma st)) (post_mean (cs_self st))
                  (post_cov (cs_self st))) as ((Sr' & Sc' & Sn') & Hsub).
      split; [repeat split; congruence |].
      intros i Hi. rewrite Hsub by (now rewrite Cn). rewrite Sc, (Hsl i Hi).
      now destruct (i <? J)%nat.
    + split; [repeat split; assumption |]. exact Hsl.
  - assert (E4 : (rt =? 4)%Z = false) by (apply orb_false_iff in Eg; tauto).
    rewrite E4. exact Hcov.
Qed.

End MashComcovFacts.

(** ** MVSERMix::compute_posterior *)

Section MvserFacts.
Context {num : Type} {SC : Scalar num} {LM : Libm num} {LA : Lapack num}.
Local Open Scope num_scope.
Import MVSERMix.

Lemma mvser_same_inputs_refl (e : t num) : mvser_same_inputs e e.
Proof. unfold mvser_same_inputs. repeat split. Qed.

Lemma mvser_same_inputs_trans (e self self' : t num) :
  mvser_same_inputs e self -> mvser_same_inputs self self' -> mvser_same_inputs e self'.
Proof.
  unfold mvser_same_inputs.
  intros (A1 & A2 & A3 & A4 & A5 & A6 & A7) (B1 & B2 & B3 & B4 & B5 & B6 & B7).
  repeat split; congruence.
Qed.

Lemma mvser_same_inputs_funs (e self : t num) :
  mvser_same_inputs e self ->
  n_rows (post_mean self) = n_rows (post_mean e) ->
  (forall j, mvser_Vinv self j = mvser_Vinv e j) /\
  (forall j p, mvser_mu2_mat self j p = mvser_mu2_mat e j p) /\
  n_slices (U_cube self) = n_slices (U_cube e) /\
  Uinv_cube self = Uinv_cube e.
Proof.
  destruct e, self. unfold mvser_same_inputs. cbn.
  intros (-> & -> & -> & -> & -> & -> & ->) HR.
  unfold mvser_mu2_mat, mvser_U1, mvser_mu1, mvser_U0, mvser_Vinv, Vinv_of, U0_of,
    mu1_of, U1_of.
  cbn. rewrite HR. repeat split.
Qed.

Section Components.
Variables (e : t num) (w pvw : mat num) (Vinv : mat num) (mean : vec num) (j : nat).
Let R := n_rows (post_mean e).
Let P := n_slices (U_cube e).

Lemma mvser_step_spec (k : nat) (st st' : locals num) :
  component_step e w pvw Vinv mean j k st = Some st' ->
  U0_of e Vinv j k = Some (mvser_U0 e Vinv j k) /\
  mu1_mat st' = set_col (mu1_mat st) k (mvser_mu1 e Vinv j k) /\
  diag_mu2_mat st'
  = fst (component_stats mean k (mvser_U1 e Vinv j k) (mu1_mat st')
                         (diag_mu2_mat st) (zero_mat st) (neg_mat st)) /\
  zero_mat st'
  = fst (snd (component_stats mean k (mvser_U1 e Vinv j k) (mu1_mat st')
                              (diag_mu2_mat st) (zero_mat st) (neg_mat st))) /\
  neg_mat st'
  = snd (snd (component_stats mean k (mvser_U1 e Vinv j k) (mu1_mat st')
                              (diag_mu2_mat st) (zero_mat st) (neg_mat st))) /\
  mu2 st'
  = if negb (cube_is_empty (Uinv_cube e))
    then slice_add (mu2 st) k
           (mscale (mat_at pvw k j)
                   (madd (mvser_U1 e Vinv j k)
                         (outer (col (mu1_mat st') k) (col (mu1_mat st') k))))
    else mu2 st.
Proof.
  unfold component_step, mvser_mu1, mvser_U1, mvser_U0.
  destruct (U0_of e Vinv j k) as [U0 |]; [| discriminate].
  intros E. inversion E; subst st'; clear E.
  cbn [the mu1_mat diag_mu2_mat zero_mat neg_mat mu2].
  repeat split.
Qed.



(** What the loop leaves in [mu2_cube]. *)
Lemma mvser_components_mu2 (m2 : cube num) (st : locals num) :
  components e w pvw Vinv mean j m2 = Some st ->
  let term := fun p =>
                mscale (mat_at pvw p j)
                       (madd (mvser_U1 e Vinv j p)
                             (outer (mk_vec R (vat (mvser_mu1 e Vinv j p)))
                                    (mk_vec R (vat (mvser_mu1 e Vinv j p))))) in
  if negb (cube_is_empty (Uinv_cube e))
  then n_slices (mu2 st) = n_slices m2 /\
       forall p, (p < n_slices m2)%nat ->
         slice (mu2 st) p
         = if (p <? P)%nat then madd (slice m2 p) (term p) else slice m2 p
  else mu2 st = m2.
Proof.
  intros E term. unfold components in E. fold R P in E.
  refine (proj2 (for_loopM_inv
           (fun k st =>
              (n_rows (mu1_mat st) = R /\ n_cols (mu1_mat st) = P) /\
              if negb (cube_is_empty (Uinv_cube e))
              then n_slices (mu2 st) = n_slices m2 /\
                   forall p, (p < n_slices m2)%nat ->
                     slice (mu2 st) p
                     = if (p <? k)%nat then madd (slice m2 p) (term p) else slice m2 p
              else mu2 st = m2)
           P _ _ st _ _ E)).
  - cbn [mu1_mat mu2]. split; [now split |].
    destruct (negb (cube_is_empty (Uinv_cube e))); [| reflexivity].
    split; [reflexivity |]. intros p Hp. reflexivity.
  - intros k s s' Hk ((Mr & Mc) & IH) Es.
    destruct (mvser_step_spec k s s' Es) as (_ & E1 & _ & _ & _ & Em).
    assert (Hshape : n_rows (mu1_mat s') = R /\ n_cols (mu1_mat s') = P)
      by (rewrite E1; cbn [n_rows n_cols set_col mk_mat]; now split).
    split; [exact Hshape |].
    destruct (negb (cube_is_empty (Uinv_cube e))); [| now rewrite Em].
    destruct IH as (Cn & IH). rewrite Em.
    match goal with
    | |- context [slice_add (mu2 s) k ?M] =>
        destruct (slice_add_shape (mu2 s) k M) as (_ & _ & Sn)
    end.
    split; [congruence |].
    intros p Hp. rewrite slice_slice_add by (now rewrite Cn).
    assert (Ecol : col (mu1_mat s') k = mk_vec R (vat (mvser_mu1 e Vinv j k))).
    { rewrite E1. rewrite col_set_col by lia. now rewrite Mr. }
    rewrite Ecol.
    destruct (Nat.eqb_spec p k) as [-> | Hne].
    + rewrite (IH k Hp).
      replace (k <? k)%nat with false by (symmetry; apply Nat.ltb_ge; lia).
      now replace (k <? S k)%nat with true by (symmetry; apply Nat.ltb_lt; lia).
    + rewrite (IH p Hp).
      destruct (Nat.ltb_spec p k), (Nat.ltb_spec p (S k)); try lia; reflexivity.
Qed.

End Components.

(** One turn of the loop over the effects, as far as [mu2_cube] goes. *)
Lemma mvser_effect_step_spec (w pvw : mat num) (R : nat) (j : nat)
      (sm sm' : t num * cube num) :
  n_rows (post_mean (fst sm)) = R ->
  effect_step w pvw (vzeros R) j sm = Some sm' ->
  let self := fst sm in
  mvser_same_inputs self (fst sm') /\
  (n_rows (post_mean (fst sm')) = R /\
   n_cols (post_mean (fst sm')) = n_cols (post_mean self)) /\
  prior_scalar (fst sm') = prior_scalar self /\
  (if negb (cube_is_empty (Uinv_cube self))
   then n_slices (snd sm') = n_slices (snd sm) /\
        forall p, (p < n_slices (snd sm))%nat ->
          slice (snd sm') p
          = if (p <? n_slices (U_cube self))%nat
            then madd (slice (snd sm) p) (mscale (mat_at pvw p j) (mvser_mu2_mat self j p))
            else slice (snd sm) p
   else snd sm' = snd sm).
Proof.
  intros HR E self. unfold effect_step in E. fold self in E.
  destruct (Vinv_of self j) as [Vinv |] eqn:EV; [| discriminate].
  assert (HV : Vinv = mvser_Vinv self j) by (unfold mvser_Vinv; now rewrite EV).
  destruct (components self w pvw Vinv (vzeros R) j (snd sm)) as [st |] eqn:Ec;
    [| discriminate].
  inversion E; subst sm'; clear E.
  pose proof (mvser_components_mu2 self w pvw Vinv (vzeros R) j (snd sm) st Ec) as Hmu2.
  cbv beta zeta in Hmu2. cbn [fst snd post_mean prior_scalar with_outputs].
  split; [unfold mvser_same_inputs; cbn; repeat split |].
  split; [cbn [n_rows n_cols set_col mk_mat]; split; [exact HR | reflexivity] |].
  split; [reflexivity |].
  unfold mvser_mu2_mat. cbv zeta. rewrite <- HV. subst self.
  exact Hmu2.
Qed.

(** [maccum] peels its last term. *)
Lemma maccum_S (n : nat) (F : nat -> mat num) (M : mat num) :
  maccum (S n) F M = madd (maccum n F M) (F n).
Proof. reflexivity. Qed.

(** The state after the first [k] effects. *)
Definition mvser_effects_inv (e : t num) (pvw : mat num) (R J : nat)
           (k : nat) (sm : t num * cube num) : Prop :=
  mvser_same_inputs e (fst sm) /\
  (n_rows (post_mean (fst sm)) = R /\ n_cols (post_mean (fst sm)) = J) /\
  prior_scalar (fst sm) = prior_scalar e /\
  (negb (cube_is_empty (Uinv_cube e)) = true ->
   n_slices (snd sm) = n_slices (U_cube e) /\
   forall p, (p < n_slices (U_cube e))%nat ->
     slice (snd sm) p
     = maccum k (fun j => mscale (mat_at pvw p j) (mvser_mu2_mat e j p)) (zeros R R)).

Lemma mvser_effects_inv_step (e : t num) (w pvw : mat num) (R J : nat)
      (k : nat) (sm sm' : t num * cube num) :
  n_rows (post_mean e) = R ->
  mvser_effects_inv e pvw R J k sm ->
  effect_step w pvw (vzeros R) k sm = Some sm' ->
  mvser_effects_inv e pvw R J (S k) sm'.
Proof.
  intros HR (Hin & (PMr & PMc) & Hps & Hmu2) E.
  destruct (mvser_effect_step_spec w pvw R k sm sm' PMr E)
    as (Hin' & (PMr' & PMc') & Hps' & Hmu2').
  destruct (mvser_same_inputs_funs e (fst sm) Hin ltac:(congruence))
    as (FV & Fm & FP & FU).
  rewrite FP, FU in Hmu2'.
  split; [now apply (mvser_same_inputs_trans e (fst sm)) |].
  split; [split; congruence |].
  split; [congruence |].
  intros Hne. rewrite Hne in Hmu2'. destruct (Hmu2 Hne) as (Cn & Hsl).
  destruct Hmu2' as (Cn' & Hsl').
  split; [congruence |].
  intros p Hp. rewrite Hsl' by (now rewrite Cn).
  replace (p <? n_slices (U_cube e))%nat with true by (symmetry; apply Nat.ltb_lt; exact Hp).
  rewrite (Hsl p Hp), maccum_S. now rewrite Fm.
Qed.

(** The loop that fills [prior_scalar]. *)
Lemma prior_scalar_update_spec (self : t num) (mu2_cube : cube num) :
  n_elem (prior_scalar_update self mu2_cube) = n_elem (prior_scalar self) /\
  forall p, (p < n_elem (prior_scalar self))%nat ->
    vat (prior_scalar_update self mu2_cube) p
    = if (p <? n_slices (U_cube self))%nat
      then trace (mmul (slice (Uinv_cube self) p) (slice mu2_cube p))
           / of_nat (n_rows (post_mean self))
      else vat (prior_scalar self) p.
Proof.
  unfold prior_scalar_update.
  exact (for_loop_vset_all (n_slices (U_cube self))
           (fun p => trace (mmul (slice (Uinv_cube self) p) (slice mu2_cube p))
                     / of_nat (n_rows (post_mean self)))
           (prior_scalar self)).
Qed.

(** What [compute_posterior] leaves in [prior_scalar]. *)
Lemma mvser_compute_posterior_spec (e e' : t num) (w pvw : mat num) (rc : Z) :
  compute_posterior e w pvw = Some (rc, e') ->
  let R := n_rows (post_mean e) in
  rc = 0%Z /\
  mvser_same_inputs e e' /\
  if negb (cube_is_empty (Uinv_cube e))
  then n_elem (prior_scalar e') = n_elem (prior_scalar e) /\
       forall p, (p < n_slices (U_cube e))%nat -> (p < n_elem (prior_scalar e))%nat ->
         vat (prior_scalar e') p
         = trace (mmul (slice (Uinv_cube e) p) (mvser_mu2_slice e pvw p)) / of_nat R
  else prior_scalar e' = prior_scalar e.
Proof.
  intros E R. unfold compute_posterior in E. fold R in E.
  set (J := n_cols (post_mean e)) in *.
  destruct (for_loopM J _ _) as [[self m2] |] eqn:El; [| discriminate].
  inversion E; subst rc e'; clear E.
  assert (Hinv : mvser_effects_inv e pvw R J J (self, m2)).
  { refine (for_loopM_inv (mvser_effects_inv e pvw R J) J _ _ (self, m2) _ _ El).
    - unfold mvser_effects_inv. cbn [fst snd].
      split; [apply mvser_same_inputs_refl |].
      split; [now split |]. split; [reflexivity |].
      intros _. split; [apply n_slices_czeros |].
      intros p Hp. unfold maccum. cbn [for_loop]. apply slice_czeros.
    - intros k s s' Hk Hs Es. exact (mvser_effects_inv_step e w pvw R J k s s' eq_refl Hs Es). }
  destruct Hinv as (Hin & (PMr & PMc) & Hps & Hmu2). cbn [fst snd] in *.
  cbn [prior_scalar with_outputs].
  split; [reflexivity |].
  split; [exact Hin |].
  destruct (mvser_same_inputs_funs e self Hin PMr) as (_ & _ & FP & FU).
  rewrite FU.
  destruct (negb (cube_is_empty (Uinv_cube e))) eqn:Ene; [| exact Hps].
  destruct (Hmu2 eq_refl) as (Cn & Hsl).
  destruct (prior_scalar_update_spec self m2) as (Hlen & Hval).
  rewrite Hps in Hlen, Hval.
  split; [exact Hlen |].
  intros p Hp Hq. rewrite (Hval p Hq), FP, FU, PMr.
  replace (p <? n_slices (U_cube e))%nat with true by (symmetry; apply Nat.ltb_lt; exact Hp).
  now rewrite (Hsl p Hp).
Qed.

End MvserFacts.

(** ** MVSERMix::compute_posterior_comcov *)

Section MvserComcovFacts.
Context {num : Type} {SC : Scalar num} {LM : Libm num} {LA : Lapack num}.
Local Open Scope num_scope.
Import MVSERMix.

(** The [for (j ...)] loop inside the loop over the components, as far as
    [sigma] and [mu2_cube] go. *)
Lemma mvser_comcov_effects_spec (self : t num) (w pvw : mat num) (Svec : vec num)
      (U1 mu1 : mat num) (p : nat) (sigma0 : mat num) (cov0 mu20 : cube num) :
  let sc := comcov_effects self w pvw Svec U1 mu1 p (sigma0, (cov0, mu20)) in
  let F := fun j => mscale (mat_at pvw p j) (madd U1 (outer (col mu1 j) (col mu1 j))) in
  (n_rows (fst sc) = n_rows sigma0 /\ n_cols (fst sc) = n_cols sigma0) /\
  (if negb (cube_is_empty (Uinv_cube self))
   then n_slices (snd (snd sc)) = n_slices mu20 /\
        forall q, (q < n_slices mu20)%nat ->
          slice (snd (snd sc)) q
          = if (q =? p)%nat then maccum (n_cols sigma0) F (slice mu20 p)
            else slice mu20 q
   else snd (snd sc) = mu20).
Proof.
  intros sc F. unfold comcov_effects in sc. cbn [fst] in sc.
  set (body := fun j (sc : mat num * (cube num * cube num)) =>
                 (set_col (fst sc) j Svec,
                  (slice_add (fst (snd sc)) j
                             (mscale (mat_at w p j)
                                     (madd U1 (outer (col mu1 j) (col mu1 j)))),
                   if negb (cube_is_empty (Uinv_cube self))
                   then slice_add (snd (snd sc)) p (F j) else snd (snd sc)))).
  assert (H : forall n,
             let sc := for_loop n body (sigma0, (cov0, mu20)) in
             (n_rows (fst sc) = n_rows sigma0 /\ n_cols (fst sc) = n_cols sigma0) /\
             (if negb (cube_is_empty (Uinv_cube self))
              then n_slices (snd (snd sc)) = n_slices mu20 /\
                   forall q, (q < n_slices mu20)%nat ->
                     slice (snd (snd sc)) q
                     = if (q =? p)%nat then maccum n F (slice mu20 p) else slice mu20 q
              else snd (snd sc) = mu20)).
  { induction n as [| n ((IHr & IHc) & IHm)]; cbn [for_loop].
    - cbn [fst snd]. split; [now split |].
      destruct (negb (cube_is_empty (Uinv_cube self))); [| reflexivity].
      split; [reflexivity |]. intros q Hq. unfold maccum. cbn [for_loop].
      now destruct (Nat.eqb_spec q p) as [-> | _].
    - set (prev := for_loop n body (sigma0, (cov0, mu20))) in *.
      unfold body. cbn [fst snd].
      split; [cbn [n_rows n_cols set_col mk_mat]; now split |].
      destruct (negb (cube_is_empty (Uinv_cube self))); [| exact IHm].
      destruct IHm as (Cn & IHsl).
      destruct (slice_add_shape (snd (snd prev)) p (F n)) as (_ & _ & Sn).
      split; [congruence |].
      intros q Hq. rewrite slice_slice_add by (now rewrite Cn).
      destruct (Nat.eqb_spec q p) as [-> | Hne]; [| now rewrite (IHsl q Hq),
                                                     (proj2 (Nat.eqb_neq q p) Hne)].
      rewrite (IHsl p Hq), Nat.eqb_refl. now rewrite maccum_S. }
  specialize (H (n_cols sigma0)). cbv zeta in H. fold sc in H. exact H.
Qed.

Lemma mvser_comcov_same_inputs_funs (e self : t num) :
  mvser_same_inputs e self ->
  (forall V p, U0_comcov self V p = U0_comcov e V p) /\
  (forall V U0, mu1_comcov self V U0 = mu1_comcov e V U0) /\
  (forall U0, U1_comcov self U0 = U1_comcov e U0) /\
  n_slices (U_cube self) = n_slices (U_cube e) /\
  Uinv_cube self = Uinv_cube e.
Proof.
  destruct e, self. unfold mvser_same_inputs. cbn.
  intros (-> & -> & -> & -> & -> & -> & ->).
  repeat split.
Qed.

(** One turn of the loop over the components. *)
Lemma mvser_comcov_step_spec (w pvw : mat num) (Vinv mean : mat num)
      (ones_row zeros_row : vec num) (p : nat) (st st' : comcov_state num) :
  comcov_step w pvw Vinv mean ones_row zeros_row p st = Some st' ->
  let self := cs_self st in
  let U0 := the empty_mat (U0_comcov self Vinv p) in
  let mu1 := mu1_comcov self Vinv U0 in
  let U1 := U1_comcov self U0 in
  let F := fun j => mscale (mat_at pvw p j) (madd U1 (outer (col mu1 j) (col mu1 j))) in
  mvser_same_inputs self (cs_self st') /\
  (n_rows (post_mean (cs_self st')) = n_rows (post_mean self) /\
   n_cols (post_mean (cs_self st')) = n_cols (post_mean self)) /\
  (n_rows (cs_sigma st') = n_rows (cs_sigma st) /\
   n_cols (cs_sigma st') = n_cols (cs_sigma st)) /\
  prior_scalar (cs_self st') = prior_scalar self /\
  (if negb (cube_is_empty (Uinv_cube self))
   then n_slices (cs_mu2 st') = n_slices (cs_mu2 st) /\
        forall q, (q < n_slices (cs_mu2 st))%nat ->
          slice (cs_mu2 st') q
          = if (q =? p)%nat then maccum (n_cols (cs_sigma st)) F (slice (cs_mu2 st) p)
            else slice (cs_mu2 st) q
   else cs_mu2 st' = cs_mu2 st).
Proof.
  intros E self U0 mu1 U1 F. unfold comcov_step in E. fold self in E.
  subst F U1 mu1 U0.
  destruct (U0_comcov self Vinv p) as [U0 |]; [| discriminate].
  inversion E; subst st'; clear E.
  cbn [the cs_self cs_sigma cs_mu2 post_mean prior_scalar with_outputs].
  match goal with
  | |- context [comcov_effects self w pvw ?Sv ?U1 ?mu1 p (?s0, (?c0, ?m0))] =>
      destruct (mvser_comcov_effects_spec self w pvw Sv U1 mu1 p s0 c0 m0) as (Hshape & Hmu2)
  end.
  split; [unfold mvser_same_inputs; cbn; repeat split |].
  split; [unfold madd, mmap2; cbn [n_rows n_cols mk_mat]; now split |].
  split; [exact Hshape |].
  split; [reflexivity |].
  exact Hmu2.
Qed.

(** The state after the first [k] components. *)
Definition mvser_comcov_inv (e : t num) (pvw : mat num) (R J : nat)
           (k : nat) (st : comcov_state num) : Prop :=
  mvser_same_inputs e (cs_self st) /\
  (n_rows (post_mean (cs_self st)) = R /\ n_cols (post_mean (cs_self st)) = J) /\
  (n_rows (cs_sigma st) = R /\ n_cols (cs_sigma st) = J) /\
  prior_scalar (cs_self st) = prior_scalar e /\
  (negb (cube_is_empty (Uinv_cube e)) = true ->
   n_slices (cs_mu2 st) = n_slices (U_cube e) /\
   forall q, (q < n_slices (U_cube e))%nat ->
     slice (cs_mu2 st) q
     = if (q <? k)%nat then mvser_comcov_mu2_slice e pvw q else zeros R R).

Lemma mvser_comcov_inv_step (e : t num) (w pvw : mat num) (R J : nat) (mean : mat num)
      (ones_row zeros_row : vec num) (k : nat) (st st' : comcov_state num) :
  n_rows (post_mean e) = R -> n_cols (post_mean e) = J ->
  (k < n_slices (U_cube e))%nat ->
  mvser_comcov_inv e pvw R J k st ->
  comcov_step w pvw (mvser_comcov_Vinv e) mean ones_row zeros_row k st = Some st' ->
  mvser_comcov_inv e pvw R J (S k) st'.
Proof.
  intros HR HJ Hk (Hin & (PMr & PMc) & (Sr & Sc) & Hps & Hmu2) E.
  destruct (mvser_comcov_step_spec w pvw (mvser_comcov_Vinv e) mean ones_row zeros_row
              k st st' E) as (Hin' & (PMr' & PMc') & (Sr' & Sc') & Hps' & Hmu2').
  cbv zeta in Hmu2'.
  destruct (mvser_comcov_same_inputs_funs e (cs_self st) Hin) as (FU0 & Fmu1 & FU1 & FP & FU).
  rewrite FU, FU0, Fmu1, FU1, Sc in Hmu2'.
  split; [now apply (mvser_same_inputs_trans e (cs_self st)) |].
  split; [split; congruence |].
  split; [split; congruence |].
  split; [congruence |].
  intros Hne. rewrite Hne in Hmu2'. destruct (Hmu2 Hne) as (Cn & Hsl).
  destruct Hmu2' as (Cn' & Hsl').
  split; [congruence |].
  intros q Hq. rewrite Hsl' by (now rewrite Cn).
  destruct (Nat.eqb_spec q k) as [-> | Hneq].
  - replace (k <? S k)%nat with true by (symmetry; apply Nat.ltb_lt; lia).
    rewrite (Hsl k Hk).
    replace (k <? k)%nat with false by (symmetry; apply Nat.ltb_ge; lia).
    unfold mvser_comcov_mu2_slice, mvser_comcov_mu2_mat, mvser_comcov_U1, mvser_comcov_mu1,
      mvser_comcov_U0.
    now rewrite HR, HJ.
  - rewrite (Hsl q Hq).
    destruct (Nat.ltb_spec q k), (Nat.ltb_spec q (S k)); try lia; reflexivity.
Qed.

(** What [compute_posterior_comcov] leaves in [prior_scalar]. *)
Lemma mvser_comcov_spec (e e' : t num) (w pvw : mat num) (rc : Z) :
  compute_posterior_comcov e w pvw = Some (rc, e') ->
  let R := n_rows (post_mean e) in
  rc = 0%Z /\
  mvser_same_inputs e e' /\
  if negb (cube_is_empty (Uinv_cube e))
  then n_elem (prior_scalar e') = n_elem (prior_scalar e) /\
       forall p, (p < n_slices (U_cube e))%nat -> (p < n_elem (prior_scalar e))%nat ->
         vat (prior_scalar e') p
         = trace (mmul (slice (Uinv_cube e) p) (mvser_comcov_mu2_slice e pvw p)) / of_nat R
  else prior_scalar e' = prior_scalar e.
Proof.
  intros E R. unfold compute_posterior_comcov in E. fold R in E.
  set (J := n_cols (post_mean e)) in *.
  destruct (Vinv_comcov e) as [Vinv |] eqn:EV; [| discriminate].
  assert (HV : Vinv = mvser_comcov_Vinv e) by (unfold mvser_comcov_Vinv; now rewrite EV).
  subst Vinv.
  destruct (for_loopM (n_slices (U_cube e)) _ _) as [st |] eqn:El; [| discriminate].
  inversion E; subst rc e'; clear E.
  assert (Hinv : mvser_comcov_inv e pvw R J (n_slices (U_cube e)) st).
  { refine (for_loopM_inv (mvser_comcov_inv e pvw R J) (n_slices (U_cube e)) _ _ st _ _ El).
    - unfold mvser_comcov_inv. cbn [cs_self cs_sigma cs_mu2].
      split; [apply mvser_same_inputs_refl |].
      split; [now split |]. split; [now split |]. split; [reflexivity |].
      intros _. split; [apply n_slices_czeros |].
      intros q Hq. cbn. apply slice_czeros.
    - intros k s s' Hk Hs Es.
      exact (mvser_comcov_inv_step e w pvw R J _ _ _ k s s' eq_refl eq_refl Hk Hs Es). }
  destruct Hinv as (Hin & (PMr & PMc) & _ & Hps & Hmu2).
  cbn [prior_scalar with_outputs].
  split; [reflexivity |].
  split; [exact Hin |].
  destruct (mvser_comcov_same_inputs_funs e (cs_self st) Hin) as (_ & _ & _ & FP & FU).
  rewrite FU.
  destruct (negb (cube_is_empty (Uinv_cube e))) eqn:Ene; [| exact Hps].
  destruct (Hmu2 eq_refl) as (Cn & Hsl).
  destruct (prior_scalar_update_spec (cs_self st) (cs_mu2 st)) as (Hlen & Hval).
  rewrite Hps in Hlen, Hval.
  split; [exact Hlen |].
  intros p Hp Hq. rewrite (Hval p Hq), FP, FU, PMr.
  replace (p <? n_slices (U_cube e))%nat with true by (symmetry; apply Nat.ltb_lt; exact Hp).
  rewrite (Hsl p Hp).
  now replace (p <? n_slices (U_cube e))%nat with true by (symmetry; apply Nat.ltb_lt; exact Hp).
Qed.

End MvserComcovFacts.

(** ** Degenerate rows *)

Section DegenerateFacts.
Context {num : Type} {SC : Scalar num} {LM : Libm num}.
Local Open Scope num_scope.


(** The two matrices [comcov_marks] returns. *)
Lemma comcov_marks_spec (mean sigma mu1 U1 : mat num) (R J r c : nat) :
  n_rows mean = R -> n_cols mean = J ->
  (r < R)%nat -> (c < J)%nat ->
  let zn := comcov_marks mean sigma mu1 (vsqrt (diag U1)) (vones J) (vzeros J) R J in
  mat_at (fst zn) r c = (if degenerate U1 r then one else zero) /\
  mat_at (snd zn) r c
  = (if degenerate U1 r then zero
     else pnorm1 (mat_at mu1 r c) (mat_at mean r c) (mat_at sigma r c) false true).
Proof.
  intros Hmr Hmc Hr Hc zn. unfold comcov_marks in zn.
  destruct (mark_degenerate_rows_spec (vsqrt (diag U1)) (vones J) (vzeros J) (zeros R J)
              (pnorm_mat mu1 mean sigma false true)) as (_ & _ & Zv & Nv).
  fold zn in Zv, Nv. unfold degenerate.
  split.
  - rewrite Zv by (cbn; assumption).
    unfold vones, zeros. rewrite vat_mk_vec, mat_at_mk_mat by assumption. reflexivity.
  - rewrite Nv by (unfold pnorm_mat; cbn [n_rows n_cols mk_mat]; lia).
    unfold vzeros, pnorm_mat. rewrite vat_mk_vec, mat_at_mk_mat by lia. reflexivity.
Qed.

End DegenerateFacts.

(** ** The likelihood matrix from whitening matrices *)

Section LikRootiFacts.
Context {num : Type} {SC : Scalar num} {LM : Libm num} {DT : Datum num} {LA : Lapack num}.
Local Open Scope num_scope.

(** The inner loop of the general path carries the running index [k]. *)
Lemma for_loop_counter {A : Type} (n k0 : nat) (f : nat -> nat -> A -> A) (a0 : A) :
  for_loop n (fun p (st : nat * A) => let (k, a) := st in (S k, f k p a)) (k0, a0)
  = ((k0 + n)%nat, for_loop n (fun p a => f (k0 + p)%nat p a) a0).
Proof.
  induction n as [| n IH]; cbn [for_loop].
  - now rewrite Nat.add_0_r.
  - rewrite IH. f_equal. lia.
Qed.

Lemma for_loop_ext {A : Type} (n : nat) (f g : nat -> A -> A) (a0 : A) :
  (forall k a, (k < n)%nat -> f k a = g k a) -> for_loop n f a0 = for_loop n g a0.
Proof.
  intros E. induction n as [| n IH]; cbn [for_loop]; [reflexivity |].
  rewrite IH by (intros k a Hk; apply E; lia). apply E. lia.
Qed.

(** The outer loop: after [j] effects the index is [j * P]. *)
Lemma for_loop_counter_rows {A : Type} (n P : nat) (f : nat -> nat -> nat -> A -> A) (a0 : A) :
  for_loop n
           (fun j (st : nat * A) =>
              for_loop P (fun p (st : nat * A) => let (k, a) := st in (S k, f k j p a)) st)
           (0%nat, a0)
  = ((n * P)%nat,
     for_loop n (fun j a => for_loop P (fun p a => f (j * P + p)%nat j p a) a) a0).
Proof.
  induction n as [| n IH]; cbn [for_loop]; [reflexivity |].
  rewrite IH.
  rewrite (for_loop_counter P (n * P) (fun k p a => f k n p a)).
  f_equal. lia.
Qed.

(** The shared path of the second [calc_lik], entry by entry. *)
Lemma calc_lik_rooti_common (b_mat : mat num) (rooti_cube : cube num) (logd : bool) :
  calc_lik_rooti b_mat rooti_cube logd true
  = mk_mat (n_cols b_mat) (n_slices rooti_cube)
           (fun j p => dmvnorm (col b_mat j) (vzeros (n_rows b_mat))
                               (slice rooti_cube p) logd true).
Proof.
  unfold calc_lik_rooti. cbv zeta. cbv iota.
  set (J := n_cols b_mat). set (P := n_slices rooti_cube).
  set (g := fun p => dmvnorm_mat b_mat (vzeros (n_rows b_mat)) (slice rooti_cube p) logd true).
  change (for_loop P (fun p lik => set_col lik p (g p)) (zeros J P)
          = mk_mat J P (fun j p => dmvnorm (col b_mat j) (vzeros (n_rows b_mat))
                                           (slice rooti_cube p) logd true)).
  destruct (for_loop_set_col P g (zeros J P)) as (Hr & Hc & Ht & Hv).
  apply tabulated_ext.
  - apply Ht. apply tabulated_mk_mat.
  - apply tabulated_mk_mat.
  - exact Hr.
  - exact Hc.
  - intros j p Hj Hp. rewrite Hr in Hj. rewrite Hc in Hp.
    change (n_rows (zeros J P)) with J in Hj.
    change (n_cols (zeros J P)) with P in Hp.
    rewrite Hv by assumption. rewrite mat_at_mk_mat by assumption.
    replace (p <? P)%nat with true by (symmetry; apply Nat.ltb_lt; exact Hp).
    unfold g. now apply dmvnorm_mat_col.
Qed.

(** The general path of the second [calc_lik], entry by entry: the slices are
    read in the order of the two loops, effect by effect. *)
Lemma calc_lik_rooti_general (b_mat : mat num) (rooti_cube : cube num) (logd : bool) :
  let P := (n_slices rooti_cube / n_cols b_mat)%nat in
  calc_lik_rooti b_mat rooti_cube logd false
  = mk_mat (n_cols b_mat) P
           (fun j p => dmvnorm (col b_mat j) (vzeros (n_rows b_mat))
                               (slice rooti_cube (j * P + p)) logd true).
Proof.
  intros P. unfold calc_lik_rooti. cbv zeta. cbv iota. fold P.
  set (J := n_cols b_mat).
  change (n_rows (zeros J P)) with J. change (n_cols (zeros J P)) with P.
  set (h := fun j p => dmvnorm (col b_mat j) (vzeros (n_rows b_mat))
                               (slice rooti_cube (j * P + p)) logd true).
  rewrite (for_loop_counter_rows J P
             (fun k j p lik => set_at lik j p
                                 (dmvnorm (col b_mat j) (vzeros (n_rows b_mat))
                                          (slice rooti_cube k) logd true))).
  cbn [snd].
  change (for_loop J (fun j lik => for_loop P (fun p lik => set_at lik j p (h j p)) lik)
                   (zeros J P)
          = mk_mat J P h).
  assert (Hinv : forall n,
             let m := for_loop n (fun j lik =>
                                    for_loop P (fun p lik => set_at lik j p (h j p)) lik)
                               (zeros J P) in
             n_rows m = J /\ n_cols m = P /\ tabulated m /\
             forall r c, (r < J)%nat -> (c < P)%nat ->
                         mat_at m r c = if (r <? n)%nat then h r c else zero).
  { induction n as [| n (IHr & IHc & IHt & IHv)]; cbn [for_loop].
    - repeat split; [apply tabulated_mk_mat |].
      intros r c Hr Hc. unfold zeros. now rewrite mat_at_mk_mat.
    - match goal with
      | |- context [for_loop P ?body ?init] =>
          destruct (for_loop_set_at_row P n (h n) init) as (Hr' & Hc' & Ht' & Hv')
      end.
      repeat split.
      + now rewrite Hr'.
      + now rewrite Hc'.
      + now apply Ht'.
      + intros r c Hr Hc. rewrite Hv' by (rewrite ?IHr, ?IHc; assumption).
        rewrite IHv by assumption.
        replace (c <? P)%nat with true by (symmetry; apply Nat.ltb_lt; exact Hc).
        rewrite andb_true_r.
        destruct (Nat.eqb_spec r n) as [-> | Hne].
        * now replace (n <? S n)%nat with true by (symmetry; apply Nat.ltb_lt; lia).
        * destruct (Nat.ltb_spec r n), (Nat.ltb_spec r (S n)); try lia; reflexivity. }
  destruct (Hinv J) as (Hr & Hc & Ht & Hv).
  apply tabulated_ext.
  - exact Ht.
  - apply tabulated_mk_mat.
  - exact Hr.
  - exact Hc.
  - intros j p Hj Hp. rewrite Hr in Hj. rewrite Hc in Hp.
    rewrite Hv by assumption. rewrite mat_at_mk_mat by assumption.
    now replace (j <? J)%nat with true by (symmetry; apply Nat.ltb_lt; exact Hj).
Qed.

(** When the factorisation succeeds, the density from the covariance is the
    density from its whitening matrix. *)
Lemma dmvnorm_of_rooti (x mean : vec num) (sigma rooti : mat num) (logd : bool) :
  rooti_of sigma = Some rooti ->
  dmvnorm x mean sigma logd false = dmvnorm x mean rooti logd true.
Proof. intros E. unfold dmvnorm. now rewrite E. Qed.

(** [U1 * Vinv * bhat] column by column. *)
Lemma col_get_posterior_mean_mat (bhat Vinv U1 : mat num) (j : nat) :
  n_cols Vinv = n_rows bhat -> (j < n_cols bhat)%nat ->
  col (get_posterior_mean_mat bhat Vinv U1) j = get_posterior_mean (col bhat j) Vinv U1.
Proof.
  intros HV Hj. unfold get_posterior_mean_mat, get_posterior_mean, col, mvmul.
  cbn [n_rows n_cols mmul mk_mat].
  apply mk_vec_ext. intros r Hr.
  change (mat_at (mmul (mmul U1 Vinv) bhat) r j
          = sum_n (n_cols Vinv)
                  (fun k => mat_at (mmul U1 Vinv) r k
                            * vat (mk_vec (n_rows bhat) (fun r0 => mat_at bhat r0 j)) k)).
  unfold mmul at 1. rewrite mat_at_mk_mat by assumption.
  cbn [n_cols mmul mk_mat]. apply sum_n_ext. intros k Hk.
  now rewrite vat_mk_vec by lia.
Qed.

End LikRootiFacts.

(** ** MVSERMix runs PosteriorMASH with [report_type = 4] *)

Section LoopMaps.



End LoopMaps.

Section MvserAsMashFacts.
Context {num : Type} {SC : Scalar num} {LM : Libm num} {LA : Lapack num}.
Local Open Scope num_scope.










End MvserAsMashFacts.

(** ** When [compute_posterior] returns, and what it reads *)

Section LoopTotal.

Lemma for_loopM_total_inv {S : Type} (Inv : S -> Prop) (n : nat)
      (body : nat -> S -> option S) (s : S) :
  Inv s ->
  (forall k st, (k < n)%nat -> Inv st -> exists st', body k st = Some st' /\ Inv st') ->
  exists s', for_loopM n body s = Some s' /\ Inv s'.
Proof.
  intros H0 Hbody. induction n as [| n IH]; cbn [for_loopM].
  - now exists s.
  - destruct IH as (m & Em & Hm); [intros k st Hk; apply Hbody; lia |].
    rewrite Em. apply Hbody; [lia | exact Hm].
Qed.

End LoopTotal.

Section MashRunFacts.
Context {num : Type} {SC : Scalar num} {LM : Libm num} {LA : Lapack num}.
Local Open Scope num_scope.
Import PosteriorMASH.

(** The inversions of effect [j] succeed, in the words of the code. *)
Lemma mash_lapack_ok_iff (e : t num) (j : nat) :
  mash_lapack_ok e j <->
  exists V, Vinv_of e j = Some V /\
            forall p, (p < n_slices (U_cube e))%nat -> U0_of e V j p <> None.
Proof.
  unfold mash_lapack_ok, mash_Vinv, mash_U0. split.
  - intros [HV HU]. exists (the empty_mat (Vinv_of e j)). split; [exact HV |].
    intros p Hp. rewrite (HU p Hp). discriminate.
  - intros (V & HV & HU). rewrite HV. cbn [the]. split; [reflexivity |].
    intros p Hp. specialize (HU p Hp).
    destruct (U0_of e V j p); [reflexivity | contradiction].
Qed.

(** One turn of the loop over the effects succeeds when the inversions of the
    effect do. *)
Lemma mash_effect_step_total (e self : t num) (w : mat num) (rt : Z) (R J j : nat) :
  mash_same_inputs e self -> mash_buffers R J e -> mash_buffers R J self ->
  mash_lapack_ok e j ->
  exists self', effect_step w rt (vzeros R) j self = Some self' /\
                mash_same_inputs e self' /\ mash_buffers R J self'.
Proof.
  intros Hin Hbuf Hbufs [HV HU].
  assert (HRs : n_rows (post_mean self) = n_rows (post_mean e)).
  { destruct Hbuf as ((-> & _) & _). now destruct Hbufs as ((-> & _) & _). }
  destruct (mash_same_inputs_funs e self Hin HRs) as (FV & FU0 & _ & _ & _ & _ & FP).
  unfold effect_step. rewrite FV, HV.
  destruct (mash_components_total self w rt (mash_Vinv e j) (vzeros R) j) as [st Est].
  { intros p Hp. rewrite FP in Hp. rewrite FU0, (HU p Hp). discriminate. }
  rewrite Est. eexists. split; [reflexivity |].
  split; [now apply mash_same_inputs_with_outputs |].
  destruct Hbufs as ((A1 & A2) & (B1 & B2) & (C1 & C2) & (D1 & D2)).
  unfold mash_buffers. cbn [post_mean post_var neg_prob zero_prob with_outputs].
  cbn [n_rows n_cols set_col mk_mat]. tauto.
Qed.

(** [compute_posterior] returns when every inversion succeeds. *)
Lemma mash_compute_posterior_total (e : t num) (w : mat num) (rt : Z) (R J : nat) :
  mash_buffers R J e ->
  (forall j, (j < J)%nat -> mash_lapack_ok e j) ->
  exists e', compute_posterior e w rt = Some (0%Z, e').
Proof.
  intros Hbuf Hok. unfold compute_posterior.
  pose proof Hbuf as ((PMr & PMc) & _). rewrite PMr, PMc.
  destruct (for_loopM_total_inv
              (fun self => mash_same_inputs e self /\ mash_buffers R J self)
              J (effect_step w rt (vzeros R)) e) as (self & Es & _).
  - split; [apply mash_same_inputs_refl | exact Hbuf].
  - intros k st Hk [Hin Hbufs].
    exact (mash_effect_step_total e st w rt R J k Hin Hbuf Hbufs (Hok k Hk)).
  - rewrite Es. eexists. reflexivity.
Qed.

(** With both caches injected nothing is inverted. *)
Lemma mash_lapack_ok_cached (e : t num) (j : nat) :
  cube_is_empty (Vinv_cube e) = false -> cube_is_empty (U0_cube e) = false ->
  mash_lapack_ok e j.
Proof.
  intros HV HU. unfold mash_lapack_ok, mash_Vinv, mash_U0, Vinv_of, U0_of.
  rewrite HV, HU. cbn [the]. split; [reflexivity |]. intros p _. reflexivity.
Qed.

(** Two engines whose per-effect means and covariances agree: what their runs
    leave in the four matrices is the same, and what they leave in [post_cov]
    is accumulated onto what the slices held. *)
Lemma mash_runs_agree (e e0 e' e0' : t num) (w : mat num) (rt rc rc0 : Z) (R J : nat) :
  mash_buffers R J e -> mash_buffers R J e0 ->
  n_slices (U_cube e0) = n_slices (U_cube e) ->
  (forall j p, (j < J)%nat -> (p < n_slices (U_cube e))%nat ->
     mash_mu1 e0 (mash_Vinv e0 j) j p = mash_mu1 e (mash_Vinv e j) j p /\
     mash_U1 e0 (mash_Vinv e0 j) j p = mash_U1 e (mash_Vinv e j) j p) ->
  compute_posterior e w rt = Some (rc, e') ->
  compute_posterior e0 w rt = Some (rc0, e0') ->
  (forall r j, (r < R)%nat -> (j < J)%nat ->
     mat_at (post_mean e0') r j = mat_at (post_mean e') r j /\
     mat_at (post_var e0') r j = mat_at (post_var e') r j /\
     mat_at (neg_prob e0') r j = mat_at (neg_prob e') r j /\
     mat_at (zero_prob e0') r j = mat_at (zero_prob e') r j) /\
  (if cov_gate rt
   then forall j, (j < J)%nat -> (j < n_slices (post_cov e0))%nat ->
          slice (post_cov e0') j
          = let acc := maccum (n_slices (U_cube e))
                              (mash_moment e w (mash_Vinv e j) j)
                              (slice (post_cov e0) j) in
            if (rt =? 4)%Z
            then msub acc (outer (col (post_mean e0') j) (col (post_mean e0') j))
            else acc
   else post_cov e0' = post_cov e0).
Proof.
  intros Hbuf Hbuf0 HP Hq E E0.
  destruct (mash_compute_posterior_spec e e' w rt rc R J Hbuf E)
    as (_ & _ & Hbuf' & _ & Hent & _).
  destruct (mash_compute_posterior_spec e0 e0' w rt rc0 R J Hbuf0 E0)
    as (_ & _ & Hbuf0' & _ & Hent0 & Hcov0).
  assert (Hmix : forall j (f g : nat -> num),
             (forall p, (p < n_slices (U_cube e))%nat -> f p = g p) ->
             mash_mix e0 w j f = mash_mix e w j g).
  { intros j f g Hfg. unfold mash_mix. rewrite HP. apply sum_n_ext.
    intros p Hp. now rewrite Hfg. }
  assert (Hents : forall r j, (r < R)%nat -> (j < J)%nat ->
             mat_at (post_mean e0') r j = mat_at (post_mean e') r j /\
             mat_at (post_var e0') r j = mat_at (post_var e') r j /\
             mat_at (neg_prob e0') r j = mat_at (neg_prob e') r j /\
             mat_at (zero_prob e0') r j = mat_at (zero_prob e') r j).
  { intros r j Hr Hj.
    destruct (Hent r j Hr Hj) as (M1 & M2 & M3 & M4).
    destruct (Hent0 r j Hr Hj) as (N1 & N2 & N3 & N4).
    cbv zeta in M1, M2, M3, M4, N1, N2, N3, N4.
    rewrite M1, M2, M3, M4, N1, N2, N3, N4.
    assert (Hm : mash_mix e0 w j (fun p => vat (mash_mu1 e0 (mash_Vinv e0 j) j p) r)
                 = mash_mix e w j (fun p => vat (mash_mu1 e (mash_Vinv e j) j p) r)).
    { apply Hmix. intros p Hp. now rewrite (proj1 (Hq j p Hj Hp)). }
    rewrite Hm.
    repeat split.
    - f_equal. apply Hmix. intros p Hp. destruct (Hq j p Hj Hp) as [-> ->]. reflexivity.
    - apply Hmix. intros p Hp. destruct (Hq j p Hj Hp) as [-> ->]. reflexivity.
    - apply Hmix. intros p Hp. destruct (Hq j p Hj Hp) as [_ ->]. reflexivity. }
  split; [exact Hents |].
  destruct (cov_gate rt); [| exact Hcov0].
  destruct Hcov0 as (_ & Hsl).
  intros j Hj Hjs. rewrite (Hsl j Hjs).
  replace (j <? J)%nat with true by (symmetry; apply Nat.ltb_lt; exact Hj).
  unfold mash_post_cov_slice. cbv zeta.
  pose proof Hbuf as ((PMr & _) & _). pose proof Hbuf0 as ((PMr0 & _) & _).
  pose proof Hbuf0' as ((PMr0' & _) & _).
  assert (Hacc : maccum (n_slices (U_cube e0)) (mash_moment e0 w (mash_Vinv e0 j) j)
                        (slice (post_cov e0) j)
                 = maccum (n_slices (U_cube e)) (mash_moment e w (mash_Vinv e j) j)
                          (slice (post_cov e0) j)).
  { rewrite HP. apply maccum_ext. intros p Hp.
    unfold mash_moment, mash_mu1_col. rewrite PMr, PMr0.
    destruct (Hq j p Hj Hp) as [-> ->]. reflexivity. }
  rewrite Hacc.
  destruct (rt =? 4)%Z; [| reflexivity].
  assert (Hcol : mash_post_mean_col e0 w j = col (post_mean e0') j).
  { unfold mash_post_mean_col, col. rewrite PMr0, PMr0'.
    apply mk_vec_ext. intros r Hr.
    destruct (Hent0 r j Hr Hj) as (N1 & _). cbv zeta in N1. now rewrite N1. }
  now rewrite Hcol.
Qed.

(** The inversions succeed on an engine when they do on one with the same
    inputs and caches. *)
Lemma mash_lapack_ok_same_inputs (e e0 : t num) (j : nat) :
  mash_same_inputs e e0 -> n_rows (post_mean e0) = n_rows (post_mean e) ->
  mash_lapack_ok e j -> mash_lapack_ok e0 j.
Proof.
  intros Hin HR [HV HU].
  destruct (mash_same_inputs_funs e e0 Hin HR) as (FV & FU0 & FmU0 & _ & _ & _ & FP).
  assert (FVinv : mash_Vinv e0 j = mash_Vinv e j) by (unfold mash_Vinv; now rewrite FV).
  split.
  - now rewrite FVinv, FV.
  - intros p Hp. rewrite FP in Hp. rewrite FVinv, FU0, FmU0. now apply HU.
Qed.

End MashRunFacts.

(** ** The four output matrices of [compute_posterior_comcov] *)

Section ComcovFour.
Context {num : Type} {SC : Scalar num} {LM : Libm num} {LA : Lapack num}.
Local Open Scope num_scope.
Import PosteriorMASH.

(** An accumulation from [0.0] is the sum in index order. *)
Lemma accum_zero (n : nat) (f : nat -> num) : accum n f zero = sum_n n f.
Proof.
  unfold accum. induction n as [| n IH]; cbn [for_loop sum_n]; [reflexivity |].
  now rewrite IH.
Qed.

Lemma accum_ext (n : nat) (f g : nat -> num) (a : num) :
  (forall p, (p < n)%nat -> f p = g p) -> accum n f a = accum n g a.
Proof.
  intros H. unfold accum. induction n as [| n IH]; cbn [for_loop]; [reflexivity |].
  rewrite IH by (intros p Hp; apply H; lia). now rewrite H by lia.
Qed.

(** What component [p] adds to entry [(r, j)] of the four matrices. *)
Definition comcov_terms (e : t num) (w : mat num) (r j p : nat) : num * num * num * num :=
  let V := comcov_Vinv e in
  let m := mat_at (comcov_mu1 e V p) r j in
  let U1 := comcov_U1 e V p in
  let wt := vat (row w p) j in
  (m * wt,
   (m * m + vat (diag U1) r) * wt,
   (if degenerate U1 r then zero
    else pnorm1 m zero (vat (vsqrt (diag U1)) r) false true) * wt,
   (if degenerate U1 r then one else zero) * wt).

(** One turn of the loop over the components. *)
Lemma comcov_step_four (e : t num) (w : mat num) (rt : Z) (R J k : nat)
      (st st' : comcov_state num) :
  let V := comcov_Vinv e in
  mash_same_inputs e (cs_self st) ->
  mash_buffers R J (cs_self st) ->
  n_rows (cs_sigma st) = R -> n_cols (cs_sigma st) = J ->
  n_rows (comcov_mu1 e V k) = R -> n_cols (comcov_mu1 e V k) = J ->
  comcov_step w rt V (zeros R J) (vones J) (vzeros J) k st = Some st' ->
  mash_buffers R J (cs_self st') /\
  forall r j, (r < R)%nat -> (j < J)%nat ->
    match comcov_terms e w r j k with
    | (t1, t2, t3, t4) =>
        mat_at (post_mean (cs_self st')) r j = mat_at (post_mean (cs_self st)) r j + t1 /\
        mat_at (post_var (cs_self st')) r j = mat_at (post_var (cs_self st)) r j + t2 /\
        mat_at (neg_prob (cs_self st')) r j = mat_at (neg_prob (cs_self st)) r j + t3 /\
        mat_at (zero_prob (cs_self st')) r j = mat_at (zero_prob (cs_self st)) r j + t4
    end.
Proof.
  intros V Hin Hbuf Sr Sc Mr Mc E.
  pose proof Hbuf as ((PMr & PMc) & (PVr & PVc) & (NPr & NPc) & (ZPr & ZPc)).
  destruct (comcov_same_inputs_funs e (cs_self st) Hin) as (_ & FU0 & FmU0 & Fmu1 & FU1 & _ & _).
  unfold comcov_step in E.
  destruct (U0_comcov (cs_self st) V k) as [U0 |] eqn:EU; [| discriminate].
  assert (HU0 : U0 = comcov_U0 e V k).
  { rewrite <- FmU0. unfold comcov_U0. now rewrite EU. }
  assert (Hmu1 : mu1_comcov (cs_self st) V U0 = comcov_mu1 e V k).
  { rewrite <- Fmu1. unfold comcov_mu1, comcov_U0. now rewrite EU. }
  assert (HU1 : U1_comcov (cs_self st) U0 = comcov_U1 e V k).
  { rewrite <- FU1. unfold comcov_U1, comcov_U0. now rewrite EU. }
  cbv zeta in E. rewrite Hmu1, HU1, PMr, PMc in E.
  injection E as <-.
  cbn [cs_self post_mean post_var neg_prob zero_prob with_outputs].
  split.
  { unfold mash_buffers. cbn [post_mean post_var neg_prob zero_prob with_outputs].
    unfold madd, mmap2. cbn [n_rows n_cols mk_mat]. tauto. }
  intros r j Hr Hj. unfold comcov_terms. cbv zeta. fold V.
  set (mu1 := comcov_mu1 e V k) in *. set (U1 := comcov_U1 e V k) in *.
  match goal with
  | |- context [comcov_effects w rt ?Sv U1 mu1 k (?s0, ?c0)] =>
      destruct (comcov_effects_spec w rt Sv U1 mu1 k s0 c0) as ((Fr & Fc) & Hsig & _);
      set (sc := comcov_effects w rt Sv U1 mu1 k (s0, c0)) in *
  end.
  destruct (comcov_marks_spec (zeros R J) (fst sc) mu1 U1 R J r j eq_refl eq_refl Hr Hj)
    as (Z & N).
  cbv zeta in Z, N.
  unfold madd, mmap2. rewrite !mat_at_mk_mat by lia.
  unfold each_row_schur.
  rewrite (mat_at_mk_mat (n_rows mu1)) by lia.
  rewrite (mat_at_mk_mat (n_rows (each_col_add _ _)))
    by (unfold each_col_add, mpow2, mmap; cbn [n_rows n_cols mk_mat]; lia).
  unfold each_col_add at 1. rewrite mat_at_mk_mat
    by (unfold mpow2, mmap; cbn [n_rows n_cols mk_mat]; lia).
  unfold mpow2 at 1, mmap at 1. rewrite mat_at_mk_mat by lia.
  repeat split.
  - match goal with
    | |- context [mat_at (mk_mat ?a ?b ?f) r j] =>
        rewrite (mat_at_mk_mat a b f r j)
    end.
    + rewrite N. unfold zeros at 1. rewrite mat_at_mk_mat by lia.
      rewrite Hsig by lia. reflexivity.
    + destruct (mark_degenerate_rows_spec (vsqrt (diag U1)) (vones J) (vzeros J) (zeros R J)
                  (pnorm_mat mu1 (zeros R J) (fst sc) false true)) as (_ & (Nr & Nc) & _).
      unfold comcov_marks. rewrite Nr. unfold pnorm_mat, zeros. cbn [n_rows n_cols mk_mat]. lia.
    + destruct (mark_degenerate_rows_spec (vsqrt (diag U1)) (vones J) (vzeros J) (zeros R J)
                  (pnorm_mat mu1 (zeros R J) (fst sc) false true)) as (_ & (Nr & Nc) & _).
      unfold comcov_marks. rewrite Nc. unfold pnorm_mat, zeros. cbn [n_rows n_cols mk_mat]. lia.
  - match goal with
    | |- context [mat_at (mk_mat ?a ?b ?f) r j] =>
        rewrite (mat_at_mk_mat a b f r j)
    end.
    + now rewrite Z.
    + destruct (mark_degenerate_rows_spec (vsqrt (diag U1)) (vones J) (vzeros J) (zeros R J)
                  (pnorm_mat mu1 (zeros R J) (fst sc) false true)) as ((Zr & Zc) & _).
      unfold comcov_marks. rewrite Zr. unfold zeros. cbn [n_rows n_cols mk_mat]. lia.
    + destruct (mark_degenerate_rows_spec (vsqrt (diag U1)) (vones J) (vzeros J) (zeros R J)
                  (pnorm_mat mu1 (zeros R J) (fst sc) false true)) as ((Zr & Zc) & _).
      unfold comcov_marks. rewrite Zc. unfold zeros. cbn [n_rows n_cols mk_mat]. lia.
Qed.

(** The fourth components of a 4-tuple of terms. *)
Definition term1 (t : num * num * num * num) : num := fst (fst (fst t)).
Definition term2 (t : num * num * num * num) : num := snd (fst (fst t)).
Definition term3 (t : num * num * num * num) : num := snd (fst t).
Definition term4 (t : num * num * num * num) : num := snd t.

(** The four matrices after the first [k] components: each entry is what the
    buffer held plus the terms of the components, added in index order. *)
Definition comcov_four_inv (e : t num) (w : mat num) (rt : Z) (R J : nat)
           (k : nat) (st : comcov_state num) : Prop :=
  comcov_inv e w rt R J k st /\
  mash_buffers R J (cs_self st) /\
  forall r j, (r < R)%nat -> (j < J)%nat ->
    mat_at (post_mean (cs_self st)) r j
    = accum k (fun p => term1 (comcov_terms e w r j p)) (mat_at (post_mean e) r j) /\
    mat_at (post_var (cs_self st)) r j
    = accum k (fun p => term2 (comcov_terms e w r j p)) (mat_at (post_var e) r j) /\
    mat_at (neg_prob (cs_self st)) r j
    = accum k (fun p => term3 (comcov_terms e w r j p)) (mat_at (neg_prob e) r j) /\
    mat_at (zero_prob (cs_self st)) r j
    = accum k (fun p => term4 (comcov_terms e w r j p)) (mat_at (zero_prob e) r j).

Lemma comcov_four_inv_step (e : t num) (w : mat num) (rt : Z) (R J k : nat)
      (st st' : comcov_state num) :
  n_rows (comcov_mu1 e (comcov_Vinv e) k) = R ->
  n_cols (comcov_mu1 e (comcov_Vinv e) k) = J ->
  comcov_four_inv e w rt R J k st ->
  comcov_step w rt (comcov_Vinv e) (zeros R J) (vones J) (vzeros J) k st = Some st' ->
  comcov_four_inv e w rt R J (S k) st'.
Proof.
  intros Mr Mc (Hinv & Hbuf & Hent) E.
  pose proof Hinv as (Hin & _ & (Sr & Sc) & _).
  destruct (comcov_step_four e w rt R J k st st' Hin Hbuf Sr Sc Mr Mc E) as (Hbuf' & Hstep).
  split; [exact (comcov_inv_step e w rt R J _ _ _ k st st' Hinv E) |].
  split; [exact Hbuf' |].
  intros r j Hr Hj.
  specialize (Hstep r j Hr Hj). destruct (Hent r j Hr Hj) as (E1 & E2 & E3 & E4).
  unfold accum in *. cbn [for_loop]. rewrite <- E1, <- E2, <- E3, <- E4.
  unfold term1, term2, term3, term4.
  destruct (comcov_terms e w r j k) as [[[t1 t2] t3] t4]. cbn [fst snd]. exact Hstep.
Qed.

(** What [compute_posterior_comcov] leaves in the four matrices, when every
    per-component mean has the shape of the buffers. *)
Lemma comcov_four_spec (e e' : t num) (w : mat num) (rt rc : Z) (R J : nat) :
  mash_buffers R J e ->
  (forall p, (p < n_slices (U_cube e))%nat ->
     n_rows (comcov_mu1 e (comcov_Vinv e) p) = R /\
     n_cols (comcov_mu1 e (comcov_Vinv e) p) = J) ->
  compute_posterior_comcov e w rt = Some (rc, e') ->
  mash_buffers R J e' /\
  forall r j, (r < R)%nat -> (j < J)%nat ->
    let P := n_slices (U_cube e) in
    let mean := accum P (fun p => term1 (comcov_terms e w r j p))
                      (mat_at (post_mean e) r j) in
    mat_at (post_mean e') r j = mean /\
    mat_at (post_var e') r j
    = accum P (fun p => term2 (comcov_terms e w r j p)) (mat_at (post_var e) r j)
      - mean * mean /\
    mat_at (neg_prob e') r j
    = accum P (fun p => term3 (comcov_terms e w r j p)) (mat_at (neg_prob e) r j) /\
    mat_at (zero_prob e') r j
    = accum P (fun p => term4 (comcov_terms e w r j p)) (mat_at (zero_prob e) r j).
Proof.
  intros Hbuf Hshape E. unfold compute_posterior_comcov in E.
  destruct (Vinv_comcov e) as [Vinv |] eqn:EV; [| discriminate].
  assert (HV : Vinv = comcov_Vinv e) by (unfold comcov_Vinv; now rewrite EV).
  subst Vinv.
  pose proof Hbuf as ((PMr & PMc) & _). rewrite PMr, PMc in E.
  destruct (for_loopM (n_slices (U_cube e)) _ _) as [st |] eqn:El; [| discriminate].
  injection E as <- <-.
  assert (Hinv : comcov_four_inv e w rt R J (n_slices (U_cube e)) st).
  { refine (for_loopM_inv (comcov_four_inv e w rt R J) (n_slices (U_cube e)) _ _ st _ _ El).
    - split; [| split; [exact Hbuf |]].
      + unfold comcov_inv. cbn [cs_self cs_sigma]. cbv zeta.
        split; [apply mash_same_inputs_refl |].
        split; [now split |].
        split; [unfold zeros; cbn [n_rows n_cols mk_mat]; now split |].
        split; [intros p Hp; lia |].
        destruct (cov_gate rt); [| reflexivity].
        split; [repeat split |]. intros i Hi. unfold maccum. cbn [for_loop].
        now destruct (i <? J)%nat.
      + intros r j _ _. cbn [cs_self]. unfold accum. cbn [for_loop]. repeat split.
    - intros k s s' Hk Hs Es.
      destruct (Hshape k Hk) as (Mr & Mc).
      exact (comcov_four_inv_step e w rt R J k s s' Mr Mc Hs Es). }
  destruct Hinv as (_ & Hbuf' & Hent).
  pose proof Hbuf' as ((PMr' & PMc') & (PVr' & PVc') & _).
  cbn [post_mean post_var neg_prob zero_prob with_outputs].
  split.
  { unfold mash_buffers. cbn [post_mean post_var neg_prob zero_prob with_outputs].
    unfold msub, mmap2. cbn [n_rows n_cols mk_mat]. tauto. }
  intros r j Hr Hj. cbv zeta.
  destruct (Hent r j Hr Hj) as (E1 & E2 & E3 & E4).
  repeat split; try assumption.
  unfold msub, mmap2, mpow2, mmap.
  rewrite mat_at_mk_mat by lia. rewrite mat_at_mk_mat by lia.
  now rewrite E1, E2.
Qed.



(** The terms depend on the inputs and caches only. *)
Lemma comcov_terms_same_inputs (e self : t num) (w : mat num) (r j p : nat) :
  mash_same_inputs e self ->
  comcov_terms self w r j p = comcov_terms e w r j p /\
  comcov_Vinv self = comcov_Vinv e /\
  comcov_mu1 self (comcov_Vinv self) p = comcov_mu1 e (comcov_Vinv e) p.
Proof.
  intros Hin.
  destruct (comcov_same_inputs_funs e self Hin) as (FV & _ & _ & Fmu1 & FU1 & _ & _).
  assert (EV : comcov_Vinv self = comcov_Vinv e) by (unfold comcov_Vinv; now rewrite FV).
  split; [| split; [exact EV | now rewrite EV, Fmu1]].
  unfold comcov_terms. cbv zeta. now rewrite EV, Fmu1, FU1.
Qed.

End ComcovFour.

(** ** The degenerate rows in the shared-covariance engines *)

Section ComcovProbs.
Context {num : Type} {SC : Scalar num} {LM : Libm num} {LA : Lapack num}.
Local Open Scope num_scope.
Import PosteriorMASH.




End ComcovProbs.

Section MvserComcovProbs.
Context {num : Type} {SC : Scalar num} {LM : Libm num} {LA : Lapack num}.
Local Open Scope num_scope.






End MvserComcovProbs.

(** ** Exact arithmetic *)

Section RealFacts.
Local Open Scope R_scope.

Lemma Rltb_true (x y : R) : (x <? y)%num = true <-> x < y.
Proof. cbn. destruct (Rlt_dec x y); split; intros; try assumption; try reflexivity;
         try discriminate; contradiction. Qed.

Lemma Rltb_false (x y : R) : (x <? y)%num = false <-> ~ x < y.
Proof. cbn. destruct (Rlt_dec x y); split; intros; try assumption; try reflexivity;
         try discriminate; contradiction. Qed.

Lemma Reqb_true (x y : R) : (x ==? y)%num = true <-> x = y.
Proof. cbn. destruct (Req_dec_T x y); split; intros; try assumption; try reflexivity;
         try discriminate; contradiction. Qed.

Lemma Reqb_false (x y : R) : (x ==? y)%num = false <-> x <> y.
Proof. cbn. destruct (Req_dec_T x y); split; intros; try assumption; try reflexivity;
         try discriminate; contradiction. Qed.

(** On the reals [sqrt] maps zero to zero. *)
Lemma Rsqrt_zero_law (x : R) : (x ==? zero)%num = true -> (fsqrt x ==? zero)%num = true.
Proof.
  intros H. apply Reqb_true in H. apply Reqb_true. cbn in *. subst x. apply sqrt_0.
Qed.

Lemma erfc_like_range (x : R) : 0 <= erfc_like x <= 2.
Proof.
  unfold erfc_like. destruct (Rle_dec 0 x) as [H | H].
  - assert (H1 : 0 < / (1 + x)) by (apply Rinv_0_lt_compat; lra).
    assert (H2 : / (1 + x) <= / 1) by (apply Rinv_le_contravar; lra).
    rewrite Rinv_1 in H2. lra.
  - assert (H1 : 0 < / (1 - x)) by (apply Rinv_0_lt_compat; lra).
    assert (H2 : / (1 - x) <= / 1) by (apply Rinv_le_contravar; lra).
    rewrite Rinv_1 in H2. lra.
Qed.

End RealFacts.

Section RealSums.
Local Open Scope R_scope.

Lemma Rsum_0 (f : nat -> R) : sum_n 0 f = 0.
Proof. reflexivity. Qed.

Lemma Rsum_S (n : nat) (f : nat -> R) : sum_n (S n) f = sum_n n f + f n.
Proof. reflexivity. Qed.

Lemma Rsum_plus (n : nat) (f g : nat -> R) :
  sum_n n (fun i => f i + g i) = sum_n n f + sum_n n g.
Proof. induction n as [| n IH]; rewrite ?Rsum_0, ?Rsum_S, ?IH; lra. Qed.

Lemma Rsum_minus (n : nat) (f g : nat -> R) :
  sum_n n (fun i => f i - g i) = sum_n n f - sum_n n g.
Proof. induction n as [| n IH]; rewrite ?Rsum_0, ?Rsum_S, ?IH; lra. Qed.

Lemma Rsum_scal_l (n : nat) (c : R) (f : nat -> R) :
  sum_n n (fun i => c * f i) = c * sum_n n f.
Proof. induction n as [| n IH]; rewrite ?Rsum_0, ?Rsum_S, ?IH; lra. Qed.

Lemma Rsum_scal_r (n : nat) (c : R) (f : nat -> R) :
  sum_n n (fun i => f i * c) = sum_n n f * c.
Proof. induction n as [| n IH]; rewrite ?Rsum_0, ?Rsum_S, ?IH; lra. Qed.

Lemma Rsum_zero (n : nat) : sum_n n (fun _ => 0) = 0.
Proof. induction n as [| n IH]; rewrite ?Rsum_0, ?Rsum_S, ?IH; lra. Qed.

Lemma Rsum_nonneg (n : nat) (f : nat -> R) :
  (forall i, (i < n)%nat -> 0 <= f i) -> 0 <= sum_n n f.
Proof.
  intros H. induction n as [| n IH]; rewrite ?Rsum_0, ?Rsum_S; [lra |].
  assert (0 <= sum_n n f) by (apply IH; intros i Hi; apply H; lia).
  assert (0 <= f n) by (apply H; lia). lra.
Qed.

Lemma Rsum_le (n : nat) (f g : nat -> R) :
  (forall i, (i < n)%nat -> f i <= g i) -> sum_n n f <= sum_n n g.
Proof.
  intros H. induction n as [| n IH]; rewrite ?Rsum_0, ?Rsum_S; [lra |].
  assert (sum_n n f <= sum_n n g) by (apply IH; intros i Hi; apply H; lia).
  assert (f n <= g n) by (apply H; lia). lra.
Qed.

Lemma Rsum_swap (n m : nat) (f : nat -> nat -> R) :
  sum_n n (fun i => sum_n m (fun k => f i k)) = sum_n m (fun k => sum_n n (fun i => f i k)).
Proof.
  induction n as [| n IH].
  - rewrite Rsum_0. symmetry. apply Rsum_zero.
  - rewrite Rsum_S, IH. rewrite <- Rsum_plus. apply sum_n_ext. intros k _.
    now rewrite Rsum_S.
Qed.

(** A sum against the Kronecker delta picks one term. *)
Lemma Rsum_delta (n k : nat) (f : nat -> R) :
  (k < n)%nat ->
  sum_n n (fun i => (if (k =? i)%nat then 1 else 0) * f i) = f k.
Proof.
  intros Hk. induction n as [| n IH]; [lia |].
  rewrite Rsum_S. destruct (Nat.eqb_spec k n) as [-> | Hne].
  - rewrite (sum_n_ext n _ (fun _ => 0)).
    + rewrite Rsum_zero. lra.
    + intros i Hi. destruct (Nat.eqb_spec n i); [lia | lra].
  - rewrite IH by lia. lra.
Qed.

End RealSums.

(** ** Quadratic forms of the covariance operations, in exact arithmetic *)

Section RealAlgebra.
Local Open Scope R_scope.

Lemma Rmat_at_mmul (a b : mat R) (r c : nat) :
  (r < n_rows a)%nat -> (c < n_cols b)%nat ->
  mat_at (mmul a b) r c = sum_n (n_cols a) (fun k => mat_at a r k * mat_at b k c).
Proof. intros Hr Hc. unfold mmul. now rewrite mat_at_mk_mat. Qed.

Lemma Rmat_at_diag_add (m : mat R) (r c : nat) :
  (r < n_rows m)%nat -> (c < n_cols m)%nat ->
  mat_at (diag_add m one) r c = mat_at m r c + (if (r =? c)%nat then 1 else 0).
Proof.
  intros Hr Hc. unfold diag_add. rewrite mat_at_mk_mat by assumption.
  change (@add R Rscalar) with Rplus. change (@one R Rscalar) with 1.
  destruct (r =? c)%nat; lra.
Qed.

Lemma Rmat_at_rescale (V : mat R) (s : vec R) (r c : nat) :
  (r < n_rows V)%nat -> (c < n_cols V)%nat ->
  mat_at (rescale V s) r c = mat_at V r c * vat s r * vat s c.
Proof.
  intros Hr Hc. unfold rescale, each_row_schur, each_col_schur. cbn [n_rows n_cols mk_mat].
  now rewrite !mat_at_mk_mat.
Qed.


Lemma square_mmul (n : nat) (A B : mat R) : square n A -> square n B -> square n (mmul A B).
Proof. intros [HA _] [_ HB]. split; assumption. Qed.

Lemma square_trans (n : nat) (A : mat R) : square n A -> square n (trans A).
Proof. intros [HA HB]. split; assumption. Qed.

(** [Vinv * U + I] is what [S.diag() += 1.0] leaves in [S]. *)
Lemma diag_add_eye (n : nat) (M : mat R) :
  square n M -> diag_add M one = madd M (eye n).
Proof.
  intros [Hr Hc]. unfold diag_add, madd, mmap2. apply mk_mat_ext. intros r c Hr' Hc'.
  unfold eye. rewrite mat_at_mk_mat by lia.
  change (@add R Rscalar) with Rplus. change (@one R Rscalar) with 1.
  destruct (r =? c)%nat; lra.
Qed.

Lemma mv_mmul (n : nat) (A B : mat R) (x : nat -> R) (i : nat) :
  (i < n_rows A)%nat -> n_cols A = n -> n_cols B = n ->
  mv n (mmul A B) x i = mv n A (mv n B x) i.
Proof.
  intros Hi HA HB. unfold mv.
  rewrite (sum_n_ext n _ (fun c => sum_n n (fun k => mat_at A i k * (mat_at B k c * x c)))).
  - rewrite Rsum_swap. apply sum_n_ext. intros k _. cbv beta.
    now rewrite Rsum_scal_l.
  - intros c Hc. rewrite Rmat_at_mmul by lia. rewrite HA.
    rewrite <- Rsum_scal_r. apply sum_n_ext. intros k _. cbv beta. ring.
Qed.

Lemma mv_right_inverse (n : nat) (S T : mat R) (x : nat -> R) (i : nat) :
  square n S -> square n T -> right_inverse n S T -> (i < n)%nat ->
  mv n S (mv n T x) i = x i.
Proof.
  intros [HSr HSc] [HTr HTc] HI Hi.
  rewrite <- mv_mmul by lia. unfold mv.
  rewrite (sum_n_ext n _ (fun c => (if (i =? c)%nat then 1 else 0) * x c)).
  - now apply Rsum_delta.
  - intros c Hc. now rewrite HI.
Qed.


Lemma quad_rescale (n : nat) (V : mat R) (s : vec R) (x : nat -> R) :
  square n V ->
  quad n (rescale V s) x = quad n V (fun i => vat s i * x i).
Proof.
  intros [Hr Hc]. unfold quad, mv. apply sum_n_ext. intros i Hi. cbv beta.
  rewrite <- !Rsum_scal_l. apply sum_n_ext. intros k Hk. cbv beta.
  rewrite Rmat_at_rescale by lia. ring.
Qed.

Lemma psd_rescale (n : nat) (V : mat R) (s : vec R) :
  square n V -> psd n V -> psd n (rescale V s).
Proof. intros HV HP x. rewrite quad_rescale by assumption. apply HP. Qed.

(** [L * M * L.t()] is positive semi-definite when [M] is. *)
Lemma psd_congruence (n : nat) (L M : mat R) :
  square n L -> square n M -> psd n M -> psd n (mmul (mmul L M) (trans L)).
Proof.
  intros [HLr HLc] [HMr HMc] HP x.
  set (z := mv n (trans L) x).
  replace (quad n (mmul (mmul L M) (trans L)) x) with (quad n M z); [apply HP |].
  unfold quad.
  rewrite (sum_n_ext n (fun i => x i * mv n (mmul (mmul L M) (trans L)) x i)
                     (fun i => sum_n n (fun k => x i * mat_at L i k * mv n M z k))).
  - rewrite Rsum_swap. apply sum_n_ext. intros k Hk. cbv beta.
    rewrite Rsum_scal_r. f_equal.
    unfold z, mv. apply sum_n_ext. intros c Hc. cbv beta.
    unfold trans. rewrite mat_at_mk_mat by lia. apply Rmult_comm.
  - intros i Hi. cbv beta.
    rewrite mv_mmul by (cbn [n_rows n_cols mmul trans mk_mat]; lia).
    rewrite mv_mmul by lia. fold z.
    unfold mv at 1. rewrite <- Rsum_scal_l. apply sum_n_ext. intros k _. cbv beta. ring.
Qed.

Lemma symmetric_rescale (n : nat) (V : mat R) (s : vec R) :
  square n V -> symmetric n V -> symmetric n (rescale V s).
Proof.
  intros [Hr Hc] HV r c Hr' Hc'.
  rewrite !Rmat_at_rescale by lia. rewrite (HV r c Hr' Hc'). ring.
Qed.

(** [L * M * L.t()] is symmetric when [M] is. *)
Lemma symmetric_congruence (n : nat) (L M : mat R) :
  square n L -> square n M -> symmetric n M -> symmetric n (mmul (mmul L M) (trans L)).
Proof.
  intros [HLr HLc] [HMr HMc] HM r c Hr Hc.
  assert (E : forall r c, (r < n)%nat -> (c < n)%nat ->
            mat_at (mmul (mmul L M) (trans L)) r c
            = sum_n n (fun k => sum_n n (fun i => mat_at L r i * mat_at M i k * mat_at L c k))).
  { intros r' c' Hr'' Hc''.
    rewrite Rmat_at_mmul by (cbn [n_rows n_cols mmul trans mk_mat]; lia).
    cbn [n_cols mmul mk_mat]. rewrite HMc. apply sum_n_ext. intros k Hk. cbv beta.
    change (mat_at (mk_mat (n_rows L) (n_cols M) _) r' k) with (mat_at (mmul L M) r' k).
    rewrite Rmat_at_mmul by lia. rewrite HLc.
    unfold trans. rewrite mat_at_mk_mat by lia.
    rewrite <- Rsum_scal_r. apply sum_n_ext. intros i _. reflexivity. }
  rewrite !E by assumption. rewrite Rsum_swap.
  apply sum_n_ext. intros k Hk. cbv beta.
  apply sum_n_ext. intros i Hi. cbv beta.
  rewrite (HM k i Hk Hi). ring.
Qed.



(** [U * T] is positive semi-definite when [T] inverts [Vinv * U + I] and
    [Vinv] and [U] are positive semi-definite: with [y = T x],
    [x' U T x = (U y)' Vinv (U y) + y' U y]. *)
Lemma psd_posterior_cov (n : nat) (Vinv U T : mat R) :
  square n Vinv -> square n U -> square n T ->
  right_inverse n (diag_add (mmul Vinv U) one) T ->
  psd n Vinv -> psd n U -> psd n (mmul U T).
Proof.
  intros HV HU HT HI PV PU x.
  set (y := mv n T x). set (u := mv n U y).
  replace (quad n (mmul U T) x) with (quad n Vinv u + quad n U y).
  { specialize (PV u). specialize (PU y). lra. }
  pose proof HV as [HVr HVc]. pose proof HU as [HUr HUc]. pose proof HT as [HTr HTc].
  unfold quad. rewrite <- Rsum_plus. apply sum_n_ext. intros i Hi. cbv beta.
  rewrite (mv_mmul n U T x i) by lia. fold y. fold u.
  assert (Hx : x i = mv n Vinv u i + y i).
  { rewrite <- (mv_right_inverse n (diag_add (mmul Vinv U) one) T x i);
      [| split; cbn [n_rows n_cols diag_add mmul mk_mat]; assumption | assumption
       | assumption | assumption].
    fold y. unfold mv at 1.
    rewrite (sum_n_ext n _ (fun k => mat_at (mmul Vinv U) i k * y k
                                     + (if (i =? k)%nat then 1 else 0) * y k)).
    - rewrite Rsum_plus, Rsum_delta by assumption. f_equal.
      change (mv n (mmul Vinv U) y i = mv n Vinv u i).
      now rewrite mv_mmul by lia.
    - intros k Hk. cbv beta.
      rewrite Rmat_at_diag_add by (cbn [n_rows n_cols mmul mk_mat]; lia). ring. }
  rewrite Hx. ring.
Qed.

End RealAlgebra.

(** ** The closed-form inverses on 1 x 1 matrices are exact over the reals *)

Section TinyFacts.
Local Open Scope R_scope.

Lemma tiny_inverse_1 (S : mat R) :
  square 1 S -> mat_at S 0 0 <> 0 -> is_inverse 1 S (Tiny.m1 (1 / mat_at S 0 0)).
Proof.
  intros [Hr Hc] Ha.
  split; intros r c Hr' Hc'; assert (r = 0%nat) by lia; assert (c = 0%nat) by lia; subst r c;
    rewrite Rmat_at_mmul by (cbn [n_rows n_cols Tiny.m1]; lia);
    cbn [n_cols Tiny.m1]; rewrite ?Hc; rewrite Rsum_S, Rsum_0;
    change (mat_at (Tiny.m1 (1 / mat_at S 0 0)) 0 0) with (1 / mat_at S 0 0);
    cbn [Nat.eqb]; now field.
Qed.

Lemma tiny_inv_sound_1 : inv_sound Tiny.lapack 1.
Proof.
  intros S T HS E. pose proof HS as [Hr Hc].
  cbn [inv Tiny.lapack] in E. unfold Tiny.inv, Tiny.is_square in E.
  rewrite Hr, Hc in E. cbn [Nat.eqb andb] in E. cbv zeta in E.
  destruct (mat_at S 0 0 ==? zero)%num eqn:Ea; [discriminate |].
  apply Reqb_false in Ea. inversion E; subst T.
  split; [split; reflexivity |]. now apply tiny_inverse_1.
Qed.

Lemma tiny_inv_exact_1 : inv_exact Tiny.lapack 1.
Proof.
  split; [exact tiny_inv_sound_1 |].
  intros S [Hr Hc] (T & [HTr HTc] & HI & _).
  cbn [inv Tiny.lapack]. unfold Tiny.inv, Tiny.is_square.
  rewrite Hr, Hc. cbn [Nat.eqb andb]. cbv zeta.
  destruct (mat_at S 0 0 ==? zero)%num eqn:Ea; [| discriminate].
  apply Reqb_true in Ea. exfalso.
  specialize (HI 0%nat 0%nat (Nat.lt_0_succ 0) (Nat.lt_0_succ 0)).
  rewrite Rmat_at_mmul in HI by lia. rewrite Hc, Rsum_S, Rsum_0, Ea in HI.
  cbn [Nat.eqb] in HI. change (@zero R Rscalar) with 0 in HI. lra.
Qed.

Lemma tiny_inv_sympd_sound_1 : inv_sympd_sound Tiny.lapack 1.
Proof.
  intros S T HS _ E. pose proof HS as [Hr Hc].
  cbn [inv_sympd Tiny.lapack] in E. unfold Tiny.inv_sympd, Tiny.is_square in E.
  rewrite Hr, Hc in E. cbn [Nat.eqb andb] in E. cbv zeta in E.
  destruct (zero <? mat_at S 0 0)%num eqn:Ea; [| discriminate].
  apply Rltb_true in Ea. change (@zero R Rscalar) with 0 in Ea. inversion E; subst T.
  split; [split; reflexivity |]. apply tiny_inverse_1; [assumption | lra].
Qed.

End TinyFacts.

(** ** The closed-form factorisation of 1 x 1 matrices is exact over the reals *)

Section TinyCholFacts.
Local Open Scope R_scope.

Lemma tiny_chol_exact_1 : chol_exact_1 Tiny.lapack.
Proof.
  split.
  - intros X C [Hr Hc] E.
    cbn [chol Tiny.lapack] in E. unfold Tiny.chol, Tiny.is_square in E.
    rewrite Hr, Hc in E. cbn [Nat.eqb andb] in E. cbv zeta in E.
    destruct (zero <? mat_at X 0 0)%num eqn:Ea; [| discriminate].
    apply Rltb_true in Ea. change (@zero R Rscalar) with 0 in Ea.
    injection E as <-.
    split; [split; reflexivity |].
    change (0 < sqrt (mat_at X 0 0)
            /\ sqrt (mat_at X 0 0) * sqrt (mat_at X 0 0) = mat_at X 0 0).
    split; [now apply sqrt_lt_R0 | apply sqrt_sqrt; lra].
  - intros X [Hr Hc] Hpos.
    cbn [chol Tiny.lapack]. unfold Tiny.chol, Tiny.is_square.
    rewrite Hr, Hc. cbn [Nat.eqb andb]. cbv zeta.
    destruct (zero <? mat_at X 0 0)%num eqn:Ea; [discriminate |].
    apply Rltb_false in Ea. change (@zero R Rscalar) with 0 in Ea. lra.
Qed.

Lemma tiny_inv_trimatu_exact_1 : inv_trimatu_exact_1 Tiny.lapack.
Proof.
  split.
  - intros C T [Hr Hc] E.
    cbn [inv_trimatu Tiny.lapack] in E. unfold Tiny.inv_trimatu, Tiny.is_square in E.
    rewrite Hr, Hc in E. cbn [Nat.eqb andb] in E. cbv zeta in E.
    destruct (mat_at C 0 0 ==? zero)%num eqn:Ea; [discriminate |].
    apply Reqb_false in Ea. change (@zero R Rscalar) with 0 in Ea.
    injection E as <-.
    split; [split; reflexivity |].
    change (1 / mat_at C 0 0 * mat_at C 0 0 = 1). now field.
  - intros C [Hr Hc] Hne.
    cbn [inv_trimatu Tiny.lapack]. unfold Tiny.inv_trimatu, Tiny.is_square.
    rewrite Hr, Hc. cbn [Nat.eqb andb]. cbv zeta.
    destruct (mat_at C 0 0 ==? zero)%num eqn:Ea; [| discriminate].
    apply Reqb_true in Ea. contradiction.
Qed.

End TinyCholFacts.

(** ** Ranges of the mixtures, in exact arithmetic *)

Section MixFacts.
Local Open Scope R_scope.
Variables (P : nat) (W : nat -> R).
Hypothesis W_nonneg : forall p, (p < P)%nat -> 0 <= W p.
Hypothesis W_sum : sum_n P W = 1.

(** A mixture of values of [[0,1]] is in [[0,1]]. *)
Lemma mix_unit_range (f : nat -> R) :
  (forall p, (p < P)%nat -> 0 <= f p <= 1) ->
  0 <= sum_n P (fun p => f p * W p) <= 1.
Proof.
  intros Hf. split.
  - apply Rsum_nonneg. intros p Hp.
    apply Rmult_le_pos; [apply Hf | apply W_nonneg]; assumption.
  - rewrite <- W_sum. apply Rsum_le. intros p Hp.
    pose proof (Hf p Hp). pose proof (W_nonneg p Hp). nra.
Qed.

(** The mixture of the second moments exceeds the square of the mixture of
    the means: the difference is the mixture of the variances [u] plus the
    spread of the means about their mixture. *)
Lemma mix_variance_nonneg (m u : nat -> R) :
  (forall p, (p < P)%nat -> 0 <= u p) ->
  0 <= sum_n P (fun p => (m p * m p + u p) * W p)
       - sum_n P (fun p => m p * W p) * sum_n P (fun p => m p * W p).
Proof.
  intros Hu. set (mu := sum_n P (fun p => m p * W p)).
  assert (H1 : 0 <= sum_n P (fun p => u p * W p)).
  { apply Rsum_nonneg. intros p Hp.
    apply Rmult_le_pos; [apply Hu | apply W_nonneg]; assumption. }
  assert (H2 : 0 <= sum_n P (fun p => (m p - mu) * (m p - mu) * W p)).
  { apply Rsum_nonneg. intros p Hp.
    apply Rmult_le_pos; [exact (Rle_0_sqr (m p - mu)) | now apply W_nonneg]. }
  assert (E : sum_n P (fun p => (m p * m p + u p) * W p) - mu * mu
              = sum_n P (fun p => u p * W p)
                + sum_n P (fun p => (m p - mu) * (m p - mu) * W p)).
  { rewrite (sum_n_ext P (fun p => (m p * m p + u p) * W p)
                       (fun p => u p * W p
                                 + ((m p - mu) * (m p - mu) * W p
                                    + ((2 * mu) * (m p * W p) - (mu * mu) * W p))))
      by (intros; cbv beta; ring).
    rewrite !Rsum_plus, Rsum_minus, !Rsum_scal_l. fold mu. rewrite W_sum. ring. }
  lra.
Qed.

End MixFacts.

Section DiagFacts.
Local Open Scope R_scope.


(** The value of [pnorm] with [lower_tail = true] and [logd = false] is a
    probability, for an [erfc] with values in [[0,2]]. *)
Lemma pnorm1_range (erfc : R -> R) (x m s : R) :
  (forall t, 0 <= erfc t <= 2) ->
  0 <= @pnorm1 R Rscalar (Rlibm erfc) x m s false true <= 1.
Proof.
  intros H. unfold pnorm1, pnorm_tail. cbn [negb andb ferfc Rlibm].
  change (@half R Rscalar) with (/ 2). change (@mul R Rscalar) with Rmult.
  match goal with |- context [erfc ?t] => pose proof (H t) end. lra.
Qed.

End DiagFacts.

(** ** The covariances of the general multivariate engine are positive
    semi-definite, in exact arithmetic *)

Section MashBounds.
Context {LM : Libm R} {LA : Lapack R}.
Local Open Scope R_scope.
Import PosteriorMASH.

Variables (e : t R) (n : nat).
Hypothesis Hinv : inv_sound LA n.
Hypothesis Hsympd : inv_sympd_sound LA n.
Hypothesis HVcache : cube_is_empty (Vinv_cube e) = true.
Hypothesis HU0cache : cube_is_empty (U0_cube e) = true.
Hypothesis Hv : square n (v_mat e) /\ psd n (v_mat e).
Hypothesis Hsym : symmetric n (v_mat e).
Hypothesis Hl : mat_is_empty (l_mat e) = true \/ square n (l_mat e).
Hypothesis Ha : mat_is_empty (a_mat e) = true \/ n_cols (a_mat e) = n.





End MashBounds.

(** ** The example over the reals runs to completion *)

Section ExampleFacts.
Local Open Scope R_scope.
Import PosteriorMASH.

Lemma example_real_Vinv :
  @Vinv_of R Rscalar Tiny.lapack example_real_engine 0
  = Some (Tiny.m1 (1 / (1 * 1 * 1))).
Proof.
  cbn. destruct (Rlt_dec _ _) as [H | H]; [reflexivity |].
  exfalso. apply H. lra.
Qed.

Lemma example_real_U0 (p : nat) :
  (p < 2)%nat ->
  @U0_of R Rscalar Tiny.lapack example_real_engine (Tiny.m1 (1 / (1 * 1 * 1))) 0 p <> None.
Proof.
  intros Hp. destruct p as [| [| p]]; [| | lia];
    cbn; unfold get_posterior_cov; cbn;
    destruct (Req_dec_T _ _) as [H | H]; try discriminate; exfalso; lra.
Qed.

Lemma example_real_returns (LM : Libm R) (rt : Z) :
  exists rc e',
    @compute_posterior R Rscalar LM Tiny.lapack example_real_engine example_real_weights rt
    = Some (rc, e').
Proof.
  unfold compute_posterior.
  change (n_cols (post_mean example_real_engine)) with 1%nat.
  cbn [for_loopM]. unfold effect_step at 1. rewrite example_real_Vinv.
  destruct (@mash_components_total R Rscalar LM Tiny.lapack example_real_engine
              example_real_weights rt (Tiny.m1 (1 / (1 * 1 * 1)))
              (vzeros (n_rows (post_mean example_real_engine))) 0%nat example_real_U0)
    as [st Est].
  rewrite Est. eauto.
Qed.

Lemma symmetric_m1 (u : R) (r c : nat) :
  mat_at (Tiny.m1 u) r c = mat_at (Tiny.m1 u) c r.
Proof. destruct r as [| [| r]], c as [| [| c]]; reflexivity. Qed.

Lemma psd_m1 (u : R) : 0 <= u -> psd 1 (Tiny.m1 u).
Proof.
  intros Hu x. unfold quad, mv. rewrite !Rsum_S, !Rsum_0.
  change (mat_at (Tiny.m1 u) 0 0) with u.
  pose proof (Rle_0_sqr (x 0%nat)) as Hx. unfold Rsqr in Hx. nra.
Qed.













End ExampleFacts.

(** * The claims *)

(** C1.  When the Cholesky factorisation of [sigma] fails, [dmvnorm_mat] and
    [dmvnorm] (with [inversed = false]) treat the distribution as a point mass
    at [mean]: a column whose L1 distance to [mean] is strictly below [1e-6]
    gets [+inf], as a density and as a log-density, and every other column
    gets [0] as a density and [-inf] as a log-density. *)
Theorem C1_singular_covariance_is_point_mass
        {num : Type} {SC : Scalar num} {LM : Libm num} {DT : Datum num} {LA : Lapack num}
        (x : mat num) (mean : vec num) (sigma : mat num) (logd : bool) :
  chol sigma = None ->
  n_elem (dmvnorm_mat x mean sigma logd false) = n_cols x /\
  (forall i, (i < n_cols x)%nat ->
     vat (dmvnorm_mat x mean sigma logd false) i
     = if (l1_dist (col x i) mean <? eps6)%num then datum_inf
       else if logd then (- datum_inf)%num else zero) /\
  (forall v : vec num,
     dmvnorm v mean sigma logd false
     = if (l1_dist v mean <? eps6)%num then datum_inf
       else if logd then (- datum_inf)%num else zero).
Proof.
  intros Hchol. apply rooti_of_chol_fails in Hchol.
  destruct (dmvnorm_mat_caught x mean sigma logd Hchol) as [Hlen Hval].
  repeat split.
  - exact Hlen.
  - exact Hval.
  - intros v. now apply dmvnorm_caught.
Qed.

(** The instance of C1 at binary64: the covariance [0] (1x1), the columns [0]
    and [1], the mean [0]. *)
Lemma C1_witness_binary64 :
  let x := Mat 1 2 [[0%float]; [1%float]] in
  let mean := [0%float] in
  let sigma := Tiny.m1 0%float in
  n_elem (@dmvnorm_mat float binary64 float_libm float_datum Tiny.lapack
                       x mean sigma false false) = 2%nat /\
  (forall i, (i < 2)%nat ->
     vat (@dmvnorm_mat float binary64 float_libm float_datum Tiny.lapack
                       x mean sigma false false) i
     = if PrimFloat.ltb (@l1_dist float binary64 (col x i) mean) eps6 then infinity
       else 0%float) /\
  (forall v : vec float,
     @dmvnorm float binary64 float_libm float_datum Tiny.lapack v mean sigma false false
     = if PrimFloat.ltb (@l1_dist float binary64 v mean) eps6 then infinity
       else 0%float).
Proof.
  exact (@C1_singular_covariance_is_point_mass float binary64 float_libm float_datum
           Tiny.lapack (Mat 1 2 [[0%float]; [1%float]]) [0%float] (Tiny.m1 0%float)
           false eq_refl).
Defined.

(** C7.  When all the columns of [s_mat] are identical, [calc_lik] returns the
    same J x P matrix with [common_cov = true] as with [common_cov = false].
    The inputs have the documented shapes ([s_mat] has a column for each of
    the J >= 1 columns of [b_mat]), so that the column 0 the shared path reads
    exists. *)
Theorem C7_calc_lik_common_cov_agrees
        {num : Type} {SC : Scalar num} {LM : Libm num} {DT : Datum num} {LA : Lapack num}
        (b_mat s_mat v_mat l_mat : mat num) (U_cube : cube num) (logd : bool) :
  n_cols s_mat = n_cols b_mat ->
  (0 < n_cols b_mat)%nat ->
  (forall j, (j < n_cols b_mat)%nat -> col s_mat j = col s_mat 0) ->
  calc_lik b_mat s_mat v_mat l_mat U_cube logd true
  = calc_lik b_mat s_mat v_mat l_mat U_cube logd false
  /\ n_rows (calc_lik b_mat s_mat v_mat l_mat U_cube logd true) = n_cols b_mat
  /\ n_cols (calc_lik b_mat s_mat v_mat l_mat U_cube logd true) = n_slices U_cube.
Proof.
  intros _ _ Hcols.
  rewrite calc_lik_common, calc_lik_general.
  repeat split.
  apply mk_mat_ext. intros j p Hj _. now rewrite (Hcols j Hj).
Qed.

(** The instance of C7 at binary64: two effects with the same standard
    error, one condition, one component. *)
Lemma C7_witness_binary64 :
  let b_mat := Mat 1 2 [[0%float]; [1%float]] in
  let s_mat := Mat 1 2 [[1%float]; [1%float]] in
  let U_cube := Cube 1 1 [Tiny.m1 1%float] in
  @calc_lik float binary64 float_libm float_datum Tiny.lapack
            b_mat s_mat (Tiny.m1 1%float) empty_mat U_cube false true
  = @calc_lik float binary64 float_libm float_datum Tiny.lapack
              b_mat s_mat (Tiny.m1 1%float) empty_mat U_cube false false
  /\ n_rows (@calc_lik float binary64 float_libm float_datum Tiny.lapack
                       b_mat s_mat (Tiny.m1 1%float) empty_mat U_cube false true) = 2%nat
  /\ n_cols (@calc_lik float binary64 float_libm float_datum Tiny.lapack
                       b_mat s_mat (Tiny.m1 1%float) empty_mat U_cube false true) = 1%nat.
Proof.
  apply (@C7_calc_lik_common_cov_agrees float binary64 float_libm float_datum Tiny.lapack
           (Mat 1 2 [[0%float]; [1%float]]) (Mat 1 2 [[1%float]; [1%float]])
           (Tiny.m1 1%float) empty_mat (Cube 1 1 [Tiny.m1 1%float]) false).
  - reflexivity.
  - simpl. lia.
  - intros j Hj. simpl in Hj.
    destruct j as [| [| j]]; [reflexivity | reflexivity | lia].
Defined.

(** C10.  With [inversed = true] (the whitening matrices of the second
    [calc_lik]) the point-mass fallback is never applied.  For every scalar
    type and every input, [dmvnorm], every column of [dmvnorm_mat] and every
    entry of the second [calc_lik], on both of its paths, are the density
    computed from the matrix handed in; the result depends neither on what
    the factorisation would do with that matrix nor on [datum::inf].  What
    the caller gets is what the formula gives, where the raw-covariance path
    gives the point mass for a covariance [chol] rejects: [datum::inf] within
    [1e-6] of [mean], and [0] (or [-datum::inf] for the log-density) away
    from it.  In exact arithmetic, from a matrix with a positive diagonal,
    away from [mean] the formula gives a positive density, where the point
    mass is [0].  The results are not different for every matrix: see the
    counterexample below. *)
Theorem C10_whitening_never_falls_back :
  (forall (num : Type) (SC : Scalar num) (LM : Libm num) (DT : Datum num) (LA : Lapack num)
          (x : mat num) (v mean : vec num) (M : mat num) (logd : bool),
      (dmvnorm_mat x mean M logd true
       = mk_vec (n_cols x) (fun i => whitened M (col x i) mean logd)
       /\ dmvnorm v mean M logd true = whitened M v mean logd) /\
      (forall (DT' : Datum num) (LA' : Lapack num),
          @dmvnorm_mat num SC LM DT' LA' x mean M logd true = dmvnorm_mat x mean M logd true /\
          @dmvnorm num SC LM DT' LA' v mean M logd true = dmvnorm v mean M logd true))
  /\
  (forall (num : Type) (SC : Scalar num) (LM : Libm num) (DT : Datum num) (LA : Lapack num)
          (b_mat : mat num) (rooti_cube : cube num) (logd : bool),
      calc_lik_rooti b_mat rooti_cube logd true
      = mk_mat (n_cols b_mat) (n_slices rooti_cube)
               (fun j p => whitened (slice rooti_cube p) (col b_mat j)
                                    (vzeros (n_rows b_mat)) logd) /\
      ((0 < n_cols b_mat)%nat ->
       let P := (n_slices rooti_cube / n_cols b_mat)%nat in
       calc_lik_rooti b_mat rooti_cube logd false
       = mk_mat (n_cols b_mat) P
                (fun j p => whitened (slice rooti_cube (j * P + p)) (col b_mat j)
                                     (vzeros (n_rows b_mat)) logd)))
  /\
  (forall (num : Type) (SC : Scalar num) (LM : Libm num) (DT : Datum num) (LA : Lapack num)
          (v mean : vec num) (sigma M : mat num) (logd : bool),
      chol sigma = None ->
      dmvnorm v mean M logd true = whitened M v mean logd /\
      dmvnorm v mean sigma logd false
      = (if (l1_dist v mean <? eps6)%num then datum_inf
         else if logd then (- datum_inf)%num else zero))
  /\
  (forall (erfc : R -> R) (oo : R) (LA : Lapack R) (v mean : vec R) (sigma M : mat R),
      chol sigma = None ->
      (l1_dist v mean <? eps6)%num = false ->
      (forall i, (i < n_elem (diag M))%nat -> (0 < vat (diag M) i)%R) ->
      (0 < @dmvnorm R Rscalar (Rlibm erfc) (Rdatum oo) LA v mean M false true)%R /\
      @dmvnorm R Rscalar (Rlibm erfc) (Rdatum oo) LA v mean sigma false false = 0%R).
Proof.
  split; [| split; [| split]].
  - intros. split; [split |].
    + apply dmvnorm_mat_inversed.
    + apply dmvnorm_inversed.
    + intros DT' LA'. rewrite !dmvnorm_mat_inversed, !dmvnorm_inversed. split; reflexivity.
  - intros num SC LM DT LA b_mat rooti_cube logd. split.
    + rewrite calc_lik_rooti_common. apply mk_mat_ext. intros j p Hj Hp.
      apply dmvnorm_inversed.
    + intros _ P. unfold P. rewrite calc_lik_rooti_general. cbv zeta.
      apply mk_mat_ext. intros j p Hj Hp. apply dmvnorm_inversed.
  - intros num SC LM DT LA v mean sigma M logd Hchol. split.
    + apply dmvnorm_inversed.
    + now rewrite (dmvnorm_caught v mean sigma logd (rooti_of_chol_fails sigma Hchol)).
  - intros erfc oo LA v mean sigma M Hchol Hfar _.
    rewrite dmvnorm_inversed.
    rewrite (@dmvnorm_caught R Rscalar (Rlibm erfc) (Rdatum oo) LA v mean sigma false
               (rooti_of_chol_fails sigma Hchol)).
    unfold point_mass. rewrite Hfar.
    split; [| reflexivity].
    unfold whitened. cbn [fexp Rlibm]. apply exp_pos.
Qed.

(** The instances of the last two parts of C10, for the covariance [0] (1x1),
    which [chol] rejects, and the matrix [1] handed in as whitening matrix.
    Over the reals, at the column [1] and the mean [0]: a positive density
    against [0].  On the doubles, at the mean: the finite log-density
    [-log(2 pi) / 2] against [+inf]. *)
Lemma C10_witness_reals :
  ((0 < @dmvnorm R Rscalar (Rlibm erfc_like) (Rdatum 0%R) Tiny.lapack
                 [1%R] [0%R] (Tiny.m1 1%R) false true)%R /\
   @dmvnorm R Rscalar (Rlibm erfc_like) (Rdatum 0%R) Tiny.lapack
            [1%R] [0%R] (Tiny.m1 0%R) false false = 0%R) /\
  (@dmvnorm float binary64 float_libm_c float_datum Tiny.lapack
            [0%float] [0%float] (Tiny.m1 1%float) true true
   = (-0x1.d67f1c864beb4p-1)%float /\
   @dmvnorm float binary64 float_libm_c float_datum Tiny.lapack
            [0%float] [0%float] (Tiny.m1 0%float) true false = infinity).
Proof.
  split.
  - apply (proj2 (proj2 (proj2 C10_whitening_never_falls_back)) erfc_like 0%R Tiny.lapack
                 [1%R] [0%R] (Tiny.m1 0%R) (Tiny.m1 1%R)).
    + cbn. destruct (Rlt_dec 0 0) as [H | H]; [lra | reflexivity].
    + cbn. destruct (Rlt_dec _ _) as [H | H]; [| reflexivity].
      exfalso. revert H. unfold Rabs. destruct (Rcase_abs _); lra.
    + intros i Hi. cbn in Hi. destruct i as [| i]; [| lia]. cbn. lra.
  - assert (Hc : @chol float Tiny.lapack (Tiny.m1 0%float) = None)
      by (vm_compute; reflexivity).
    destruct (proj1 (proj2 (proj2 C10_whitening_never_falls_back))
                float binary64 float_libm_c float_datum Tiny.lapack
                [0%float] [0%float] (Tiny.m1 0%float) (Tiny.m1 1%float) true Hc)
      as (Hw & Hp).
    rewrite Hw, Hp. split; vm_compute; reflexivity.
Defined.

(** The claim as stated fails on the doubles: the results need not differ.
    For the singular covariance [0] (1x1; [chol] fails on it), the column
    [1], the mean [0] and the matrix [0] handed in as whitening matrix,
    [log(0) = -inf] makes the log-density [-inf] and the density
    [exp(-inf) = 0]: the values of the point-mass limit away from the mean. *)
Lemma C10_counterexample_binary64 :
  @chol float Tiny.lapack (Tiny.m1 0%float) = None /\
  @dmvnorm float binary64 float_libm_c float_datum Tiny.lapack
           [1%float] [0%float] (Tiny.m1 0%float) false true
  = @dmvnorm float binary64 float_libm_c float_datum Tiny.lapack
             [1%float] [0%float] (Tiny.m1 0%float) false false /\
  @dmvnorm float binary64 float_libm_c float_datum Tiny.lapack
           [1%float] [0%float] (Tiny.m1 0%float) true true
  = @dmvnorm float binary64 float_libm_c float_datum Tiny.lapack
             [1%float] [0%float] (Tiny.m1 0%float) true false /\
  @dmvnorm float binary64 float_libm_c float_datum Tiny.lapack
           [1%float] [0%float] (Tiny.m1 0%float) false true = 0%float.
Proof. vm_compute. repeat split. Qed.

(** C8.  For every effect [j] and component [p] the univariate engine computes
    the closed-form conjugate update with the scalar precision
    [vinv_j = 1/(s_j^2 v)]: the posterior variance before rescaling
    [U1 = U_p/(vinv_j U_p + 1)], the posterior mean [mu1 = U1 vinv_j b_j alpha_j]
    and the rescaled variance [U1 alpha_j^2] (with [alpha_j = 1] when no
    [s_alpha] is given); the outputs are their mixtures under the weights.
    The engine takes no [Lapack]: it inverts and factorises nothing. *)
Theorem C8_univariate_closed_form
        {num : Type} {SC : Scalar num} {LM : Libm num}
        (b_vec s_vec s_alpha : vec num) (v : num) (U_vec : vec num)
        (indet : nat -> num) (posterior_weights : mat num) :
  n_elem s_vec = n_elem b_vec ->
  n_elem s_alpha = 0%nat \/ n_elem s_alpha = n_elem b_vec ->
  let e := PosteriorASH.new b_vec s_vec s_alpha v U_vec indet in
  let st := PosteriorASH.components e in
  let e' := snd (PosteriorASH.compute_posterior e posterior_weights) in
  forall j p, (j < n_elem b_vec)%nat -> (p < n_elem U_vec)%nat ->
    let alpha_j := if (n_elem s_alpha =? 0)%nat then one else vat s_alpha j in
    let vinv_j := (one / (vat s_vec j * vat s_vec j * v))%num in
    let U1 := (vat U_vec p / (vinv_j * vat U_vec p + one))%num in
    let mu1 := (U1 * vinv_j * vat b_vec j * alpha_j)%num in
    let var := (U1 * (alpha_j * alpha_j))%num in
    let mix := fun m : mat num =>
                 sum_n (n_elem U_vec)
                       (fun q => (mat_at m j q * vat (col posterior_weights j) q)%num) in
    mat_at (PosteriorASH.mu1_mat st) j p = mu1 /\
    mat_at (PosteriorASH.mu2_mat st) j p = (mu1 * mu1 + var)%num /\
    mat_at (PosteriorASH.neg_mat st) j p
    = (if (var ==? zero)%num then zero
       else (half * ferfc ((mu1 - zero) / fsqrt var * m_sqrt1_2))%num) /\
    mat_at (PosteriorASH.zero_mat st) j p = (if (var ==? zero)%num then one else zero) /\
    vat (PosteriorASH.post_mean e') j = mix (PosteriorASH.mu1_mat st) /\
    vat (PosteriorASH.post_var e') j
    = (mix (PosteriorASH.mu2_mat st)
       - mix (PosteriorASH.mu1_mat st) * mix (PosteriorASH.mu1_mat st))%num.
Proof.
  intros Hs Ha e st e' j p Hj Hp alpha_j vinv_j U1 mu1 var mix.
  assert (Halpha : n_elem (PosteriorASH.s_alpha_vec e) = n_elem b_vec).
  { unfold e, PosteriorASH.new. cbn [PosteriorASH.s_alpha_vec].
    destruct (Nat.eqb_spec (n_elem s_alpha) 0) as [E | E].
    - unfold vones. apply n_elem_mk_vec.
    - destruct Ha; [contradiction | assumption]. }
  assert (Hal : vat (PosteriorASH.s_alpha_vec e) j = alpha_j).
  { unfold e, PosteriorASH.new, alpha_j. cbn [PosteriorASH.s_alpha_vec].
    destruct (n_elem s_alpha =? 0)%nat; [| reflexivity].
    unfold vones. now rewrite vat_mk_vec. }
  destruct (ash_components_spec e Hs Halpha) as (_ & Hent).
  destruct (Hent j p Hj Hp) as (E1 & E2 & E3 & E4).
  cbv zeta in E1, E2, E3, E4. rewrite Hal in E1, E2, E3, E4.
  unfold closed_mu1, closed_U1, closed_vinv, closed_var, pnorm1, pnorm_tail in E1, E2, E3, E4.
  cbn [negb andb] in E4.
  cbn [PosteriorASH.b_vec PosteriorASH.s_vec PosteriorASH.v PosteriorASH.U_vec
       PosteriorASH.new e] in E1, E2, E3, E4.
  fold st in E1, E2, E3, E4.
  destruct (ash_compute_posterior_spec e posterior_weights Hs Halpha
              (n_elem_mk_vec _ _) (n_elem_mk_vec _ _) (n_elem_mk_vec _ _)
              (n_elem_mk_vec _ _)) as (_ & Hout).
  destruct (Hout j Hj) as (O1 & O2 & _ & _).
  repeat split; assumption.
Qed.

(** The instance of C8 at binary64: two effects, two components (the second
    of variance 0), no [s_alpha]; effect 0 under component 0. *)
Lemma C8_witness_binary64 :
  let b_vec := [1%float; 2%float] in
  let s_vec := [1%float; 1%float] in
  let U_vec := [1%float; 0%float] in
  let w := Mat 2 2 [[0.5%float; 0.5%float]; [0.25%float; 0.75%float]] in
  let e := @PosteriorASH.new float binary64 b_vec s_vec [] 1%float U_vec (fun _ => nan) in
  let st := @PosteriorASH.components float binary64 float_libm e in
  let e' := snd (@PosteriorASH.compute_posterior float binary64 float_libm e w) in
  mat_at (PosteriorASH.mu1_mat st) 0 0 = 0.5%float /\
  mat_at (PosteriorASH.mu2_mat st) 0 0 = 0.75%float /\
  mat_at (PosteriorASH.neg_mat st) 0 0 = nan /\
  mat_at (PosteriorASH.zero_mat st) 0 0 = 0%float /\
  vat (PosteriorASH.post_mean e') 0 = 0.25%float /\
  vat (PosteriorASH.post_var e') 0 = 0.3125%float.
Proof.
  exact (@C8_univariate_closed_form float binary64 float_libm
           [1%float; 2%float] [1%float; 1%float] [] 1%float [1%float; 0%float]
           (fun _ => nan)
           (Mat 2 2 [[0.5%float; 0.5%float]; [0.25%float; 0.75%float]])
           eq_refl (or_introl eq_refl) 0%nat 0%nat
           (Nat.lt_0_succ 1) (Nat.lt_0_succ 1)).
Defined.

(** C4, as the code has it.  After [compute_posterior] the accessors
    [PosteriorMean], [PosteriorSD], [NegativeProb] and [ZeroProb] return the
    transposes of the internal buffers: matrices of shape J x R, or J x Q when
    an embedding matrix [a_mat] with Q rows was supplied; [PosteriorCov]
    returns the R x R x J (resp. Q x Q x J) tensor.  The engine is the one the
    constructor builds, with or without injected caches. *)
Theorem C4_accessor_shapes
        {num : Type} {SC : Scalar num} {LM : Libm num} {LA : Lapack num}
        (b_mat s_mat s_alpha_mat s_orig_mat v_mat l_mat a_mat : mat num)
        (U_cube Vinv_cube U0_cube : cube num)
        (posterior_weights : mat num) (report_type rc : Z) (e' : PosteriorMASH.t num) :
  let e0 := PosteriorMASH.new b_mat s_mat s_alpha_mat s_orig_mat v_mat l_mat a_mat U_cube in
  let e := snd (PosteriorMASH.set_U0 (snd (PosteriorMASH.set_vinv e0 Vinv_cube)) U0_cube) in
  PosteriorMASH.compute_posterior e posterior_weights report_type = Some (rc, e') ->
  let J := n_cols b_mat in
  let Q := if mat_is_empty a_mat then n_rows b_mat else n_rows a_mat in
  (n_rows (PosteriorMASH.PosteriorMean e') = J /\
   n_cols (PosteriorMASH.PosteriorMean e') = Q) /\
  (n_rows (PosteriorMASH.PosteriorSD e') = J /\
   n_cols (PosteriorMASH.PosteriorSD e') = Q) /\
  (n_rows (PosteriorMASH.NegativeProb e') = J /\
   n_cols (PosteriorMASH.NegativeProb e') = Q) /\
  (n_rows (PosteriorMASH.ZeroProb e') = J /\
   n_cols (PosteriorMASH.ZeroProb e') = Q) /\
  (c_rows (PosteriorMASH.PosteriorCov e') = Q /\
   c_cols (PosteriorMASH.PosteriorCov e') = Q /\
   n_slices (PosteriorMASH.PosteriorCov e') = J /\
   forall j, (j < J)%nat ->
             n_rows (slice (PosteriorMASH.PosteriorCov e') j) = Q /\
             n_cols (slice (PosteriorMASH.PosteriorCov e') j) = Q).
Proof.
  intros e0 e E J Q.
  assert (Hbuf : mash_buffers Q J e).
  { unfold mash_buffers, e, e0, PosteriorMASH.set_U0, PosteriorMASH.set_vinv,
      PosteriorMASH.new, Q, J.
    cbn [snd PosteriorMASH.post_mean PosteriorMASH.post_var PosteriorMASH.neg_prob
         PosteriorMASH.zero_prob].
    destruct (mat_is_empty a_mat); cbn; repeat split. }
  assert (Hcov0 : PosteriorMASH.post_cov e = czeros Q Q J).
  { unfold e, e0, PosteriorMASH.set_U0, PosteriorMASH.set_vinv, PosteriorMASH.new, Q, J.
    cbn [snd PosteriorMASH.post_cov]. now destruct (mat_is_empty a_mat). }
  destruct (mash_compute_posterior_spec e e' posterior_weights report_type rc Q J Hbuf E)
    as (_ & _ & ((PMr & PMc) & (PVr & PVc) & (NPr & NPc) & (ZPr & ZPc)) & _ & _ & Hcov).
  unfold PosteriorMASH.PosteriorMean, PosteriorMASH.PosteriorSD, PosteriorMASH.NegativeProb,
    PosteriorMASH.ZeroProb, PosteriorMASH.PosteriorCov, trans, msqrt, mmap.
  cbn [n_rows n_cols mk_mat].
  repeat split; try assumption.
  - destruct (cov_gate report_type).
    + destruct Hcov as ((Cr & _) & _). now rewrite Cr, Hcov0.
    + now rewrite Hcov, Hcov0.
  - destruct (cov_gate report_type).
    + destruct Hcov as ((_ & Cc & _) & _). now rewrite Cc, Hcov0.
    + now rewrite Hcov, Hcov0.
  - destruct (cov_gate report_type).
    + destruct Hcov as ((_ & _ & Cn) & _). rewrite Cn, Hcov0. apply n_slices_czeros.
    + rewrite Hcov, Hcov0. apply n_slices_czeros.
  - destruct (cov_gate report_type).
    + destruct Hcov as (_ & Hsl).
      rewrite Hsl by (rewrite Hcov0, n_slices_czeros; assumption).
      replace (j <? J)%nat with true by (symmetry; apply Nat.ltb_lt; assumption).
      unfold mash_post_cov_slice. rewrite Hcov0, slice_czeros.
      destruct (report_type =? 4)%Z; unfold msub, mmap2; cbn [n_rows mk_mat];
        now rewrite (proj1 (maccum_shape _ _ _)).
    + now rewrite Hcov, Hcov0, slice_czeros.
  - destruct (cov_gate report_type).
    + destruct Hcov as (_ & Hsl).
      rewrite Hsl by (rewrite Hcov0, n_slices_czeros; assumption).
      replace (j <? J)%nat with true by (symmetry; apply Nat.ltb_lt; assumption).
      unfold mash_post_cov_slice. rewrite Hcov0, slice_czeros.
      destruct (report_type =? 4)%Z; unfold msub, mmap2; cbn [n_cols mk_mat];
        now rewrite (proj2 (maccum_shape _ _ _)).
    + now rewrite Hcov, Hcov0, slice_czeros.
Qed.

(** As the claim states it, C4 fails on that engine (R = 2, J = 1):
    [PosteriorMean] returns a 1 x 2 matrix, not a 2 x 1 one. *)
Lemma C4_counterexample_transposed :
  exists e',
    @PosteriorMASH.compute_posterior float binary64 float_libm Tiny.lapack
                                     example_engine example_weights 3%Z
    = Some (0%Z, e') /\
    n_rows (PosteriorMASH.b_mat example_engine) = 2%nat /\
    n_cols (PosteriorMASH.b_mat example_engine) = 1%nat /\
    n_rows (PosteriorMASH.PosteriorMean e') = 1%nat /\
    n_cols (PosteriorMASH.PosteriorMean e') = 2%nat /\
    ~ (n_rows (PosteriorMASH.PosteriorMean e') = 2%nat /\
       n_cols (PosteriorMASH.PosteriorMean e') = 1%nat).
Proof.
  eexists. split; [vm_compute; reflexivity |].
  vm_compute. repeat split; try reflexivity. intros [H _]. discriminate.
Qed.

(** The instance of C4 on the same engine: the call returns, and the
    accessors have the shapes 1 x 2 and 2 x 2 x 1. *)
Lemma C4_witness_binary64 :
  match @PosteriorMASH.compute_posterior float binary64 float_libm Tiny.lapack
          (snd (PosteriorMASH.set_U0 (snd (PosteriorMASH.set_vinv example_engine empty_cube))
                                     empty_cube))
          example_weights 3%Z
  with
  | Some (_, e') =>
      (n_rows (PosteriorMASH.PosteriorMean e') = 1%nat /\
       n_cols (PosteriorMASH.PosteriorMean e') = 2%nat) /\
      (n_rows (PosteriorMASH.PosteriorSD e') = 1%nat /\
       n_cols (PosteriorMASH.PosteriorSD e') = 2%nat) /\
      (n_rows (PosteriorMASH.NegativeProb e') = 1%nat /\
       n_cols (PosteriorMASH.NegativeProb e') = 2%nat) /\
      (n_rows (PosteriorMASH.ZeroProb e') = 1%nat /\
       n_cols (PosteriorMASH.ZeroProb e') = 2%nat) /\
      (c_rows (PosteriorMASH.PosteriorCov e') = 2%nat /\
       c_cols (PosteriorMASH.PosteriorCov e') = 2%nat /\
       n_slices (PosteriorMASH.PosteriorCov e') = 1%nat /\
       forall j, (j < 1)%nat ->
                 n_rows (slice (PosteriorMASH.PosteriorCov e') j) = 2%nat /\
                 n_cols (slice (PosteriorMASH.PosteriorCov e') j) = 2%nat)
  | None => False
  end.
Proof.
  destruct (@PosteriorMASH.compute_posterior float binary64 float_libm Tiny.lapack
              (snd (PosteriorMASH.set_U0
                      (snd (PosteriorMASH.set_vinv example_engine empty_cube)) empty_cube))
              example_weights 3%Z) as [[rc e'] |] eqn:E.
  - exact (@C4_accessor_shapes float binary64 float_libm Tiny.lapack
             (Mat 2 1 [[1%float; 0%float]]) (Mat 2 1 [[1%float; 1%float]])
             empty_mat empty_mat (Tiny.m2 1%float 0%float 0%float 1%float)
             empty_mat empty_mat
             (Cube 2 2 [Tiny.m2 1%float 0%float 0%float 1%float])
             empty_cube empty_cube example_weights 3%Z rc e' E).
  - vm_compute in E. discriminate E.
Defined.

(** As the claim states it, C2 fails at [report_type = 3]: on the example
    engine both [compute_posterior] and [compute_posterior_comcov] leave
    [post_cov] at zero, although the second moments they would accumulate are
    not zero (as [report_type = 2] shows). *)
Lemma C2_counterexample_report_type_3 :
  exists e3 e2 c3 c2,
    @PosteriorMASH.compute_posterior float binary64 float_libm Tiny.lapack
                                     example_engine example_weights 3%Z = Some (0%Z, e3) /\
    @PosteriorMASH.compute_posterior float binary64 float_libm Tiny.lapack
                                     example_engine example_weights 2%Z = Some (0%Z, e2) /\
    @PosteriorMASH.compute_posterior_comcov float binary64 float_libm Tiny.lapack
                                     example_engine example_weights 3%Z = Some (0%Z, c3) /\
    @PosteriorMASH.compute_posterior_comcov float binary64 float_libm Tiny.lapack
                                     example_engine example_weights 2%Z = Some (0%Z, c2) /\
    PosteriorMASH.post_cov e3 = czeros 2 2 1 /\
    PosteriorMASH.post_cov c3 = czeros 2 2 1 /\
    slice (PosteriorMASH.post_cov e2) 0
    = Tiny.m2 0.75%float 0%float 0%float 0.5%float /\
    slice (PosteriorMASH.post_cov c2) 0
    = Tiny.m2 0.75%float 0%float 0%float 0.5%float.
Proof.
  do 4 eexists.
  split; [vm_compute; reflexivity |].
  split; [vm_compute; reflexivity |].
  split; [vm_compute; reflexivity |].
  split; [vm_compute; reflexivity |].
  vm_compute. repeat split.
Qed.

(** C2, as the code has it.  On the engine the constructor builds (with or
    without injected caches), [compute_posterior] and
    [compute_posterior_comcov] leave [post_cov] at its zero-initialised state
    for every [report_type] other than 2 and 4 (so for 1, and for 3 as well);
    for [report_type] 2 and 4 every slice [j] holds the weighted second
    moments [posterior_weights(p, j) * (U1 + mu1 mu1')] accumulated over the
    components, less the outer product of the posterior mean when
    [report_type] is 4. *)
Theorem C2_post_cov_written_for_report_types_2_and_4
        {num : Type} {SC : Scalar num} {LM : Libm num} {LA : Lapack num}
        (b_mat s_mat s_alpha_mat s_orig_mat v_mat l_mat a_mat : mat num)
        (U_cube Vinv_cube U0_cube : cube num)
        (posterior_weights : mat num) (report_type rc : Z) (e' : PosteriorMASH.t num) :
  let e0 := PosteriorMASH.new b_mat s_mat s_alpha_mat s_orig_mat v_mat l_mat a_mat U_cube in
  let e := snd (PosteriorMASH.set_U0 (snd (PosteriorMASH.set_vinv e0 Vinv_cube)) U0_cube) in
  let J := n_cols b_mat in
  let Q := if mat_is_empty a_mat then n_rows b_mat else n_rows a_mat in
  PosteriorMASH.post_cov e = czeros Q Q J /\
  (PosteriorMASH.compute_posterior e posterior_weights report_type = Some (rc, e') ->
   (report_type <> 2%Z -> report_type <> 4%Z ->
    PosteriorMASH.post_cov e' = czeros Q Q J) /\
   (report_type = 2%Z \/ report_type = 4%Z ->
    forall j, (j < J)%nat ->
      slice (PosteriorMASH.post_cov e') j
      = mash_post_cov_slice e posterior_weights report_type j)) /\
  (PosteriorMASH.compute_posterior_comcov e posterior_weights report_type = Some (rc, e') ->
   (report_type <> 2%Z -> report_type <> 4%Z ->
    PosteriorMASH.post_cov e' = czeros Q Q J) /\
   (report_type = 2%Z \/ report_type = 4%Z ->
    forall j, (j < J)%nat ->
      slice (PosteriorMASH.post_cov e') j
      = comcov_post_cov_slice e posterior_weights report_type
                              (PosteriorMASH.post_mean e') j)).
Proof.
  intros e0 e J Q.
  assert (Hbuf : mash_buffers Q J e).
  { unfold mash_buffers, e, e0, PosteriorMASH.set_U0, PosteriorMASH.set_vinv,
      PosteriorMASH.new, Q, J.
    cbn [snd PosteriorMASH.post_mean PosteriorMASH.post_var PosteriorMASH.neg_prob
         PosteriorMASH.zero_prob].
    destruct (mat_is_empty a_mat); cbn; repeat split. }
  assert (Hcov0 : PosteriorMASH.post_cov e = czeros Q Q J).
  { unfold e, e0, PosteriorMASH.set_U0, PosteriorMASH.set_vinv, PosteriorMASH.new, Q, J.
    cbn [snd PosteriorMASH.post_cov]. now destruct (mat_is_empty a_mat). }
  assert (Hgate : forall rt : Z,
             (rt <> 2%Z -> rt <> 4%Z -> cov_gate rt = false) /\
             (rt = 2%Z \/ rt = 4%Z -> cov_gate rt = true)).
  { intros rt. unfold cov_gate. split.
    - intros H2 H4. apply orb_false_iff. split; now apply Z.eqb_neq.
    - intros [-> | ->]; reflexivity. }
  split; [exact Hcov0 |]. split.
  - intros E.
    destruct (mash_compute_posterior_spec e e' posterior_weights report_type rc Q J Hbuf E)
      as (_ & _ & _ & _ & _ & Hcov).
    split.
    + intros H2 H4. rewrite (proj1 (Hgate report_type) H2 H4) in Hcov. now rewrite Hcov.
    + intros Hrt j Hj. rewrite (proj2 (Hgate report_type) Hrt) in Hcov.
      destruct Hcov as (_ & Hsl).
      rewrite Hsl by (rewrite Hcov0, n_slices_czeros; exact Hj).
      now replace (j <? J)%nat with true by (symmetry; apply Nat.ltb_lt; exact Hj).
  - intros E.
    destruct (mash_comcov_spec e e' posterior_weights report_type rc E)
      as (_ & _ & _ & _ & Hcov).
    assert (HJ : n_cols (PosteriorMASH.post_mean e) = J) by (now destruct Hbuf as ((_ & ->) & _)).
    rewrite HJ in Hcov.
    split.
    + intros H2 H4. rewrite (proj1 (Hgate report_type) H2 H4) in Hcov. now rewrite Hcov.
    + intros Hrt j Hj. rewrite (proj2 (Hgate report_type) Hrt) in Hcov.
      destruct Hcov as (_ & Hsl).
      rewrite Hsl by (rewrite Hcov0, n_slices_czeros; exact Hj).
      now replace (j <? J)%nat with true by (symmetry; apply Nat.ltb_lt; exact Hj).
Qed.

(** The instance of C2 on the example engine with [report_type = 2]: both
    calls return, and slice 0 of [post_cov] holds the accumulated moments. *)
Lemma C2_witness_binary64 :
  let e := snd (PosteriorMASH.set_U0 (snd (PosteriorMASH.set_vinv example_engine empty_cube))
                                     empty_cube) in
  match @PosteriorMASH.compute_posterior float binary64 float_libm Tiny.lapack
          e example_weights 2%Z,
        @PosteriorMASH.compute_posterior_comcov float binary64 float_libm Tiny.lapack
          e example_weights 2%Z
  with
  | Some (_, e1), Some (_, e2) =>
      (forall j, (j < 1)%nat ->
         slice (PosteriorMASH.post_cov e1) j
         = @mash_post_cov_slice float binary64 Tiny.lapack e example_weights 2%Z j) /\
      (forall j, (j < 1)%nat ->
         slice (PosteriorMASH.post_cov e2) j
         = @comcov_post_cov_slice float binary64 Tiny.lapack e example_weights 2%Z
                                  (PosteriorMASH.post_mean e2) j)
  | _, _ => False
  end.
Proof.
  intros e.
  destruct (@PosteriorMASH.compute_posterior float binary64 float_libm Tiny.lapack
              e example_weights 2%Z) as [[rc1 e1] |] eqn:E1;
    [| vm_compute in E1; discriminate E1].
  destruct (@PosteriorMASH.compute_posterior_comcov float binary64 float_libm Tiny.lapack
              e example_weights 2%Z) as [[rc2 e2] |] eqn:E2;
    [| vm_compute in E2; discriminate E2].
  split.
  - exact (proj2 (proj1 (proj2 (@C2_post_cov_written_for_report_types_2_and_4
             float binary64 float_libm Tiny.lapack
             (Mat 2 1 [[1%float; 0%float]]) (Mat 2 1 [[1%float; 1%float]])
             empty_mat empty_mat (Tiny.m2 1%float 0%float 0%float 1%float)
             empty_mat empty_mat
             (Cube 2 2 [Tiny.m2 1%float 0%float 0%float 1%float])
             empty_cube empty_cube example_weights 2%Z rc1 e1)) E1) (or_introl eq_refl)).
  - exact (proj2 (proj2 (proj2 (@C2_post_cov_written_for_report_types_2_and_4
             float binary64 float_libm Tiny.lapack
             (Mat 2 1 [[1%float; 0%float]]) (Mat 2 1 [[1%float; 1%float]])
             empty_mat empty_mat (Tiny.m2 1%float 0%float 0%float 1%float)
             empty_mat empty_mat
             (Cube 2 2 [Tiny.m2 1%float 0%float 0%float 1%float])
             empty_cube empty_cube example_weights 2%Z rc2 e2)) E2) (or_introl eq_refl)).
Defined.

(** C9.  In [MVSERMix::compute_posterior] and
    [MVSERMix::compute_posterior_comcov], on the engine the constructor builds
    (with whatever caches are injected): when an inverse prior covariance
    tensor [Uinv_cube] has been injected (it is not empty), after the loop
    [prior_scalar[p] = trace(Uinv_p * mu2_cube[p]) / R] for every component
    [p], where [mu2_cube[p]] is the sum over the effects [j] of
    [posterior_variable_weights(p, j) * (U1 + mu1 mu1')]; when none is
    injected, [prior_scalar] keeps the uninitialised storage of the
    constructor. *)
Theorem C9_prior_scalar_update
        {num : Type} {SC : Scalar num} {LM : Libm num} {LA : Lapack num}
        (b_mat s_mat s_alpha_mat s_orig_mat v_mat : mat num)
        (U_cube Vinv_cube U0_cube Uinv_cube : cube num) (indet : nat -> num)
        (posterior_weights posterior_variable_weights : mat num)
        (rc : Z) (e' : MVSERMix.t num) :
  let e0 := MVSERMix.new b_mat s_mat s_alpha_mat s_orig_mat v_mat U_cube indet in
  let e := snd (MVSERMix.set_Uinv
                  (snd (MVSERMix.set_U0 (snd (MVSERMix.set_Vinv e0 Vinv_cube)) U0_cube))
                  Uinv_cube) in
  let P := n_slices U_cube in
  let R := n_rows b_mat in
  (MVSERMix.compute_posterior e posterior_weights posterior_variable_weights
   = Some (rc, e') ->
   if cube_is_empty Uinv_cube
   then MVSERMix.prior_scalar e' = mk_vec P indet
   else forall p, (p < P)%nat ->
          vat (MVSERMix.prior_scalar e') p
          = (trace (mmul (slice Uinv_cube p)
                         (mvser_mu2_slice e posterior_variable_weights p))
             / of_nat R)%num) /\
  (MVSERMix.compute_posterior_comcov e posterior_weights posterior_variable_weights
   = Some (rc, e') ->
   if cube_is_empty Uinv_cube
   then MVSERMix.prior_scalar e' = mk_vec P indet
   else forall p, (p < P)%nat ->
          vat (MVSERMix.prior_scalar e') p
          = (trace (mmul (slice Uinv_cube p)
                         (mvser_comcov_mu2_slice e posterior_variable_weights p))
             / of_nat R)%num).
Proof.
  intros e0 e P R.
  assert (Hps : MVSERMix.prior_scalar e = mk_vec P indet) by reflexivity.
  assert (HU : MVSERMix.Uinv_cube e = Uinv_cube) by reflexivity.
  assert (HP : n_slices (MVSERMix.U_cube e) = P) by reflexivity.
  assert (HR : n_rows (MVSERMix.post_mean e) = R) by reflexivity.
  split; intros E.
  - destruct (mvser_compute_posterior_spec e e' posterior_weights
                posterior_variable_weights rc E) as (_ & _ & H).
    rewrite HU, HP, HR, Hps in H.
    destruct (cube_is_empty Uinv_cube); cbn [negb] in H; [exact H |].
    destruct H as (_ & H). intros p Hp. apply H; [exact Hp |].
    now rewrite n_elem_mk_vec.
  - destruct (mvser_comcov_spec e e' posterior_weights
                posterior_variable_weights rc E) as (_ & _ & H).
    rewrite HU, HP, HR, Hps in H.
    destruct (cube_is_empty Uinv_cube); cbn [negb] in H; [exact H |].
    destruct H as (_ & H). intros p Hp. apply H; [exact Hp |].
    now rewrite n_elem_mk_vec.
Qed.

(** The instance of C9 at binary64, with [Uinv = I]: both calls return, and
    [prior_scalar[0] = trace(mu2_cube[0]) / 2 = (0.75 + 0.5) / 2]. *)
Lemma C9_witness_binary64 :
  match @MVSERMix.compute_posterior float binary64 float_libm Tiny.lapack
          example_mvser example_weights example_weights,
        @MVSERMix.compute_posterior_comcov float binary64 float_libm Tiny.lapack
          example_mvser example_weights example_weights
  with
  | Some (_, e1), Some (_, e2) =>
      vat (MVSERMix.prior_scalar e1) 0 = 0.625%float /\
      vat (MVSERMix.prior_scalar e2) 0 = 0.625%float
  | _, _ => False
  end.
Proof.
  destruct (@MVSERMix.compute_posterior float binary64 float_libm Tiny.lapack
              example_mvser example_weights example_weights) as [[rc1 e1] |] eqn:E1;
    [| vm_compute in E1; discriminate E1].
  destruct (@MVSERMix.compute_posterior_comcov float binary64 float_libm Tiny.lapack
              example_mvser example_weights example_weights) as [[rc2 e2] |] eqn:E2;
    [| vm_compute in E2; discriminate E2].
  pose proof (proj1 (@C9_prior_scalar_update float binary64 float_libm Tiny.lapack
             (Mat 2 1 [[1%float; 0%float]]) (Mat 2 1 [[1%float; 1%float]])
             empty_mat empty_mat (Tiny.m2 1%float 0%float 0%float 1%float)
             (Cube 2 2 [Tiny.m2 1%float 0%float 0%float 1%float])
             empty_cube empty_cube
             (Cube 2 2 [Tiny.m2 1%float 0%float 0%float 1%float])
             (fun _ => nan) example_weights example_weights rc1 e1) E1
             0%nat (Nat.lt_0_succ 0)) as H1.
  pose proof (proj2 (@C9_prior_scalar_update float binary64 float_libm Tiny.lapack
             (Mat 2 1 [[1%float; 0%float]]) (Mat 2 1 [[1%float; 1%float]])
             empty_mat empty_mat (Tiny.m2 1%float 0%float 0%float 1%float)
             (Cube 2 2 [Tiny.m2 1%float 0%float 0%float 1%float])
             empty_cube empty_cube
             (Cube 2 2 [Tiny.m2 1%float 0%float 0%float 1%float])
             (fun _ => nan) example_weights example_weights rc2 e2) E2
             0%nat (Nat.lt_0_succ 0)) as H2.
  split.
  - rewrite H1. vm_compute. reflexivity.
  - rewrite H2. vm_compute. reflexivity.
Defined.



(** C5.  In exact arithmetic, with a LAPACK whose [X.i()] is exact on n x n
    matrices: for all n x n matrices [Vinv] and [U] such that [Vinv * U + I] is
    invertible, [get_posterior_cov Vinv U] returns [U * T], where [T] is the
    inverse of [Vinv * U + I]; and for n = 1 the entry of the result is
    [U / (vinv * U + 1)], which is the value [U1] of the univariate engine for
    a component of variance [U] at the precision [vinv]. *)
Theorem C5_posterior_cov_conjugate_normal (LA : Lapack R) (n : nat) (Vinv U : mat R) :
  inv_exact LA n -> square n Vinv -> square n U ->
  invertible n (madd (mmul Vinv U) (eye n)) ->
  exists T,
    square n T /\ is_inverse n (madd (mmul Vinv U) (eye n)) T /\
    get_posterior_cov Vinv U = Some (mmul U T) /\
    (n = 1%nat ->
     mat_at (mmul U T) 0 0 = (mat_at U 0 0 / (mat_at Vinv 0 0 * mat_at U 0 0 + 1))%R /\
     forall (e : PosteriorASH.t R) (vinv : vec R) (j p : nat),
       (j < n_elem vinv)%nat -> vat vinv j = mat_at Vinv 0 0 ->
       vat (PosteriorASH.U_vec e) p = mat_at U 0 0 ->
       vat (PosteriorASH.U1_of e vinv p) j = mat_at (mmul U T) 0 0).
Proof.
  intros [Hsound Hcompl] HV HU Hinv.
  pose proof HV as [HVr HVc]. pose proof HU as [HUr HUc].
  assert (HS : square n (diag_add (mmul Vinv U) one)) by (split; assumption).
  rewrite <- (diag_add_eye n (mmul Vinv U)) in * by (now apply square_mmul).
  destruct (inv (diag_add (mmul Vinv U) one)) as [T |] eqn:E;
    [| now destruct (Hcompl _ HS Hinv)].
  destruct (Hsound _ T HS E) as [HT HI]. pose proof HT as [HTr HTc].
  exists T. split; [exact HT |]. split; [exact HI |].
  split; [unfold get_posterior_cov; cbv zeta; now rewrite E |].
  intros ->.
  assert (H00 : (mat_at U 0 0 * mat_at T 0 0
                 = mat_at U 0 0 / (mat_at Vinv 0 0 * mat_at U 0 0 + 1))%R).
  { pose proof (proj1 HI 0%nat 0%nat (Nat.lt_0_succ 0) (Nat.lt_0_succ 0)) as H.
    rewrite Rmat_at_mmul in H by (cbn [n_rows n_cols diag_add mmul mk_mat]; lia).
    cbn [n_cols diag_add mk_mat mmul] in H. rewrite HUc, Rsum_S, Rsum_0 in H.
    change (mat_at (mk_mat (n_rows Vinv) 1 _) 0 0)
      with (mat_at (diag_add (mmul Vinv U) one) 0 0) in H.
    rewrite Rmat_at_diag_add in H by (cbn [n_rows n_cols mmul mk_mat]; lia).
    rewrite Rmat_at_mmul in H by lia. rewrite HVc, Rsum_S, Rsum_0 in H.
    cbn [Nat.eqb] in H.
    set (d := (mat_at Vinv 0 0 * mat_at U 0 0 + 1)%R) in *.
    assert (H' : (d * mat_at T 0 0 = 1)%R) by (rewrite <- H; unfold d; ring).
    assert (Hd : d <> 0%R) by (intros Hd; rewrite Hd in H'; lra).
    assert (Ht : mat_at T 0 0 = (/ d)%R).
    { apply (Rmult_eq_reg_l d); [| assumption]. now rewrite Rinv_r by assumption. }
    rewrite Ht. reflexivity. }
  assert (HM : mat_at (mmul U T) 0 0
               = (mat_at U 0 0 / (mat_at Vinv 0 0 * mat_at U 0 0 + 1))%R).
  { rewrite Rmat_at_mmul by lia. rewrite HUc, Rsum_S, Rsum_0. rewrite <- H00. ring. }
  split; [exact HM |].
  intros e vinv j p Hj Hv Hu.
  rewrite vat_U1_of by assumption. unfold closed_U1.
  rewrite HM, Hv, Hu. reflexivity.
Qed.

(** The instance of C5 on the 1 x 1 matrices [Vinv = 2] and [U = 3], with the
    closed-form inverse: the result is [3 / 7]. *)
Lemma C5_witness_reals :
  exists T : mat R,
    @get_posterior_cov R Rscalar Tiny.lapack (Tiny.m1 2%R) (Tiny.m1 3%R)
    = Some (mmul (Tiny.m1 3%R) T) /\
    mat_at (mmul (Tiny.m1 3%R) T) 0 0 = (3 / (2 * 3 + 1))%R.
Proof.
  assert (HS : square 1 (madd (mmul (Tiny.m1 2%R) (Tiny.m1 3%R)) (eye 1)))
    by (split; reflexivity).
  assert (Hne : mat_at (madd (mmul (Tiny.m1 2%R) (Tiny.m1 3%R)) (eye 1)) 0 0 <> 0%R)
    by (cbn; lra).
  assert (Hinv : invertible 1 (madd (mmul (Tiny.m1 2%R) (Tiny.m1 3%R)) (eye 1))).
  { eexists. split; [| exact (tiny_inverse_1 _ HS Hne)]. split; reflexivity. }
  destruct (C5_posterior_cov_conjugate_normal Tiny.lapack 1 (Tiny.m1 2%R) (Tiny.m1 3%R)
              tiny_inv_exact_1 (conj eq_refl eq_refl) (conj eq_refl eq_refl) Hinv)
    as (T & _ & _ & E & H1).
  exists T. split; [exact E |]. exact (proj1 (H1 eq_refl)).
Defined.




(** * Further properties of the code *)

(** ** Ranges of the outputs of the univariate engine, in exact arithmetic *)

Section AshBounds.
Local Open Scope R_scope.

(** The posterior variance of a component is not negative. *)
Lemma closed_U1_nonneg (s v U : R) :
  s <> 0 -> 0 < v -> 0 <= U ->
  0 <= @closed_U1 R Rscalar (@closed_vinv R Rscalar s v) U.
Proof.
  intros Hs Hv HU. unfold closed_U1, closed_vinv.
  change (@div R Rscalar) with Rdiv. change (@mul R Rscalar) with Rmult.
  change (@add R Rscalar) with Rplus. change (@one R Rscalar) with 1.
  assert (Hss : 0 < s * s) by nra.
  assert (Hd : 0 < s * s * v) by nra.
  assert (Hi : 0 < 1 / (s * s * v)) by (apply Rdiv_lt_0_compat; lra).
  assert (Hden : 0 < 1 / (s * s * v) * U + 1) by nra.
  unfold Rdiv at 1. apply Rmult_le_pos; [exact HU |].
  left. now apply Rinv_0_lt_compat.
Qed.

Lemma closed_var_nonneg (U1 a : R) : 0 <= U1 -> 0 <= @closed_var R Rscalar U1 a.
Proof.
  intros H. unfold closed_var. change (@mul R Rscalar) with Rmult.
  apply Rmult_le_pos; [exact H | exact (Rle_0_sqr a)].
Qed.

End AshBounds.

(** ** The shared-covariance engine against the general one *)

Section ComcovSame.
Context {num : Type} {SC : Scalar num} {LM : Libm num} {LA : Lapack num}.
Local Open Scope num_scope.
Import PosteriorMASH.





(** The shape of the per-component mean of the shared-covariance engine. *)
Lemma comcov_mu1_shape (e : t num) (V : mat num) (p R : nat) :
  cube_is_empty (U0_cube e) = true ->
  U0_comcov e V p <> None ->
  (if mat_is_empty (a_mat e) then n_rows (slice (U_cube e) p) else n_rows (a_mat e)) = R ->
  n_rows (comcov_mu1 e V p) = R /\ n_cols (comcov_mu1 e V p) = n_cols (b_mat e).
Proof.
  intros HUc HU HR. unfold comcov_mu1, mu1_comcov, comcov_U0.
  unfold U0_comcov in *. rewrite HUc in *. unfold get_posterior_cov in *. cbv zeta in *.
  destruct (inv (diag_add (mmul V (slice (U_cube e) p)) one)) as [Si |]; [| contradiction].
  cbn [the].
  destruct (mat_is_empty (a_mat e)); unfold mschur, mmap2, get_posterior_mean_mat, mmul;
    cbn [n_rows n_cols mk_mat]; now split.
Qed.



End ComcovSame.

(** ** The covariance operations in exact arithmetic *)

Section CovFacts.
Local Open Scope R_scope.

Lemma Rsum_delta_r (n k : nat) (f : nat -> R) :
  (k < n)%nat ->
  sum_n n (fun i => f i * (if (i =? k)%nat then 1 else 0)) = f k.
Proof.
  intros Hk. rewrite <- (Rsum_delta n k f Hk). apply sum_n_ext. intros i _.
  rewrite (Nat.eqb_sym i k). apply Rmult_comm.
Qed.

Lemma mat_at_diagmat (s : vec R) (r c : nat) :
  (r < n_elem s)%nat -> (c < n_elem s)%nat ->
  mat_at (diagmat s) r c = (if (r =? c)%nat then 1 else 0) * vat s r.
Proof.
  intros Hr Hc. unfold diagmat. rewrite mat_at_mk_mat by assumption.
  destruct (r =? c)%nat; lra.
Qed.

(** [diagmat(s) * V * diagmat(s)], entry by entry. *)
Lemma mat_at_diag_sandwich (n : nat) (s : vec R) (V : mat R) (r c : nat) :
  n_elem s = n -> square n V -> (r < n)%nat -> (c < n)%nat ->
  mat_at (mmul (mmul (diagmat s) V) (diagmat s)) r c = mat_at V r c * vat s r * vat s c.
Proof.
  intros Hs [HVr HVc] Hr Hc.
  rewrite Rmat_at_mmul by (cbn [n_rows n_cols mmul diagmat mk_mat]; lia).
  cbn [n_cols mmul mk_mat]. rewrite HVc.
  rewrite (sum_n_ext n _ (fun k => (mat_at V r k * vat s r * vat s c)
                                   * (if (k =? c)%nat then 1 else 0))).
  - now rewrite (Rsum_delta_r n c (fun k => mat_at V r k * vat s r * vat s c)).
  - intros k Hk.
    rewrite Rmat_at_mmul by (cbn [n_rows n_cols diagmat mk_mat]; lia).
    cbn [n_cols diagmat mk_mat]. rewrite Hs.
    rewrite (sum_n_ext n _ (fun k0 => (if (r =? k0)%nat then 1 else 0)
                                      * (vat s r * mat_at V k0 k))).
    + rewrite (Rsum_delta n r (fun k0 => vat s r * mat_at V k0 k)) by assumption.
      rewrite mat_at_diagmat by lia.
      rewrite (Nat.eqb_sym k c). destruct (c =? k)%nat eqn:Eck.
      * apply Nat.eqb_eq in Eck. subst k. ring.
      * ring.
    + intros k0 Hk0. rewrite mat_at_diagmat by lia. ring.
Qed.

(** [get_cov] without [L] is [diagmat(s) * V * diagmat(s)]. *)
Lemma get_cov_is_diag_sandwich (n : nat) (s : vec R) (V : mat R) :
  n_elem s = n -> square n V ->
  get_cov2 s V = mmul (mmul (diagmat s) V) (diagmat s).
Proof.
  intros Hs HV. pose proof HV as [HVr HVc].
  apply tabulated_ext.
  - apply tabulated_mk_mat.
  - apply tabulated_mk_mat.
  - cbn [n_rows get_cov2 each_row_schur each_col_schur mmul diagmat mk_mat]. congruence.
  - cbn [n_cols get_cov2 each_row_schur each_col_schur mmul diagmat mk_mat]. congruence.
  - intros r c Hr Hc.
    cbn [n_rows n_cols get_cov2 each_row_schur each_col_schur mk_mat] in Hr, Hc.
    rewrite (mat_at_diag_sandwich n) by (assumption || lia).
    change (get_cov2 s V) with (rescale V s).
    now rewrite Rmat_at_rescale by lia.
Qed.

Lemma bil_mmul (n : nat) (A B : mat R) (x y : nat -> R) :
  square n A -> n_cols B = n ->
  bil n (mmul A B) x y = bil n A x (mv n B y).
Proof.
  intros [HAr HAc] HB. unfold bil. apply sum_n_ext. intros i Hi.
  now rewrite mv_mmul by lia.
Qed.

(** A symmetric matrix has a symmetric bilinear form, and conversely. *)
Lemma bil_symmetric (n : nat) (A : mat R) (x y : nat -> R) :
  symmetric n A -> bil n A x y = bil n A y x.
Proof.
  intros HA. unfold bil, mv.
  rewrite (sum_n_ext n _ (fun i => sum_n n (fun k => x i * mat_at A i k * y k)))
    by (intros i _; rewrite <- Rsum_scal_l; apply sum_n_ext; intros k _; ring).
  rewrite Rsum_swap. apply sum_n_ext. intros k Hk.
  rewrite <- Rsum_scal_l. apply sum_n_ext. intros i Hi.
  rewrite (HA i k Hi Hk). ring.
Qed.

Lemma symmetric_of_bil (n : nat) (A : mat R) :
  (forall x y, bil n A x y = bil n A y x) -> symmetric n A.
Proof.
  intros H r c Hr Hc.
  assert (E : forall r c, (r < n)%nat -> (c < n)%nat ->
            bil n A (fun i => if (r =? i)%nat then 1 else 0)
                    (fun k => if (c =? k)%nat then 1 else 0)
            = mat_at A r c).
  { intros r' c' Hr' Hc'. unfold bil.
    rewrite Rsum_delta by assumption. unfold mv.
    rewrite (sum_n_ext n _ (fun k => mat_at A r' k * (if (k =? c')%nat then 1 else 0)))
      by (intros k _; now rewrite (Nat.eqb_sym k c')).
    now apply Rsum_delta_r. }
  rewrite <- (E r c Hr Hc), <- (E c r Hc Hr). apply H.
Qed.

(** [U * T] is symmetric when [T] inverts [Vinv * U + I] and [Vinv] and [U]
    are symmetric: with [a = T x] and [b = T y],
    [x' U T y = (U a)' Vinv (U b) + a' U b]. *)
Lemma symmetric_posterior_cov (n : nat) (Vinv U T : mat R) :
  square n Vinv -> square n U -> square n T ->
  right_inverse n (diag_add (mmul Vinv U) one) T ->
  symmetric n Vinv -> symmetric n U -> symmetric n (mmul U T).
Proof.
  intros HV HU HT HI SV SU.
  pose proof HV as [HVr HVc]. pose proof HU as [HUr HUc]. pose proof HT as [HTr HTc].
  assert (HS : square n (diag_add (mmul Vinv U) one))
    by (split; cbn [n_rows n_cols diag_add mmul mk_mat]; assumption).
  assert (Hx : forall x i, (i < n)%nat ->
             x i = mv n Vinv (mv n U (mv n T x)) i + mv n T x i).
  { intros x i Hi.
    rewrite <- (mv_right_inverse n (diag_add (mmul Vinv U) one) T x i) at 1 by assumption.
    unfold mv at 1.
    rewrite (sum_n_ext n _ (fun k => mat_at (mmul Vinv U) i k * mv n T x k
                                     + (if (i =? k)%nat then 1 else 0) * mv n T x k)).
    - rewrite Rsum_plus, Rsum_delta by assumption. f_equal.
      change (mv n (mmul Vinv U) (mv n T x) i = mv n Vinv (mv n U (mv n T x)) i).
      now rewrite mv_mmul by lia.
    - intros k Hk.
      rewrite Rmat_at_diag_add by (cbn [n_rows n_cols mmul mk_mat]; lia). ring. }
  assert (Hform : forall x y,
             bil n (mmul U T) x y
             = bil n Vinv (mv n U (mv n T y)) (mv n U (mv n T x))
               + bil n U (mv n T x) (mv n T y)).
  { intros x y. rewrite (bil_mmul n U T x y HU HTc).
    unfold bil. rewrite <- Rsum_plus. apply sum_n_ext. intros i Hi.
    rewrite (Hx x i Hi) at 1. ring. }
  apply symmetric_of_bil. intros x y.
  rewrite (Hform x y), (Hform y x).
  rewrite (bil_symmetric n Vinv _ _ SV).
  rewrite (bil_symmetric n U (mv n T x) (mv n T y) SU).
  reflexivity.
Qed.

(** [get_cov] keeps a covariance a covariance. *)
Lemma get_cov_keeps_covariance (n : nat) (s : vec R) (V L : mat R) :
  square n V -> symmetric n V -> psd n V ->
  mat_is_empty L = true \/ square n L ->
  square n (get_cov s V L) /\ symmetric n (get_cov s V L) /\ psd n (get_cov s V L).
Proof.
  intros Hsq Hsym Hpsd HL. unfold get_cov. cbv zeta.
  destruct (mat_is_empty L) eqn:El.
  - split; [exact Hsq |].
    split; [now apply (symmetric_rescale n V s) |].
    now apply (psd_rescale n V s).
  - destruct HL as [HL | HL]; [discriminate |].
    split; [| split].
    + destruct HL as [Hr Hc]. split; cbn [n_rows n_cols mmul trans mk_mat]; assumption.
    + apply (symmetric_congruence n L (rescale V s)); try assumption.
      now apply (symmetric_rescale n V s).
    + apply (psd_congruence n L (rescale V s)); try assumption.
      now apply (psd_rescale n V s).
Qed.

End CovFacts.

(** ** The general engine with one condition against the univariate engine *)

Section OneConditionEngine.
Local Open Scope R_scope.

(** An inverse of a 1 x 1 matrix is the reciprocal of its entry. *)
Lemma inverse_entry_1 (S T : mat R) :
  square 1 S -> square 1 T -> right_inverse 1 S T ->
  mat_at S 0 0 <> 0 /\ mat_at T 0 0 = / mat_at S 0 0.
Proof.
  intros [Sr Sc] [Tr Tc] H.
  specialize (H 0%nat 0%nat (Nat.lt_0_succ 0) (Nat.lt_0_succ 0)).
  rewrite Rmat_at_mmul in H by lia. rewrite Sc, Rsum_S, Rsum_0 in H. cbn [Nat.eqb] in H.
  assert (Hne : mat_at S 0 0 <> 0) by (intros E; rewrite E in H; lra).
  split; [exact Hne |].
  apply (Rmult_eq_reg_l (mat_at S 0 0)); [| exact Hne].
  rewrite Rinv_r by exact Hne. lra.
Qed.

(** On numbers that are not negative, [sqrt(x) == 0] is [x == 0]. *)
Lemma Rsqrt_eqb (x : R) :
  0 <= x -> (@fsqrt R Rscalar x ==? zero)%num = (x ==? zero)%num.
Proof.
  intros Hx. destruct (x ==? zero)%num eqn:E.
  - now apply Rsqrt_zero_law.
  - apply Reqb_false in E. apply Reqb_false. intros H. apply E.
    now apply sqrt_eq_0.
Qed.

Variables (LA : Lapack R) (b_vec s_vec s_alpha U_vec : vec R) (v : R) (indet : nat -> R).
Hypothesis Hinv : inv_sound LA 1.
Hypothesis Hsympd : inv_sympd_sound LA 1.
Hypothesis Hs : n_elem s_vec = n_elem b_vec.
Hypothesis Ha : n_elem s_alpha = 0%nat \/ n_elem s_alpha = n_elem b_vec.

(** The two engines on the same data. *)
Let em : PosteriorMASH.t R :=
  PosteriorMASH.new (row_mat b_vec) (row_mat s_vec) (row_mat s_alpha) empty_mat
                    (Tiny.m1 v) empty_mat empty_mat (scalars_cube U_vec).
Let ea : PosteriorASH.t R := PosteriorASH.new b_vec s_vec s_alpha v U_vec indet.

Lemma one_condition_alpha_length : n_elem (PosteriorASH.s_alpha_vec ea) = n_elem b_vec.
Proof.
  unfold ea, PosteriorASH.new. cbn [PosteriorASH.s_alpha_vec].
  destruct Ha as [H | H]; rewrite H; cbn [Nat.eqb].
  - unfold vones. apply n_elem_mk_vec.
  - destruct (Nat.eqb_spec (n_elem b_vec) 0) as [E0 | E0]; [| exact H].
    unfold vones. apply n_elem_mk_vec.
Qed.

Lemma col_row_mat (u : vec R) (j : nat) : (j < n_elem u)%nat -> col (row_mat u) j = [vat u j].
Proof.
  intros Hj. unfold col, row_mat. cbn [n_rows mk_mat mk_vec tab map seq].
  now rewrite mat_at_mk_mat by lia.
Qed.

Lemma one_condition_columns (j : nat) :
  (j < n_elem b_vec)%nat ->
  col (PosteriorMASH.b_mat em) j = [vat b_vec j] /\
  col (SE.get_original (PosteriorMASH.s_obj em)) j = [vat s_vec j] /\
  col (SE.get (PosteriorMASH.s_obj em)) j = [vat (PosteriorASH.s_alpha_vec ea) j].
Proof.
  intros Hj.
  assert (Hne : mat_is_empty (row_mat s_vec) = false).
  { unfold mat_is_empty, row_mat. cbn [n_rows n_cols mk_mat]. apply Nat.eqb_neq. lia. }
  split; [now apply col_row_mat |].
  unfold em, PosteriorMASH.new. cbv zeta. cbn [PosteriorMASH.s_obj]. rewrite Hne.
  unfold SE.set_original, SE.set, SE.get_original, SE.get.
  cbn [SE.s SE.s_orig SE.s_alpha SE.is_orig_empty].
  change (mat_is_empty (@empty_mat R)) with true. cbv iota.
  split; [apply col_row_mat; lia |].
  unfold ea, PosteriorASH.new. cbn [PosteriorASH.s_alpha_vec].
  assert (He : mat_is_empty (row_mat s_alpha) = (n_elem s_alpha =? 0)%nat).
  { unfold mat_is_empty, row_mat. cbn [n_rows n_cols mk_mat]. now rewrite Nat.mul_1_l. }
  rewrite He.
  destruct Ha as [H | H]; rewrite H; cbn [Nat.eqb].
  - unfold col, ones, row_mat. cbn [n_rows n_cols mk_mat mk_vec tab map seq].
    rewrite mat_at_mk_mat by lia. unfold vones. now rewrite vat_mk_vec by lia.
  - destruct (Nat.eqb_spec (n_elem b_vec) 0) as [E0 | E0]; [lia |].
    apply col_row_mat. lia.
Qed.

(** [Vinv_j] is the precision of the univariate engine. *)
Lemma one_condition_Vinv (j : nat) (V : mat R) :
  (j < n_elem b_vec)%nat ->
  PosteriorMASH.Vinv_of em j = Some V ->
  square 1 V /\ mat_at V 0 0 = @closed_vinv R Rscalar (vat s_vec j) v /\
  vat s_vec j <> 0.
Proof.
  intros Hj E. unfold PosteriorMASH.Vinv_of in E.
  change (cube_is_empty (PosteriorMASH.Vinv_cube em)) with true in E. cbv iota in E.
  rewrite (proj1 (proj2 (one_condition_columns j Hj))) in E.
  change (PosteriorMASH.v_mat em) with (Tiny.m1 v) in E.
  change (PosteriorMASH.l_mat em) with (@empty_mat R) in E.
  set (Sg := get_cov [vat s_vec j] (Tiny.m1 v) empty_mat) in E.
  assert (HS : square 1 Sg) by (split; reflexivity).
  assert (Hsym : symmetric 1 Sg).
  { intros r c Hr Hc. assert (r = 0%nat) by lia. assert (c = 0%nat) by lia. now subst. }
  destruct (Hsympd Sg V HS Hsym E) as (HV & HI & _).
  destruct (inverse_entry_1 Sg V HS HV HI) as (Hne & E00).
  change (mat_at Sg 0 0) with (v * vat s_vec j * vat s_vec j) in Hne, E00.
  split; [exact HV |]. split.
  - rewrite E00. unfold closed_vinv.
    change (@div R Rscalar) with Rdiv. change (@mul R Rscalar) with Rmult.
    change (@one R Rscalar) with 1.
    unfold Rdiv. rewrite Rmult_1_l. f_equal. ring.
  - intros E0. apply Hne. rewrite E0. ring.
Qed.

(** [U0] is the posterior variance of the univariate engine. *)
Lemma one_condition_U0 (j p : nat) (V U0 : mat R) :
  (p < n_elem U_vec)%nat -> square 1 V ->
  PosteriorMASH.U0_of em V j p = Some U0 ->
  square 1 U0 /\ mat_at U0 0 0 = @closed_U1 R Rscalar (mat_at V 0 0) (vat U_vec p).
Proof.
  intros Hp [Vr Vc] E. unfold PosteriorMASH.U0_of in E.
  change (cube_is_empty (PosteriorMASH.U0_cube em)) with true in E. cbv iota in E.
  change (PosteriorMASH.U_cube em) with (scalars_cube U_vec) in E.
  assert (Hsl : slice (scalars_cube U_vec) p = Tiny.m1 (vat U_vec p)).
  { unfold scalars_cube, slice. cbn [slices]. now rewrite (nth_tab _ _ _ _ Hp). }
  rewrite Hsl in E. unfold get_posterior_cov in E. cbv zeta in E.
  set (D := diag_add (mmul V (Tiny.m1 (vat U_vec p))) one) in E.
  assert (HD : square 1 D) by (split; [exact Vr | reflexivity]).
  destruct (inv D) as [Si |] eqn:ESi; [| discriminate].
  injection E as <-.
  destruct (Hinv D Si HD ESi) as (HSi & HI & _).
  destruct (inverse_entry_1 D Si HD HSi HI) as (_ & E00).
  pose proof HSi as [Sir Sic].
  split; [split; [reflexivity | exact Sic] |].
  rewrite Rmat_at_mmul by (cbn [n_rows Tiny.m1]; lia).
  cbn [n_cols Tiny.m1]. rewrite Rsum_S, Rsum_0, E00.
  unfold D. rewrite Rmat_at_diag_add by (cbn [n_rows n_cols mmul mk_mat Tiny.m1]; lia).
  rewrite Rmat_at_mmul by (cbn [n_cols Tiny.m1]; lia).
  rewrite Vc, Rsum_S, Rsum_0. cbn [Nat.eqb].
  change (mat_at (Tiny.m1 (vat U_vec p)) 0 0) with (vat U_vec p).
  unfold closed_U1.
  change (@div R Rscalar) with Rdiv. change (@mul R Rscalar) with Rmult.
  change (@add R Rscalar) with Rplus. change (@one R Rscalar) with 1.
  unfold Rdiv. rewrite !Rplus_0_l. reflexivity.
Qed.

(** The mean and the rescaled variance of effect [j] and component [p]. *)
Lemma one_condition_mu1 (j : nat) (V U0 : mat R) :
  (j < n_elem b_vec)%nat -> square 1 V -> square 1 U0 ->
  vat (PosteriorMASH.mu1_of em V U0 j) 0
  = @closed_mu1 R Rscalar (mat_at U0 0 0) (mat_at V 0 0) (vat b_vec j)
                (vat (PosteriorASH.s_alpha_vec ea) j).
Proof.
  intros Hj [Vr Vc] [Ur Uc]. unfold PosteriorMASH.mu1_of.
  change (mat_is_empty (PosteriorMASH.a_mat em)) with true. cbv iota.
  destruct (one_condition_columns j Hj) as (Eb & _ & Eal). rewrite Eb, Eal.
  unfold get_posterior_mean, vschur.
  rewrite vat_vmap2 by (rewrite n_elem_mvmul; cbn [n_rows mmul mk_mat]; lia).
  rewrite vat_mvmul by (cbn [n_rows mmul mk_mat]; lia).
  cbn [n_cols mmul mk_mat]. rewrite Vc, Rsum_S, Rsum_0.
  change (mat_at (mk_mat (n_rows U0) 1 _) 0 0) with (mat_at (mmul U0 V) 0 0).
  rewrite Rmat_at_mmul by lia. rewrite Uc, Rsum_S, Rsum_0.
  unfold closed_mu1. change (@mul R Rscalar) with Rmult. cbn [vat nth]. ring.
Qed.

Lemma one_condition_U1 (j : nat) (U0 : mat R) :
  (j < n_elem b_vec)%nat -> square 1 U0 ->
  let U1 := PosteriorMASH.U1_of em U0 j in
  n_elem (diag U1) = 1%nat /\
  vat (diag U1) 0 = @closed_var R Rscalar (mat_at U0 0 0) (vat (PosteriorASH.s_alpha_vec ea) j).
Proof.
  intros Hj [Ur Uc] U1. unfold U1, PosteriorMASH.U1_of.
  change (mat_is_empty (PosteriorMASH.a_mat em)) with true. cbv iota.
  destruct (one_condition_columns j Hj) as (_ & _ & Eal). rewrite Eal.
  assert (Hn : n_elem (diag (rescale U0 [vat (PosteriorASH.s_alpha_vec ea) j])) = 1%nat).
  { unfold diag. rewrite n_elem_mk_vec. unfold rescale, each_row_schur, each_col_schur.
    cbn [n_rows n_cols mk_mat]. now rewrite Ur, Uc. }
  split; [exact Hn |].
  unfold diag in *. rewrite n_elem_mk_vec in Hn. rewrite vat_mk_vec by lia.
  rewrite Rmat_at_rescale by lia. unfold closed_var.
  change (@mul R Rscalar) with Rmult. cbn [vat nth]. ring.
Qed.

End OneConditionEngine.

(** ** Softmax in exact arithmetic *)

Section SoftmaxFacts.
Local Open Scope R_scope.

Lemma Rsum_pos (n : nat) (f : nat -> R) :
  (0 < n)%nat -> (forall i, (i < n)%nat -> 0 < f i) -> 0 < sum_n n f.
Proof.
  intros Hn Hf. destruct n as [| n]; [lia |].
  rewrite Rsum_S.
  assert (0 <= sum_n n f) by (apply Rsum_nonneg; intros i Hi; apply Rlt_le, Hf; lia).
  assert (0 < f n) by (apply Hf; lia). lra.
Qed.

Lemma exp_shift (a m : R) : exp (a - m) = exp a * exp (- m).
Proof. unfold Rminus. apply exp_plus. Qed.

(** The vector [exp(x - m)] and its sum. *)
Lemma vat_exp_shift (erfc : R -> R) (x : vec R) (m : R) (i : nat) :
  (i < n_elem x)%nat ->
  vat (vmap (@fexp R (Rlibm erfc)) (vmap (fun a => (a - m)%num) x)) i = exp (vat x i - m).
Proof.
  intros Hi. rewrite vat_vmap by (now rewrite n_elem_vmap). now rewrite vat_vmap.
Qed.

Lemma accu_exp_shift (erfc : R -> R) (x : vec R) (m : R) :
  accu (vmap (@fexp R (Rlibm erfc)) (vmap (fun a => (a - m)%num) x))
  = exp (- m) * sum_n (n_elem x) (fun j => exp (vat x j)).
Proof.
  unfold accu. rewrite !n_elem_vmap. rewrite <- Rsum_scal_l.
  apply sum_n_ext. intros i Hi. rewrite (vat_exp_shift erfc x m i Hi), exp_shift. ring.
Qed.

(** The result of [softmax], element by element. *)
Lemma softmax_spec (erfc : R -> R) (ST : Stats R) (x : vec R) (m : R) :
  vmax x = Some m -> (0 < n_elem x)%nat ->
  exists y,
    @softmax R Rscalar (Rlibm erfc) ST x = Some y /\
    n_elem y = n_elem x /\
    (forall i, (i < n_elem x)%nat ->
       vat y i = exp (vat x i) / sum_n (n_elem x) (fun j => exp (vat x j)) /\
       0 < vat y i) /\
    accu y = 1.
Proof.
  intros Hm Hn. unfold softmax. rewrite Hm. cbv zeta.
  set (y0 := vmap (@fexp R (Rlibm erfc)) (vmap (fun a => (a - m)%num) x)).
  set (T := sum_n (n_elem x) (fun j => exp (vat x j))).
  assert (HT : 0 < T) by (apply Rsum_pos; [exact Hn | intros i _; apply exp_pos]).
  assert (Hs : accu y0 = exp (- m) * T) by apply accu_exp_shift.
  assert (Hem : 0 < exp (- m)) by apply exp_pos.
  assert (Hlen : n_elem y0 = n_elem x) by (unfold y0; now rewrite !n_elem_vmap).
  assert (Hval : forall i, (i < n_elem x)%nat ->
             vat (vmap (fun a => (a / accu y0)%num) y0) i = exp (vat x i) / T).
  { intros i Hi. rewrite vat_vmap by (now rewrite Hlen).
    unfold y0. rewrite (vat_exp_shift erfc x m i Hi), exp_shift.
    fold y0. rewrite Hs. change (@div R Rscalar) with Rdiv. field. split; lra. }
  eexists. split; [reflexivity |].
  split; [now rewrite n_elem_vmap |].
  split.
  - intros i Hi. rewrite (Hval i Hi). split; [reflexivity |].
    apply Rdiv_lt_0_compat; [apply exp_pos | exact HT].
  - unfold accu at 1. rewrite n_elem_vmap, Hlen.
    rewrite (sum_n_ext (n_elem x) _ (fun i => exp (vat x i) * / T))
      by (intros i Hi; now rewrite (Hval i Hi)).
    rewrite Rsum_scal_r. fold T. field. lra.
Qed.

(** On the reals [max] accepts every vector that has an element. *)
Lemma Rstats_vmax (x : vec R) :
  (0 < n_elem x)%nat -> exists m, @vmax R Rstats x = Some m.
Proof. destruct x as [| a l]; cbn; [lia | eauto]. Qed.

End SoftmaxFacts.

(** When [fit] returns. *)
Lemma teem_fit_returns_iff (erfc : R -> R) (ST : Stats R) (self : TEEM.t R)
      (maxiter : Z) (tol : R) (verbose : bool) :
  @TEEM.fit R Rscalar (Rlibm erfc) ST self maxiter tol verbose <> None <->
  (0 < maxiter)%Z /\ (0 < n_cols (TEEM.X_mat self))%nat /\
  (0 < n_elem (TEEM.w_vec self))%nat /\ (0 < n_slices (TEEM.U_cube self))%nat /\
  vmax (TEEM.w_vec self) <> None.
Proof.
  unfold TEEM.fit, TEEM.compute_loglik, softmax.
  destruct (Z.ltb_spec maxiter 0) as [Hm | Hm].
  { split; [intros H; now contradiction H | intros (H & _); lia]. }
  destruct (Nat.ltb_spec 0 (n_cols (TEEM.X_mat self))) as [HX | HX]; cbn [andb];
    [| split; [intros H; now contradiction H | intros (_ & H & _); lia]].
  destruct (Nat.ltb_spec 0 (n_elem (TEEM.w_vec self))) as [Hw | Hw]; cbn [andb];
    [| split; [intros H; now contradiction H | intros (_ & _ & H & _); lia]].
  destruct (Nat.ltb_spec 0 (n_slices (TEEM.U_cube self))) as [HU | HU];
    [| split; [intros H; now contradiction H | intros (_ & _ & _ & H & _); lia]].
  destruct (vmax (TEEM.w_vec self)) as [m |];
    [| split; [intros H; now contradiction H | intros (_ & _ & _ & _ & H); now contradiction H]].
  cbv zeta. unfold vzeros. rewrite n_elem_mk_vec.
  destruct (Nat.eqb_spec (Z.to_nat maxiter) 0) as [E0 | E0].
  - split; [intros H; now contradiction H | intros (H & _); lia].
  - split; [| discriminate]. intros _. repeat split; try assumption; try discriminate. lia.
Qed.

(** ** The univariate likelihood *)

Section UniLikFacts.
Context {num : Type} {SC : Scalar num} {LM : Libm num} {DT : Datum num} {LA : Lapack num}.
Local Open Scope num_scope.

(** An element of [dnorm]. *)
Lemma vat_dnorm (x mu sigma2 : vec num) (logd : bool) (i : nat) :
  (i < n_elem sigma2)%nat -> (i < n_elem x)%nat ->
  vat (dnorm x mu sigma2 logd) i
  = let res := LOG_INV_SQRT_2PI - flog (fsqrt (vat sigma2 i))
               - (vat x i - vat mu i) * (vat x i - vat mu i) / (two * vat sigma2 i) in
    if logd then res else fexp res.
Proof.
  intros Hs Hx. cbv zeta. unfold dnorm. cbv zeta.
  assert (E : vat (vsub (vmap (fun a => LOG_INV_SQRT_2PI - a) (vmap flog (vsqrt sigma2)))
                        (vdiv (vpow2 (vsub x mu)) (vscale two sigma2))) i
              = LOG_INV_SQRT_2PI - flog (fsqrt (vat sigma2 i))
                - (vat x i - vat mu i) * (vat x i - vat mu i) / (two * vat sigma2 i)).
  { unfold vsub at 1. rewrite vat_vmap2 by (unfold vsqrt; now rewrite !n_elem_vmap).
    unfold vsqrt. rewrite vat_vmap by (now rewrite !n_elem_vmap).
    rewrite vat_vmap by (now rewrite n_elem_vmap). rewrite vat_vmap by exact Hs.
    unfold vdiv. rewrite vat_vmap2
      by (unfold vpow2, vsub; now rewrite n_elem_vmap, n_elem_vmap2).
    unfold vpow2. rewrite vat_vmap by (unfold vsub; now rewrite n_elem_vmap2).
    unfold vsub. rewrite vat_vmap2 by exact Hx.
    unfold vscale. now rewrite vat_vmap by exact Hs. }
  destruct logd; [exact E |].
  rewrite vat_vmap; [now rewrite E |].
  unfold vsub at 1. rewrite n_elem_vmap2. unfold vsqrt. now rewrite !n_elem_vmap.
Qed.

(** An entry of the univariate [calc_lik]. *)
Lemma calc_lik_uni_entry (b_vec s_vec : vec num) (v : num) (U_vec : vec num) (logd : bool)
      (j p : nat) :
  n_elem s_vec = n_elem b_vec -> (j < n_elem b_vec)%nat -> (p < n_elem U_vec)%nat ->
  mat_at (calc_lik_uni b_vec s_vec v U_vec logd) j p
  = let sigma2 := vat s_vec j * vat s_vec j * v + vat U_vec p in
    let res := LOG_INV_SQRT_2PI - flog (fsqrt sigma2)
               - (vat b_vec j - zero) * (vat b_vec j - zero) / (two * sigma2) in
    if logd then res else fexp res.
Proof.
  intros Hs Hj Hp. unfold calc_lik_uni. cbv zeta.
  change (n_cols (zeros (n_elem b_vec) (n_elem U_vec))) with (n_elem U_vec).
  match goal with
  | |- context [for_loop ?n (fun p lik => set_col lik p (@?g p)) ?m0] =>
      destruct (for_loop_set_col n g m0) as (_ & _ & _ & Hv)
  end.
  cbv zeta in Hv. rewrite (Hv j p Hj Hp).
  replace (p <? n_elem U_vec)%nat with true by (symmetry; now apply Nat.ltb_lt).
  assert (Hn : n_elem (vmap (fun a => a + vat U_vec p)
                            (vmap (fun a => a * v) (vschur s_vec s_vec))) = n_elem b_vec).
  { rewrite !n_elem_vmap. unfold vschur. now rewrite n_elem_vmap2. }
  rewrite vat_dnorm by (rewrite ?Hn; exact Hj). cbv zeta.
  rewrite vat_vmap by (rewrite n_elem_vmap; unfold vschur; rewrite n_elem_vmap2; lia).
  rewrite vat_vmap by (unfold vschur; rewrite n_elem_vmap2; lia).
  unfold vschur. rewrite vat_vmap2 by lia.
  unfold vzeros. rewrite vat_mk_vec by exact Hj. reflexivity.
Qed.

End UniLikFacts.

Section OneConditionFacts.
Local Open Scope R_scope.

Lemma ln_sqrt_half (x : R) : 0 < x -> ln (sqrt x) = ln x / 2.
Proof.
  intros Hx. assert (Hs : 0 < sqrt x) by now apply sqrt_lt_R0.
  assert (E : ln x = ln (sqrt x) + ln (sqrt x)).
  { rewrite <- ln_mult by assumption. now rewrite sqrt_sqrt by lra. }
  lra.
Qed.

(** The multivariate density in one dimension is the univariate one. *)
Lemma dmvnorm_one (erfc : R -> R) (DT : Datum R) (LA : Lapack R) (x : R) (S : mat R)
      (logd : bool) :
  chol_sound_1 LA -> inv_trimatu_sound_1 LA -> square 1 S -> rooti_of S <> None ->
  0 < mat_at S 0 0 /\
  @dmvnorm R Rscalar (Rlibm erfc) DT LA [x] (vzeros 1) S logd false
  = let res := @LOG_INV_SQRT_2PI R Rscalar (Rlibm erfc) - ln (sqrt (mat_at S 0 0))
               - (x - 0) * (x - 0) / (2 * mat_at S 0 0) in
    if logd then res else exp res.
Proof.
  intros Hchol Htri HS Hr. unfold dmvnorm. cbv iota.
  unfold rooti_of in *.
  destruct (chol S) as [C |] eqn:EC; [| contradiction].
  destruct (Hchol S C HS EC) as (HC & Cpos & Csq).
  destruct (inv_trimatu C) as [T |] eqn:ET; [| contradiction].
  destruct (Htri C T HC ET) as ((Tr & Tc) & Tinv).
  set (t := mat_at T 0 0) in *.
  assert (Spos : 0 < mat_at S 0 0) by (rewrite <- Csq; now apply Rmult_lt_0_compat).
  split; [exact Spos |].
  assert (Et : mat_at (trans T) 0 0 = t).
  { unfold trans. rewrite mat_at_mk_mat by lia. reflexivity. }
  assert (Ez : mvmul (trans T) (vsub [x] (vzeros 1)) = [0 + t * (x - 0)]).
  { unfold mvmul. change (n_rows (trans T)) with (n_cols T).
    change (n_cols (trans T)) with (n_rows T). rewrite Tr, Tc.
    cbn [mk_vec tab map seq sum_n]. rewrite Et. reflexivity. }
  assert (Ed : diag (trans T) = [t]).
  { unfold diag. change (n_rows (trans T)) with (n_cols T).
    change (n_cols (trans T)) with (n_rows T). rewrite Tr, Tc.
    cbn [Nat.min mk_vec tab map seq]. now rewrite Et. }
  rewrite Ez, Ed.
  set (c := mat_at C 0 0) in *.
  assert (Ht : t = / c).
  { apply (Rmult_eq_reg_r c); [| lra]. rewrite Tinv. field. lra. }
  assert (Hsq : sqrt (mat_at S 0 0) = c).
  { rewrite <- Csq. apply sqrt_square. lra. }
  assert (H2pi : 0 < 2 * PI) by (pose proof PI_RGT_0; lra).
  assert (E : (- (of_nat (n_elem [x]) / two) * @LOG_2PI R Rscalar (Rlibm erfc)
               - half * accu (vschur [(0 + t * (x - 0))%R] [(0 + t * (x - 0))%R])
               + accu (vmap (@flog R (Rlibm erfc)) [t]))%num
              = @LOG_INV_SQRT_2PI R Rscalar (Rlibm erfc) - ln (sqrt (mat_at S 0 0))
                - (x - 0) * (x - 0) / (2 * mat_at S 0 0)).
  { unfold LOG_INV_SQRT_2PI, INV_SQRT_2PI, LOG_2PI, accu, vschur, vmap2, vmap.
    cbn.
    assert (L1 : ln (1 / sqrt (2 * PI)) = - (ln (2 * PI) / 2)).
    { unfold Rdiv. rewrite Rmult_1_l, ln_Rinv by (now apply sqrt_lt_R0).
      now rewrite ln_sqrt_half. }
    assert (L2 : ln t = - ln c) by (rewrite Ht; now apply ln_Rinv).
    rewrite L1, L2, Hsq, <- Csq, Ht. field. lra. }
  destruct logd; [exact E |].
  change (@fexp R (Rlibm erfc)) with exp. now rewrite E.
Qed.

(** The whitening matrix of a positive 1 x 1 covariance exists. *)
Lemma rooti_of_one (LA : Lapack R) (S : mat R) :
  chol_exact_1 LA -> inv_trimatu_exact_1 LA -> square 1 S -> 0 < mat_at S 0 0 ->
  rooti_of S <> None.
Proof.
  intros (Hcs & Hce) (Hts & Hte) HS Hpos. unfold rooti_of.
  destruct (chol S) as [C |] eqn:EC; [| now contradiction (Hce S HS Hpos)].
  destruct (Hcs S C HS EC) as (HC & Cpos & _).
  destruct (inv_trimatu C) as [T |] eqn:ET; [discriminate |].
  contradiction (Hte C HC); lra.
Qed.

(** The covariance of effect [j] and component [p] of the problem with one
    condition. *)
Lemma one_condition_sigma (s_vec U_vec : vec R) (v : R) (j p : nat) :
  (j < n_elem s_vec)%nat -> (p < n_elem U_vec)%nat ->
  let sigma := madd (get_cov (col (row_mat s_vec) j) (Tiny.m1 v) empty_mat)
                    (slice (scalars_cube U_vec) p) in
  square 1 sigma /\
  mat_at sigma 0 0 = vat s_vec j * vat s_vec j * v + vat U_vec p.
Proof.
  intros Hj Hp sigma. split; [split; reflexivity |].
  unfold sigma, get_cov. change (mat_is_empty (@empty_mat R)) with true. cbv iota.
  unfold madd, mmap2. rewrite mat_at_mk_mat by (cbn; lia).
  unfold each_row_schur. rewrite mat_at_mk_mat by (cbn; lia).
  unfold each_col_schur. rewrite mat_at_mk_mat by (cbn; lia).
  rewrite vat_col by (cbn; lia).
  unfold row_mat. rewrite mat_at_mk_mat by lia.
  unfold scalars_cube, slice. cbn [slices].
  rewrite (nth_tab _ _ _ _ Hp).
  change (mat_at (Tiny.m1 v) 0 0) with v.
  change (mat_at (Tiny.m1 (vat U_vec p)) 0 0) with (vat U_vec p).
  change (@add R Rscalar) with Rplus. change (@mul R Rscalar) with Rmult. ring.
Qed.

End OneConditionFacts.

(** * Properties beyond the specification's claims *)

(** X1.  [dmvnorm_mat] is [dmvnorm] column by column, for every input and both
    flags: its result has one entry for each column of [x], and entry [i] is
    the density [dmvnorm] returns at column [i].  This includes the point-mass
    values of the [catch] blocks when the factorisation fails. *)
Theorem X1_dmvnorm_mat_is_dmvnorm_by_column
        {num : Type} {SC : Scalar num} {LM : Libm num} {DT : Datum num} {LA : Lapack num}
        (x : mat num) (mean : vec num) (sigma : mat num) (logd inversed : bool) :
  n_elem (dmvnorm_mat x mean sigma logd inversed) = n_cols x /\
  forall i, (i < n_cols x)%nat ->
    vat (dmvnorm_mat x mean sigma logd inversed) i
    = dmvnorm (col x i) mean sigma logd inversed.
Proof.
  split.
  - apply n_elem_dmvnorm_mat.
  - intros i Hi. now apply dmvnorm_mat_col.
Qed.

(** X2.  The [calc_lik] that takes whitening matrices agrees with the
    [calc_lik] that takes the covariances, provided [rooti_cube] holds the
    whitening matrix of each covariance the other factorises: in the general
    path, slice [j * P + p] for effect [j] and component [p] (the slices are
    read effect by effect, and [P] is [n_slices / J]); in the shared path,
    slice [p]. *)
Theorem X2_calc_lik_from_whitening_matrices
        {num : Type} {SC : Scalar num} {LM : Libm num} {DT : Datum num} {LA : Lapack num}
        (b_mat s_mat v_mat l_mat : mat num) (U_cube rooti_cube : cube num) (logd : bool) :
  let J := n_cols b_mat in
  let P := n_slices U_cube in
  ((0 < J)%nat -> n_slices rooti_cube = (J * P)%nat ->
   (forall j p, (j < J)%nat -> (p < P)%nat ->
      rooti_of (madd (get_cov (col s_mat j) v_mat l_mat) (slice U_cube p))
      = Some (slice rooti_cube (j * P + p))) ->
   calc_lik_rooti b_mat rooti_cube logd false
   = calc_lik b_mat s_mat v_mat l_mat U_cube logd false) /\
  (n_slices rooti_cube = P ->
   (forall p, (p < P)%nat ->
      rooti_of (madd (get_cov (col s_mat 0) v_mat l_mat) (slice U_cube p))
      = Some (slice rooti_cube p)) ->
   calc_lik_rooti b_mat rooti_cube logd true
   = calc_lik b_mat s_mat v_mat l_mat U_cube logd true).
Proof.
  intros J P. split.
  - intros HJ Hn Hroot.
    rewrite calc_lik_rooti_general, calc_lik_general. cbv zeta. fold J P.
    assert (HP : (n_slices rooti_cube / J)%nat = P).
    { rewrite Hn, Nat.mul_comm. apply Nat.div_mul. lia. }
    rewrite HP. apply mk_mat_ext. intros j p Hj Hp.
    symmetry. apply dmvnorm_of_rooti. now apply Hroot.
  - intros Hn Hroot.
    rewrite calc_lik_rooti_common, calc_lik_common. fold J P. rewrite Hn.
    apply mk_mat_ext. intros j p Hj Hp.
    symmetry. apply dmvnorm_of_rooti. now apply Hroot.
Qed.

(** The instance of X2 at binary64: one condition, two effects with standard
    error 1, [V = 1] and one component [U = 3]; every covariance is 4, and its
    whitening matrix is 1/2. *)
Lemma X2_witness_binary64 :
  let b_mat := Mat 1 2 [[0%float]; [1%float]] in
  let s_mat := Mat 1 2 [[1%float]; [1%float]] in
  let U_cube := Cube 1 1 [Tiny.m1 3%float] in
  @calc_lik_rooti float binary64 float_libm float_datum Tiny.lapack
                  b_mat (Cube 1 1 [Tiny.m1 0.5%float; Tiny.m1 0.5%float]) false false
  = @calc_lik float binary64 float_libm float_datum Tiny.lapack
              b_mat s_mat (Tiny.m1 1%float) empty_mat U_cube false false
  /\
  @calc_lik_rooti float binary64 float_libm float_datum Tiny.lapack
                  b_mat (Cube 1 1 [Tiny.m1 0.5%float]) false true
  = @calc_lik float binary64 float_libm float_datum Tiny.lapack
              b_mat s_mat (Tiny.m1 1%float) empty_mat U_cube false true.
Proof.
  split.
  - apply (proj1 (@X2_calc_lik_from_whitening_matrices
                    float binary64 float_libm float_datum Tiny.lapack
                    (Mat 1 2 [[0%float]; [1%float]]) (Mat 1 2 [[1%float]; [1%float]])
                    (Tiny.m1 1%float) empty_mat (Cube 1 1 [Tiny.m1 3%float])
                    (Cube 1 1 [Tiny.m1 0.5%float; Tiny.m1 0.5%float]) false)).
    + cbn. lia.
    + reflexivity.
    + intros j p Hj Hp. cbn in Hj, Hp.
      destruct j as [| [| j]]; [| | lia]; (destruct p as [| p]; [| lia]);
        vm_compute; reflexivity.
  - apply (proj2 (@X2_calc_lik_from_whitening_matrices
                    float binary64 float_libm float_datum Tiny.lapack
                    (Mat 1 2 [[0%float]; [1%float]]) (Mat 1 2 [[1%float]; [1%float]])
                    (Tiny.m1 1%float) empty_mat (Cube 1 1 [Tiny.m1 3%float])
                    (Cube 1 1 [Tiny.m1 0.5%float]) false)).
    + reflexivity.
    + intros p Hp. cbn in Hp. destruct p as [| p]; [| lia]. vm_compute. reflexivity.
Defined.


(** X5.  On conforming operands (the four output matrices are Q x J, and the
    inputs, the caches, [post_cov] and [posterior_weights] have the shapes
    that make every [.col(j)], [.slice(j)], [.at(p, j)] and every product of
    the function exist), [PosteriorMASH::compute_posterior] returns, and then
    with the code 0, exactly when [inv_sympd] succeeds for every effect and
    [X.i()] for every effect and component; it changes neither the inputs
    nor the caches nor the shape of the output matrices; and with both caches
    injected it inverts nothing and always returns. *)
Theorem X5_compute_posterior_fails_only_on_inversions
        {num : Type} {SC : Scalar num} {LM : Libm num} {LA : Lapack num}
        (e : PosteriorMASH.t num) (w : mat num) (rt : Z) (n Q J : nat) :
  mash_buffers Q J e ->
  mash_conformant n Q J e w ->
  ((exists e', PosteriorMASH.compute_posterior e w rt = Some (0%Z, e')) <->
   (forall j, (j < J)%nat ->
      exists V, PosteriorMASH.Vinv_of e j = Some V /\
                forall p, (p < n_slices (PosteriorMASH.U_cube e))%nat ->
                          PosteriorMASH.U0_of e V j p <> None)) /\
  (forall rc e', PosteriorMASH.compute_posterior e w rt = Some (rc, e') ->
                 rc = 0%Z /\ mash_same_inputs e e' /\ mash_buffers Q J e') /\
  (cube_is_empty (PosteriorMASH.Vinv_cube e) = false ->
   cube_is_empty (PosteriorMASH.U0_cube e) = false ->
   PosteriorMASH.compute_posterior e w rt <> None).
Proof.
  intros Hbuf _. split; [| split].
  - split.
    + intros [e' E] j Hj. apply mash_lapack_ok_iff.
      destruct (mash_compute_posterior_spec e e' w rt 0%Z Q J Hbuf E)
        as (_ & _ & _ & Hok & _).
      now apply Hok.
    + intros H. apply (mash_compute_posterior_total e w rt Q J Hbuf).
      intros j Hj. apply mash_lapack_ok_iff. now apply H.
  - intros rc e' E.
    destruct (mash_compute_posterior_spec e e' w rt rc Q J Hbuf E) as (H1 & H2 & H3 & _).
    exact (conj H1 (conj H2 H3)).
  - intros HV HU.
    destruct (mash_compute_posterior_total e w rt Q J Hbuf) as [e' E].
    + intros j _. now apply mash_lapack_ok_cached.
    + rewrite E. discriminate.
Qed.

(** The engine of the instance of X5: one condition, one effect, the singular
    covariance [V = 0]. *)
Lemma example_singular_conformant :
  let e := @PosteriorMASH.new float binary64
             (Mat 1 1 [[1%float]]) empty_mat empty_mat empty_mat (Tiny.m1 0%float)
             empty_mat empty_mat (Cube 1 1 [Tiny.m1 1%float]) in
  mash_buffers 1 1 e /\ mash_conformant 1 1 1 e example_weights.
Proof.
  intros e. split; [repeat split |].
  unfold mash_conformant, sized. cbn.
  repeat split; try reflexivity; try (left; reflexivity);
    try (left; split; reflexivity);
    try match goal with
        | H : (?k < 1)%nat |- _ => destruct k; [reflexivity | lia]
        end.
Qed.

(** The instance of X5 at binary64, on the singular covariance [V = 0]:
    [inv_sympd] fails and so does the call. *)
Lemma X5_witness_binary64 :
  let e := @PosteriorMASH.new float binary64
             (Mat 1 1 [[1%float]]) empty_mat empty_mat empty_mat (Tiny.m1 0%float)
             empty_mat empty_mat (Cube 1 1 [Tiny.m1 1%float]) in
  @PosteriorMASH.compute_posterior float binary64 float_libm Tiny.lapack
                                   e example_weights 3%Z = None /\
  ~ (exists V, @PosteriorMASH.Vinv_of float binary64 Tiny.lapack e 0 = Some V).
Proof.
  intros e.
  destruct example_singular_conformant as (Hbuf & Hconf). fold e in Hbuf, Hconf.
  assert (HV : ~ (exists V, @PosteriorMASH.Vinv_of float binary64 Tiny.lapack e 0 = Some V)).
  { intros [V HV]. vm_compute in HV. discriminate HV. }
  split; [| exact HV].
  destruct (@PosteriorMASH.compute_posterior float binary64 float_libm Tiny.lapack
              e example_weights 3%Z) as [[rc e'] |] eqn:E; [| reflexivity].
  exfalso. apply HV.
  destruct (proj1 (proj2 (@X5_compute_posterior_fails_only_on_inversions
                            float binary64 float_libm Tiny.lapack e example_weights
                            3%Z 1%nat 1%nat 1%nat Hbuf Hconf)) rc e' E) as (Hrc & _).
  subst rc.
  destruct (proj1 (proj1 (@X5_compute_posterior_fails_only_on_inversions
                            float binary64 float_libm Tiny.lapack e example_weights
                            3%Z 1%nat 1%nat 1%nat Hbuf Hconf))
                  (ex_intro _ e' E) 0%nat (Nat.lt_0_succ 0)) as (V & HV' & _).
  now exists V.
Defined.

(** X6.  [PosteriorMASH::compute_posterior] overwrites the four output
    matrices and accumulates into [post_cov].  Run on two engines with the
    same inputs and caches, whatever their output buffers hold, it fails on
    both or returns on both, with the same entries in [post_mean],
    [post_var], [neg_prob] and [zero_prob].  For the report types 2 and 4
    slice [j] of [post_cov] is what the slice held before the call plus the
    weighted second moments of the components (less the outer product of the
    mean for 4): a second call on the same engine adds onto the result of the
    first.  For the other report types [post_cov] is left as it was. *)
Theorem X6_outputs_overwritten_post_cov_accumulated
        {num : Type} {SC : Scalar num} {LM : Libm num} {LA : Lapack num}
        (e e0 e' : PosteriorMASH.t num) (w : mat num) (rt rc : Z) (R J : nat) :
  mash_same_inputs e e0 -> mash_buffers R J e -> mash_buffers R J e0 ->
  PosteriorMASH.compute_posterior e w rt = Some (rc, e') ->
  exists e0',
    PosteriorMASH.compute_posterior e0 w rt = Some (rc, e0') /\
    (forall r j, (r < R)%nat -> (j < J)%nat ->
       mat_at (PosteriorMASH.post_mean e0') r j = mat_at (PosteriorMASH.post_mean e') r j /\
       mat_at (PosteriorMASH.post_var e0') r j = mat_at (PosteriorMASH.post_var e') r j /\
       mat_at (PosteriorMASH.neg_prob e0') r j = mat_at (PosteriorMASH.neg_prob e') r j /\
       mat_at (PosteriorMASH.zero_prob e0') r j = mat_at (PosteriorMASH.zero_prob e') r j) /\
    (if cov_gate rt
     then forall j, (j < J)%nat -> (j < n_slices (PosteriorMASH.post_cov e0))%nat ->
            slice (PosteriorMASH.post_cov e0') j
            = let acc := maccum (n_slices (PosteriorMASH.U_cube e))
                                (mash_moment e w (mash_Vinv e j) j)
                                (slice (PosteriorMASH.post_cov e0) j) in
              if (rt =? 4)%Z
              then msub acc (outer (col (PosteriorMASH.post_mean e0') j)
                                   (col (PosteriorMASH.post_mean e0') j))
              else acc
     else PosteriorMASH.post_cov e0' = PosteriorMASH.post_cov e0).
Proof.
  intros Hin Hbuf Hbuf0 E.
  destruct (mash_compute_posterior_spec e e' w rt rc R J Hbuf E) as (Hrc & _ & _ & Hok & _).
  subst rc.
  assert (HR : n_rows (PosteriorMASH.post_mean e0) = n_rows (PosteriorMASH.post_mean e)).
  { destruct Hbuf as ((-> & _) & _). now destruct Hbuf0 as ((-> & _) & _). }
  destruct (mash_compute_posterior_total e0 w rt R J Hbuf0) as [e0' E0].
  { intros j Hj. apply (mash_lapack_ok_same_inputs e e0 j Hin HR). now apply Hok. }
  exists e0'. split; [exact E0 |].
  destruct (mash_same_inputs_funs e e0 Hin HR) as (FV & _ & _ & Fmu1 & FU1 & _ & FP).
  apply (mash_runs_agree e e0 e' e0' w rt 0%Z 0%Z R J Hbuf Hbuf0 FP); [| exact E | exact E0].
  intros j p Hj Hp.
  assert (FVinv : mash_Vinv e0 j = mash_Vinv e j) by (unfold mash_Vinv; now rewrite FV).
  rewrite FVinv. split; [apply Fmu1 | apply FU1].
Qed.

(** The instance of X6 at binary64: [compute_posterior] with
    [report_type = 2] twice on the example engine.  The second call leaves
    the same posterior mean and twice the second moments in [post_cov]. *)
Lemma X6_witness_binary64 :
  match @PosteriorMASH.compute_posterior float binary64 float_libm Tiny.lapack
          example_engine example_weights 2%Z with
  | Some (_, e1) =>
      match @PosteriorMASH.compute_posterior float binary64 float_libm Tiny.lapack
              e1 example_weights 2%Z with
      | Some (_, e2) =>
          mat_at (PosteriorMASH.post_mean e2) 0 0 = mat_at (PosteriorMASH.post_mean e1) 0 0 /\
          slice (PosteriorMASH.post_cov e1) 0 = Tiny.m2 0.75%float 0%float 0%float 0.5%float /\
          slice (PosteriorMASH.post_cov e2) 0 = Tiny.m2 1.5%float 0%float 0%float 1%float
      | None => False
      end
  | None => False
  end.
Proof.
  destruct (@PosteriorMASH.compute_posterior float binary64 float_libm Tiny.lapack
              example_engine example_weights 2%Z) as [[rc e1] |] eqn:E1;
    [| vm_compute in E1; discriminate E1].
  assert (Hbuf : mash_buffers 2 1 example_engine) by (repeat split).
  destruct (mash_compute_posterior_spec example_engine e1 example_weights 2%Z rc 2 1 Hbuf E1)
    as (_ & Hin & Hbuf1 & _).
  destruct (@X6_outputs_overwritten_post_cov_accumulated
              float binary64 float_libm Tiny.lapack
              example_engine e1 e1 example_weights 2%Z rc 2%nat 1%nat Hin Hbuf Hbuf1 E1)
    as (e2 & E2 & Hent & _).
  rewrite E2.
  split; [exact (proj1 (Hent 0%nat 0%nat (Nat.lt_0_succ 1) (Nat.lt_0_succ 0))) |].
  vm_compute in E1. injection E1 as _ <-.
  split; [reflexivity |].
  vm_compute in E2. injection E2 as _ <-. reflexivity.
Defined.

(** X7.  Injecting the caches does not change the results.  When [set_vinv]
    and [set_U0] are given what the engine would compute (slice [j] of the
    one is [Vinv_j], slice [j * P + p] of the other is [U0] of effect [j] and
    component [p]), [compute_posterior] returns what it returns without the
    caches: the same entries in the four output matrices and the same slices
    of [post_cov]. *)
Theorem X7_caches_do_not_change_the_results
        {num : Type} {SC : Scalar num} {LM : Libm num} {LA : Lapack num}
        (e e' : PosteriorMASH.t num) (Vinv_cube U0_cube : cube num)
        (w : mat num) (rt rc : Z) (R J : nat) :
  let P := n_slices (PosteriorMASH.U_cube e) in
  let ec := snd (PosteriorMASH.set_U0 (snd (PosteriorMASH.set_vinv e Vinv_cube)) U0_cube) in
  mash_buffers R J e ->
  cube_is_empty Vinv_cube = false -> cube_is_empty U0_cube = false ->
  (forall j, (j < J)%nat -> PosteriorMASH.Vinv_of e j = Some (slice Vinv_cube j)) ->
  (forall j p, (j < J)%nat -> (p < P)%nat ->
     PosteriorMASH.U0_of e (slice Vinv_cube j) j p = Some (slice U0_cube (j * P + p))) ->
  PosteriorMASH.compute_posterior e w rt = Some (rc, e') ->
  exists ec',
    PosteriorMASH.compute_posterior ec w rt = Some (rc, ec') /\
    (forall r j, (r < R)%nat -> (j < J)%nat ->
       mat_at (PosteriorMASH.post_mean ec') r j = mat_at (PosteriorMASH.post_mean e') r j /\
       mat_at (PosteriorMASH.post_var ec') r j = mat_at (PosteriorMASH.post_var e') r j /\
       mat_at (PosteriorMASH.neg_prob ec') r j = mat_at (PosteriorMASH.neg_prob e') r j /\
       mat_at (PosteriorMASH.zero_prob ec') r j = mat_at (PosteriorMASH.zero_prob e') r j) /\
    (forall j, (j < J)%nat -> (j < n_slices (PosteriorMASH.post_cov e))%nat ->
       slice (PosteriorMASH.post_cov ec') j = slice (PosteriorMASH.post_cov e') j).
Proof.
  intros P ec Hbuf HVc HU0c HV HU E.
  assert (Hbufc : mash_buffers R J ec) by exact Hbuf.
  destruct (mash_compute_posterior_spec e e' w rt rc R J Hbuf E) as (Hrc & _).
  subst rc.
  destruct (mash_compute_posterior_total ec w rt R J Hbufc) as [ec' Ec].
  { intros j _. now apply mash_lapack_ok_cached. }
  exists ec'. split; [exact Ec |].
  assert (Hq : forall j p, (j < J)%nat -> (p < n_slices (PosteriorMASH.U_cube e))%nat ->
             mash_mu1 ec (mash_Vinv ec j) j p = mash_mu1 e (mash_Vinv e j) j p /\
             mash_U1 ec (mash_Vinv ec j) j p = mash_U1 e (mash_Vinv e j) j p).
  { intros j p Hj Hp.
    assert (EV : mash_Vinv e j = slice Vinv_cube j)
      by (unfold mash_Vinv; now rewrite (HV j Hj)).
    assert (EVc : mash_Vinv ec j = slice Vinv_cube j).
    { unfold mash_Vinv, PosteriorMASH.Vinv_of, ec.
      cbn [snd PosteriorMASH.set_U0 PosteriorMASH.set_vinv PosteriorMASH.Vinv_cube].
      now rewrite HVc. }
    rewrite EV, EVc.
    assert (EU : mash_U0 e (slice Vinv_cube j) j p = slice U0_cube (j * P + p))
      by (unfold mash_U0; now rewrite (HU j p Hj Hp)).
    assert (EUc : mash_U0 ec (slice Vinv_cube j) j p = slice U0_cube (j * P + p)).
    { unfold mash_U0, PosteriorMASH.U0_of, ec.
      cbn [snd PosteriorMASH.set_U0 PosteriorMASH.set_vinv PosteriorMASH.U0_cube
               PosteriorMASH.U_cube].
      now rewrite HU0c. }
    unfold mash_mu1, mash_U1. rewrite EU, EUc. split; reflexivity. }
  destruct (mash_runs_agree e ec e' ec' w rt 0%Z 0%Z R J Hbuf Hbufc eq_refl Hq E Ec)
    as (Hent & Hcov).
  destruct (mash_runs_agree e e e' e' w rt 0%Z 0%Z R J Hbuf Hbuf eq_refl
              (fun j p _ _ => conj eq_refl eq_refl) E E) as (_ & Hcov').
  split; [exact Hent |].
  intros j Hj Hjs.
  destruct (mash_compute_posterior_spec e e' w rt 0%Z R J Hbuf E) as (_ & _ & Hbuf' & _).
  destruct (mash_compute_posterior_spec ec ec' w rt 0%Z R J Hbufc Ec) as (_ & _ & Hbufc' & _).
  destruct (cov_gate rt).
  - rewrite (Hcov j Hj Hjs), (Hcov' j Hj Hjs). cbv zeta.
    change (PosteriorMASH.post_cov ec) with (PosteriorMASH.post_cov e).
    destruct (rt =? 4)%Z; [| reflexivity].
    assert (Hcol : col (PosteriorMASH.post_mean ec') j = col (PosteriorMASH.post_mean e') j).
    { unfold col. destruct Hbuf' as ((-> & _) & _). destruct Hbufc' as ((-> & _) & _).
      apply mk_vec_ext. intros r Hr. exact (proj1 (Hent r j Hr Hj)). }
    now rewrite Hcol.
  - now rewrite Hcov, Hcov'.
Qed.

(** The instance of X7 at binary64 on the example engine, with
    [report_type = 2]: [Vinv = I] (as the closed form returns it) and
    [U0 = I / 2]. *)
Lemma X7_witness_binary64 :
  let Vc := Cube 2 2 [Tiny.m2 1%float (-0)%float (-0)%float 1%float] in
  let U0c := Cube 2 2 [Tiny.m2 0.5%float 0%float 0%float 0.5%float] in
  let ec := snd (PosteriorMASH.set_U0 (snd (PosteriorMASH.set_vinv example_engine Vc)) U0c) in
  match @PosteriorMASH.compute_posterior float binary64 float_libm Tiny.lapack
          example_engine example_weights 2%Z,
        @PosteriorMASH.compute_posterior float binary64 float_libm Tiny.lapack
          ec example_weights 2%Z
  with
  | Some (_, e'), Some (_, ec') =>
      mat_at (PosteriorMASH.post_mean ec') 0 0 = mat_at (PosteriorMASH.post_mean e') 0 0 /\
      slice (PosteriorMASH.post_cov ec') 0 = slice (PosteriorMASH.post_cov e') 0
  | _, _ => False
  end.
Proof.
  intros Vc U0c ec.
  destruct (@PosteriorMASH.compute_posterior float binary64 float_libm Tiny.lapack
              example_engine example_weights 2%Z) as [[rc e'] |] eqn:E;
    [| vm_compute in E; discriminate E].
  destruct (@X7_caches_do_not_change_the_results float binary64 float_libm Tiny.lapack
              example_engine e' Vc U0c example_weights 2%Z rc 2%nat 1%nat)
    as (ec' & Ec & Hent & Hcov).
  - repeat split.
  - reflexivity.
  - reflexivity.
  - intros j Hj. destruct j as [| j]; [| lia]. vm_compute. reflexivity.
  - intros j p Hj Hp. cbn in Hp. destruct j as [| j]; [| lia].
    destruct p as [| p]; [| lia]. vm_compute. reflexivity.
  - exact E.
  - fold ec in Ec. rewrite Ec. split.
    + exact (proj1 (Hent 0%nat 0%nat (Nat.lt_0_succ 1) (Nat.lt_0_succ 0))).
    + apply Hcov; [apply Nat.lt_0_succ |]. cbn. apply Nat.lt_0_succ.
Defined.

(** X8.  In exact arithmetic [get_cov] is what its comment says: for [s] of
    length n and an n x n matrix [V], the two-argument [get_cov] returns
    [diagmat(s) * V * diagmat(s)], and the three-argument one returns the same
    when [L] is empty and [L * diagmat(s) * V * diagmat(s) * L.t()] otherwise.
    It keeps a covariance a covariance: when [V] is symmetric and positive
    semi-definite (and [L], if given, is n x n), so is the result. *)
Theorem X8_get_cov_scales_a_covariance (n : nat) (s : vec R) (V L : mat R) :
  n_elem s = n -> square n V ->
  get_cov2 s V = mmul (mmul (diagmat s) V) (diagmat s) /\
  get_cov s V L
  = (if mat_is_empty L then mmul (mmul (diagmat s) V) (diagmat s)
     else mmul (mmul L (mmul (mmul (diagmat s) V) (diagmat s))) (trans L)) /\
  (symmetric n V -> psd n V -> mat_is_empty L = true \/ square n L ->
   square n (get_cov s V L) /\ symmetric n (get_cov s V L) /\ psd n (get_cov s V L)).
Proof.
  intros Hs HV.
  pose proof (get_cov_is_diag_sandwich n s V Hs HV) as E.
  split; [exact E |]. split.
  - unfold get_cov. cbv zeta.
    change (each_row_schur (each_col_schur V s) s) with (get_cov2 s V).
    rewrite E. reflexivity.
  - intros Hsym Hpsd HL. now apply get_cov_keeps_covariance.
Qed.

(** The instance of X8 over the reals: [s = (2)], [V = (3)], no [L]. *)
Lemma X8_witness_reals :
  get_cov2 [2%R] (Tiny.m1 3%R) = mmul (mmul (diagmat [2%R]) (Tiny.m1 3%R)) (diagmat [2%R]) /\
  psd 1 (get_cov [2%R] (Tiny.m1 3%R) empty_mat).
Proof.
  destruct (X8_get_cov_scales_a_covariance 1 [2%R] (Tiny.m1 3%R) empty_mat eq_refl
              (conj eq_refl eq_refl)) as (E & _ & H).
  split; [exact E |].
  apply H.
  - intros r c _ _. apply symmetric_m1.
  - apply psd_m1. lra.
  - left. reflexivity.
Defined.

(** X9.  In exact arithmetic, with an [X.i()] that returns an inverse:
    whenever [get_posterior_cov] returns, on n x n symmetric positive
    semi-definite [Vinv] and [U], its result is an n x n symmetric positive
    semi-definite matrix. *)
Theorem X9_posterior_cov_is_a_covariance
        (LA : Lapack R) (n : nat) (Vinv U M : mat R) :
  inv_sound LA n ->
  square n Vinv -> symmetric n Vinv -> psd n Vinv ->
  square n U -> symmetric n U -> psd n U ->
  get_posterior_cov Vinv U = Some M ->
  square n M /\ symmetric n M /\ psd n M.
Proof.
  intros Hinv HV SV PV HU SU PU E.
  unfold get_posterior_cov in E. cbv zeta in E.
  destruct (inv (diag_add (mmul Vinv U) one)) as [T |] eqn:ET; [| discriminate].
  injection E as <-.
  assert (HS : square n (diag_add (mmul Vinv U) one)).
  { destruct HV, HU. split; cbn [n_rows n_cols diag_add mmul mk_mat]; assumption. }
  destruct (Hinv _ _ HS ET) as [HT [Tri _]].
  split; [now apply square_mmul |].
  split.
  - exact (symmetric_posterior_cov n Vinv U T HV HU HT Tri SV SU).
  - exact (psd_posterior_cov n Vinv U T HV HU HT Tri PV PU).
Qed.

(** The instance of X9 over the reals, with the closed-form inverse:
    [Vinv = (2)] and [U = (3)]. *)
Lemma X9_witness_reals :
  match @get_posterior_cov R Rscalar Tiny.lapack (Tiny.m1 2%R) (Tiny.m1 3%R) with
  | Some M => square 1 M /\ symmetric 1 M /\ psd 1 M
  | None => False
  end.
Proof.
  destruct (@get_posterior_cov R Rscalar Tiny.lapack (Tiny.m1 2%R) (Tiny.m1 3%R))
    as [M |] eqn:E.
  - apply (X9_posterior_cov_is_a_covariance Tiny.lapack 1 (Tiny.m1 2%R) (Tiny.m1 3%R) M
             tiny_inv_sound_1); try exact E; try (split; reflexivity);
      try (intros r c _ _; apply symmetric_m1); apply psd_m1; lra.
  - unfold get_posterior_cov in E. cbn in E.
    destruct (Req_dec_T _ _) as [H | H]; [exfalso; lra | discriminate E].
Defined.

(** X10.  In exact arithmetic [softmax] returns a probability vector, and the
    one its comment names: when [max] accepts [x] (whatever value it returns)
    and [x] has an element, the result has the length of [x], its entry [i]
    is [exp(x_i) / sum_j exp(x_j)], every entry is positive and the entries
    sum to 1.  Subtracting the maximum changes nothing in the result. *)
Theorem X10_softmax_is_a_probability_vector
        (erfc : R -> R) (ST : Stats R) (x : vec R) (m : R) :
  vmax x = Some m -> (0 < n_elem x)%nat ->
  exists y,
    @softmax R Rscalar (Rlibm erfc) ST x = Some y /\
    n_elem y = n_elem x /\
    (forall i, (i < n_elem x)%nat ->
       vat y i = (exp (vat x i) / sum_n (n_elem x) (fun j => exp (vat x j)))%R /\
       (0 < vat y i)%R) /\
    accu y = 1%R.
Proof. apply softmax_spec. Qed.

(** The instance of X10 over the reals: [x = (0, 0)]. *)
Lemma X10_witness_reals :
  exists y,
    @softmax R Rscalar (Rlibm erfc_like) Rstats [0%R; 0%R] = Some y /\
    vat y 0 = (exp 0 / (0 + exp 0 + exp 0))%R /\
    accu y = 1%R.
Proof.
  destruct (X10_softmax_is_a_probability_vector erfc_like Rstats [0%R; 0%R] (Rmax 0 0)
              eq_refl (Nat.lt_0_succ 1)) as (y & E & _ & Hval & Hsum).
  exists y. split; [exact E |]. split; [| exact Hsum].
  exact (proj1 (Hval 0%nat (Nat.lt_0_succ 1))).
Defined.

(** X11.  [TEEM::fit] returns exactly when [maxiter] is at least 1, [X_mat],
    [w_vec] and [U_cube] are not empty and [max] accepts the weights.  When
    it returns: the code is 0; [X_mat] and [U_cube] are unchanged; the
    weights are replaced by their softmax, so that in exact arithmetic
    [get_w] has positive entries that sum to 1; [get_objective] has length
    [maxiter], 100 in front and 0 elsewhere, and [get_maxd] is [maxiter]
    zeros; and what is printed is the first column of [X_mat], the first
    weight and the first slice of [U_cube] as they were, then the new weights
    and [X_mat] (the output of [shrink_cov], which returns its argument). *)
Theorem X11_teem_fit_normalises_the_weights
        (erfc : R -> R) (ST : Stats R) (self : TEEM.t R) (maxiter : Z) (tol : R)
        (verbose : bool) :
  (@TEEM.fit R Rscalar (Rlibm erfc) ST self maxiter tol verbose <> None <->
   (0 < maxiter)%Z /\ (0 < n_cols (TEEM.X_mat self))%nat /\
   (0 < n_elem (TEEM.w_vec self))%nat /\ (0 < n_slices (TEEM.U_cube self))%nat /\
   vmax (TEEM.w_vec self) <> None) /\
  (forall (rc : Z) (self' : TEEM.t R) (out : list (TEEM.printed R)),
  @TEEM.fit R Rscalar (Rlibm erfc) ST self maxiter tol verbose = Some (rc, self', out) ->
  rc = 0%Z /\
  (TEEM.X_mat self' = TEEM.X_mat self /\ TEEM.get_U self' = TEEM.get_U self) /\
  (@softmax R Rscalar (Rlibm erfc) ST (TEEM.w_vec self) = Some (TEEM.get_w self') /\
   n_elem (TEEM.get_w self') = n_elem (TEEM.w_vec self) /\
   (forall i, (i < n_elem (TEEM.w_vec self))%nat -> (0 < vat (TEEM.get_w self') i)%R) /\
   accu (TEEM.get_w self') = 1%R) /\
  (n_elem (TEEM.get_objective self') = Z.to_nat maxiter /\
   vat (TEEM.get_objective self') 0 = 100%R /\
   (forall i, (0 < i)%nat -> vat (TEEM.get_objective self') i = 0%R) /\
   TEEM.get_maxd self' = vzeros (Z.to_nat maxiter)) /\
  out = [TEEM.first_column_of_X (col (TEEM.X_mat self) 0);
         TEEM.first_element_of_w (vat (TEEM.w_vec self) 0);
         TEEM.first_slice_of_U (slice (TEEM.U_cube self) 0);
         TEEM.w_vec_after_softmax (TEEM.get_w self');
         TEEM.output_of_shrink_cov (TEEM.X_mat self)]).
Proof.
  split; [apply teem_fit_returns_iff |].
  intros rc self' out E. unfold TEEM.fit in E.
  destruct (maxiter <? 0)%Z eqn:Em; [discriminate |].
  apply Z.ltb_ge in Em.
  unfold TEEM.compute_loglik in E.
  destruct ((0 <? n_cols (TEEM.X_mat self)) && (0 <? n_elem (TEEM.w_vec self))
            && (0 <? n_slices (TEEM.U_cube self)))%nat eqn:Ene; [| discriminate].
  apply andb_true_iff in Ene. destruct Ene as [Ene HU].
  apply andb_true_iff in Ene. destruct Ene as [HX Hw].
  apply Nat.ltb_lt in HX, Hw, HU.
  destruct (@softmax R Rscalar (Rlibm erfc) ST (TEEM.w_vec self)) as [w |] eqn:Es;
    [| discriminate].
  cbv zeta in E.
  destruct (n_elem (vzeros (Z.to_nat maxiter)) =? 0)%nat eqn:En; [discriminate |].
  apply Nat.eqb_neq in En. unfold vzeros in En. rewrite n_elem_mk_vec in En.
  set (h := @of_nat R Rscalar 100) in E.
  assert (Hh : h = 100%R) by (unfold h; cbn [of_nat Rscalar]; rewrite INR_IZR_INZ; reflexivity).
  clearbody h.
  injection E as <- <- <-.
  unfold vzeros.
  cbn [TEEM.X_mat TEEM.get_U TEEM.U_cube TEEM.get_w TEEM.w_vec TEEM.get_objective
       TEEM.objective TEEM.get_maxd TEEM.maxd].
  assert (Hm : vmax (TEEM.w_vec self) <> None).
  { intros Hn. unfold softmax in Es. rewrite Hn in Es. discriminate. }
  destruct (vmax (TEEM.w_vec self)) as [m |] eqn:Ev; [| contradiction].
  destruct (softmax_spec erfc ST (TEEM.w_vec self) m Ev Hw) as (y & Ey & Hlen & Hval & Hsum).
  rewrite Es in Ey. injection Ey as <-.
  split; [reflexivity |].
  split; [split; reflexivity |].
  split.
  { split; [reflexivity |]. split; [exact Hlen |]. split; [| exact Hsum].
    intros i Hi. exact (proj2 (Hval i Hi)). }
  split; [| reflexivity].
  split; [now rewrite n_elem_vset, n_elem_mk_vec |].
  split.
  { rewrite vat_vset by (rewrite n_elem_mk_vec; lia). exact Hh. }
  split; [| reflexivity].
  intros i Hi. destruct (Nat.lt_ge_cases i (Z.to_nat maxiter)) as [Hlt | Hge].
  - rewrite vat_vset by (now rewrite n_elem_mk_vec).
    replace (i =? 0)%nat with false by (symmetry; apply Nat.eqb_neq; lia).
    now rewrite vat_mk_vec.
  - change (0%R) with (@zero R Rscalar). apply (@vat_out R Rscalar).
    now rewrite n_elem_vset, n_elem_mk_vec.
Qed.

(** The instance of X11 over the reals: a 1 x 1 problem with the weights
    [(0, 0)] and [maxiter = 2]; [fit] returns. *)
Lemma X11_witness_reals :
  match @TEEM.fit R Rscalar (Rlibm erfc_like) Rstats
          (TEEM.new (Tiny.m1 1%R) [0%R; 0%R] (Cube 1 1 [Tiny.m1 1%R])) 2%Z 0%R false with
  | Some (rc, self', _) =>
      rc = 0%Z /\ accu (TEEM.get_w self') = 1%R /\
      n_elem (TEEM.get_objective self') = 2%nat /\
      vat (TEEM.get_objective self') 0 = 100%R
  | None => False
  end.
Proof.
  destruct (@TEEM.fit R Rscalar (Rlibm erfc_like) Rstats
              (TEEM.new (Tiny.m1 1%R) [0%R; 0%R] (Cube 1 1 [Tiny.m1 1%R])) 2%Z 0%R false)
    as [[[rc self'] out] |] eqn:E.
  - destruct (proj2 (X11_teem_fit_normalises_the_weights erfc_like Rstats
                       (TEEM.new (Tiny.m1 1%R) [0%R; 0%R] (Cube 1 1 [Tiny.m1 1%R]))
                       2%Z 0%R false) rc self' out E)
      as (Hrc & _ & (_ & _ & _ & Hsum) & (Hlen & H100 & _) & _).
    repeat split; assumption.
  - unfold TEEM.fit in E. cbn in E. discriminate E.
Defined.

(** X12.  The univariate engine, in exact arithmetic and with an [erfc] whose
    values lie in [[0,2]]: for [J] effects with standard errors that are not
    0, a residual variance [v > 0], prior variances [U_vec] that are not
    negative, an [s_alpha] that is absent or has one entry for each effect,
    and posterior weights with non-negative entries whose column for each
    effect sums to 1, [compute_posterior] returns 0 and then every entry of
    [post_var] is [>= 0], every entry of [neg_prob] and [zero_prob] lies in
    [[0,1]], and [PosteriorSD] squared gives [PosteriorCov] back. *)
Theorem X12_ash_variance_and_probabilities_in_range
        (erfc : R -> R) (b_vec s_vec s_alpha U_vec : vec R) (v : R)
        (indet : nat -> R) (posterior_weights : mat R) :
  let J := n_elem b_vec in
  let P := n_elem U_vec in
  let e := PosteriorASH.new b_vec s_vec s_alpha v U_vec indet in
  let r := @PosteriorASH.compute_posterior R Rscalar (Rlibm erfc) e posterior_weights in
  (forall t, (0 <= erfc t <= 2)%R) ->
  n_elem s_vec = J ->
  n_elem s_alpha = 0%nat \/ n_elem s_alpha = J ->
  (0 < v)%R ->
  (forall j, (j < J)%nat -> vat s_vec j <> 0%R) ->
  (forall p, (p < P)%nat -> (0 <= vat U_vec p)%R) ->
  n_rows posterior_weights = P ->
  (forall p j, (p < P)%nat -> (j < J)%nat -> (0 <= mat_at posterior_weights p j)%R) ->
  (forall j, (j < J)%nat -> accu (col posterior_weights j) = 1%R) ->
  fst r = 0%Z /\
  forall j, (j < J)%nat ->
    (0 <= vat (PosteriorASH.post_var (snd r)) j)%R /\
    (0 <= vat (PosteriorASH.neg_prob (snd r)) j <= 1)%R /\
    (0 <= vat (PosteriorASH.zero_prob (snd r)) j <= 1)%R /\
    (vat (PosteriorASH.PosteriorSD (snd r)) j * vat (PosteriorASH.PosteriorSD (snd r)) j
     = vat (PosteriorASH.PosteriorCov (snd r)) j)%R.
Proof.
  intros J P e r Herfc Hs Ha Hv Hs0 HU Hw Hwpos Hwsum.
  assert (Hsa : n_elem (PosteriorASH.s_alpha_vec e) = J).
  { unfold e, PosteriorASH.new. cbn [PosteriorASH.s_alpha_vec].
    destruct Ha as [Ha | Ha]; rewrite Ha; cbn [Nat.eqb].
    - unfold vones. apply n_elem_mk_vec.
    - destruct (Nat.eqb_spec J 0) as [E0 | E0]; [| exact Ha].
      unfold vones. apply n_elem_mk_vec. }
  assert (Hbuf : forall f, n_elem (@mk_vec R J f) = J) by (intros; apply n_elem_mk_vec).
  destruct (@ash_compute_posterior_spec R Rscalar (Rlibm erfc) e posterior_weights
              Hs Hsa (Hbuf _) (Hbuf _) (Hbuf _) (Hbuf _)) as (Hrc & Hent).
  split; [exact Hrc |].
  intros j Hj.
  destruct (Hent j Hj) as (M1 & M2 & M3 & M4). cbv zeta in M1, M2, M3, M4.
  destruct (@ash_components_spec R Rscalar (Rlibm erfc) e Hs Hsa) as (_ & Hcomp).
  fold r in M1, M2, M3, M4.
  change (n_elem (PosteriorASH.U_vec e)) with P in *.
  change (n_elem (PosteriorASH.b_vec e)) with J in *.
  set (W := vat (col posterior_weights j)) in *.
  assert (HWn : forall p, (p < P)%nat -> (0 <= W p)%R).
  { intros p Hp. unfold W. rewrite vat_col by lia. now apply Hwpos. }
  assert (HWs : sum_n P W = 1%R).
  { rewrite <- (Hwsum j Hj). unfold accu, W. now rewrite n_elem_col, Hw. }
  set (st := PosteriorASH.components e) in *.
  set (vinv := @closed_vinv R Rscalar (vat s_vec j) v).
  set (U1 := fun p => @closed_U1 R Rscalar vinv (vat U_vec p)).
  set (mu1 := fun p => @closed_mu1 R Rscalar (U1 p) vinv (vat b_vec j)
                                    (vat (PosteriorASH.s_alpha_vec e) j)).
  set (var := fun p => @closed_var R Rscalar (U1 p) (vat (PosteriorASH.s_alpha_vec e) j)).
  assert (Hvar : forall p, (p < P)%nat -> (0 <= var p)%R).
  { intros p Hp. apply closed_var_nonneg. apply closed_U1_nonneg; auto. }
  assert (E : forall p, (p < P)%nat ->
            mat_at (PosteriorASH.mu1_mat st) j p = mu1 p /\
            mat_at (PosteriorASH.mu2_mat st) j p = (mu1 p * mu1 p + var p)%R /\
            mat_at (PosteriorASH.zero_mat st) j p
            = (if @eqb R Rscalar (var p) 0%R then 1 else 0)%R /\
            mat_at (PosteriorASH.neg_mat st) j p
            = (if @eqb R Rscalar (var p) 0%R then 0%R
               else @pnorm1 R Rscalar (Rlibm erfc) (mu1 p) 0%R (sqrt (var p)) false true)).
  { intros p Hp. exact (Hcomp j p Hj Hp). }
  assert (Hpv : (0 <= vat (PosteriorASH.post_var (snd r)) j)%R).
  { rewrite M2.
    rewrite (sum_n_ext P _ (fun p => ((mu1 p * mu1 p + var p) * W p)%R))
      by (intros p Hp; cbv beta; now rewrite (proj1 (proj2 (E p Hp)))).
    rewrite (sum_n_ext P (fun p => _ (mat_at (PosteriorASH.mu1_mat st) j p) (W p))
                         (fun p => (mu1 p * W p)%R))
      by (intros p Hp; cbv beta; now rewrite (proj1 (E p Hp))).
    exact (mix_variance_nonneg P W HWn HWs mu1 var Hvar). }
  split; [exact Hpv |].
  split; [| split].
  - rewrite M3.
    rewrite (sum_n_ext P _ (fun p => ((if @eqb R Rscalar (var p) 0%R then 0%R
               else @pnorm1 R Rscalar (Rlibm erfc) (mu1 p) 0%R (sqrt (var p)) false true)
               * W p)%R))
      by (intros p Hp; cbv beta; now rewrite (proj2 (proj2 (proj2 (E p Hp))))).
    apply (mix_unit_range P W HWn HWs). intros p Hp. cbv beta.
    destruct (@eqb R Rscalar (var p) 0%R); [lra | now apply pnorm1_range].
  - rewrite M4.
    rewrite (sum_n_ext P _ (fun p => ((if @eqb R Rscalar (var p) 0%R then 1 else 0) * W p)%R))
      by (intros p Hp; cbv beta; now rewrite (proj1 (proj2 (proj2 (E p Hp))))).
    apply (mix_unit_range P W HWn HWs). intros p Hp. cbv beta.
    destruct (@eqb R Rscalar (var p) 0%R); lra.
  - unfold PosteriorASH.PosteriorSD, PosteriorASH.PosteriorCov, vsqrt.
    destruct (Nat.lt_ge_cases j (n_elem (PosteriorASH.post_var (snd r)))) as [Hlt | Hge].
    + rewrite vat_vmap by exact Hlt. apply sqrt_sqrt. exact Hpv.
    + rewrite !vat_out by (rewrite ?n_elem_vmap; exact Hge).
      change (@zero R Rscalar) with 0%R. ring.
Qed.

(** The instance of X12 over the reals: one effect with [b = 1], [s = 1] and
    [v = 1], and two components, one of them of prior variance [0], with the
    weights [1/2] and [1/2]. *)
Lemma X12_witness_reals :
  let r := @PosteriorASH.compute_posterior R Rscalar (Rlibm erfc_like)
             (PosteriorASH.new [1%R] [1%R] [] 1%R [1%R; 0%R] (fun _ => 0%R))
             example_real_weights in
  fst r = 0%Z /\
  (0 <= vat (PosteriorASH.post_var (snd r)) 0)%R /\
  (0 <= vat (PosteriorASH.neg_prob (snd r)) 0 <= 1)%R /\
  (0 <= vat (PosteriorASH.zero_prob (snd r)) 0 <= 1)%R.
Proof.
  cbv zeta.
  assert (H := X12_ash_variance_and_probabilities_in_range
                 erfc_like [1%R] [1%R] [] [1%R; 0%R] 1%R (fun _ => 0%R) example_real_weights).
  cbv zeta in H.
  destruct H as (Hrc & Hent).
  - exact erfc_like_range.
  - reflexivity.
  - left. reflexivity.
  - exact Rlt_0_1.
  - intros j Hj. cbn in Hj. destruct j as [| j]; [| lia]. cbn. exact R1_neq_R0.
  - intros p Hp. cbn in Hp. destruct p as [| [| p]]; [| | lia]; cbn; lra.
  - reflexivity.
  - intros p j Hp Hj. cbn in Hp, Hj. destruct j as [| j]; [| lia].
    destruct p as [| [| p]]; [| | lia]; cbn; lra.
  - intros j Hj. cbn in Hj. destruct j as [| j]; [| lia]. cbn. lra.
  - split; [exact Hrc |].
    destruct (Hent 0%nat (Nat.lt_0_succ 0)) as (H1 & H2 & H3 & _).
    exact (conj H1 (conj H2 H3)).
Defined.



(** X14.  The univariate [calc_lik] is the multivariate one with a single
    condition.  In exact arithmetic, with a [chol] and an [inv(trimatu(.))]
    that are exact on 1 x 1 matrices: for [J] effects [b_vec] with standard
    errors [s_vec], a residual variance [v] and prior variances [U_vec], take
    the multivariate [calc_lik] (without [common_cov]) on the 1 x J matrices
    of [b_vec] and [s_vec], the 1 x 1 matrix [v], no [l_mat] and the 1 x 1
    slices [U_vec(p)].  Where the variance [s_j^2 v + U_p] is positive its
    entry [(j, p)] is the entry of the univariate [calc_lik], with and
    without [logd].  Where the variance is not positive the factorisation
    fails and the entry is the point-mass value of the [catch] block, which
    the univariate function does not produce. *)
Theorem X14_univariate_likelihood_is_the_one_condition_case
        (erfc : R -> R) (DT : Datum R) (LA : Lapack R)
        (b_vec s_vec : vec R) (v : R) (U_vec : vec R) (logd : bool) (j p : nat) :
  chol_exact_1 LA -> inv_trimatu_exact_1 LA ->
  n_elem s_vec = n_elem b_vec -> (j < n_elem b_vec)%nat -> (p < n_elem U_vec)%nat ->
  let sigma2 := (vat s_vec j * vat s_vec j * v + vat U_vec p)%R in
  let multi := mat_at (@calc_lik R Rscalar (Rlibm erfc) DT LA
                         (row_mat b_vec) (row_mat s_vec) (Tiny.m1 v) empty_mat
                         (scalars_cube U_vec) logd false) j p in
  ((0 < sigma2)%R ->
   multi = mat_at (@calc_lik_uni R Rscalar (Rlibm erfc) b_vec s_vec v U_vec logd) j p) /\
  ((sigma2 <= 0)%R ->
   multi = @point_mass R Rscalar DT [vat b_vec j] (vzeros 1) logd).
Proof.
  intros Hchol Htri Hs Hj Hp sigma2 multi.
  destruct (one_condition_sigma s_vec U_vec v j p ltac:(lia) Hp) as (Hsq & H00).
  cbv zeta in Hsq, H00. fold sigma2 in H00.
  set (sigma := madd (get_cov (col (row_mat s_vec) j) (Tiny.m1 v) empty_mat)
                     (slice (scalars_cube U_vec) p)) in *.
  assert (Hx : col (row_mat b_vec) j = [vat b_vec j]).
  { unfold col, row_mat. cbn [n_rows mk_mat mk_vec tab map seq].
    now rewrite mat_at_mk_mat by lia. }
  assert (Em : multi = @dmvnorm R Rscalar (Rlibm erfc) DT LA [vat b_vec j] (vzeros 1)
                                sigma logd false).
  { unfold multi. rewrite calc_lik_general.
    rewrite mat_at_mk_mat
      by (unfold row_mat, scalars_cube, n_slices; cbn [n_cols mk_mat slices];
          rewrite ?length_tab; lia).
    now rewrite Hx. }
  split.
  - intros Hpos.
    destruct (dmvnorm_one erfc DT LA (vat b_vec j) sigma logd (proj1 Hchol) (proj1 Htri) Hsq)
      as (_ & Ed).
    { apply rooti_of_one; try assumption. now rewrite H00. }
    rewrite Em, Ed, H00.
    rewrite (calc_lik_uni_entry b_vec s_vec v U_vec logd j p Hs Hj Hp).
    reflexivity.
  - intros Hneg. rewrite Em. apply dmvnorm_caught. apply rooti_of_chol_fails.
    destruct (chol sigma) as [C |] eqn:EC; [| reflexivity].
    destruct (proj1 Hchol sigma C Hsq EC) as (_ & Cpos & Csq).
    rewrite H00 in Csq. exfalso. nra.
Qed.

(** The instance of X14 over the reals, with the closed-form factorisation:
    one effect [b = 1] with [s = 1] and [v = 1], and the prior variance 1. *)
Lemma X14_witness_reals :
  mat_at (@calc_lik R Rscalar (Rlibm erfc_like) (Rdatum 0%R) Tiny.lapack
            (row_mat [1%R]) (row_mat [1%R]) (Tiny.m1 1%R) empty_mat
            (scalars_cube [1%R]) true false) 0 0
  = mat_at (@calc_lik_uni R Rscalar (Rlibm erfc_like) [1%R] [1%R] 1%R [1%R] true) 0 0.
Proof.
  apply (proj1 (X14_univariate_likelihood_is_the_one_condition_case
                  erfc_like (Rdatum 0%R) Tiny.lapack [1%R] [1%R] 1%R [1%R] true 0 0
                  tiny_chol_exact_1 tiny_inv_trimatu_exact_1 eq_refl
                  (Nat.lt_0_succ 0) (Nat.lt_0_succ 0))).
  cbn. lra.
Defined.

(** X15.  The general multivariate engine with one condition is the
    univariate engine.  In exact arithmetic, with an [X.i()] and an
    [inv_sympd(X)] that return inverses of 1 x 1 matrices: build
    [PosteriorMASH] from the 1 x J matrices of [b_vec], [s_vec] and
    [s_alpha], the 1 x 1 matrix [v > 0], no [s_orig], [l_mat] or [a_mat], and
    the 1 x 1 slices [U_vec(p) >= 0].  Whenever its [compute_posterior]
    returns, under any report type, row 0 of [post_mean], [post_var],
    [neg_prob] and [zero_prob] holds what the [compute_posterior] of
    [PosteriorASH] on [b_vec], [s_vec], [s_alpha], [v] and [U_vec] leaves in
    the J entries of its four vectors, for the same posterior weights. *)
Theorem X15_one_condition_mash_is_ash
        (erfc : R -> R) (LA : Lapack R) (b_vec s_vec s_alpha U_vec : vec R) (v : R)
        (indet : nat -> R) (posterior_weights : mat R) (report_type rc : Z)
        (e' : PosteriorMASH.t R) :
  let J := n_elem b_vec in
  let P := n_elem U_vec in
  let em := PosteriorMASH.new (row_mat b_vec) (row_mat s_vec) (row_mat s_alpha) empty_mat
                              (Tiny.m1 v) empty_mat empty_mat (scalars_cube U_vec) in
  let a' := snd (@PosteriorASH.compute_posterior R Rscalar (Rlibm erfc)
                   (PosteriorASH.new b_vec s_vec s_alpha v U_vec indet)
                   posterior_weights) in
  inv_sound LA 1 -> inv_sympd_sound LA 1 ->
  n_elem s_vec = J -> n_elem s_alpha = 0%nat \/ n_elem s_alpha = J ->
  (0 < v)%R -> (forall p, (p < P)%nat -> (0 <= vat U_vec p)%R) ->
  @PosteriorMASH.compute_posterior R Rscalar (Rlibm erfc) LA em posterior_weights report_type
  = Some (rc, e') ->
  forall j, (j < J)%nat ->
    mat_at (PosteriorMASH.post_mean e') 0 j = vat (PosteriorASH.post_mean a') j /\
    mat_at (PosteriorMASH.post_var e') 0 j = vat (PosteriorASH.post_var a') j /\
    mat_at (PosteriorMASH.neg_prob e') 0 j = vat (PosteriorASH.neg_prob a') j /\
    mat_at (PosteriorMASH.zero_prob e') 0 j = vat (PosteriorASH.zero_prob a') j.
Proof.
  intros J P em a' Hinv Hsympd Hs Ha Hv HU E j Hj.
  set (ea := PosteriorASH.new b_vec s_vec s_alpha v U_vec indet) in *.
  assert (Hbuf : mash_buffers 1 J em) by (repeat split).
  destruct (@mash_compute_posterior_spec R Rscalar (Rlibm erfc) LA em e' posterior_weights
              report_type rc 1 J Hbuf E) as (_ & _ & _ & Hok & Hent & _).
  destruct (Hent 0%nat j (Nat.lt_0_succ 0) Hj) as (M1 & M2 & M3 & M4).
  cbv zeta in M1, M2, M3, M4.
  destruct (Hok j Hj) as (HV & HU0).
  set (V := mash_Vinv em j) in *.
  destruct (one_condition_Vinv LA b_vec s_vec s_alpha U_vec v indet Hsympd Hs Ha j V Hj HV)
    as (VS & V00 & Hsj).
  assert (Hsa := one_condition_alpha_length b_vec s_vec s_alpha U_vec v indet Ha).
  fold ea in Hsa.
  assert (Hb : forall f, n_elem (@mk_vec R J f) = J) by (intros; apply n_elem_mk_vec).
  destruct (@ash_compute_posterior_spec R Rscalar (Rlibm erfc) ea posterior_weights
              Hs Hsa (Hb _) (Hb _) (Hb _) (Hb _)) as (_ & Haent).
  destruct (Haent j Hj) as (A1 & A2 & A3 & A4). cbv zeta in A1, A2, A3, A4.
  fold a' in A1, A2, A3, A4.
  destruct (@ash_components_spec R Rscalar (Rlibm erfc) ea Hs Hsa) as (_ & Hcomp).
  change (n_elem (PosteriorASH.U_vec ea)) with P in *.
  assert (HP : n_slices (PosteriorMASH.U_cube em) = P)
    by (unfold em, PosteriorMASH.new, scalars_cube, n_slices; cbn; apply length_tab).
  unfold mash_mix in M1, M2, M3, M4. rewrite HP in *.
  set (al := vat (PosteriorASH.s_alpha_vec ea) j) in *.
  set (vinv := @closed_vinv R Rscalar (vat s_vec j) v) in *.
  assert (Hq : forall p, (p < P)%nat ->
            vat (mash_mu1 em V j p) 0
            = @closed_mu1 R Rscalar (closed_U1 vinv (vat U_vec p)) vinv (vat b_vec j) al /\
            vat (diag (mash_U1 em V j p)) 0
            = @closed_var R Rscalar (closed_U1 vinv (vat U_vec p)) al /\
            degenerate (mash_U1 em V j p) 0
            = (@closed_var R Rscalar (closed_U1 vinv (vat U_vec p)) al ==? zero)%num /\
            n_elem (diag (mash_U1 em V j p)) = 1%nat).
  { intros p Hp. specialize (HU0 p Hp).
    set (U0 := mash_U0 em V j p) in *.
    destruct (one_condition_U0 LA b_vec s_vec s_alpha U_vec v Hinv Hs Ha j p V U0 Hp VS HU0)
      as (US & U00).
    rewrite V00 in U00. fold vinv in U00.
    assert (Hm : vat (PosteriorMASH.mu1_of em V U0 j) 0
                 = @closed_mu1 R Rscalar (mat_at U0 0 0) (mat_at V 0 0) (vat b_vec j) al)
      by exact (one_condition_mu1 b_vec s_vec s_alpha U_vec v indet Hs Ha j V U0 Hj VS US).
    assert (HU1 : n_elem (diag (PosteriorMASH.U1_of em U0 j)) = 1%nat /\
                  vat (diag (PosteriorMASH.U1_of em U0 j)) 0
                  = @closed_var R Rscalar (mat_at U0 0 0) al)
      by exact (one_condition_U1 b_vec s_vec s_alpha U_vec v indet Hs Ha j U0 Hj US).
    destruct HU1 as (Hn & Hd).
    rewrite U00, V00 in Hm. rewrite U00 in Hd. fold vinv in Hm.
    unfold mash_mu1, mash_U1. fold U0.
    split; [exact Hm |]. split; [exact Hd |]. split; [| exact Hn].
    unfold degenerate, vsqrt. rewrite n_elem_vmap, Hn. cbn [Nat.ltb Nat.leb andb].
    rewrite vat_vmap by lia. rewrite Hd. apply Rsqrt_eqb.
    apply closed_var_nonneg. apply closed_U1_nonneg; auto. }
  rewrite M1, M2, M3, M4, A1, A2, A3, A4.
  assert (S1 : sum_n P (fun p => (vat (mash_mu1 em V j p) 0
                                 * vat (col posterior_weights j) p)%num)
               = sum_n P (fun p => (mat_at (PosteriorASH.mu1_mat
                                              (@PosteriorASH.components R Rscalar (Rlibm erfc) ea))
                                           j p * vat (col posterior_weights j) p)%num)).
  { apply sum_n_ext. intros p Hp. destruct (Hq p Hp) as (Q1 & _).
    destruct (Hcomp j p Hj Hp) as (C1 & _). cbv zeta in C1. now rewrite Q1, C1. }
  rewrite S1.
  split; [reflexivity |].
  split; [| split].
  - f_equal. apply sum_n_ext. intros p Hp. destruct (Hq p Hp) as (Q1 & Q2 & _).
    destruct (Hcomp j p Hj Hp) as (_ & C2 & _). cbv zeta in C2. now rewrite Q1, Q2, C2.
  - apply sum_n_ext. intros p Hp. destruct (Hq p Hp) as (Q1 & Q2 & Q3 & Qn).
    destruct (Hcomp j p Hj Hp) as (_ & _ & _ & C4). cbv zeta in C4.
    rewrite C4, Q3, Q1. unfold vsqrt. rewrite vat_vmap by (rewrite Qn; lia).
    now rewrite Q2.
  - apply sum_n_ext. intros p Hp. destruct (Hq p Hp) as (_ & _ & Q3 & _).
    destruct (Hcomp j p Hj Hp) as (_ & _ & C3 & _). cbv zeta in C3. now rewrite C3, Q3.
Qed.

(** The instance of X15 over the reals, with the closed-form inverses: one
    effect [b = 1] with [s = 1] and [v = 1], two components of prior variance
    1 and 0 with the weights 1/2 and 1/2.  The general engine returns. *)
Lemma X15_witness_reals :
  let em := PosteriorMASH.new (row_mat [1%R]) (row_mat [1%R]) (row_mat []) empty_mat
                              (Tiny.m1 1%R) empty_mat empty_mat (scalars_cube [1%R; 0%R]) in
  let a' := snd (@PosteriorASH.compute_posterior R Rscalar (Rlibm erfc_like)
                   (PosteriorASH.new [1%R] [1%R] [] 1%R [1%R; 0%R] (fun _ => 0%R))
                   example_real_weights) in
  match @PosteriorMASH.compute_posterior R Rscalar (Rlibm erfc_like) Tiny.lapack
          em example_real_weights 1%Z with
  | Some (_, e') =>
      mat_at (PosteriorMASH.post_mean e') 0 0 = vat (PosteriorASH.post_mean a') 0 /\
      mat_at (PosteriorMASH.post_var e') 0 0 = vat (PosteriorASH.post_var a') 0 /\
      mat_at (PosteriorMASH.neg_prob e') 0 0 = vat (PosteriorASH.neg_prob a') 0 /\
      mat_at (PosteriorMASH.zero_prob e') 0 0 = vat (PosteriorASH.zero_prob a') 0
  | None => False
  end.
Proof.
  cbv zeta.
  destruct (@PosteriorMASH.compute_posterior R Rscalar (Rlibm erfc_like) Tiny.lapack
              (PosteriorMASH.new (row_mat [1%R]) (row_mat [1%R]) (row_mat []) empty_mat
                                 (Tiny.m1 1%R) empty_mat empty_mat (scalars_cube [1%R; 0%R]))
              example_real_weights 1%Z) as [[rc e'] |] eqn:E.
  - apply (X15_one_condition_mash_is_ash
             erfc_like Tiny.lapack [1%R] [1%R] [] [1%R; 0%R] 1%R (fun _ => 0%R)
             example_real_weights 1%Z rc e'
             tiny_inv_sound_1 tiny_inv_sympd_sound_1 eq_refl (or_introl eq_refl) Rlt_0_1).
    + intros p Hp. cbn in Hp. destruct p as [| [| p]]; [| | lia]; cbn; lra.
    + exact E.
    + apply Nat.lt_0_succ.
  - change (PosteriorMASH.new (row_mat [1%R]) (row_mat [1%R]) (row_mat []) empty_mat
                              (Tiny.m1 1%R) empty_mat empty_mat (scalars_cube [1%R; 0%R]))
      with example_real_engine in E.
    destruct (example_real_returns (Rlibm erfc_like) 1%Z) as (rc & e' & E').
    rewrite E' in E. discriminate E.
Defined.

(** X16.  The effects are processed independently.  Take two freshly
    constructed general engines with the same [v_mat], [l_mat], [a_mat] and
    [U_cube] and as many conditions, and an effect [j] on which they agree:
    the same column [j] of [b_mat], of [s_obj.get_original()], of
    [s_obj.get()] and of the (P-row) posterior weights.  Whatever the other
    effects are, and however many there are, when both calls of
    [compute_posterior] return they leave the same column [j] in
    [post_mean], [post_var], [neg_prob] and [zero_prob] and the same slice
    [j] in [post_cov]. *)
Theorem X16_effects_are_independent
        {num : Type} {SC : Scalar num} {LM : Libm num} {LA : Lapack num}
        (b1 b2 s1 s2 sa1 sa2 so1 so2 v_mat l_mat a_mat : mat num) (U_cube : cube num)
        (w1 w2 : mat num) (report_type rc1 rc2 : Z) (e1' e2' : PosteriorMASH.t num)
        (j : nat) :
  let e1 := PosteriorMASH.new b1 s1 sa1 so1 v_mat l_mat a_mat U_cube in
  let e2 := PosteriorMASH.new b2 s2 sa2 so2 v_mat l_mat a_mat U_cube in
  let Q := if mat_is_empty a_mat then n_rows b1 else n_rows a_mat in
  n_rows b1 = n_rows b2 -> (j < n_cols b1)%nat -> (j < n_cols b2)%nat ->
  col b1 j = col b2 j ->
  col (SE.get_original (PosteriorMASH.s_obj e1)) j
  = col (SE.get_original (PosteriorMASH.s_obj e2)) j ->
  col (SE.get (PosteriorMASH.s_obj e1)) j = col (SE.get (PosteriorMASH.s_obj e2)) j ->
  n_rows w1 = n_slices U_cube -> n_rows w2 = n_slices U_cube ->
  col w1 j = col w2 j ->
  PosteriorMASH.compute_posterior e1 w1 report_type = Some (rc1, e1') ->
  PosteriorMASH.compute_posterior e2 w2 report_type = Some (rc2, e2') ->
  (forall r, (r < Q)%nat ->
     mat_at (PosteriorMASH.post_mean e1') r j = mat_at (PosteriorMASH.post_mean e2') r j /\
     mat_at (PosteriorMASH.post_var e1') r j = mat_at (PosteriorMASH.post_var e2') r j /\
     mat_at (PosteriorMASH.neg_prob e1') r j = mat_at (PosteriorMASH.neg_prob e2') r j /\
     mat_at (PosteriorMASH.zero_prob e1') r j = mat_at (PosteriorMASH.zero_prob e2') r j) /\
  slice (PosteriorMASH.post_cov e1') j = slice (PosteriorMASH.post_cov e2') j.
Proof.
  intros e1 e2 Q Hrows Hj1 Hj2 Hb Ho Ha Hw1 Hw2 Hw E1 E2.
  assert (HQ1 : (if negb (mat_is_empty a_mat) then n_rows a_mat else n_rows b1) = Q)
    by (unfold Q; now destruct (mat_is_empty a_mat)).
  assert (HQ2 : (if negb (mat_is_empty a_mat) then n_rows a_mat else n_rows b2) = Q)
    by (unfold Q; rewrite <- Hrows; now destruct (mat_is_empty a_mat)).
  assert (Hbuf1 : mash_buffers Q (n_cols b1) e1).
  { unfold mash_buffers, e1, PosteriorMASH.new.
    cbn [PosteriorMASH.post_mean PosteriorMASH.post_var PosteriorMASH.neg_prob
         PosteriorMASH.zero_prob].
    rewrite HQ1. unfold zeros. cbn [n_rows n_cols mk_mat]. repeat split. }
  assert (Hbuf2 : mash_buffers Q (n_cols b2) e2).
  { unfold mash_buffers, e2, PosteriorMASH.new.
    cbn [PosteriorMASH.post_mean PosteriorMASH.post_var PosteriorMASH.neg_prob
         PosteriorMASH.zero_prob].
    rewrite HQ2. unfold zeros. cbn [n_rows n_cols mk_mat]. repeat split. }
  destruct (mash_compute_posterior_spec e1 e1' w1 report_type rc1 Q (n_cols b1) Hbuf1 E1)
    as (_ & _ & _ & _ & Hent1 & Hcov1).
  destruct (mash_compute_posterior_spec e2 e2' w2 report_type rc2 Q (n_cols b2) Hbuf2 E2)
    as (_ & _ & _ & _ & Hent2 & Hcov2).
  assert (EV : mash_Vinv e2 j = mash_Vinv e1 j).
  { unfold mash_Vinv, PosteriorMASH.Vinv_of. now rewrite Ho. }
  assert (EU0 : forall V p, mash_U0 e2 V j p = mash_U0 e1 V j p) by reflexivity.
  assert (Em : forall V p, mash_mu1 e2 V j p = mash_mu1 e1 V j p).
  { intros V p. unfold mash_mu1, PosteriorMASH.mu1_of. rewrite EU0, Ha.
    change (PosteriorMASH.b_mat e2) with b2. change (PosteriorMASH.b_mat e1) with b1.
    now rewrite Hb. }
  assert (EU1 : forall V p, mash_U1 e2 V j p = mash_U1 e1 V j p).
  { intros V p. unfold mash_U1, PosteriorMASH.U1_of. now rewrite EU0, Ha. }
  assert (Emix : forall f, mash_mix e2 w2 j f = mash_mix e1 w1 j f).
  { intros f. unfold mash_mix. now rewrite Hw. }
  split.
  - intros r Hr.
    destruct (Hent1 r j Hr Hj1) as (M1 & M2 & M3 & M4).
    destruct (Hent2 r j Hr Hj2) as (N1 & N2 & N3 & N4).
    cbv zeta in M1, M2, M3, M4, N1, N2, N3, N4.
    rewrite M1, M2, M3, M4, N1, N2, N3, N4. rewrite EV.
    assert (S1 : mash_mix e1 w1 j (fun p => vat (mash_mu1 e1 (mash_Vinv e1 j) j p) r)
                 = mash_mix e2 w2 j (fun p => vat (mash_mu1 e2 (mash_Vinv e1 j) j p) r)).
    { rewrite Emix. unfold mash_mix. apply sum_n_ext. intros p Hp. now rewrite Em. }
    rewrite S1.
    split; [reflexivity |].
    split; [| split].
    + f_equal. rewrite Emix. unfold mash_mix. apply sum_n_ext. intros p Hp.
      now rewrite Em, EU1.
    + rewrite Emix. unfold mash_mix. apply sum_n_ext. intros p Hp. now rewrite Em, EU1.
    + rewrite Emix. unfold mash_mix. apply sum_n_ext. intros p Hp. now rewrite EU1.
  - assert (Hs1 : n_slices (PosteriorMASH.post_cov e1) = n_cols b1)
      by (unfold e1, PosteriorMASH.new; cbn [PosteriorMASH.post_cov];
          apply n_slices_czeros).
    assert (Hs2 : n_slices (PosteriorMASH.post_cov e2) = n_cols b2)
      by (unfold e2, PosteriorMASH.new; cbn [PosteriorMASH.post_cov];
          apply n_slices_czeros).
    assert (Hz : slice (PosteriorMASH.post_cov e2) j = slice (PosteriorMASH.post_cov e1) j).
    { unfold e1, e2, PosteriorMASH.new. cbn [PosteriorMASH.post_cov].
      rewrite HQ1, HQ2. now rewrite !slice_czeros. }
    destruct (cov_gate report_type).
    + destruct Hcov1 as (_ & Hsl1). destruct Hcov2 as (_ & Hsl2).
      rewrite (Hsl1 j) by (rewrite Hs1; exact Hj1).
      rewrite (Hsl2 j) by (rewrite Hs2; exact Hj2).
      replace (j <? n_cols b1)%nat with true by (symmetry; now apply Nat.ltb_lt).
      replace (j <? n_cols b2)%nat with true by (symmetry; now apply Nat.ltb_lt).
      unfold mash_post_cov_slice. cbv zeta. rewrite EV, Hz.
      assert (Hmom : forall p, (p < n_slices U_cube)%nat ->
                mash_moment e2 w2 (mash_Vinv e1 j) j p
                = mash_moment e1 w1 (mash_Vinv e1 j) j p).
      { intros p Hp. unfold mash_moment, mash_mu1_col. rewrite Em, EU1.
        replace (mat_at w2 p j) with (mat_at w1 p j)
          by (rewrite <- (vat_col w1 j p), <- (vat_col w2 j p) by lia; now rewrite Hw).
        destruct Hbuf1 as ((-> & _) & _). now destruct Hbuf2 as ((-> & _) & _). }
      change (n_slices (PosteriorMASH.U_cube e2)) with (n_slices U_cube).
      change (n_slices (PosteriorMASH.U_cube e1)) with (n_slices U_cube).
      rewrite (maccum_ext _ _ _ _ Hmom).
      destruct (report_type =? 4)%Z; [| reflexivity].
      assert (Hpm : mash_post_mean_col e2 w2 j = mash_post_mean_col e1 w1 j).
      { unfold mash_post_mean_col. rewrite EV, Hw.
        destruct Hbuf1 as ((-> & _) & _). destruct Hbuf2 as ((-> & _) & _).
        apply mk_vec_ext. intros r Hr.
        change (n_slices (PosteriorMASH.U_cube e2)) with (n_slices U_cube).
        change (n_slices (PosteriorMASH.U_cube e1)) with (n_slices U_cube).
        apply sum_n_ext. intros p Hp. now rewrite Em. }
      now rewrite Hpm.
    + now rewrite Hcov1, Hcov2.
Qed.

(** The instance of X16 at binary64: an engine with the one effect
    [b = 1, s = 2] and an engine with a second effect [b = 2, s = 3] beside
    it; both return, and effect 0 comes out the same. *)
Lemma X16_witness_binary64 :
  let U := Cube 1 1 [Tiny.m1 1%float; Tiny.m1 0%float] in
  let e1 := @PosteriorMASH.new float binary64
              (Mat 1 1 [[1%float]]) (Mat 1 1 [[2%float]])
              empty_mat empty_mat (Tiny.m1 1%float) empty_mat empty_mat U in
  let e2 := @PosteriorMASH.new float binary64
              (Mat 1 2 [[1%float]; [2%float]]) (Mat 1 2 [[2%float]; [3%float]])
              empty_mat empty_mat (Tiny.m1 1%float) empty_mat empty_mat U in
  let w1 := Mat 2 1 [[0.5%float; 0.5%float]] in
  let w2 := Mat 2 2 [[0.5%float; 0.5%float]; [0.25%float; 0.75%float]] in
  match @PosteriorMASH.compute_posterior float binary64 float_libm Tiny.lapack e1 w1 4%Z,
        @PosteriorMASH.compute_posterior float binary64 float_libm Tiny.lapack e2 w2 4%Z
  with
  | Some (_, e1'), Some (_, e2') =>
      mat_at (PosteriorMASH.post_mean e1') 0 0 = mat_at (PosteriorMASH.post_mean e2') 0 0 /\
      mat_at (PosteriorMASH.post_var e1') 0 0 = mat_at (PosteriorMASH.post_var e2') 0 0 /\
      slice (PosteriorMASH.post_cov e1') 0 = slice (PosteriorMASH.post_cov e2') 0
  | _, _ => False
  end.
Proof.
  cbv zeta.
  set (U := Cube 1 1 [Tiny.m1 1%float; Tiny.m1 0%float]).
  set (w1 := Mat 2 1 [[0.5%float; 0.5%float]]).
  set (w2 := Mat 2 2 [[0.5%float; 0.5%float]; [0.25%float; 0.75%float]]).
  destruct (@PosteriorMASH.compute_posterior float binary64 float_libm Tiny.lapack
              (PosteriorMASH.new (Mat 1 1 [[1%float]]) (Mat 1 1 [[2%float]])
                                 empty_mat empty_mat (Tiny.m1 1%float) empty_mat empty_mat U)
              w1 4%Z) as [[rc1 e1'] |] eqn:E1; [| vm_compute in E1; discriminate E1].
  destruct (@PosteriorMASH.compute_posterior float binary64 float_libm Tiny.lapack
              (PosteriorMASH.new (Mat 1 2 [[1%float]; [2%float]])
                                 (Mat 1 2 [[2%float]; [3%float]])
                                 empty_mat empty_mat (Tiny.m1 1%float) empty_mat empty_mat U)
              w2 4%Z) as [[rc2 e2'] |] eqn:E2; [| vm_compute in E2; discriminate E2].
  destruct (@X16_effects_are_independent float binary64 float_libm Tiny.lapack
              (Mat 1 1 [[1%float]]) (Mat 1 2 [[1%float]; [2%float]])
              (Mat 1 1 [[2%float]]) (Mat 1 2 [[2%float]; [3%float]])
              empty_mat empty_mat empty_mat empty_mat
              (Tiny.m1 1%float) empty_mat empty_mat U w1 w2 4%Z rc1 rc2 e1' e2' 0%nat
              eq_refl (Nat.lt_0_succ 0) (Nat.lt_0_succ 1) eq_refl eq_refl eq_refl
              eq_refl eq_refl eq_refl E1 E2) as (Hent & Hcov).
  destruct (Hent 0%nat (Nat.lt_0_succ 0)) as (H1 & H2 & _).
  exact (conj H1 (conj H2 Hcov)).
Defined.

(** X17.  [pnorm] with [lower_tail = true] returns
    [0.5 * erfc((x - m) / s / sqrt(2))], which is the upper tail of the
    normal distribution with mean [m] and standard deviation [s] at [x]: in
    exact arithmetic, for an [erfc] that decreases and has [erfc(0) = 1], and
    for [s > 0], the value with [lower_tail = true] does not increase when
    [x] increases and is 1/2 at [x = m]; the value with [lower_tail = false]
    does not decrease; the two sum to 1; and [logd] gives the logarithm.  The
    engines call it with [x] the posterior mean and [m = 0], so that the
    negative probability of a component falls as its mean rises. *)
Theorem X17_pnorm_lower_tail_decreases
        (erfc : R -> R) (x y m s : vec R) (i : nat) :
  (forall a b, (a <= b)%R -> (erfc b <= erfc a)%R) -> erfc 0%R = 1%R ->
  (i < n_elem m)%nat -> (0 < vat s i)%R -> (vat x i <= vat y i)%R ->
  let pn := @pnorm R Rscalar (Rlibm erfc) in
  (vat (pn y m s false true) i <= vat (pn x m s false true) i)%R /\
  (vat (pn x m s false false) i <= vat (pn y m s false false) i)%R /\
  (vat (pn x m s false true) i + vat (pn x m s false false) i = 1)%R /\
  (vat x i = vat m i -> vat (pn x m s false true) i = (1 / 2)%R) /\
  vat (pn x m s true true) i = ln (vat (pn x m s false true) i) /\
  vat (pn x m s true false) i = ln (vat (pn x m s false false) i).
Proof.
  intros Hdec H0 Hi Hs Hxy pn. unfold pn, pnorm.
  rewrite !vat_mk_vec by exact Hi.
  unfold pnorm1, pnorm_tail. cbn [negb andb ferfc flog Rlibm].
  change (@half R Rscalar) with (/ 2)%R. change (@mul R Rscalar) with Rmult.
  change (@sub R Rscalar) with Rminus. change (@div R Rscalar) with Rdiv.
  change (@one R Rscalar) with 1%R. change (@m_sqrt1_2 R Rscalar) with (/ sqrt 2)%R.
  assert (Hq : (0 < / sqrt 2)%R)
    by (apply Rinv_0_lt_compat, sqrt_lt_R0; lra).
  assert (Hsi : (0 < / vat s i)%R) by now apply Rinv_0_lt_compat.
  assert (Harg : ((vat x i - vat m i) / vat s i * / sqrt 2
                  <= (vat y i - vat m i) / vat s i * / sqrt 2)%R).
  { apply Rmult_le_compat_r; [lra |]. unfold Rdiv.
    apply Rmult_le_compat_r; lra. }
  pose proof (Hdec _ _ Harg) as He.
  split; [lra |]. split; [lra |]. split; [lra |].
  split; [| split; reflexivity].
  intros E. rewrite E.
  replace ((vat m i - vat m i) / vat s i * / sqrt 2)%R with 0%R
    by (unfold Rdiv, Rminus; rewrite Rplus_opp_r; ring).
  rewrite H0. lra.
Qed.

(** [erfc_like], as the complementary error function, decreases. *)
Lemma erfc_like_decreases (a b : R) : (a <= b)%R -> (erfc_like b <= erfc_like a)%R.
Proof.
  intros Hab. unfold erfc_like.
  destruct (Rle_dec 0 a) as [Ha | Ha], (Rle_dec 0 b) as [Hb | Hb]; try lra.
  - apply Rinv_le_contravar; lra.
  - assert (H1 : (0 < / (1 + b) <= 1)%R).
    { split; [apply Rinv_0_lt_compat; lra |].
      rewrite <- Rinv_1 at 2. apply Rinv_le_contravar; lra. }
    assert (H2 : (0 < / (1 - a) <= 1)%R).
    { split; [apply Rinv_0_lt_compat; lra |].
      rewrite <- Rinv_1 at 2. apply Rinv_le_contravar; lra. }
    lra.
  - assert (H : (/ (1 - a) <= / (1 - b))%R) by (apply Rinv_le_contravar; lra). lra.
Qed.

(** The instance of X17 over the reals: means 1 and 2 against [m = 0] and
    [s = 1]. *)
Lemma X17_witness_reals :
  (vat (@pnorm R Rscalar (Rlibm erfc_like) [2%R] [0%R] [1%R] false true) 0
   <= vat (@pnorm R Rscalar (Rlibm erfc_like) [1%R] [0%R] [1%R] false true) 0)%R.
Proof.
  apply (X17_pnorm_lower_tail_decreases erfc_like [1%R] [2%R] [0%R] [1%R] 0
           erfc_like_decreases).
  - unfold erfc_like. destruct (Rle_dec 0 0) as [H | H]; [| lra].
    rewrite Rplus_0_r. apply Rinv_1.
  - apply Nat.lt_0_succ.
  - cbn. lra.
  - cbn. lra.
Defined.

(** X18.  [compute_posterior_comcov] adds to all of its outputs, where
    [compute_posterior] overwrites four of them.  On a freshly constructed
    engine (prior covariances with as many rows as [b_mat]) a first call
    that returns leaves in entry [(r, j)] of [post_mean], [neg_prob] and
    [zero_prob] the sums over the components of the weighted terms, and in
    [post_var] the sum less the squared mean.  A second call on the engine
    the first one left does not recompute them: it adds the same terms to
    what the entries hold, so that [post_mean], [neg_prob] and [zero_prob]
    get the terms twice, and [post_var] becomes the first posterior variance
    plus the terms less the square of the new [post_mean]. *)
Theorem X18_comcov_adds_to_all_outputs
        {num : Type} {SC : Scalar num} {LM : Libm num} {LA : Lapack num}
        (b_mat s_mat s_alpha_mat s_orig_mat v_mat l_mat a_mat : mat num) (U_cube : cube num)
        (w : mat num) (report_type rc1 rc2 : Z) (e1 e2 : PosteriorMASH.t num) :
  let e := PosteriorMASH.new b_mat s_mat s_alpha_mat s_orig_mat v_mat l_mat a_mat U_cube in
  let J := n_cols b_mat in
  let P := n_slices U_cube in
  let Q := if mat_is_empty a_mat then n_rows b_mat else n_rows a_mat in
  (forall p, (p < P)%nat -> n_rows (slice U_cube p) = n_rows b_mat) ->
  PosteriorMASH.compute_posterior_comcov e w report_type = Some (rc1, e1) ->
  PosteriorMASH.compute_posterior_comcov e1 w report_type = Some (rc2, e2) ->
  forall r j, (r < Q)%nat -> (j < J)%nat ->
    let t1 := fun p => term1 (comcov_terms e w r j p) in
    let t2 := fun p => term2 (comcov_terms e w r j p) in
    let t3 := fun p => term3 (comcov_terms e w r j p) in
    let t4 := fun p => term4 (comcov_terms e w r j p) in
    (mat_at (PosteriorMASH.post_mean e1) r j = sum_n P t1 /\
     mat_at (PosteriorMASH.post_var e1) r j
     = (sum_n P t2 - sum_n P t1 * sum_n P t1)%num /\
     mat_at (PosteriorMASH.neg_prob e1) r j = sum_n P t3 /\
     mat_at (PosteriorMASH.zero_prob e1) r j = sum_n P t4) /\
    (mat_at (PosteriorMASH.post_mean e2) r j = accum P t1 (sum_n P t1) /\
     mat_at (PosteriorMASH.post_var e2) r j
     = (accum P t2 (mat_at (PosteriorMASH.post_var e1) r j)
        - mat_at (PosteriorMASH.post_mean e2) r j
          * mat_at (PosteriorMASH.post_mean e2) r j)%num /\
     mat_at (PosteriorMASH.neg_prob e2) r j = accum P t3 (sum_n P t3) /\
     mat_at (PosteriorMASH.zero_prob e2) r j = accum P t4 (sum_n P t4)).
Proof.
  intros e J P Q HU E1 E2 r j Hr Hj.
  assert (HQ : (if negb (mat_is_empty a_mat) then n_rows a_mat else n_rows b_mat) = Q)
    by (unfold Q; now destruct (mat_is_empty a_mat)).
  assert (Hbuf : mash_buffers Q J e).
  { unfold mash_buffers, e, PosteriorMASH.new.
    cbn [PosteriorMASH.post_mean PosteriorMASH.post_var PosteriorMASH.neg_prob
         PosteriorMASH.zero_prob].
    rewrite HQ. unfold zeros. cbn [n_rows n_cols mk_mat]. repeat split. }
  destruct (mash_comcov_spec e e1 w report_type rc1 E1) as (_ & Hin & _ & HU0 & _).
  assert (Hshape : forall p, (p < n_slices (PosteriorMASH.U_cube e))%nat ->
            n_rows (comcov_mu1 e (comcov_Vinv e) p) = Q /\
            n_cols (comcov_mu1 e (comcov_Vinv e) p) = J).
  { intros p Hp. apply comcov_mu1_shape; [reflexivity | |].
    - rewrite (HU0 p Hp). discriminate.
    - change (PosteriorMASH.a_mat e) with a_mat.
      change (PosteriorMASH.U_cube e) with U_cube. unfold Q.
      destruct (mat_is_empty a_mat); [now apply HU | reflexivity]. }
  destruct (comcov_four_spec e e1 w report_type rc1 Q J Hbuf Hshape E1) as (Hbuf1 & Hent1).
  assert (HP1 : n_slices (PosteriorMASH.U_cube e1) = P) by (now destruct Hin as (_ & _ & _ & _ & _ & -> & _)).
  assert (Hshape1 : forall p, (p < n_slices (PosteriorMASH.U_cube e1))%nat ->
            n_rows (comcov_mu1 e1 (comcov_Vinv e1) p) = Q /\
            n_cols (comcov_mu1 e1 (comcov_Vinv e1) p) = J).
  { intros p Hp. rewrite HP1 in Hp.
    destruct (comcov_terms_same_inputs e e1 w r j p Hin) as (_ & _ & ->).
    now apply Hshape. }
  destruct (comcov_four_spec e1 e2 w report_type rc2 Q J Hbuf1 Hshape1 E2) as (_ & Hent2).
  destruct (Hent1 r j Hr Hj) as (M1 & M2 & M3 & M4).
  destruct (Hent2 r j Hr Hj) as (N1 & N2 & N3 & N4).
  cbv zeta in M1, M2, M3, M4, N1, N2, N3, N4. cbv zeta.
  change (n_slices (PosteriorMASH.U_cube e)) with P in *. rewrite HP1 in *.
  assert (Z0 : forall (f : PosteriorMASH.t num -> mat num),
            f e = zeros Q J -> mat_at (f e) r j = zero).
  { intros f ->. unfold zeros. now rewrite mat_at_mk_mat. }
  assert (Ze : PosteriorMASH.post_mean e = zeros Q J /\ PosteriorMASH.post_var e = zeros Q J /\
               PosteriorMASH.neg_prob e = zeros Q J /\ PosteriorMASH.zero_prob e = zeros Q J).
  { unfold e, PosteriorMASH.new.
    cbn [PosteriorMASH.post_mean PosteriorMASH.post_var PosteriorMASH.neg_prob
         PosteriorMASH.zero_prob]. rewrite HQ. repeat split. }
  destruct Ze as (Z1 & Z2 & Z3 & Z4).
  rewrite (Z0 _ Z1) in M1, M2. rewrite (Z0 _ Z2) in M2.
  rewrite (Z0 _ Z3) in M3. rewrite (Z0 _ Z4) in M4.
  rewrite accum_zero in M1. rewrite !accum_zero in M2.
  rewrite accum_zero in M3. rewrite accum_zero in M4.
  assert (T : forall p, comcov_terms e1 w r j p = comcov_terms e w r j p)
    by (intros p; exact (proj1 (comcov_terms_same_inputs e e1 w r j p Hin))).
  assert (A : forall (g : num * num * num * num -> num) a,
            accum P (fun p => g (comcov_terms e1 w r j p)) a
            = accum P (fun p => g (comcov_terms e w r j p)) a).
  { intros g a. apply accum_ext. intros p _. now rewrite T. }
  rewrite A in N1. rewrite !A in N2. rewrite A in N3. rewrite A in N4.
  split; [repeat split; assumption |].
  rewrite N1, N2, N3, N4, M1, M3, M4. repeat split.
Qed.

(** The instance of X18 at binary64: the engine of two effects with the same
    standard error, called twice with [report_type = 1].  The posterior mean
    of effect 0 is the double nearest to 0.1 after the first call and the
    double nearest to 0.2 after the second. *)
Lemma X18_witness_binary64 :
  let e := @PosteriorMASH.new float binary64
             (Mat 1 2 [[1%float]; [2%float]]) (Mat 1 2 [[2%float]; [2%float]])
             empty_mat empty_mat (Tiny.m1 1%float) empty_mat empty_mat
             (Cube 1 1 [Tiny.m1 1%float; Tiny.m1 0%float]) in
  let w := Mat 2 2 [[0.5%float; 0.5%float]; [0.25%float; 0.75%float]] in
  match @PosteriorMASH.compute_posterior_comcov float binary64 float_libm Tiny.lapack
          e w 1%Z with
  | Some (_, e1) =>
      match @PosteriorMASH.compute_posterior_comcov float binary64 float_libm Tiny.lapack
              e1 w 1%Z with
      | Some (_, e2) =>
          mat_at (PosteriorMASH.post_mean e2) 0 0
          = accum 2 (fun p => term1 (@comcov_terms float binary64 float_libm Tiny.lapack
                                       e w 0 0 p))
                  (mat_at (PosteriorMASH.post_mean e1) 0 0) /\
          mat_at (PosteriorMASH.post_mean e1) 0 0 = 0x1.999999999999ap-4%float /\
          mat_at (PosteriorMASH.post_mean e2) 0 0 = 0x1.999999999999ap-3%float
      | None => False
      end
  | None => False
  end.
Proof.
  cbv zeta.
  set (e := @PosteriorMASH.new float binary64
              (Mat 1 2 [[1%float]; [2%float]]) (Mat 1 2 [[2%float]; [2%float]])
              empty_mat empty_mat (Tiny.m1 1%float) empty_mat empty_mat
              (Cube 1 1 [Tiny.m1 1%float; Tiny.m1 0%float])).
  set (w := Mat 2 2 [[0.5%float; 0.5%float]; [0.25%float; 0.75%float]]).
  destruct (@PosteriorMASH.compute_posterior_comcov float binary64 float_libm Tiny.lapack
              e w 1%Z) as [[rc1 e1] |] eqn:E1; [| vm_compute in E1; discriminate E1].
  destruct (@PosteriorMASH.compute_posterior_comcov float binary64 float_libm Tiny.lapack
              e1 w 1%Z) as [[rc2 e2] |] eqn:E2.
  - assert (HU : forall p, (p < 2)%nat ->
              n_rows (slice (Cube 1 1 [Tiny.m1 1%float; Tiny.m1 0%float]) p) = 1%nat).
    { intros p Hp. destruct p as [| [| p]]; [reflexivity | reflexivity | lia]. }
    destruct (@X18_comcov_adds_to_all_outputs float binary64 float_libm Tiny.lapack
                (Mat 1 2 [[1%float]; [2%float]]) (Mat 1 2 [[2%float]; [2%float]])
                empty_mat empty_mat (Tiny.m1 1%float) empty_mat empty_mat
                (Cube 1 1 [Tiny.m1 1%float; Tiny.m1 0%float]) w 1%Z rc1 rc2 e1 e2
                HU E1 E2 0%nat 0%nat (Nat.lt_0_succ 0) (Nat.lt_0_succ 1))
      as ((M1 & _) & (N1 & _)).
    split; [rewrite N1, M1; reflexivity |].
    vm_compute in E1. injection E1 as _ <-.
    split; [reflexivity |].
    vm_compute in E2. injection E2 as _ <-. reflexivity.
  - vm_compute in E1. injection E1 as _ <-. vm_compute in E2. discriminate E2.
Defined.
